(** * AlgoLab: the simulation engines of the OS-algorithm lab, embedded in Rocq

    The JavaScript engines (page replacement, disk scheduling, memory fit,
    Banker's algorithm, CPU scheduling) are translated function by function.
    JavaScript numbers are modelled as integers ([Z]): the model follows the
    engines on whole-number input.  There the arithmetic of JavaScript's
    binary64 numbers is exact as long as no value exceeds [MAX_SAFE_INTEGER]
    in magnitude; a statement that depends on the value of a sum or of a
    difference is stated for such input.  Where a statement fails on
    fractional input, the engine is also given on binary64 numbers ([float]).
    Array positions and counters are [nat]; [null] is [None]; arrays are lists
    read with [!!] and written with [<[i:=x]>].  A [while] loop whose exit is
    not structural takes a fuel argument that bounds its number of
    iterations. *)

From Stdlib Require Import ZArith Lia.
From Corelib Require PrimFloat.
From stdpp Require Import base list sets sorting strings pretty.

(** ** Results of effectful code *)

(** A call either returns a value, throws, or is still looping when the fuel
    that bounds its [while] loops is exhausted. *)
Inductive res (A : Type) : Type :=
| Ret (a : A)
| Raise (e : string)
| OutOfFuel.
Arguments Ret {A} a.
Arguments Raise {A} e.
Arguments OutOfFuel {A}.

#[global] Instance res_ret : MRet res := @Ret.
#[global] Instance res_bind : MBind res := λ A B f m,
  match m with
  | Ret a => f a
  | Raise e => Raise e
  | OutOfFuel => OutOfFuel
  end.

Definition TypeError : string := "TypeError: cannot read properties of undefined".

(** [Number.MAX_SAFE_INTEGER]: binary64 numbers hold every whole number up to
    it, and add and subtract such numbers without rounding while the result
    does not exceed it. *)
Definition MAX_SAFE_INTEGER : Z := 2 ^ 53 - 1.

(** [Array.prototype.indexOf]: the first position holding [x]. *)
Definition indexOf {A} `{EqDecision A} (l : list A) (x : A) : option nat :=
  fst <$> list_find (λ y, y = x) l.

(** [l.indexOf(x, start)]. *)
Definition indexOfFrom {A} `{EqDecision A} (l : list A) (x : A) (start : nat) : option nat :=
  (λ i, start + i) <$> indexOf (drop start l) x.

(** [l.forEach((x, i) => ...)] threading an accumulator. *)
Definition forEachi {A S} (f : S → A → nat → S) (l : list A) (s : S) : S :=
  fold_left (λ acc ix, f acc ix.2 ix.1) (zip (seq 0 (length l)) l) s.

(** [Array.prototype.sort] with a comparator: a stable sort; an element goes
    in front of the first later element it does not compare greater than. *)
Fixpoint sort_insert {A} (cmp : A → A → Z) (x : A) (l : list A) : list A :=
  match l with
  | [] => [x]
  | y :: l' => if (cmp x y <=? 0)%Z then x :: l else y :: sort_insert cmp x l'
  end.

Definition sort {A} (cmp : A → A → Z) (l : list A) : list A :=
  foldr (sort_insert cmp) [] l.

(** ** Page replacement (PageReplacement.js) *)

Module PageReplacement.

Inductive algorithm := fifo | lru | mru | clock | wsclock | opt.

Record frame_meta := { ref : Z; lastUsed : Z }.

Record snapshot := {
  index : nat;
  page : Z;
  frames : list (option Z);
  fault : bool;
  replacedIndex : Z
}.

Record result := {
  timeline : list snapshot;
  hits : nat;
  faults : nat;
  references : nat
}.

(** The local variables of [simulate] that the [forEach] callback mutates. *)
Record state := {
  s_frames : list (option Z);
  s_meta : list frame_meta;
  s_pointer : nat;
  s_hits : nat;
  s_faults : nat;
  s_timeline : list snapshot
}.

Definition defaultRef : list Z := [7; 0; 1; 2; 0; 3; 0; 4; 2; 3; 0; 3; 2]%Z.

Definition findFifo (frames : list (option Z)) (pointer : nat) : nat :=
  match indexOf frames None with
  | Some empty => empty
  | None => pointer
  end.

Definition findLRU (frames : list (option Z)) (meta : list frame_meta) : nat :=
  match indexOf frames None with
  | Some empty => empty
  | None =>
      snd (forEachi (λ '(oldest, idx) info i,
                       if (lastUsed info <? oldest)%Z || (i =? 0)
                       then (lastUsed info, i) else (oldest, idx))
                    meta (0%Z, 0))
  end.

(** [newest] starts at [-Infinity], modelled as [None]. *)
Definition findMRU (frames : list (option Z)) (meta : list frame_meta) : nat :=
  match indexOf frames None with
  | Some empty => empty
  | None =>
      snd (forEachi (λ '(newest, idx) info i,
                       match newest with
                       | None => (Some (lastUsed info), i)
                       | Some nw => if (nw <? lastUsed info)%Z
                                    then (Some (lastUsed info), i) else (newest, idx)
                       end)
                    meta (None, 0))
  end.

(** The hand's result: the victim, the next hand position, and the metadata
    array, which the search updates in place. *)
Record hand := { h_index : nat; nextPointer : nat; h_meta : list frame_meta }.

Fixpoint findClock (fuel : nat) (frames : list (option Z)) (meta : list frame_meta)
    (p : nat) : res hand :=
  match fuel with
  | O => OutOfFuel
  | S fuel' =>
      match frames !! p with
      | Some None =>
          Ret {| h_index := p; nextPointer := (p + 1) mod length frames; h_meta := meta |}
      | _ =>
          match meta !! p with
          | None => Raise TypeError
          | Some info =>
              if (ref info =? 0)%Z
              then Ret {| h_index := p; nextPointer := (p + 1) mod length frames;
                          h_meta := meta |}
              else findClock fuel' frames
                     (<[p := {| ref := 0; lastUsed := lastUsed info |}]> meta)
                     ((p + 1) mod length frames)
          end
      end
  end.

Definition tau : Z := 4.

Fixpoint findWSClock (fuel : nat) (frames : list (option Z)) (meta : list frame_meta)
    (p : nat) (currentTime : Z) : res hand :=
  match fuel with
  | O => OutOfFuel
  | S fuel' =>
      match frames !! p with
      | Some None =>
          Ret {| h_index := p; nextPointer := (p + 1) mod length frames; h_meta := meta |}
      | _ =>
          match meta !! p with
          | None => Raise TypeError
          | Some info =>
              if (ref info =? 1)%Z
              then findWSClock fuel' frames
                     (<[p := {| ref := 0; lastUsed := currentTime |}]> meta)
                     ((p + 1) mod length frames) currentTime
              else if (tau <? currentTime - lastUsed info)%Z
              then Ret {| h_index := p; nextPointer := (p + 1) mod length frames;
                          h_meta := meta |}
              else findWSClock fuel' frames meta ((p + 1) mod length frames) currentTime
          end
      end
  end.

(** [farthest] ranges over [-1], array positions and [Infinity]. *)
Inductive distance := Finite (z : Z) | Infinity.

Definition findOPT (frames : list (option Z)) (refs : list Z) (startIndex : nat) : nat :=
  match indexOf frames None with
  | Some empty => empty
  | None =>
      snd (forEachi (λ '(farthest, idx) pg i,
                       match pg ≫= (λ v, indexOfFrom refs v startIndex) with
                       | None => (Infinity, i)
                       | Some nextUse =>
                           match farthest with
                           | Finite f => if (f <? Z.of_nat nextUse)%Z
                                         then (Finite (Z.of_nat nextUse), i)
                                         else (farthest, idx)
                           | Infinity => (farthest, idx)
                           end
                       end)
                    frames (Finite (-1), 0))
  end.

(** The victim search of one fault: the victim, the pointer and the metadata
    it leaves behind. *)
Definition selectVictim (algorithm : algorithm) (fuel : nat) (refs : list Z)
    (index : nat) (st : state) : res hand :=
  let frames := s_frames st in
  let meta := s_meta st in
  let pointer := s_pointer st in
  let now := Z.of_nat (length (s_timeline st)) in
  match algorithm with
  | fifo =>
      let replacedIndex := findFifo frames pointer in
      Ret {| h_index := replacedIndex;
             nextPointer := (replacedIndex + 1) mod length frames; h_meta := meta |}
  | lru => Ret {| h_index := findLRU frames meta; nextPointer := pointer; h_meta := meta |}
  | mru => Ret {| h_index := findMRU frames meta; nextPointer := pointer; h_meta := meta |}
  | clock => findClock fuel frames meta pointer
  | wsclock => findWSClock fuel frames meta pointer now
  | opt =>
      Ret {| h_index := findOPT frames refs (index + 1); nextPointer := pointer;
             h_meta := meta |}
  end.

(** The body of [refs.forEach((page, index) => ...)]. *)
Definition visit (algorithm : algorithm) (fuel : nat) (refs : list Z)
    (st : state) (pg : Z) (index : nat) : res state :=
  let now := Z.of_nat (length (s_timeline st)) in
  match indexOf (s_frames st) (Some pg) with
  | Some hitIndex =>
      Ret {| s_frames := s_frames st;
             s_meta := <[hitIndex := {| ref := 1; lastUsed := now |}]> (s_meta st);
             s_pointer := s_pointer st;
             s_hits := s_hits st + 1;
             s_faults := s_faults st;
             s_timeline := s_timeline st ++
               [{| index := index; page := pg; frames := s_frames st;
                   fault := false; replacedIndex := -1 |}] |}
  | None =>
      h ← selectVictim algorithm fuel refs index st;
      let frames' := <[h_index h := Some pg]> (s_frames st) in
      Ret {| s_frames := frames';
             s_meta := <[h_index h := {| ref := 1; lastUsed := now |}]> (h_meta h);
             s_pointer := nextPointer h;
             s_hits := s_hits st;
             s_faults := s_faults st + 1;
             s_timeline := s_timeline st ++
               [{| index := index; page := pg; frames := frames';
                   fault := true; replacedIndex := Z.of_nat (h_index h) |}] |}
  end.

Fixpoint forEach (algorithm : algorithm) (fuel : nat) (refs : list Z)
    (rest : list Z) (index : nat) (st : state) : res state :=
  match rest with
  | [] => Ret st
  | pg :: rest' =>
      st' ← visit algorithm fuel refs st pg index;
      forEach algorithm fuel refs rest' (S index) st'
  end.

Definition initial (framesCount : nat) : state :=
  {| s_frames := replicate framesCount None;
     s_meta := replicate framesCount {| ref := 0; lastUsed := -1 |};
     s_pointer := 0; s_hits := 0; s_faults := 0; s_timeline := [] |}.

(** [simulate(algorithm, framesCount, refs)]; [fuel] bounds the iterations of
    each victim search of CLOCK and WSClock.  The caller ([runSimulation])
    only passes a positive [framesCount]. *)
Definition simulate (algorithm : algorithm) (fuel : nat) (framesCount : nat)
    (refs : list Z) : res result :=
  st ← forEach algorithm fuel refs refs 0 (initial framesCount);
  Ret {| timeline := s_timeline st; hits := s_hits st; faults := s_faults st;
         references := length refs |}.

(** [detectBelady(refs, frames)]: [Some (smaller, larger)] or [null]. *)
Definition detectBelady (fuel : nat) (refs : list Z) (frames : nat) : res (option (nat * nat)) :=
  base ← simulate fifo fuel frames refs;
  larger ← simulate fifo fuel (frames + 1) refs;
  if faults base <? faults larger
  then Ret (Some (faults base, faults larger))
  else Ret None.

End PageReplacement.

(** ** Disk scheduling (DiskScheduling.js) *)

(** Cylinders are whole numbers. *)

Module DiskScheduling.

Inductive algorithm := fcfs | sstf | scan | cscan | look | clook.

(** [direction === 'right'] or not. *)
Inductive direction := right | left.

Definition maxCyl : Z := 199.

Record step := { index : nat; position : Z; move : Z; cumulative : Z }.

Record result := {
  path : list Z;
  timeline : list step;
  total : Z;
  served : nat
}.

(** The inner [for] of [sstf]: position of the nearest pending request, the
    first one on ties. *)
Definition nearest (current : Z) (pending : list Z) : nat :=
  match pending with
  | [] => 0
  | p0 :: _ =>
      snd (forEachi (λ '(bestDist, bestIdx) r i,
                       if (1 <=? i) && (Z.abs (r - current) <? bestDist)%Z
                       then (Z.abs (r - current), i) else (bestDist, bestIdx))
                    pending (Z.abs (p0 - current), 0))
  end.

(** [while (pending.length)]: every iteration removes one request, so the
    loop runs once per pending request. *)
Fixpoint sstf_loop (n : nat) (pending : list Z) (current : Z) (order : list Z) : list Z :=
  match n with
  | O => order
  | S n' =>
      let bestIdx := nearest current pending in
      match pending !! bestIdx with
      | None => order
      | Some next => sstf_loop n' (delete bestIdx pending) next (order ++ [next])
      end
  end.

Definition sstf_order (head : Z) (reqs : list Z) : list Z :=
  sstf_loop (length reqs) reqs head [].

Definition ascending (a b : Z) : Z := (a - b)%Z.

Definition orderRequests (algorithm : algorithm) (head : Z) (direction : direction)
    (reqs : list Z) : list Z :=
  let left := sort ascending (List.filter (λ r, (r <? head)%Z) reqs) in
  let right := sort ascending (List.filter (λ r, (head <=? r)%Z) reqs) in
  match algorithm with
  | fcfs => reqs
  | sstf => sstf_order head reqs
  | scan =>
      match direction with
      | right => right ++ [maxCyl] ++ reverse left
      | _ => reverse left ++ [0%Z] ++ right
      end
  | cscan =>
      match direction with
      | right => right ++ [maxCyl; 0%Z] ++ left
      | _ => reverse left ++ [0%Z; maxCyl] ++ reverse right
      end
  | look =>
      match direction with
      | right => right ++ reverse left
      | _ => reverse left ++ right
      end
  | clook =>
      match direction with
      | right => right ++ left
      | _ => reverse left ++ reverse right
      end
  end.

(** The [for] loop of [simulate] over [path[1..]], with [path[i - 1]] in [prev]. *)
Fixpoint moves (prev : Z) (rest : list Z) (i : nat) (total : Z) (timeline : list step)
    : Z * list step :=
  match rest with
  | [] => (total, timeline)
  | pos :: rest' =>
      let move := Z.abs (pos - prev) in
      let total' := (total + move)%Z in
      moves pos rest' (S i) total'
        (timeline ++ [{| index := i - 1; position := pos; move := move;
                         cumulative := total' |}])
  end.

Definition simulate (algorithm : algorithm) (head : Z) (direction : direction)
    (requests : list Z) : result :=
  let order := orderRequests algorithm head direction requests in
  let '(total, timeline) := moves head order 1 0%Z [] in
  {| path := head :: order; timeline := timeline; total := total;
     served := length order |}.

(** The summary card shows [result.total / result.served]: the dividend and
    the divisor of the average seek. *)
Definition averageSeek (r : result) : Z * nat := (total r, served r).

(** [parseRequests(input, max)], from the whole numbers [Number(token)] gives
    for the nonempty tokens of the input; [None] is a token that is not a
    finite number. *)
Definition parseRequests (numbers : list (option Z)) (max : Z) : list Z :=
  List.filter (λ num, (0 <=? num)%Z && (num <=? max)%Z) (omap (λ number, number) numbers).

End DiskScheduling.

(** ** Banker's algorithm (BanksAlgorithm.js) *)

(** Amounts of a resource are whole numbers. *)

Module BanksAlgorithm.

(** A matrix cell: a number, or [None] for what JavaScript computes from a
    missing array element ([undefined], and the [NaN] arithmetic makes of it). *)
Definition num := option Z.

Definition sub (a b : num) : num := a ≫= λ x, b ≫= λ y, Some (x - y)%Z.
Definition add (a b : num) : num := a ≫= λ x, b ≫= λ y, Some (x + y)%Z.
(** [a <= b], false as soon as one side is not a number. *)
Definition le (a b : num) : bool :=
  match a, b with
  | Some x, Some y => (x <=? y)%Z
  | _, _ => false
  end.
(** [Math.max(a, 0)]. *)
Definition max0 (a : num) : num := (λ x, Z.max x 0) <$> a.

(** [l[i]] where a missing element reads as [undefined]. *)
Definition get (l : list num) (i : nat) : num := mjoin (l !! i).

Record state := {
  maxMatrix : list (list num);
  allocation : list (list num);
  available : list num
}.

Record request := { process : Z; resources : list num }.

Definition sampleMax : list (list num) :=
  map (map Some) [[7; 5; 3]; [3; 2; 2]; [9; 0; 2]; [2; 2; 2]; [4; 3; 3]]%Z.
Definition sampleAllocation : list (list num) :=
  map (map Some) [[0; 1; 0]; [2; 0; 0]; [3; 0; 2]; [2; 1; 1]; [0; 0; 2]]%Z.
Definition sampleAvailable : list num := map Some [3; 3; 2]%Z.

Definition sample : state :=
  {| maxMatrix := sampleMax; allocation := sampleAllocation; available := sampleAvailable |}.

(** The request the form starts with. *)
Definition sampleRequest : request :=
  {| process := 0; resources := map Some [0; 1; 0]%Z |}.

(** [xs.map((x, i) => f(x, i))] where [f] may throw. *)
Fixpoint mapi_res {A B} (f : A → nat → res B) (l : list A) (i : nat) : res (list B) :=
  match l with
  | [] => Ret []
  | x :: l' => y ← f x i; ys ← mapi_res f l' (S i); Ret (y :: ys)
  end.

(** [need]: [Math.max(value - allocation[i][j], 0)] for every cell of [maxMatrix]. *)
Definition need (st : state) : res (list (list num)) :=
  mapi_res (λ row i,
              match allocation st !! i, row with
              | Some arow, _ => Ret (imap (λ j value, max0 (sub value (get arow j))) row)
              | None, [] => Ret []
              | None, _ :: _ => Raise TypeError
              end)
           (maxMatrix st) 0.

(** [xs.every((x, i) => x <= ys[i])]. *)
Definition every_le (xs ys : list num) : bool :=
  forallb (λ ix, le ix.2 (get ys ix.1)) (zip (seq 0 (length xs)) xs).

Record safety := { safe : bool; sequence : list nat }.

Record scan_state := {
  work : list num;
  finish : list bool;
  seq_so_far : list nat;
  progress : bool
}.

(** One iteration of the [for] loop of [checkSafety]. *)
Definition tryFinish (allocation need : list (list num)) (s : scan_state) (i : nat)
    : res scan_state :=
  match finish s !! i with
  | Some true => Ret s
  | _ =>
      match need !! i, allocation !! i with
      | Some nrow, Some arow =>
          if every_le nrow (work s)
          then Ret {| work := imap (λ idx w, add w (get arow idx)) (work s);
                      finish := <[i := true]> (finish s);
                      seq_so_far := seq_so_far s ++ [i];
                      progress := true |}
          else Ret s
      | _, _ => Raise TypeError
      end
  end.

Fixpoint pass (allocation need : list (list num)) (ixs : list nat) (s : scan_state)
    : res scan_state :=
  match ixs with
  | [] => Ret s
  | i :: ixs' => s' ← tryFinish allocation need s i; pass allocation need ixs' s'
  end.

(** [while (progress)]: [fuel] bounds the number of passes. *)
Fixpoint passes (fuel : nat) (allocation need : list (list num)) (s : scan_state)
    : res scan_state :=
  match fuel with
  | O => OutOfFuel
  | S fuel' =>
      if progress s
      then
        s' ← pass allocation need (seq 0 (length allocation))
               {| work := work s; finish := finish s; seq_so_far := seq_so_far s;
                  progress := false |};
        passes fuel' allocation need s'
      else Ret s
  end.

Definition checkSafety (fuel : nat) (available : list num) (allocation need : list (list num))
    : res safety :=
  s ← passes fuel allocation need
        {| work := available; finish := map (λ _, false) allocation;
           seq_so_far := []; progress := true |};
  Ret {| safe := forallb id (finish s); sequence := seq_so_far s |}.

(** The message the handler ends on. *)
Inductive message :=
| InvalidProcess
| ExceedsNeed
| ExceedsAvailable
| Unsafe
| Granted (sequence : list nat).

(** The tentative matrices of [handleSubmitRequest]. *)
Definition newAvailable (st : state) (req : list num) : list num :=
  imap (λ i a, sub a (get req i)) (available st).

Definition newAllocation (st : state) (pid : Z) (req : list num) : list (list num) :=
  imap (λ i row, if bool_decide (Z.of_nat i = pid)
                 then imap (λ j a, add a (get req j)) row else row)
       (allocation st).

Definition newNeed (nd : list (list num)) (pid : Z) (req : list num) : list (list num) :=
  imap (λ i row, if bool_decide (Z.of_nat i = pid)
                 then imap (λ j n, sub n (get req j)) row else row) nd.

(** [handleSubmitRequest]: the state and message the handler leaves. *)
Definition handleSubmitRequest (fuel : nat) (st : state) (request : request)
    : res (state * message) :=
  let pid := process request in
  let req := resources request in
  if (pid <? 0)%Z || (Z.of_nat (length (allocation st)) <=? pid)%Z
  then Ret (st, InvalidProcess)
  else
    nd ← need st;
    withinNeed ← match nd !! Z.to_nat pid, req with
                 | Some needRow, _ => Ret (every_le req needRow)
                 | None, [] => Ret true
                 | None, _ :: _ => Raise TypeError
                 end;
    if negb withinNeed then Ret (st, ExceedsNeed)
    else if negb (every_le req (available st)) then Ret (st, ExceedsAvailable)
    else
      tentative ← checkSafety fuel (newAvailable st req) (newAllocation st pid req)
                    (newNeed nd pid req);
      if negb (safe tentative) then Ret (st, Unsafe)
      else Ret ({| maxMatrix := maxMatrix st; allocation := newAllocation st pid req;
                   available := newAvailable st req |}, Granted (sequence tentative)).

(** [handleRequestChange(index, value)] on the request vector; [amount] is
    [Number(value)], a whole number, [None] when that is [NaN].  The form
    calls it with the
    index of an existing entry; an assignment past the end of the array
    would leave holes, which read as [undefined]. *)
Definition handleRequestChange (index : nat) (amount : option Z) (prev : request)
    : request :=
  match amount with
  | None => prev
  | Some a =>
      if (a <? 0)%Z then prev
      else
        let updated := resources prev in
        {| process := process prev;
           resources :=
             if index <? length updated then <[index := Some a]> updated
             else updated ++ replicate (index - length updated) None ++ [Some a] |}
  end.

(** [handleProcessChange]: the selected process replaces [request.process]. *)
Definition handleProcessChange (pid : Z) (prev : request) : request :=
  {| process := pid; resources := resources prev |}.

(** [handleReset]. *)
Definition handleReset : state * request := (sample, sampleRequest).

End BanksAlgorithm.

(** ** Memory fit strategies (FitAlgorithm.js) *)

(** Sizes are whole numbers here; [FitAlgorithmDouble] below is the same
    engine on binary64 sizes. *)

Module FitAlgorithm.

Inductive algorithm := first | best | worst | next.

Record block := {
  id : Z;
  label : string;
  size : Z;
  free : bool;
  requested : Z
}.

(** The component state the engine reads and writes. *)
Record state := {
  blocks : list block;
  nextFitStart : nat;
  pidCounter : nat
}.

Definition initialBlocks : list block :=
  [{| id := 1; label := "Free"; size := 200; free := true; requested := 0 |}].

Definition initial : state :=
  {| blocks := initialBlocks; nextFitStart := 0; pidCounter := 1 |}.

Definition totalMemory (bs : list block) : Z :=
  fold_left (λ sum b, (sum + size b)%Z) bs 0%Z.

(** One iteration of the [for] loop of [coalesce]. *)
Definition absorb (merged : list block) (current : block) : list block :=
  match last merged with
  | Some prev =>
      if free current && free prev
      then removelast merged ++
             [{| id := id prev; label := label prev; size := size prev + size current;
                 free := free prev; requested := requested prev |}]
      else merged ++ [current]
  | None => merged ++ [current]
  end.

Definition coalesce (segments : list block) : list block :=
  imap (λ idx b, {| id := if (id b =? 0)%Z then Z.of_nat idx + 1 else id b;
                    label := label b; size := size b; free := free b;
                    requested := requested b |})
       (fold_left absorb segments []).

Definition fits (sz : Z) (b : block) : bool := free b && (sz <=? size b)%Z.

(** [findBlockIndex(size)]; [None] is [-1]. *)
Definition findBlockIndex (selectedAlgorithm : algorithm) (st : state) (sz : Z)
    : option nat :=
  let bs := blocks st in
  let indices := seq 0 (length bs) in
  let sizeAt i := default 0%Z (size <$> bs !! i) in
  let ok i := default false (fits sz <$> bs !! i) in
  match selectedAlgorithm with
  | best => head (sort (λ a b, (sizeAt a - sizeAt b)%Z) (List.filter ok indices))
  | worst => head (sort (λ a b, (sizeAt b - sizeAt a)%Z) (List.filter ok indices))
  | next =>
      let n := length bs in
      head (List.filter ok (map (λ offset, (nextFitStart st + offset) mod n) (seq 0 n)))
  | first => head (List.filter ok indices)
  end.

(** [updated.splice(index, 1, newBlock)], then the remainder after it. *)
Definition split (bs : list block) (index : nat) (newBlock : block)
    (remainder : option block) : list block :=
  take index bs ++ [newBlock] ++ option_list remainder ++ drop (S index) bs.

(** [allocate()], with the form's algorithm, a whole-number request size and
    the value of [Date.now()]. *)
Definition allocate (selectedAlgorithm : algorithm) (requestSize : Z) (now : Z)
    (st : state) : state :=
  if (requestSize <=? 0)%Z then st
  else
    match findBlockIndex selectedAlgorithm st requestSize with
    | None => st
    | Some index =>
        match blocks st !! index with
        | None => st
        | Some target =>
            let remaining := (size target - requestSize)%Z in
            let newBlock := {| id := now; label := "P" +:+ pretty (pidCounter st);
                               size := requestSize; free := false;
                               requested := requestSize |} in
            let remainder :=
              if (0 <? remaining)%Z
              then Some {| id := now + 1; label := "Free"; size := remaining;
                           free := true; requested := 0 |}
              else None in
            let coalesced := coalesce (split (blocks st) index newBlock remainder) in
            {| blocks := coalesced;
               nextFitStart :=
                 match selectedAlgorithm with
                 | next => default 0 (fst <$> list_find (λ b, free b = true) coalesced)
                 | _ => nextFitStart st
                 end;
               pidCounter := pidCounter st + 1 |}
        end
    end.

(** [freeProcess()], with the selected block id ([None] when nothing is selected). *)
Definition freeProcess (freeTarget : option Z) (st : state) : state :=
  match freeTarget with
  | None => st
  | Some target =>
      let updated :=
        map (λ b, if (id b =? target)%Z
                  then {| id := id b; label := "Free"; size := size b; free := true;
                          requested := 0 |}
                  else b) (blocks st) in
      {| blocks := coalesce updated; nextFitStart := nextFitStart st;
         pidCounter := pidCounter st |}
  end.

Definition reset (st : state) : state := initial.

(** The operations a user can trigger on the engine. *)
Inductive operation :=
| Allocate (selectedAlgorithm : algorithm) (requestSize : Z) (now : Z)
| FreeProcess (freeTarget : option Z)
| Coalesce
| Reset.

Definition perform (st : state) (op : operation) : state :=
  match op with
  | Allocate alg sz now => allocate alg sz now st
  | FreeProcess target => freeProcess target st
  | Coalesce => {| blocks := coalesce (blocks st); nextFitStart := nextFitStart st;
                   pidCounter := pidCounter st |}
  | Reset => reset st
  end.

Definition run (ops : list operation) : state := fold_left perform ops initial.

(** The figures of the summary grid. *)
Definition allocatedBlocks (bs : list block) : list block :=
  List.filter (λ b, negb (free b)) bs.

Definition freeBlocks (bs : list block) : list block := List.filter free bs.

Definition totalFree (bs : list block) : Z :=
  fold_left (λ sum b, (sum + size b)%Z) (freeBlocks bs) 0%Z.

(** [freeBlocks.length ? Math.max(...sizes) : 0]. *)
Definition largestHole (bs : list block) : Z :=
  match map size (freeBlocks bs) with
  | [] => 0
  | x :: xs => fold_left Z.max xs x
  end.

Definition internalFragmentation (bs : list block) : Z :=
  fold_left (λ sum b, (sum + Z.max (size b - requested b) 0)%Z) (allocatedBlocks bs) 0%Z.

Definition externalFragmentation (bs : list block) : Z :=
  (totalFree bs - largestHole bs)%Z.

End FitAlgorithm.

(** ** Memory fit on binary64 numbers (FitAlgorithm.js) *)

(** The same engine with the sizes as JavaScript holds them, binary64
    numbers: the request size is any finite number above 0, and the sizes of
    the blocks are what the additions and subtractions of the engine make of
    the requests. *)
Module FitAlgorithmDouble.
Import PrimFloat.
#[local] Set Warnings "-inexact-float".
Local Open Scope float_scope.

Inductive algorithm := first | best | worst | next.

Record block := {
  id : Z;
  label : string;
  size : float;
  free : bool;
  requested : float
}.

Record state := {
  blocks : list block;
  nextFitStart : nat;
  pidCounter : nat
}.

Definition initialBlocks : list block :=
  [{| id := 1; label := "Free"; size := 200; free := true; requested := 0 |}].

Definition initial : state :=
  {| blocks := initialBlocks; nextFitStart := 0; pidCounter := 1 |}.

Definition totalMemory (bs : list block) : float :=
  fold_left (λ sum b, sum + size b) bs 0.

(** One iteration of the [for] loop of [coalesce]. *)
Definition absorb (merged : list block) (current : block) : list block :=
  match last merged with
  | Some prev =>
      if free current && free prev
      then removelast merged ++
             [{| id := id prev; label := label prev; size := size prev + size current;
                 free := free prev; requested := requested prev |}]
      else merged ++ [current]
  | None => merged ++ [current]
  end.

Definition coalesce (segments : list block) : list block :=
  imap (λ idx b, {| id := if (id b =? 0)%Z then (Z.of_nat idx + 1)%Z else id b;
                    label := label b; size := size b; free := free b;
                    requested := requested b |})
       (fold_left absorb segments []).

(** [blocks[i].free && blocks[i].size >= size]. *)
Definition fits (sz : float) (b : block) : bool := free b && (sz <=? size b).

(** What [sort] reads off the number its comparator returns. *)
Definition sign (x : float) : Z :=
  if x <? 0 then (-1)%Z else if 0 <? x then 1%Z else 0%Z.

(** [findBlockIndex(size)]; [None] is [-1]. *)
Definition findBlockIndex (selectedAlgorithm : algorithm) (st : state) (sz : float)
    : option nat :=
  let bs := blocks st in
  let indices := seq 0 (length bs) in
  let sizeAt i := default 0 (size <$> bs !! i) in
  let ok i := default false (fits sz <$> bs !! i) in
  match selectedAlgorithm with
  | best => head (sort (λ a b, sign (sizeAt a - sizeAt b)) (List.filter ok indices))
  | worst => head (sort (λ a b, sign (sizeAt b - sizeAt a)) (List.filter ok indices))
  | next =>
      let n := length bs in
      head (List.filter ok (map (λ offset, (nextFitStart st + offset) mod n) (seq 0 n)))
  | first => head (List.filter ok indices)
  end.

(** [updated.splice(index, 1, newBlock)], then the remainder after it. *)
Definition split (bs : list block) (index : nat) (newBlock : block)
    (remainder : option block) : list block :=
  take index bs ++ [newBlock] ++ option_list remainder ++ drop (S index) bs.

(** [allocate()], with the form's algorithm, [Number(requestSize)] and the
    value of [Date.now()]. *)
Definition allocate (selectedAlgorithm : algorithm) (requestSize : float) (now : Z)
    (st : state) : state :=
  if negb (is_finite requestSize) || (requestSize <=? 0) then st
  else
    match findBlockIndex selectedAlgorithm st requestSize with
    | None => st
    | Some index =>
        match blocks st !! index with
        | None => st
        | Some target =>
            let remaining := size target - requestSize in
            let newBlock := {| id := now; label := "P" +:+ pretty (pidCounter st);
                               size := requestSize; free := false;
                               requested := requestSize |} in
            let remainder :=
              if 0 <? remaining
              then Some {| id := (now + 1)%Z; label := "Free"; size := remaining;
                           free := true; requested := 0 |}
              else None in
            let coalesced := coalesce (split (blocks st) index newBlock remainder) in
            {| blocks := coalesced;
               nextFitStart :=
                 match selectedAlgorithm with
                 | next => default 0%nat (fst <$> list_find (λ b, free b = true) coalesced)
                 | _ => nextFitStart st
                 end;
               pidCounter := pidCounter st + 1 |}
        end
    end.

(** [freeProcess()], with the selected block id ([None] when nothing is selected). *)
Definition freeProcess (freeTarget : option Z) (st : state) : state :=
  match freeTarget with
  | None => st
  | Some target =>
      let updated :=
        map (λ b, if (id b =? target)%Z
                  then {| id := id b; label := "Free"; size := size b; free := true;
                          requested := 0 |}
                  else b) (blocks st) in
      {| blocks := coalesce updated; nextFitStart := nextFitStart st;
         pidCounter := pidCounter st |}
  end.

Definition reset (st : state) : state := initial.

(** The operations a user can trigger on the engine. *)
Inductive operation :=
| Allocate (selectedAlgorithm : algorithm) (requestSize : float) (now : Z)
| FreeProcess (freeTarget : option Z)
| Coalesce
| Reset.

Definition perform (st : state) (op : operation) : state :=
  match op with
  | Allocate alg sz now => allocate alg sz now st
  | FreeProcess target => freeProcess target st
  | Coalesce => {| blocks := coalesce (blocks st); nextFitStart := nextFitStart st;
                   pidCounter := pidCounter st |}
  | Reset => reset st
  end.

Definition run (ops : list operation) : state := fold_left perform ops initial.

(** The figures of the summary grid. *)
Definition allocatedBlocks (bs : list block) : list block :=
  List.filter (λ b, negb (free b)) bs.

Definition freeBlocks (bs : list block) : list block := List.filter free bs.

Definition totalFree (bs : list block) : float :=
  fold_left (λ sum b, sum + size b) (freeBlocks bs) 0.

(** [Math.max] of two numbers: [NaN] if one of them is, and [+0] above [-0]. *)
Definition max (x y : float) : float :=
  if is_nan x || is_nan y then nan
  else if x <? y then y
  else if y <? x then x
  else if is_zero x then x + y
  else x.

(** [freeBlocks.length ? Math.max(...sizes) : 0]; [Math.max] starts from
    [-Infinity]. *)
Definition largestHole (bs : list block) : float :=
  match freeBlocks bs with
  | [] => 0
  | _ :: _ => fold_left max (map size (freeBlocks bs)) neg_infinity
  end.

(** [x || 0]. *)
Definition orZero (x : float) : float := if is_nan x || is_zero x then 0 else x.

Definition internalFragmentation (bs : list block) : float :=
  fold_left (λ sum b, sum + max (size b - orZero (requested b)) 0) (allocatedBlocks bs) 0.

Definition externalFragmentation (bs : list block) : float :=
  totalFree bs - largestHole bs.

End FitAlgorithmDouble.

(** ** CPU scheduling (ProcessScheduling.js) *)

(** Times (arrivals, bursts, quanta) are whole numbers. *)

Module ProcessScheduling.
Local Open Scope Z_scope.

(** A process as the form stores it; [priority] may be missing. *)
Record process := {
  id : Z;
  name : string;
  arrival : Z;
  burst : Z;
  priority : option Z
}.

(** The object a runner works on: the prepared process, its position [order]
    in the input, and the fields the runners add and mutate.  A field a runner
    does not create keeps its initial value here and is never read by it. *)
Record job := {
  source : process;
  order : nat;
  j_arrival : Z;
  j_burst : Z;
  j_priority : Z;
  remaining : Z;
  level : nat;
  startTime : option Z;
  completionTime : option Z
}.

(** An entry of the returned schedule. *)
Record entry := {
  e_job : job;
  e_startTime : Z;
  e_completionTime : Z;
  waitingTime : Z;
  turnaroundTime : Z
}.

(** [settings]: [rrQuantum] is [None] when the field is not a finite number;
    [mlfqLevels] are the comma-separated tokens, [None] for a token that is
    not a finite number. *)
Record settings := {
  rrQuantum : option Z;
  mlfqLevels : list (option Z)
}.

Inductive algorithm :=
| fcfs | sjfNonPreemptive | sjfPreemptive | priorityNonPreemptive
| priorityPreemptive | roundRobin | mlfq.

Definition initialProcesses : list process :=
  [{| id := 1; name := "P1"; arrival := 0; burst := 4; priority := Some 2 |};
   {| id := 2; name := "P2"; arrival := 1; burst := 3; priority := Some 1 |};
   {| id := 3; name := "P3"; arrival := 2; burst := 5; priority := Some 3 |}].

(** [{ rrQuantum: '2', mlfqLevels: '2,4,8' }]. *)
Definition defaultSettings : settings :=
  {| rrQuantum := Some 2; mlfqLevels := [Some 2; Some 4; Some 8] |}.

Definition prepareProcesses (processes : list process) : list job :=
  imap (λ index p,
          {| source := p; order := index; j_arrival := arrival p; j_burst := burst p;
             j_priority := default 0 (priority p);
             remaining := 0; level := 0%nat; startTime := None; completionTime := None |})
       processes.

Definition sortByArrival (a b : job) : Z :=
  if j_arrival a =? j_arrival b then Z.of_nat (order a) - Z.of_nat (order b)
  else j_arrival a - j_arrival b.

Definition compareByBurst (a b : job) : Z :=
  if j_burst a =? j_burst b then sortByArrival a b else j_burst a - j_burst b.

Definition compareByPriority (a b : job) : Z :=
  if j_priority a =? j_priority b then sortByArrival a b else j_priority a - j_priority b.

Definition compareByRemaining (a b : job) : Z :=
  if remaining a =? remaining b then sortByArrival a b else remaining a - remaining b.

(** The object literal every runner returns for a process. *)
Definition report (j : job) (startTime completionTime : Z) : entry :=
  let turnaroundTime := completionTime - j_arrival j in
  let waitingTime := turnaroundTime - j_burst j in
  {| e_job := j; e_startTime := startTime; e_completionTime := completionTime;
     waitingTime := waitingTime; turnaroundTime := turnaroundTime |}.

Fixpoint fcfs_map (sorted : list job) (currentTime : Z) : list entry :=
  match sorted with
  | [] => []
  | p :: rest =>
      let startTime := Z.max (j_arrival p) currentTime in
      let completionTime := startTime + j_burst p in
      report p startTime completionTime :: fcfs_map rest completionTime
  end.

Definition runFcfs (processes : list process) : list entry :=
  fcfs_map (sort sortByArrival (prepareProcesses processes)) 0.

(** [pending.splice(pending.indexOf(x), 1)]: objects are told apart by
    [order]; a missing object gives index [-1], which removes the last one. *)
Definition remove (x : job) (pending : list job) : list job :=
  match list_find (λ p, order p = order x) pending with
  | Some (removalIndex, _) => delete removalIndex pending
  | None => removelast pending
  end.

Fixpoint nonPreemptive_loop (fuel : nat) (comparator : job → job → Z)
    (pending : list job) (schedule : list entry) (time : Z) : res (list entry) :=
  match fuel with
  | O => OutOfFuel
  | S fuel' =>
      match pending with
      | [] => Ret schedule
      | p0 :: _ =>
          let currentTime := time in
          let available := List.filter (λ p, j_arrival p <=? currentTime) pending in
          match sort comparator available with
          | [] => nonPreemptive_loop fuel' comparator pending schedule (j_arrival p0)
          | nextProcess :: _ =>
              let startTime := Z.max currentTime (j_arrival nextProcess) in
              let completionTime := startTime + j_burst nextProcess in
              nonPreemptive_loop fuel' comparator (remove nextProcess pending)
                (schedule ++ [report nextProcess startTime completionTime])
                completionTime
          end
      end
  end.

Definition runNonPreemptive (fuel : nat) (processes : list process)
    (comparator : job → job → Z) : res (list entry) :=
  let pending := sort sortByArrival (prepareProcesses processes) in
  let time := match pending with p0 :: _ => j_arrival p0 | [] => 0 end in
  nonPreemptive_loop fuel comparator pending [] time.

(** The [.map] that gives every prepared process its mutable fields. *)
Definition activate (j : job) : job :=
  {| source := source j; order := order j; j_arrival := j_arrival j; j_burst := j_burst j;
     j_priority := j_priority j; remaining := j_burst j; level := 0%nat;
     startTime := None; completionTime := None |}.

Definition set_startTime (t : Z) (j : job) : job :=
  {| source := source j; order := order j; j_arrival := j_arrival j; j_burst := j_burst j;
     j_priority := j_priority j; remaining := remaining j; level := level j;
     startTime := Some t; completionTime := completionTime j |}.

Definition set_remaining (r : Z) (j : job) : job :=
  {| source := source j; order := order j; j_arrival := j_arrival j; j_burst := j_burst j;
     j_priority := j_priority j; remaining := r; level := level j;
     startTime := startTime j; completionTime := completionTime j |}.

Definition set_completionTime (t : Z) (j : job) : job :=
  {| source := source j; order := order j; j_arrival := j_arrival j; j_burst := j_burst j;
     j_priority := j_priority j; remaining := remaining j; level := level j;
     startTime := startTime j; completionTime := Some t |}.

Definition set_level (l : nat) (j : job) : job :=
  {| source := source j; order := order j; j_arrival := j_arrival j; j_burst := j_burst j;
     j_priority := j_priority j; remaining := remaining j; level := l;
     startTime := startTime j; completionTime := completionTime j |}.

(** [if (current.startTime === null) current.startTime = time]. *)
Definition markStarted (t : Z) (j : job) : job :=
  match startTime j with
  | None => set_startTime t j
  | Some _ => j
  end.

(** [.reduce((min, p) => Math.min(min, p.arrival), Infinity)]; [None] is [Infinity]. *)
Definition minArrival (l : list job) : option Z :=
  fold_left (λ min p, match min with
                      | None => Some (j_arrival p)
                      | Some m => Some (Z.min m (j_arrival p))
                      end) l None.

(** The final [data.map] of the preemptive runner. *)
Definition finishPreemptive (j : job) : entry :=
  report j (default (j_arrival j) (startTime j))
         (default (j_arrival j + Z.max (remaining j) 0) (completionTime j)).

(** The final [data.map] of Round Robin and MLFQ. *)
Definition finishQueued (j : job) : entry :=
  report j (default (j_arrival j) (startTime j))
         (default (j_arrival j + j_burst j) (completionTime j)).

(** The [while] loop of [runPreemptive]. *)
Fixpoint preemptive_loop (fuel : nat) (comparator : job → job → Z)
    (data : list job) (time : Z) : res (list job) :=
  match fuel with
  | O => OutOfFuel
  | S fuel' =>
      if negb (existsb (λ p, 0 <? remaining p) data) then Ret data
      else
        let currentTime := time in
        let available :=
          List.filter (λ p, (j_arrival p <=? currentTime) && (0 <? remaining p)) data in
        match sort comparator available with
        | [] =>
            match minArrival (List.filter (λ p, 0 <? remaining p) data) with
            | None => Ret data
            | Some nextArrival => preemptive_loop fuel' comparator data nextArrival
            end
        | chosen :: _ =>
            let current := markStarted currentTime chosen in
            let nextArrival :=
              minArrival (List.filter (λ p, (currentTime <? j_arrival p) && (0 <? remaining p))
                                      data) in
            let finishTime := currentTime + remaining current in
            let nextTime :=
              match nextArrival with
              | Some a => if a <? finishTime then a else finishTime
              | None => finishTime
              end in
            let elapsed := nextTime - currentTime in
            let current := set_remaining (remaining current - elapsed) current in
            let current := if remaining current =? 0
                           then set_completionTime nextTime current else current in
            preemptive_loop fuel' comparator (<[order chosen := current]> data) nextTime
        end
  end.

Definition runPreemptive (fuel : nat) (processes : list process)
    (comparator : job → job → Z) : res (list entry) :=
  let data := map activate (prepareProcesses processes) in
  let time := match minArrival data with Some m => m | None => 0 end in
  data' ← preemptive_loop fuel comparator data time;
  Ret (map finishPreemptive data').

(** *** Round Robin *)

(** [data] is the array of process objects; [pending] and [ready] hold
    references to them, modelled as positions in [data]. *)
Record rr_state := {
  data : list job;
  pending : list nat;
  ready : list nat;
  time : Z
}.

Definition arrivalOf (data : list job) (i : nat) : Z :=
  default 0 (j_arrival <$> data !! i).

(** [while (pending.length && pending[0].arrival <= time) ready.push(pending.shift())]. *)
Fixpoint enqueue_arrivals (data : list job) (time : Z) (pending ready : list nat)
    : list nat * list nat :=
  match pending with
  | [] => ([], ready)
  | i :: pending' =>
      if arrivalOf data i <=? time
      then enqueue_arrivals data time pending' (ready ++ [i])
      else (pending, ready)
  end.

(** One iteration of the outer [while] of [runRoundRobin]. *)
Definition rr_turn (quantum : Z) (st : rr_state) : res rr_state :=
  let '(pending1, ready1) := enqueue_arrivals (data st) (time st) (pending st) (ready st) in
  match ready1 with
  | [] =>
      match pending1 with
      | [] => Raise TypeError
      | i :: _ => Ret {| data := data st; pending := pending1; ready := ready1;
                         time := arrivalOf (data st) i |}
      end
  | c :: ready2 =>
      match data st !! c with
      | None => Raise TypeError
      | Some current =>
          let current := markStarted (time st) current in
          let runTime := Z.min quantum (remaining current) in
          let current := set_remaining (remaining current - runTime) current in
          let time' := time st + runTime in
          let '(pending2, ready3) := enqueue_arrivals (data st) time' pending1 ready2 in
          if 0 <? remaining current
          then Ret {| data := <[c := current]> (data st); pending := pending2;
                      ready := ready3 ++ [c]; time := time' |}
          else Ret {| data := <[c := set_completionTime time' current]> (data st);
                      pending := pending2; ready := ready3; time := time' |}
      end
  end.

(** [while (ready.length || pending.length)]. *)
Fixpoint rr_loop (fuel : nat) (quantum : Z) (st : rr_state) : res rr_state :=
  match fuel with
  | O => OutOfFuel
  | S fuel' =>
      match ready st, pending st with
      | [], [] => Ret st
      | _, _ => st' ← rr_turn quantum st; rr_loop fuel' quantum st'
      end
  end.

(** The state after [n] iterations of that loop, or at its exit if it comes
    earlier. *)
Fixpoint rr_after (n : nat) (quantum : Z) (st : rr_state) : res rr_state :=
  match n with
  | O => Ret st
  | S n' =>
      match ready st, pending st with
      | [], [] => Ret st
      | _, _ => st' ← rr_turn quantum st; rr_after n' quantum st'
      end
  end.

Definition rr_initial (processes : list process) : rr_state :=
  let data := map activate (prepareProcesses processes) in
  let pending := map order (sort sortByArrival data) in
  {| data := data; pending := pending; ready := [];
     time := match pending with i :: _ => arrivalOf data i | [] => 0 end |}.

Definition runRoundRobin (fuel : nat) (processes : list process) (settings : settings)
    : res (list entry) :=
  match rrQuantum settings with
  | None => Raise "Provide a positive time quantum for Round Robin."
  | Some quantum =>
      if quantum <=? 0 then Raise "Provide a positive time quantum for Round Robin."
      else
        st ← rr_loop fuel quantum (rr_initial processes);
        Ret (map finishQueued (data st))
  end.

(** *** Multi-level feedback queue *)

Definition parseMlfqLevels (value : list (option Z)) : list Z :=
  List.filter (λ number, 0 <? number) (omap (λ token, token) value).

Record mlfq_state := {
  m_data : list job;
  m_pending : list nat;
  queues : list (list nat);
  m_time : Z
}.

Definition push (queues : list (list nat)) (l : nat) (i : nat) : list (list nat) :=
  match queues !! l with
  | Some q => <[l := q ++ [i]]> queues
  | None => queues
  end.

Definition update (data : list job) (i : nat) (f : job → job) : list job :=
  match data !! i with
  | Some j => <[i := f j]> data
  | None => data
  end.

(** The arrival loop of [runMlfq]: [arriving.level = 0; queues[0].push(arriving)]. *)
Fixpoint m_enqueue (data : list job) (time : Z) (pending : list nat) (queues : list (list nat))
    : list job * list nat * list (list nat) :=
  match pending with
  | [] => (data, [], queues)
  | i :: pending' =>
      if arrivalOf data i <=? time
      then m_enqueue (update data i (set_level 0)) time pending' (push queues 0 i)
      else (data, pending, queues)
  end.

(** [Math.min(quantum, remaining)] where [quantum] may be [Infinity] ([None]). *)
Definition slice (quantum : option Z) (remaining : Z) : Z :=
  match quantum with
  | Some q => Z.min q remaining
  | None => remaining
  end.

(** One iteration of the outer [while] of [runMlfq]. *)
Definition mlfq_turn (quantums : list (option Z)) (st : mlfq_state) : res mlfq_state :=
  let '(data1, pending1, queues1) :=
    m_enqueue (m_data st) (m_time st) (m_pending st) (queues st) in
  match list_find (λ q, q ≠ []) queues1 with
  | None =>
      Ret {| m_data := data1; m_pending := pending1; queues := queues1;
             m_time := match pending1 with
                       | i :: _ => arrivalOf data1 i
                       | [] => m_time st
                       end |}
  | Some (queueIndex, q) =>
      match q with
      | [] => Raise TypeError
      | c :: q' =>
          match data1 !! c, quantums !! queueIndex with
          | Some current, Some quantum =>
              let queues2 := <[queueIndex := q']> queues1 in
              let current := markStarted (m_time st) current in
              let runTime := slice quantum (remaining current) in
              let current := set_remaining (remaining current - runTime) current in
              let time' := m_time st + runTime in
              let '(data2, pending2, queues3) :=
                m_enqueue (<[c := current]> data1) time' pending1 queues2 in
              if 0 <? remaining current
              then
                let nextLevel := Nat.min (queueIndex + 1) (length queues3 - 1) in
                Ret {| m_data := update data2 c (set_level nextLevel);
                       m_pending := pending2;
                       queues := push queues3 nextLevel c; m_time := time' |}
              else
                Ret {| m_data := update data2 c (set_completionTime time');
                       m_pending := pending2; queues := queues3; m_time := time' |}
          | _, _ => Raise TypeError
          end
      end
  end.

Definition hasWork (st : mlfq_state) : bool :=
  bool_decide (m_pending st ≠ []) || existsb (λ q, bool_decide (q ≠ [])) (queues st).

Fixpoint mlfq_loop (fuel : nat) (quantums : list (option Z)) (st : mlfq_state)
    : res mlfq_state :=
  match fuel with
  | O => OutOfFuel
  | S fuel' =>
      if hasWork st
      then st' ← mlfq_turn quantums st; mlfq_loop fuel' quantums st'
      else Ret st
  end.

(** The state after [n] iterations of the loop of [runMlfq], or at its exit
    if it comes earlier. *)
Fixpoint mlfq_after (n : nat) (quantums : list (option Z)) (st : mlfq_state)
    : res mlfq_state :=
  match n with
  | O => Ret st
  | S n' =>
      if hasWork st
      then st' ← mlfq_turn quantums st; mlfq_after n' quantums st'
      else Ret st
  end.

Definition quantumsOf (levels : list Z) : list (option Z) := map Some levels ++ [None].

Definition mlfq_initial (processes : list process) (quantums : list (option Z)) : mlfq_state :=
  let data := map activate (prepareProcesses processes) in
  let pending := map order (sort sortByArrival data) in
  {| m_data := data; m_pending := pending; queues := map (λ _, []) quantums;
     m_time := match pending with i :: _ => arrivalOf data i | [] => 0 end |}.

Definition runMlfq (fuel : nat) (processes : list process) (settings : settings)
    : res (list entry) :=
  let levels := parseMlfqLevels (mlfqLevels settings) in
  match levels with
  | [] => Raise "Enter at least one time quantum for MLFQ (e.g. 2,4,8)."
  | _ :: _ =>
      let quantums := quantumsOf levels in
      st ← mlfq_loop fuel quantums (mlfq_initial processes quantums);
      Ret (map finishQueued (m_data st))
  end.

Definition schedulingStrategies (algorithm : algorithm) (fuel : nat)
    (processes : list process) (settings : settings) : res (list entry) :=
  match algorithm with
  | fcfs => Ret (runFcfs processes)
  | sjfNonPreemptive => runNonPreemptive fuel processes compareByBurst
  | sjfPreemptive => runPreemptive fuel processes compareByRemaining
  | priorityNonPreemptive => runNonPreemptive fuel processes compareByPriority
  | priorityPreemptive => runPreemptive fuel processes compareByPriority
  | roundRobin => runRoundRobin fuel processes settings
  | mlfq => runMlfq fuel processes settings
  end.

End ProcessScheduling.

(** ** Fixed and variable partitions (MftMvt, bundled with BanksAlgorithm.js) *)

(** Sizes are whole numbers. *)

Module MftMvt.
Local Open Scope Z_scope.

Inductive mode := mft | mvt.

Record segment := {
  id : Z;
  size : Z;
  free : bool;
  label : string;
  requested : Z
}.

(** The part of the component state the handlers read and write. *)
Record state := {
  segments : list segment;
  pidCounter : nat
}.

Definition freeSegment (id size : Z) : segment :=
  {| id := id; size := size; free := true; label := "Free"; requested := 0 |}.

(** [buildMft]: [while (remaining > 0)]. *)
Fixpoint buildMft_loop (fuel : nat) (partitionSize : Z) (parts : list segment)
    (remaining id : Z) : res (list segment) :=
  match fuel with
  | O => OutOfFuel
  | S fuel' =>
      if 0 <? remaining
      then
        let size := Z.min partitionSize remaining in
        buildMft_loop fuel' partitionSize (parts ++ [freeSegment id size])
          (remaining - size) (id + 1)
      else Ret parts
  end.

Definition buildMft (fuel : nat) (memorySize partitionSize : Z) : res (list segment) :=
  buildMft_loop fuel partitionSize [] memorySize 1.

Definition buildMvt (memorySize : Z) : list segment := [freeSegment 1 memorySize].

(** One call of the [forEach] callback of [coalesce]. *)
Definition absorb (merged : list segment) (seg : segment) : list segment :=
  match last merged with
  | Some prev =>
      if free seg && free prev
      then removelast merged ++
             [{| id := id prev; size := size prev + size seg; free := free prev;
                 label := label prev; requested := requested prev |}]
      else merged ++ [seg]
  | None => merged ++ [seg]
  end.

Definition coalesce (segments : list segment) : list segment :=
  fold_left absorb segments [].

Definition sumSizes (segs : list segment) : Z :=
  fold_left (λ sum seg, sum + size seg) segs 0.

(** The metrics panel. *)
Definition memoryUsed (segs : list segment) : Z :=
  sumSizes (List.filter (λ seg, negb (free seg)) segs).

Definition memoryFree (memorySize : Z) (segs : list segment) : Z :=
  memorySize - memoryUsed segs.

Definition internalFragmentation (m : mode) (segs : list segment) : Z :=
  match m with
  | mft =>
      fold_left (λ sum seg, sum + Z.max (size seg - requested seg) 0)
        (List.filter (λ seg, negb (free seg)) segs) 0
  | mvt => 0
  end.

Definition externalFragmentation (m : mode) (segs : list segment) : Z :=
  match m with
  | mft => 0
  | mvt =>
      match List.filter free segs with
      | [] => 0
      | seg :: rest =>
          sumSizes (seg :: rest) - fold_left Z.max (map size rest) (size seg)
      end
  end.

(** [segments.findIndex((seg) => seg.free && seg.size >= size)]. *)
Definition findHole (segs : list segment) (sz : Z) : option nat :=
  fst <$> list_find (λ seg, free seg && (sz <=? size seg) = true) segs.

(** [allocate()], with the mode, [Number(processSize)], a whole number, and
    [Date.now()]. *)
Definition allocate (m : mode) (processSize : Z) (now : Z) (st : state) : state :=
  if processSize <=? 0 then st
  else
    let pid := "P" +:+ pretty (pidCounter st) in
    match findHole (segments st) processSize with
    | None => st
    | Some idx =>
        match m with
        | mft =>
            {| segments :=
                 imap (λ i seg, if bool_decide (i = idx)
                                then {| id := id seg; size := size seg; free := false;
                                        label := pid; requested := processSize |}
                                else seg) (segments st);
               pidCounter := (pidCounter st + 1)%nat |}
        | mvt =>
            match segments st !! idx with
            | None => st
            | Some target =>
                let remaining := size target - processSize in
                let placed := {| id := id target; size := processSize; free := false;
                                 label := pid; requested := processSize |} in
                let updated :=
                  take idx (segments st) ++ [placed] ++
                  (if 0 <? remaining then [freeSegment now remaining] else []) ++
                  drop (S idx) (segments st) in
                {| segments := coalesce updated; pidCounter := (pidCounter st + 1)%nat |}
            end
        end
    end.

(** [freeProcess()]; [freeTarget] is the selected label, [None] when nothing
    is selected. *)
Definition freeProcess (m : mode) (freeTarget : option string) (st : state) : state :=
  match freeTarget with
  | None => st
  | Some target =>
      if bool_decide (target = EmptyString) then st
      else
        let updated :=
          imap (λ idx seg,
                  if bool_decide (label seg = target)
                  then {| id := if id seg =? 0 then Z.of_nat idx + 1 else id seg;
                          size := size seg; free := true; label := "Free";
                          requested := 0 |}
                  else seg) (segments st) in
        {| segments := match m with mvt => coalesce updated | mft => updated end;
           pidCounter := pidCounter st |}
  end.

(** [compact()], with [Date.now()]. *)
Definition compact (m : mode) (now : Z) (st : state) : state :=
  match m with
  | mft => st
  | mvt =>
      let allocated := List.filter (λ seg, negb (free seg)) (segments st) in
      let freeTotal := sumSizes (List.filter free (segments st)) in
      {| segments :=
           allocated ++ (if 0 <? freeTotal then [freeSegment now freeTotal] else []);
         pidCounter := pidCounter st |}
  end.

(** The buttons of the component. *)
Inductive operation :=
| Allocate (processSize : Z) (now : Z)
| FreeProcess (freeTarget : option string)
| Compact (now : Z).

Definition perform (m : mode) (st : state) (op : operation) : state :=
  match op with
  | Allocate processSize now => allocate m processSize now st
  | FreeProcess freeTarget => freeProcess m freeTarget st
  | Compact now => compact m now st
  end.

End MftMvt.

(** ** Fixed partitions, one process each (the command-line fit program
    bundled with BanksAlgorithm.js) *)

Module PartitionFit.
Local Open Scope Z_scope.

(** The three arrays every algorithm returns; [None] is [-1]. *)
Record tables := {
  partAlloc : list (option nat);
  procAlloc : list (option nat);
  internalFrag : list Z
}.

Definition initialTables (partitions processes : list Z) : tables :=
  {| partAlloc := replicate (length partitions) None;
     procAlloc := replicate (length processes) None;
     internalFrag := replicate (length partitions) 0 |}.

Definition sizeAt (partitions : list Z) (j : nat) : Z := default 0 (partitions !! j).

(** [partAlloc[j] === -1 && partitions[j] >= processes[i]]. *)
Definition vacant (partitions : list Z) (t : tables) (proc : Z) (j : nat) : bool :=
  bool_decide (partAlloc t !! j = Some None) && (proc <=? sizeAt partitions j).

(** The three assignments that place process [i] in partition [j]. *)
Definition assign (partitions : list Z) (i : nat) (proc : Z) (j : nat) (t : tables)
    : tables :=
  {| partAlloc := <[j := Some i]> (partAlloc t);
     procAlloc := <[i := Some j]> (procAlloc t);
     internalFrag := <[j := sizeAt partitions j - proc]> (internalFrag t) |}.

Definition place (partitions : list Z) (i : nat) (proc : Z) (choice : option nat)
    (t : tables) : tables :=
  match choice with
  | Some j => assign partitions i proc j t
  | None => t
  end.

Definition firstFit (partitions processes : list Z) : tables :=
  forEachi (λ t proc i,
              place partitions i proc
                (snd <$> list_find (λ j, vacant partitions t proc j = true)
                           (seq 0 (length partitions))) t)
           processes (initialTables partitions processes).

Definition bestFit (partitions processes : list Z) : tables :=
  forEachi (λ t proc i,
              let bestIndex :=
                fold_left (λ bestIndex j,
                             if vacant partitions t proc j
                             then match bestIndex with
                                  | None => Some j
                                  | Some b =>
                                      if sizeAt partitions j <? sizeAt partitions b
                                      then Some j else bestIndex
                                  end
                             else bestIndex)
                          (seq 0 (length partitions)) None in
              place partitions i proc bestIndex t)
           processes (initialTables partitions processes).

Definition worstFit (partitions processes : list Z) : tables :=
  forEachi (λ t proc i,
              let worstIndex :=
                fold_left (λ worstIndex j,
                             if vacant partitions t proc j
                             then match worstIndex with
                                  | None => Some j
                                  | Some w =>
                                      if sizeAt partitions w <? sizeAt partitions j
                                      then Some j else worstIndex
                                  end
                             else worstIndex)
                          (seq 0 (length partitions)) None in
              place partitions i proc worstIndex t)
           processes (initialTables partitions processes).

(** The [while (count < partitions.length)] of [nextFit]; [steps] is what is
    left of the count.  It returns [lastIndex] and the partition found. *)
Fixpoint nextFit_scan (partitions : list Z) (t : tables) (proc : Z) (steps lastIndex : nat)
    : nat * option nat :=
  match steps with
  | O => (lastIndex, None)
  | S steps' =>
      if vacant partitions t proc lastIndex then (lastIndex, Some lastIndex)
      else nextFit_scan partitions t proc steps' ((lastIndex + 1) mod length partitions)
  end.

Definition nextFit (partitions processes : list Z) : tables :=
  fst (forEachi (λ '(t, lastIndex) proc i,
                   let '(lastIndex', found) :=
                     nextFit_scan partitions t proc (length partitions) lastIndex in
                   (place partitions i proc found t, lastIndex'))
                processes (initialTables partitions processes, 0%nat)).

(** The four runs of [main]. *)
Inductive algorithm := FirstFit | BestFit | WorstFit | NextFit.

Definition run (a : algorithm) (partitions processes : list Z) : tables :=
  match a with
  | FirstFit => firstFit partitions processes
  | BestFit => bestFit partitions processes
  | WorstFit => worstFit partitions processes
  | NextFit => nextFit partitions processes
  end.

End PartitionFit.

(** ** File allocation (FileAllocations, bundled with README.md) *)

(** File sizes and index block counts are whole numbers. *)

Module FileAllocations.
Local Open Scope Z_scope.

Inductive strategy := contiguous | linked | indexed.

Record block := { id : Z; free : bool; label : string }.

(** [disk.filter((b) => b.free).length]. *)
Definition freeBlocks (disk : list block) : nat := length (List.filter free disk).

(** The [for] loop of [findStretch], from position [i] on; [None] is [null]. *)
Fixpoint findStretch_loop (blocks : list block) (size : Z) (i count start : nat)
    : option nat :=
  match blocks with
  | [] => None
  | b :: rest =>
      if free b
      then
        let start := if (count =? 0)%nat then i else start in
        let count := (count + 1)%nat in
        if size <=? Z.of_nat count then Some start
        else findStretch_loop rest size (S i) count start
      else findStretch_loop rest size (S i) 0 start
  end.

Definition findStretch (disk : list block) (size : Z) : option nat :=
  findStretch_loop disk size 0 0 0.

(** [{ ...block, free: false, label: `F${block.id}` }]. *)
Definition fileBlock (b : block) : block :=
  {| id := id b; free := false; label := "F" +:+ pretty (id b) |}.

Definition indexBlock (b : block) : block :=
  {| id := id b; free := false; label := "Index" |}.

Definition allocateContiguous (size : Z) (disk : list block) : list block :=
  match findStretch disk size with
  | None => disk
  | Some start =>
      imap (λ idx b, if (Z.of_nat start <=? Z.of_nat idx)
                        && (Z.of_nat idx <? Z.of_nat start + size)
                     then fileBlock b else b) disk
  end.

(** The [while] loop of [pickRandomFreeBlocks].  [random k n] is what the
    k-th call [Math.floor(Math.random() * n)] returns, a position below [n];
    [steps] bounds the iterations by the length [copy] starts with. *)
Fixpoint pick_loop (random : nat → nat → nat) (steps : nat) (count : Z)
    (copy picked : list nat) : list nat :=
  match steps with
  | O => picked
  | S steps' =>
      if (Z.of_nat (length picked) <? count) && negb (bool_decide (copy = []))
      then
        let r := random (length picked) (length copy) in
        pick_loop random steps' count (delete r copy)
          (picked ++ option_list (copy !! r))
      else picked
  end.

Definition freeIndices (disk : list block) : list nat :=
  omap (λ '(idx, b), if free b then Some idx else None) (imap (λ idx b, (idx, b)) disk).

Definition pickRandomFreeBlocks (random : nat → nat → nat) (disk : list block) (count : Z)
    : list nat :=
  let free := freeIndices disk in
  pick_loop random (length free) count free [].

Definition includes (l : list nat) (x : nat) : bool := bool_decide (x ∈ l).

Definition allocateLinked (random : nat → nat → nat) (size : Z) (disk : list block)
    : list block :=
  if Z.of_nat (freeBlocks disk) <? size then disk
  else
    let picked := pickRandomFreeBlocks random disk size in
    imap (λ idx b, if includes picked idx then fileBlock b else b) disk.

(** [picked.slice(0, stop)] and [picked.slice(start)]: a negative position
    counts from the end of the array. *)
Definition sliceTo {A} (stop : Z) (l : list A) : list A :=
  if 0 <=? stop then take (Z.to_nat stop) l
  else take (length l - Z.to_nat (- stop)) l.

Definition sliceFrom {A} (start : Z) (l : list A) : list A :=
  if 0 <=? start then drop (Z.to_nat start) l
  else drop (length l - Z.to_nat (- start)) l.

(** [indexBlockSize] is [Number(indexBlockSize)], a whole number; [|| 1]
    replaces 0. *)
Definition allocateIndexed (random : nat → nat → nat) (indexBlockSize : Z) (size : Z)
    (disk : list block) : list block :=
  let idxBlocksNeeded := if indexBlockSize =? 0 then 1 else indexBlockSize in
  let totalNeeded := size + idxBlocksNeeded in
  if Z.of_nat (freeBlocks disk) <? totalNeeded then disk
  else
    let picked := pickRandomFreeBlocks random disk totalNeeded in
    let indexBlocks := sliceTo idxBlocksNeeded picked in
    let dataBlocks := sliceFrom idxBlocksNeeded picked in
    imap (λ idx b, if includes indexBlocks idx then indexBlock b
                   else if includes dataBlocks idx then fileBlock b else b) disk.

(** [allocate()], with [Number(fileSize)], a whole number. *)
Definition allocate (s : strategy) (random : nat → nat → nat) (indexBlockSize : Z)
    (fileSize : Z) (disk : list block) : list block :=
  if fileSize <=? 0 then disk
  else
    match s with
    | contiguous => allocateContiguous fileSize disk
    | linked => allocateLinked random fileSize disk
    | indexed => allocateIndexed random indexBlockSize fileSize disk
    end.

End FileAllocations.

(** ** The bounded buffer (ProcessSynchronization.js) *)

Module ProcessSynchronization.
Local Open Scope Z_scope.

Record state := {
  bufferSize : Z;
  items : Z;
  log : list string;
  step : Z
}.

Definition initial : state :=
  {| bufferSize := 5; items := 2; log := ["Initialized buffer with 2 items."]; step := 1 |}.

Definition empty (st : state) : Z := Z.max (bufferSize st - items st) 0.
Definition full (st : state) : Z := items st.
Definition mutex : Z := 1.

(** [appendLog(entry)]: the entry is numbered and put in front, and the log
    keeps its 12 latest lines. *)
Definition appendLog (entry : string) (st : state) : state :=
  {| bufferSize := bufferSize st; items := items st;
     log := take 12 ((pretty (step st) +:+ ". " +:+ entry) :: log st);
     step := step st + 1 |}.

Definition setItems (next : Z) (st : state) : state :=
  {| bufferSize := bufferSize st; items := next; log := log st; step := step st |}.

(** The messages are built from the figures on screen, those of the state
    the handler starts from. *)
Definition handleProduce (st : state) : state :=
  if bufferSize st <=? items st
  then appendLog "Producer blocked: empty=0, waits on empty semaphore." st
  else
    appendLog ("Producer: wait(empty=" +:+ pretty (empty st) +:+ ") → wait(mutex="
               +:+ pretty mutex +:+ ") → add item → signal(mutex) → signal(full="
               +:+ pretty (full st + 1) +:+ ").")
              (setItems (items st + 1) st).

Definition handleConsume (st : state) : state :=
  if items st <=? 0
  then appendLog "Consumer blocked: full=0, waits on full semaphore." st
  else
    appendLog ("Consumer: wait(full=" +:+ pretty (full st) +:+ ") → wait(mutex="
               +:+ pretty mutex +:+ ") → remove item → signal(mutex) → signal(empty="
               +:+ pretty (empty st + 1) +:+ ").")
              (setItems (items st - 1) st).

Definition handleReset (st : state) : state := initial.

(** [handleSizeChange]; [value] is [Number(event.target.value)], [None] when
    that is [NaN]. *)
Definition handleSizeChange (value : option Z) (st : state) : state :=
  match value with
  | None => st
  | Some value =>
      if value <? 1 then st
      else
        appendLog ("Capacity set to " +:+ pretty value +:+ ".")
          {| bufferSize := value; items := Z.min (items st) value; log := log st;
             step := step st |}
  end.

(** What the user can do. *)
Inductive event := Produce | Consume | Reset | SizeChange (value : option Z).

Definition handle (st : state) (e : event) : state :=
  match e with
  | Produce => handleProduce st
  | Consume => handleConsume st
  | Reset => handleReset st
  | SizeChange value => handleSizeChange value st
  end.

End ProcessSynchronization.

(* ================================================================== *)
(** * Properties *)

(** ** Arrays *)

Section Arrays.
Context {A : Type}.
Implicit Types (cmp : A → A → Z) (l : list A).

Lemma sort_insert_perm cmp x l : sort_insert cmp x l ≡ₚ x :: l.
Proof.
  induction l as [|y l IH]; simpl; [done|].
  destruct (cmp x y <=? 0)%Z; [done|].
  rewrite IH. apply Permutation_swap.
Qed.

Lemma sort_perm cmp l : sort cmp l ≡ₚ l.
Proof.
  induction l as [|x l IH]; simpl; [done|].
  unfold sort in *. simpl. rewrite sort_insert_perm. by rewrite IH.
Qed.

Lemma sort_length cmp l : length (sort cmp l) = length l.
Proof. by rewrite (sort_perm cmp l). Qed.

Lemma sort_elem_of cmp l x : x ∈ sort cmp l ↔ x ∈ l.
Proof. by rewrite (sort_perm cmp l). Qed.

Lemma sort_insert_sorted cmp (R : relation A) `{!Transitive R} x l :
  (∀ a b, (cmp a b ≤ 0)%Z → R a b) → (∀ a b, (0 < cmp a b)%Z → R b a) →
  StronglySorted R l → StronglySorted R (sort_insert cmp x l).
Proof.
  intros Hle Hgt. induction l as [|y l IH]; intros Hl; simpl.
  { by repeat constructor. }
  apply StronglySorted_cons in Hl as [Hy Hl].
  destruct (Z.leb_spec (cmp x y) 0) as [Hc|Hc].
  - apply StronglySorted_cons. split.
    + constructor; [by apply Hle|].
      eapply Forall_impl; [exact Hy|]. intros z Hz. by etrans; [apply Hle|].
    + by apply StronglySorted_cons.
  - apply StronglySorted_cons. split; [|by apply IH].
    rewrite (sort_insert_perm cmp x l). constructor; [by apply Hgt|done].
Qed.

Lemma sort_sorted cmp (R : relation A) `{!Transitive R} l :
  (∀ a b, (cmp a b ≤ 0)%Z → R a b) → (∀ a b, (0 < cmp a b)%Z → R b a) →
  StronglySorted R (sort cmp l).
Proof.
  intros Hle Hgt. induction l as [|x l IH]; [constructor|].
  unfold sort in *. simpl. by apply sort_insert_sorted.
Qed.

Lemma filter_sorted (R : relation A) (f : A → bool) l :
  StronglySorted R l → StronglySorted R (List.filter f l).
Proof.
  induction l as [|x l IH]; intros Hl; simpl; [done|].
  apply StronglySorted_cons in Hl as [Hx Hl].
  destruct (f x); [|by apply IH].
  apply StronglySorted_cons. split; [|by apply IH].
  apply Forall_forall. intros y Hy%list_elem_of_In%filter_In.
  rewrite Forall_forall in Hx. apply Hx. apply list_elem_of_In. tauto.
Qed.

Lemma filter_length_le (f g : A → bool) l :
  (∀ x, x ∈ l → g x = true → f x = true) →
  length (List.filter g l) ≤ length (List.filter f l).
Proof.
  induction l as [|x l IH]; intros Hgf; simpl; [done|].
  assert (IH' : length (List.filter g l) ≤ length (List.filter f l)).
  { apply IH. intros y Hy. apply Hgf. by right. }
  destruct (g x) eqn:Hg.
  - rewrite (Hgf x) by (done || by left). simpl. lia.
  - destruct (f x); simpl; lia.
Qed.

Lemma filter_length_lt (f g : A → bool) l x :
  (∀ y, y ∈ l → g y = true → f y = true) →
  x ∈ l → f x = true → g x = false →
  length (List.filter g l) < length (List.filter f l).
Proof.
  induction l as [|y l IH]; intros Hgf Hx Hfx Hgx; [by apply elem_of_nil in Hx|].
  assert (Hgf' : ∀ z, z ∈ l → g z = true → f z = true).
  { intros z Hz. apply Hgf. by right. }
  pose proof (filter_length_le f g l Hgf') as Hle.
  apply elem_of_cons in Hx as [->|Hx]; simpl.
  - rewrite Hfx, Hgx. simpl. lia.
  - specialize (IH Hgf' Hx Hfx Hgx). destruct (g y) eqn:Hg.
    + rewrite (Hgf y) by (done || by left). simpl. lia.
    + destruct (f y); simpl; lia.
Qed.

Lemma filter_insert_length (f : A → bool) l i x y :
  l !! i = Some x →
  length (List.filter f (<[i := y]> l)) + (if f x then 1 else 0) =
  length (List.filter f l) + (if f y then 1 else 0).
Proof.
  revert i. induction l as [|z l IH]; intros [|i] Hi; try done; simpl in *.
  - injection Hi as ->. destruct (f x), (f y); simpl; lia.
  - specialize (IH i Hi). destruct (f z); simpl; lia.
Qed.

Lemma filter_split_length (f g : A → bool) l :
  (∀ x, g x = negb (f x)) →
  length (List.filter f l) + length (List.filter g l) = length l.
Proof.
  intros Hfg. induction l as [|x l IH]; simpl; [done|].
  rewrite Hfg. destruct (f x); simpl; lia.
Qed.

End Arrays.

(** An invariant of a [forEach] with index: it holds before the first element
    and every callback carries it from position [i] to [i + 1]. *)
Lemma forEachi_ind {A S} (P : nat → S → Prop) (f : S → A → nat → S) (l : list A) (s : S) :
  P 0 s →
  (∀ i x s, l !! i = Some x → P i s → P (Datatypes.S i) (f s x i)) →
  P (length l) (forEachi f l s).
Proof.
  unfold forEachi.
  assert (G : ∀ (l' : list A) (a : nat) (s' : S),
             P a s' →
             (∀ i x s, l' !! i = Some x → P (a + i) s → P (Datatypes.S (a + i)) (f s x (a + i))) →
             P (a + length l')
               (fold_left (λ acc ix, f acc ix.2 ix.1) (zip (seq a (length l')) l') s')).
  { induction l' as [|x l' IH]; intros a s' H0 Hstep; simpl.
    - by rewrite Nat.add_0_r.
    - replace (a + Datatypes.S (length l')) with (Datatypes.S a + length l') by lia.
      apply IH.
      + specialize (Hstep 0 x s'). rewrite Nat.add_0_r in Hstep. by apply Hstep.
      + intros i y s0 Hy Hs0.
        replace (Datatypes.S a + i) with (a + Datatypes.S i) in * by lia.
        by apply Hstep. }
  intros H0 Hstep. apply (G l 0 s H0). simpl. exact Hstep.
Qed.

(** ** Disk scheduling *)

Section DiskSchedulingFacts.
Import DiskScheduling.

Lemma served_is_order_length algorithm head direction reqs :
  served (simulate algorithm head direction reqs) =
  length (orderRequests algorithm head direction reqs).
Proof. unfold simulate. by destruct (moves _ _ _ _ _). Qed.

Lemma path_is_head_order algorithm head direction reqs :
  path (simulate algorithm head direction reqs) =
  head :: orderRequests algorithm head direction reqs.
Proof. unfold simulate. by destruct (moves _ _ _ _ _). Qed.

Lemma left_right_length head reqs :
  length (List.filter (λ r, (r <? head)%Z) reqs) +
  length (List.filter (λ r, (head <=? r)%Z) reqs) = length reqs.
Proof. apply filter_split_length. intros x. lia. Qed.

(** C10: SCAN reports one more served stop than there are requests and CSCAN
    two more, for every head position, direction and request list, because
    the boundary cylinders are part of the visit order; the average seek is
    the total divided by that count. *)
Theorem scan_served_counts_boundary_stops :
  ∀ (head : Z) (direction : direction) (reqs : list Z),
    let s := simulate scan head direction reqs in
    let c := simulate cscan head direction reqs in
    served s = length reqs + 1 ∧
    served c = length reqs + 2 ∧
    averageSeek s = (total s, length reqs + 1) ∧
    averageSeek c = (total c, length reqs + 2) ∧
    (maxCyl ∈ path s ∨ 0%Z ∈ path s) ∧
    (maxCyl ∈ path c ∧ 0%Z ∈ path c).
Proof.
  intros head direction reqs s c.
  assert (Hs : served s = length reqs + 1).
  { subst s. rewrite served_is_order_length. pose proof (left_right_length head reqs).
    destruct direction; simpl;
      repeat (rewrite ?length_app, ?length_reverse, ?sort_length; simpl); lia. }
  assert (Hc : served c = length reqs + 2).
  { subst c. rewrite served_is_order_length. pose proof (left_right_length head reqs).
    destruct direction; simpl;
      repeat (rewrite ?length_app, ?length_reverse, ?sort_length; simpl); lia. }
  unfold averageSeek. rewrite Hs, Hc. repeat split.
  - subst s. rewrite path_is_head_order.
    destruct direction; simpl; [left|right]; set_solver.
  - subst c. rewrite path_is_head_order. destruct direction; simpl; set_solver.
  - subst c. rewrite path_is_head_order. destruct direction; simpl; set_solver.
Qed.

End DiskSchedulingFacts.

(** ** Banker's algorithm *)

Section BanksAlgorithmFacts.
Import BanksAlgorithm.

(** The processes [checkSafety] has not finished yet. *)
Definition unfinished (finish : list bool) : nat :=
  length (List.filter negb finish).

Lemma unfinished_finish finish i :
  finish !! i = Some false → unfinished (<[i := true]> finish) + 1 = unfinished finish.
Proof.
  unfold unfinished. revert i.
  induction finish as [|b finish IH]; intros [|i] Hi; try done; simpl in *.
  - injection Hi as ->. simpl. lia.
  - specialize (IH i Hi). destruct b; simpl; lia.
Qed.

(** A step of the scan either changes nothing or finishes one more process. *)
Definition advanced (s s' : scan_state) : Prop :=
  length (finish s') = length (finish s) ∧
  ((progress s' = progress s ∧ unfinished (finish s') = unfinished (finish s)) ∨
   (progress s' = true ∧ unfinished (finish s') < unfinished (finish s))).

Lemma tryFinish_advanced allocation need s i s' :
  i < length (finish s) →
  tryFinish allocation need s i = Ret s' → advanced s s'.
Proof.
  intros Hi. unfold tryFinish.
  destruct (lookup_lt_is_Some_2 (finish s) i Hi) as [b Hb]. rewrite Hb.
  destruct b.
  { intros [= <-]. split; [done|]. by left. }
  destruct (need !! i) as [nrow|]; [|done].
  destruct (allocation !! i) as [arow|]; [|done].
  destruct (every_le nrow (work s)).
  - intros [= <-]. unfold advanced. simpl. split; [by rewrite length_insert|].
    right. split; [done|]. pose proof (unfinished_finish _ _ Hb). lia.
  - intros [= <-]. split; [done|]. by left.
Qed.

Lemma tryFinish_no_timeout allocation need s i :
  tryFinish allocation need s i ≠ OutOfFuel.
Proof.
  unfold tryFinish. destruct (finish s !! i) as [[|]|]; try done;
    destruct (need !! i), (allocation !! i); try done; by destruct (every_le _ _).
Qed.

Lemma pass_advanced allocation need ixs s s' :
  Forall (λ i, i < length (finish s)) ixs →
  pass allocation need ixs s = Ret s' → advanced s s'.
Proof.
  revert s. induction ixs as [|i ixs IH]; intros s Hixs; simpl.
  { intros [= <-]. split; [done|]. by left. }
  apply Forall_cons in Hixs as [Hi Hixs].
  destruct (tryFinish allocation need s i) as [s1| |] eqn:E1; try done. simpl.
  intros H. destruct (tryFinish_advanced _ _ _ _ _ Hi E1) as (Hlen1 & H1).
  rewrite <- Hlen1 in Hixs. destruct (IH s1 Hixs H) as (Hlen2 & H2).
  split; [congruence|].
  destruct H1 as [[Hp1 Hu1]|[Hp1 Hu1]], H2 as [[Hp2 Hu2]|[Hp2 Hu2]].
  - left. split; congruence.
  - right. split; [done|lia].
  - right. split; [congruence|lia].
  - right. split; [done|lia].
Qed.

Lemma pass_no_timeout allocation need ixs s :
  pass allocation need ixs s ≠ OutOfFuel.
Proof.
  revert s. induction ixs as [|i ixs IH]; intros s; simpl; [done|].
  pose proof (tryFinish_no_timeout allocation need s i).
  destruct (tryFinish allocation need s i); simpl; [apply IH|done|done].
Qed.

(** The [while] of [checkSafety] stops: every pass but the last finishes a
    process. *)
Lemma passes_no_timeout fuel allocation need s :
  length (finish s) = length allocation →
  (if progress s then unfinished (finish s) + 1 else 0) < fuel →
  passes fuel allocation need s ≠ OutOfFuel.
Proof.
  revert s. induction fuel as [|fuel IH]; intros s Hlen Hfuel; [lia|].
  simpl. destruct (progress s) eqn:Hp; [|done].
  set (s0 := {| work := work s; finish := finish s; seq_so_far := seq_so_far s;
                progress := false |}).
  pose proof (pass_no_timeout allocation need (seq 0 (length allocation)) s0).
  destruct (pass allocation need (seq 0 (length allocation)) s0) as [s'| |] eqn:E;
    try done.
  assert (Hixs : Forall (λ i, i < length (finish s0)) (seq 0 (length allocation))).
  { apply Forall_forall. intros i Hi%elem_of_seq. subst s0. simpl. lia. }
  destruct (pass_advanced _ _ _ _ _ Hixs E) as (Hlen' & Hadv).
  subst s0. simpl in *. apply IH; [congruence|].
  destruct Hadv as [[-> _]|[-> Hlt]]; lia.
Qed.

Lemma unfinished_le finish : unfinished finish ≤ length finish.
Proof.
  unfold unfinished. induction finish as [|b finish IH]; simpl; [done|].
  destruct b; simpl; lia.
Qed.

Lemma checkSafety_no_timeout fuel available allocation need :
  length allocation + 1 < fuel →
  checkSafety fuel available allocation need ≠ OutOfFuel.
Proof.
  intros Hfuel. unfold checkSafety.
  set (s0 := {| work := available; finish := map (λ _, false) allocation;
                seq_so_far := []; progress := true |}).
  pose proof (passes_no_timeout fuel allocation need s0) as H.
  pose proof (unfinished_le (finish s0)) as Hle. simpl in H, Hle.
  rewrite length_map in H, Hle.
  destruct (passes fuel allocation need s0); simpl; try done.
  intros _. apply H; [done|lia|done].
Qed.

(** [handleSubmitRequest] once the process is valid and its Need row is read. *)
Lemma handleSubmitRequest_valid fuel st request nd needRow :
  let pid := process request in
  let req := resources request in
  need st = Ret nd →
  nd !! Z.to_nat pid = Some needRow →
  (0 ≤ pid < Z.of_nat (length (allocation st)))%Z →
  handleSubmitRequest fuel st request =
  if negb (every_le req needRow) then Ret (st, ExceedsNeed)
  else if negb (every_le req (available st)) then Ret (st, ExceedsAvailable)
  else
    tentative ← checkSafety fuel (newAvailable st req) (newAllocation st pid req)
                  (newNeed nd pid req);
    if negb (safe tentative) then Ret (st, Unsafe)
    else Ret ({| maxMatrix := maxMatrix st; allocation := newAllocation st pid req;
                 available := newAvailable st req |}, Granted (sequence tentative)).
Proof.
  intros pid req Hnd Hrow Hpid. unfold handleSubmitRequest. fold pid req.
  assert (Hvalid : (pid <? 0)%Z || (Z.of_nat (length (allocation st)) <=? pid)%Z = false).
  { apply orb_false_intro; [apply Z.ltb_ge|apply Z.leb_gt]; lia. }
  rewrite Hvalid, Hnd. simpl. rewrite Hrow. done.
Qed.

(** A denial hands back the state it was given. *)
Lemma handleSubmitRequest_denied fuel st request st' msg :
  handleSubmitRequest fuel st request = Ret (st', msg) →
  (∀ sequence, msg ≠ Granted sequence) → st' = st.
Proof.
  unfold handleSubmitRequest.
  destruct (_ || _); [by intros [= <- _]|].
  destruct (need st) as [nd| |]; [|done|done]. simpl.
  destruct (match nd !! Z.to_nat (process request) with
            | Some needRow => _ | None => _ end) as [withinNeed| |]; [|done|done].
  simpl. destruct withinNeed; simpl; [|by intros [= <- _]].
  destruct (every_le _ (available st)); simpl; [|by intros [= <- _]].
  destruct (checkSafety _ _ _ _) as [[sf sq]| |]; [|done|done]. simpl.
  destruct sf; simpl; [|by intros [= <- _]].
  intros [= _ <-] Hne. by destruct (Hne sq).
Qed.

(** C4: a request above the Need row is denied whatever Available holds; a
    request within Need but above Available is denied; a request is granted
    only with a tentative state that [checkSafety] finds safe, and denied
    when it finds it unsafe; every denial leaves Available, Allocation and
    Need as they were. *)
Theorem request_admission :
  ∀ (fuel : nat) (st : state) (request : request) (nd : list (list num))
    (needRow : list num),
    let pid := process request in
    let req := resources request in
    need st = Ret nd →
    nd !! Z.to_nat pid = Some needRow →
    (0 ≤ pid < Z.of_nat (length (allocation st)))%Z →
    (every_le req needRow = false →
       ∀ avail,
         let st0 := {| maxMatrix := maxMatrix st; allocation := allocation st;
                       available := avail |} in
         handleSubmitRequest fuel st0 request = Ret (st0, ExceedsNeed)) ∧
    (every_le req needRow = true → every_le req (available st) = false →
       handleSubmitRequest fuel st request = Ret (st, ExceedsAvailable)) ∧
    (∀ st' sequence,
       handleSubmitRequest fuel st request = Ret (st', Granted sequence) →
       checkSafety fuel (newAvailable st req) (newAllocation st pid req)
         (newNeed nd pid req) = Ret {| safe := true; sequence := sequence |} ∧
       st' = {| maxMatrix := maxMatrix st; allocation := newAllocation st pid req;
                available := newAvailable st req |}) ∧
    (∀ tentative,
       every_le req needRow = true → every_le req (available st) = true →
       checkSafety fuel (newAvailable st req) (newAllocation st pid req)
         (newNeed nd pid req) = Ret tentative →
       safe tentative = false →
       handleSubmitRequest fuel st request = Ret (st, Unsafe)) ∧
    (∀ st' msg,
       handleSubmitRequest fuel st request = Ret (st', msg) →
       (∀ sequence, msg ≠ Granted sequence) →
       available st' = available st ∧ allocation st' = allocation st ∧
       need st' = need st) ∧
    (length (allocation st) + 1 < fuel →
       handleSubmitRequest fuel st request ≠ OutOfFuel).
Proof.
  intros fuel st request nd needRow pid req Hnd Hrow Hpid.
  pose proof (handleSubmitRequest_valid fuel st request nd needRow Hnd Hrow Hpid) as Hh.
  fold pid req in Hh.
  split; [|split; [|split; [|split; [|split]]]].
  - intros Hex avail st0.
    rewrite (handleSubmitRequest_valid fuel st0 request nd needRow Hnd Hrow Hpid).
    fold req. by rewrite Hex.
  - intros Hin Hav. rewrite Hh, Hin, Hav. done.
  - intros st' sq. rewrite Hh.
    destruct (every_le req needRow); [|done]. simpl.
    destruct (every_le req (available st)); [|done]. simpl.
    destruct (checkSafety _ _ _ _) as [[sf sq']| |]; [|done|done]. simpl.
    destruct sf; [|done]. simpl. by intros [= <- <-].
  - intros tentative Hin Hav Hcheck Hunsafe.
    rewrite Hh, Hin, Hav. simpl. rewrite Hcheck. simpl. by rewrite Hunsafe.
  - intros st' msg Hret Hne.
    by rewrite (handleSubmitRequest_denied _ _ _ _ _ Hret Hne).
  - intros Hfuel. rewrite Hh.
    destruct (every_le req needRow); [|done]. simpl.
    destruct (every_le req (available st)); [|done]. simpl.
    pose proof (checkSafety_no_timeout fuel (newAvailable st req)
                  (newAllocation st pid req) (newNeed nd pid req)) as Hc.
    unfold newAllocation in Hc at 1. rewrite length_imap in Hc. specialize (Hc Hfuel).
    destruct (checkSafety _ _ _ _) as [[sf sq]| |]; [|done|done]. simpl.
    by destruct sf.
Qed.

Lemma request_admission_witness :
  let nd := map (map Some) [[7; 4; 3]; [1; 2; 2]; [6; 0; 0]; [0; 1; 1]; [4; 3; 1]]%Z in
  let needRow := map Some [7; 4; 3]%Z in
  need sample = Ret nd ∧
  nd !! Z.to_nat (process sampleRequest) = Some needRow ∧
  (0 ≤ process sampleRequest < Z.of_nat (length (allocation sample)))%Z ∧
  handleSubmitRequest 7 sample sampleRequest =
    Ret ({| maxMatrix := sampleMax;
            allocation :=
              map (map Some) [[0; 2; 0]; [2; 0; 0]; [3; 0; 2]; [2; 1; 1]; [0; 0; 2]]%Z;
            available := map Some [3; 2; 2]%Z |},
         Granted [1; 3; 4; 0; 2]) ∧
  checkSafety 7 (newAvailable sample (resources sampleRequest))
    (newAllocation sample 0 (resources sampleRequest))
    (newNeed nd 0 (resources sampleRequest)) =
    Ret {| safe := true; sequence := [1; 3; 4; 0; 2] |}.
Proof.
  intros nd needRow.
  assert (Hnd : need sample = Ret nd) by reflexivity.
  assert (Hrow : nd !! Z.to_nat (process sampleRequest) = Some needRow) by reflexivity.
  assert (Hpid : (0 ≤ process sampleRequest < Z.of_nat (length (allocation sample)))%Z)
    by (simpl; lia).
  assert (Hret : handleSubmitRequest 7 sample sampleRequest =
    Ret ({| maxMatrix := sampleMax;
            allocation :=
              map (map Some) [[0; 2; 0]; [2; 0; 0]; [3; 0; 2]; [2; 1; 1]; [0; 0; 2]]%Z;
            available := map Some [3; 2; 2]%Z |},
         Granted [1; 3; 4; 0; 2])) by reflexivity.
  split; [exact Hnd|]. split; [exact Hrow|]. split; [exact Hpid|]. split; [exact Hret|].
  destruct (request_admission 7 sample sampleRequest nd needRow Hnd Hrow Hpid)
    as (_ & _ & Hgrant & _).
  destruct (Hgrant _ _ Hret) as [Hsafe _]. exact Hsafe.
Defined.

End BanksAlgorithmFacts.

(** ** Memory fit strategies *)

Section FitAlgorithmFacts.
Import FitAlgorithm.

(** No two neighbours in the block list are both free. *)
Definition no_adjacent_free (bs : list block) : Prop :=
  ∀ i a b, bs !! i = Some a → bs !! (S i) = Some b → free a && free b = false.

Lemma totalMemory_from (bs : list block) (z : Z) :
  fold_left (λ sum b, (sum + size b)%Z) bs z = (z + totalMemory bs)%Z.
Proof.
  unfold totalMemory. revert z. induction bs as [|b bs IH]; intros z; simpl; [lia|].
  rewrite IH, (IH (0 + size b)%Z). lia.
Qed.

Lemma totalMemory_app bs1 bs2 :
  totalMemory (bs1 ++ bs2) = (totalMemory bs1 + totalMemory bs2)%Z.
Proof. unfold totalMemory at 1. by rewrite fold_left_app, totalMemory_from. Qed.

Lemma totalMemory_cons b bs : totalMemory (b :: bs) = (size b + totalMemory bs)%Z.
Proof. unfold totalMemory at 1. simpl. by rewrite totalMemory_from. Qed.

Lemma no_adjacent_free_snoc bs x :
  no_adjacent_free bs →
  (∀ y, last bs = Some y → free y && free x = false) →
  no_adjacent_free (bs ++ [x]).
Proof.
  intros Hbs Hlast i a b Ha Hb.
  destruct (decide (S i < length bs)) as [Hlt|Hge].
  - rewrite lookup_app_l in Ha, Hb by lia. by eapply Hbs.
  - pose proof (lookup_lt_Some _ _ _ Hb) as Hi. rewrite length_app in Hi. simpl in Hi.
    assert (S i = length bs) as Heq by lia.
    rewrite lookup_app_l in Ha by lia.
    rewrite lookup_app_r, Heq, Nat.sub_diag in Hb by lia. injection Hb as <-.
    apply Hlast. rewrite last_lookup, <- Heq. done.
Qed.

Lemma no_adjacent_free_snoc_inv bs x :
  no_adjacent_free (bs ++ [x]) →
  no_adjacent_free bs ∧ ∀ y, last bs = Some y → free y && free x = false.
Proof.
  intros H. split.
  - intros i a b Ha Hb. apply (H i).
    + rewrite lookup_app_l; [done|]. apply lookup_lt_Some in Ha. lia.
    + rewrite lookup_app_l; [done|]. by apply lookup_lt_Some in Hb.
  - intros y Hy. rewrite last_lookup in Hy.
    destruct bs as [|b0 bs]; [done|]. simpl in Hy.
    apply (H (length bs)).
    + rewrite lookup_app_l; [done|]. simpl. lia.
    + rewrite lookup_app_r by (simpl; lia). simpl. by rewrite Nat.sub_diag.
Qed.

Lemma absorb_total merged current :
  totalMemory (absorb merged current) = (totalMemory merged + size current)%Z.
Proof.
  unfold absorb. destruct (last merged) as [prev|] eqn:E.
  - apply last_Some in E as [l' ->].
    destruct (free current && free prev).
    + rewrite removelast_last, !totalMemory_app, !totalMemory_cons. simpl.
      unfold totalMemory at 2 4. simpl. lia.
    + rewrite !totalMemory_app, !totalMemory_cons. unfold totalMemory at 3. simpl. lia.
  - rewrite !totalMemory_app, !totalMemory_cons. unfold totalMemory at 2. simpl. lia.
Qed.

Lemma absorb_no_adjacent_free merged current :
  no_adjacent_free merged → no_adjacent_free (absorb merged current).
Proof.
  intros Hm. unfold absorb. destruct (last merged) as [prev|] eqn:E.
  - destruct (free current && free prev) eqn:Hboth.
    + apply last_Some in E as [l' ->]. rewrite removelast_last.
      apply no_adjacent_free_snoc_inv in Hm as [Hl' Hlast].
      apply no_adjacent_free_snoc; [done|]. intros y Hy. simpl. by apply Hlast.
    + apply no_adjacent_free_snoc; [done|]. intros y Hy.
      assert (y = prev) as -> by congruence. by rewrite andb_comm.
  - apply no_adjacent_free_snoc; [done|]. intros y Hy. congruence.
Qed.

Lemma coalesce_total segments : totalMemory (coalesce segments) = totalMemory segments.
Proof.
  unfold coalesce.
  assert (Hid : ∀ bs (f : nat → block → block),
             (∀ i b, size (f i b) = size b) → totalMemory (imap f bs) = totalMemory bs).
  { intros bs. induction bs as [|b bs IH]; intros f Hf; [done|].
    simpl. rewrite !totalMemory_cons, Hf, IH; [done|]. intros i b'. apply Hf. }
  rewrite Hid by done.
  assert (G : ∀ merged, totalMemory (fold_left absorb segments merged) =
                        (totalMemory merged + totalMemory segments)%Z).
  { induction segments as [|c segments IH]; intros merged; simpl.
    - unfold totalMemory at 3. simpl. lia.
    - rewrite IH, absorb_total, totalMemory_cons. lia. }
  rewrite G. unfold totalMemory at 1. simpl. lia.
Qed.

Lemma coalesce_no_adjacent_free segments : no_adjacent_free (coalesce segments).
Proof.
  unfold coalesce.
  assert (G : ∀ merged, no_adjacent_free merged →
                        no_adjacent_free (fold_left absorb segments merged)).
  { induction segments as [|c segments IH]; intros merged Hm; simpl; [done|].
    apply IH. by apply absorb_no_adjacent_free. }
  intros i a b. rewrite !list_lookup_imap.
  intros (a' & Ha & ->)%fmap_Some (b' & Hb & ->)%fmap_Some. simpl.
  eapply (G []); [|exact Ha|exact Hb]. intros j ? ? Hj. done.
Qed.

(** Every strategy returns the position of a free block that is large enough. *)
Lemma findBlockIndex_fits selectedAlgorithm st sz index :
  findBlockIndex selectedAlgorithm st sz = Some index →
  ∃ target, blocks st !! index = Some target ∧ fits sz target = true.
Proof.
  unfold findBlockIndex.
  set (ok := λ i, default false (fits sz <$> blocks st !! i)).
  assert (Hok : ∀ i, ok i = true →
                     ∃ target, blocks st !! i = Some target ∧ fits sz target = true).
  { intros i. unfold ok. destruct (blocks st !! i) as [b|]; simpl; [|done]. by exists b. }
  assert (Hfilter : ∀ l i, i ∈ List.filter ok l → ok i = true).
  { intros l i Hi. apply list_elem_of_In, filter_In in Hi. tauto. }
  destruct selectedAlgorithm; intros Hhead%head_Some_elem_of; apply Hok.
  - by eapply Hfilter.
  - apply sort_elem_of in Hhead. by eapply Hfilter.
  - apply sort_elem_of in Hhead. by eapply Hfilter.
  - by eapply Hfilter.
Qed.

Lemma split_total bs index target newBlock remainder :
  bs !! index = Some target →
  (size newBlock + default 0 (size <$> remainder) = size target)%Z →
  totalMemory (split bs index newBlock remainder) = totalMemory bs.
Proof.
  intros Ht Hsz. unfold split.
  assert (Hbs : totalMemory bs =
                (totalMemory (take index bs) + size target +
                 totalMemory (drop (S index) bs))%Z).
  { rewrite <- (take_drop_middle bs index target Ht) at 1.
    rewrite totalMemory_app, totalMemory_cons. lia. }
  rewrite Hbs, !totalMemory_app.
  change (totalMemory [newBlock]) with (size newBlock).
  destruct remainder as [r|]; simpl in Hsz.
  - change (totalMemory (option_list (Some r))) with (size r). lia.
  - change (totalMemory (option_list None)) with 0%Z. lia.
Qed.

Lemma allocate_total selectedAlgorithm requestSize now st :
  totalMemory (blocks (allocate selectedAlgorithm requestSize now st)) =
  totalMemory (blocks st).
Proof.
  unfold allocate. destruct (requestSize <=? 0)%Z; [done|].
  destruct (findBlockIndex selectedAlgorithm st requestSize) as [index|] eqn:E; [|done].
  destruct (findBlockIndex_fits _ _ _ _ E) as (target & Ht & Hfits).
  rewrite Ht. simpl. rewrite coalesce_total.
  apply (split_total _ _ target); [done|]. simpl.
  unfold fits in Hfits. apply andb_prop in Hfits as [_ Hle%Z.leb_le].
  destruct (Z.ltb_spec 0 (size target - requestSize)); simpl; lia.
Qed.

Lemma allocate_no_adjacent_free selectedAlgorithm requestSize now st :
  no_adjacent_free (blocks st) →
  no_adjacent_free (blocks (allocate selectedAlgorithm requestSize now st)).
Proof.
  intros Hst. unfold allocate. destruct (requestSize <=? 0)%Z; [done|].
  destruct (findBlockIndex selectedAlgorithm st requestSize) as [index|]; [|done].
  destruct (blocks st !! index); [|done]. simpl. apply coalesce_no_adjacent_free.
Qed.

Lemma freeProcess_total freeTarget st :
  totalMemory (blocks (freeProcess freeTarget st)) = totalMemory (blocks st).
Proof.
  unfold freeProcess. destruct freeTarget as [target|]; [|done]. simpl.
  rewrite coalesce_total. induction (blocks st) as [|b bs IH]; [done|].
  simpl. rewrite !totalMemory_cons, IH. by destruct (id b =? target)%Z.
Qed.

Lemma freeProcess_no_adjacent_free freeTarget st :
  no_adjacent_free (blocks st) → no_adjacent_free (blocks (freeProcess freeTarget st)).
Proof.
  intros Hst. unfold freeProcess. destruct freeTarget; [|done].
  simpl. apply coalesce_no_adjacent_free.
Qed.

(** On whole numbers: whatever sequence of allocations (by any of the four
    strategies), frees, coalescings and resets is performed on the initial
    single free block, the block sizes add up to the same total and no two
    neighbouring blocks are both free. *)
Lemma run_invariants :
  ∀ ops : list operation,
    totalMemory (blocks (run ops)) = totalMemory initialBlocks ∧
    no_adjacent_free (blocks (run ops)).
Proof.
  intros ops. unfold run.
  assert (G : ∀ st, totalMemory (blocks st) = totalMemory initialBlocks →
                    no_adjacent_free (blocks st) →
                    totalMemory (blocks (fold_left perform ops st)) = totalMemory initialBlocks ∧
                    no_adjacent_free (blocks (fold_left perform ops st))).
  { induction ops as [|op ops IH]; intros st Htot Hadj; [done|].
    simpl. apply IH.
    - destruct op; simpl;
        rewrite ?allocate_total, ?freeProcess_total, ?coalesce_total; done.
    - destruct op; simpl.
      + by apply allocate_no_adjacent_free.
      + by apply freeProcess_no_adjacent_free.
      + apply coalesce_no_adjacent_free.
      + intros [|i] a b Ha Hb; done. }
  apply G; [done|]. intros [|i] a b Ha Hb; done.
Qed.

(** C9 at its failing input: two Next Fit allocations of 30, the first block
    freed, then a Next Fit allocation of 20.  The block is taken at position 2
    and the hole after it is at position 3, yet the stored resume index is 0,
    the first free block of the whole list; the following Next Fit request is
    served from position 0, before the last allocation point. *)
Theorem next_fit_resume_index_example :
  let ops := [Allocate next 30 1000; Allocate next 30 2000; FreeProcess (Some 1000%Z);
              Allocate next 20 3000]%Z in
  let st := run ops in
  map (λ b, (label b, size b, free b)) (blocks st) =
    [("Free", 30, true); ("P2", 30, false); ("P3", 20, false); ("Free", 120, true)]%Z ∧
  nextFitStart (run (take 3 ops)) = 2 ∧
  findBlockIndex next (run (take 3 ops)) 20 = Some 2 ∧
  nextFitStart st = 0 ∧
  findBlockIndex next st 10 = Some 0.
Proof. vm_compute. repeat split; reflexivity. Qed.

End FitAlgorithmFacts.

(** ** CPU scheduling *)

Section ProcessSchedulingFacts.
Import ProcessScheduling.
Local Open Scope Z_scope.

(** *** The process objects *)

(** Every object sits in [data] at the position its [order] names. *)
Definition indexed (data : list job) : Prop :=
  ∀ i j, data !! i = Some j → order j = i.

Lemma prepareProcesses_lookup processes i j :
  prepareProcesses processes !! i = Some j →
  order j = i ∧ ∃ p, processes !! i = Some p ∧ j_arrival j = arrival p ∧ j_burst j = burst p.
Proof.
  unfold prepareProcesses. rewrite list_lookup_imap.
  intros (p & Hp & ->)%fmap_Some. simpl. split; [done|]. by exists p.
Qed.

Lemma activate_lookup processes i j :
  map activate (prepareProcesses processes) !! i = Some j →
  order j = i ∧ remaining j = j_burst j ∧
  ∃ p, processes !! i = Some p ∧ j_arrival j = arrival p ∧ j_burst j = burst p.
Proof.
  rewrite list_lookup_fmap. intros (j0 & Hj0 & ->)%fmap_Some.
  apply prepareProcesses_lookup in Hj0 as (Ho & p & Hp & Ha & Hb). simpl.
  repeat split; [done|]. by exists p.
Qed.

Lemma activate_indexed processes : indexed (map activate (prepareProcesses processes)).
Proof. intros i j Hj. by apply activate_lookup in Hj as (? & _). Qed.

Lemma activate_length processes :
  length (map activate (prepareProcesses processes)) = length processes.
Proof. unfold prepareProcesses. by rewrite length_map, length_imap. Qed.

Lemma arrivalOf_indexed data j :
  indexed data → j ∈ data → arrivalOf data (order j) = j_arrival j.
Proof.
  intros Hidx (i & Hi)%list_elem_of_lookup. unfold arrivalOf.
  by rewrite (Hidx i j Hi), Hi.
Qed.

(** *** The pending list is in arrival order *)

Definition by_arrival (data : list job) : relation nat :=
  λ i j, arrivalOf data i ≤ arrivalOf data j.

#[local] Instance by_arrival_trans data : Transitive (by_arrival data).
Proof. unfold by_arrival. intros i j k. lia. Qed.

#[local] Instance job_arrival_trans : Transitive (λ a b : job, j_arrival a ≤ j_arrival b).
Proof. intros i j k. lia. Qed.

Lemma sortByArrival_sorted data :
  StronglySorted (λ a b, j_arrival a ≤ j_arrival b) (sort sortByArrival data).
Proof.
  apply sort_sorted; [apply _| |]; intros a b; unfold sortByArrival;
    destruct (Z.eqb_spec (j_arrival a) (j_arrival b)); lia.
Qed.

Lemma pending_sorted data :
  indexed data → StronglySorted (by_arrival data) (map order (sort sortByArrival data)).
Proof.
  intros Hidx.
  assert (G : ∀ l, (∀ j, j ∈ l → j ∈ data) →
                   StronglySorted (λ a b, j_arrival a ≤ j_arrival b) l →
                   StronglySorted (by_arrival data) (map order l)).
  { induction l as [|a l IH]; intros Hin Hl; [constructor|].
    apply StronglySorted_cons in Hl as [Ha Hl]. simpl.
    apply StronglySorted_cons. split.
    - apply Forall_fmap, Forall_forall. intros b Hb. unfold by_arrival. simpl.
      rewrite !arrivalOf_indexed; try done.
      + rewrite Forall_forall in Ha. by apply Ha.
      + apply Hin. by right.
      + apply Hin. by left.
    - apply IH; [|done]. intros j Hj. apply Hin. by right. }
  apply G; [|apply sortByArrival_sorted].
  intros j Hj. by apply sort_elem_of in Hj.
Qed.

(** On a pending list in arrival order the arrival loop moves exactly the
    processes that have arrived by [time]. *)
Lemma enqueue_arrivals_sorted data time pending ready :
  StronglySorted (by_arrival data) pending →
  enqueue_arrivals data time pending ready =
  (List.filter (λ i, negb (arrivalOf data i <=? time)) pending,
   ready ++ List.filter (λ i, arrivalOf data i <=? time) pending).
Proof.
  revert ready. induction pending as [|i pending IH]; intros ready Hs; simpl.
  { by rewrite app_nil_r. }
  apply StronglySorted_cons in Hs as [Hi Hs].
  destruct (Z.leb_spec (arrivalOf data i) time) as [Hle|Hgt]; simpl.
  - rewrite IH by done. by rewrite <- app_assoc.
  - assert (Hall : ∀ j, j ∈ pending → (arrivalOf data j <=? time) = false).
    { intros j Hj. rewrite Forall_forall in Hi. specialize (Hi j Hj).
      unfold by_arrival in Hi. apply Z.leb_gt. lia. }
    assert (Hnone : List.filter (λ i, arrivalOf data i <=? time) pending = []).
    { clear -Hall. induction pending as [|j pending IH]; [done|]. simpl.
      rewrite (Hall j) by (by left). apply IH. intros k Hk. apply Hall. by right. }
    assert (Hsame : List.filter (λ i, negb (arrivalOf data i <=? time)) pending = pending).
    { clear -Hall. induction pending as [|j pending IH]; [done|]. simpl.
      rewrite (Hall j) by (by left). simpl. f_equal. apply IH.
      intros k Hk. apply Hall. by right. }
    by rewrite Hnone, Hsame, app_nil_r.
Qed.

Lemma arrivalOf_insert data c j j' i :
  data !! c = Some j → j_arrival j' = j_arrival j →
  arrivalOf (<[c := j']> data) i = arrivalOf data i.
Proof.
  intros Hc Ha. unfold arrivalOf. destruct (decide (c = i)) as [->|Hne].
  - rewrite list_lookup_insert_eq by (by eapply lookup_lt_Some). rewrite Hc. simpl. done.
  - by rewrite list_lookup_insert_ne.
Qed.

Lemma markStarted_arrival t j : j_arrival (markStarted t j) = j_arrival j.
Proof. unfold markStarted. by destruct (startTime j). Qed.

Lemma markStarted_remaining t j : remaining (markStarted t j) = remaining j.
Proof. unfold markStarted. by destruct (startTime j). Qed.

Lemma by_arrival_ext data data' pending :
  (∀ i, arrivalOf data' i = arrivalOf data i) →
  StronglySorted (by_arrival data) pending → StronglySorted (by_arrival data') pending.
Proof.
  intros Hext Hs. induction Hs as [|i pending Hs IH Hi]; constructor; [done|].
  eapply Forall_impl; [exact Hi|]. intros j. unfold by_arrival. by rewrite !Hext.
Qed.

(** What one turn of Round Robin does when a process is at the head of the
    ready queue after the arrivals up to [time] were enqueued. *)
Lemma rr_turn_run quantum st pending1 c ready2 current st' :
  StronglySorted (by_arrival (data st)) (pending st) →
  enqueue_arrivals (data st) (time st) (pending st) (ready st) = (pending1, c :: ready2) →
  data st !! c = Some current →
  rr_turn quantum st = Ret st' →
  let runTime := Z.min quantum (remaining current) in
  let left := remaining current - runTime in
  let arrived := List.filter (λ i, arrivalOf (data st) i <=? time st + runTime) pending1 in
  time st' = time st + runTime ∧
  pending st' =
    List.filter (λ i, negb (arrivalOf (data st) i <=? time st + runTime)) pending1 ∧
  ready st' = ready2 ++ arrived ++ (if 0 <? left then [c] else []) ∧
  (∃ current', data st' = <[c := current']> (data st) ∧ remaining current' = left ∧
               j_arrival current' = j_arrival current).
Proof.
  intros Hs Henq Hc. unfold rr_turn. rewrite Henq, Hc.
  rewrite !markStarted_remaining.
  assert (Hs1 : StronglySorted (by_arrival (data st)) pending1).
  { rewrite enqueue_arrivals_sorted in Henq by done. injection Henq as <- _.
    by apply filter_sorted. }
  rewrite (enqueue_arrivals_sorted _ _ pending1 ready2 Hs1).
  cbn [remaining set_remaining].
  destruct (0 <? remaining current - Z.min quantum (remaining current)) eqn:Hleft;
    intros [= <-]; simpl; repeat split; try done.
  - by rewrite <- app_assoc.
  - eexists. split; [done|]. simpl. by rewrite markStarted_arrival.
  - by rewrite app_nil_r.
  - eexists. split; [done|]. simpl. by rewrite markStarted_arrival.
Qed.

Lemma rr_turn_sorted quantum st st' :
  StronglySorted (by_arrival (data st)) (pending st) →
  rr_turn quantum st = Ret st' →
  StronglySorted (by_arrival (data st')) (pending st').
Proof.
  intros Hs Hturn.
  destruct (enqueue_arrivals (data st) (time st) (pending st) (ready st))
    as [pending1 ready1] eqn:Henq.
  assert (Hs1 : StronglySorted (by_arrival (data st)) pending1).
  { rewrite enqueue_arrivals_sorted in Henq by done. injection Henq as <- _.
    by apply filter_sorted. }
  destruct ready1 as [|c ready2].
  - unfold rr_turn in Hturn. rewrite Henq in Hturn.
    destruct pending1; [done|]. by injection Hturn as <-.
  - destruct (data st !! c) as [current|] eqn:Hc.
    + destruct (rr_turn_run _ _ _ _ _ _ _ Hs Henq Hc Hturn)
        as (_ & -> & _ & current' & -> & _ & Harr).
      apply (by_arrival_ext (data st)).
      * intros i. by eapply arrivalOf_insert.
      * by apply filter_sorted.
    + unfold rr_turn in Hturn. by rewrite Henq, Hc in Hturn.
Qed.

Lemma rr_after_sorted n quantum st st' :
  StronglySorted (by_arrival (data st)) (pending st) →
  rr_after n quantum st = Ret st' →
  StronglySorted (by_arrival (data st')) (pending st').
Proof.
  revert st. induction n as [|n IH]; intros st Hs; simpl.
  { by intros [= <-]. }
  assert (Hgo : (st0 ← rr_turn quantum st; rr_after n quantum st0) = Ret st' →
                StronglySorted (by_arrival (data st')) (pending st')).
  { destruct (rr_turn quantum st) as [st1| |] eqn:Hturn; try done. simpl.
    apply IH. by eapply rr_turn_sorted. }
  destruct (ready st) eqn:Hr, (pending st) eqn:Hp; try done.
  intros [= <-]. by rewrite Hp.
Qed.

Lemma rr_initial_sorted processes :
  StronglySorted (by_arrival (data (rr_initial processes))) (pending (rr_initial processes)).
Proof. simpl. apply pending_sorted, activate_indexed. Qed.

(** C7: in every turn of Round Robin that runs a process [c], the processes
    whose arrival time lies within or at the end of the slice are appended to
    the ready queue after the slice, in arrival order, and [c], if it is not
    finished, is re-enqueued behind them. *)
Theorem rr_arrivals_precede_preempted :
  ∀ (processes : list process) (quantum : Z) (n : nat) (st st' : rr_state)
    (pending1 ready2 : list nat) (c : nat) (current : job),
    rr_after n quantum (rr_initial processes) = Ret st →
    enqueue_arrivals (data st) (time st) (pending st) (ready st) = (pending1, c :: ready2) →
    data st !! c = Some current →
    rr_turn quantum st = Ret st' →
    let runTime := Z.min quantum (remaining current) in
    let arrived := List.filter (λ i, arrivalOf (data st) i <=? time st + runTime) pending1 in
    let preempted := if 0 <? remaining current - runTime then [c] else [] in
    time st' = time st + runTime ∧
    (∀ i, i ∈ pending1 →
          (time st < arrivalOf (data st) i ≤ time st + runTime ↔ i ∈ arrived)) ∧
    ready st' = ready2 ++ arrived ++ preempted ∧
    pending st' =
      List.filter (λ i, negb (arrivalOf (data st) i <=? time st + runTime)) pending1.
Proof.
  intros processes quantum n st st' pending1 ready2 c current Hafter Henq Hc Hturn.
  pose proof (rr_after_sorted _ _ _ _ (rr_initial_sorted processes) Hafter) as Hs.
  destruct (rr_turn_run _ _ _ _ _ _ _ Hs Henq Hc Hturn) as (Ht & Hp & Hr & _).
  cbv zeta. split; [done|]. split; [|by split].
  intros i Hi.
  assert (Hgt : time st < arrivalOf (data st) i).
  { rewrite enqueue_arrivals_sorted in Henq by done. injection Henq as <- _.
    apply list_elem_of_In, filter_In in Hi as [_ Hgt].
    by apply negb_true_iff, Z.leb_gt in Hgt. }
  rewrite list_elem_of_In, filter_In, <- list_elem_of_In, Z.leb_le.
  split; intros [_ Hle]; by split.
Qed.

Lemma rr_arrivals_precede_preempted_witness :
  let processes := initialProcesses in
  let st := rr_initial processes in
  ∃ current st',
    rr_after 0 2 (rr_initial processes) = Ret st ∧
    enqueue_arrivals (data st) (time st) (pending st) (ready st) = ([1; 2]%nat, [0%nat]) ∧
    data st !! 0%nat = Some current ∧
    rr_turn 2 st = Ret st' ∧
    ready st' = [1; 2; 0]%nat ∧ pending st' = [] ∧ time st' = 2.
Proof.
  intros processes st.
  eexists _, _. split; [reflexivity|]. split; [reflexivity|].
  split; [reflexivity|]. split; [reflexivity|].
  destruct (rr_arrivals_precede_preempted processes 2 0 st _ [1; 2]%nat [] 0%nat _
              eq_refl eq_refl eq_refl eq_refl) as (Ht & _ & Hr & Hp).
  split; [exact Hr|]. split; [exact Hp|exact Ht].
Defined.

(** *** The runners return *)

(** The CPU time still owed to the processes. *)
Definition work (data : list job) : nat :=
  sum_list (map (λ j, Z.to_nat (remaining j)) data).

(** The pending processes that have not arrived by [t]. *)
Definition waiting (data : list job) (t : Z) (pending : list nat) : nat :=
  length (List.filter (λ i, t <? arrivalOf data i) pending).

Lemma work_insert data c j j' :
  data !! c = Some j →
  (work (<[c := j']> data) + Z.to_nat (remaining j) =
   work data + Z.to_nat (remaining j'))%nat.
Proof.
  unfold work. revert c. induction data as [|j0 data IH]; intros [|c] Hc; try done;
    simpl in *.
  - injection Hc as ->. lia.
  - specialize (IH c Hc). lia.
Qed.

Lemma waiting_le data data' t t' pre pending :
  (∀ i, arrivalOf data' i = arrivalOf data i) → t ≤ t' →
  (waiting data' t' pending ≤ waiting data t (pre ++ pending))%nat.
Proof.
  intros Harr Ht. unfold waiting. rewrite List.filter_app, length_app.
  etrans; [|apply Nat.le_add_l].
  apply filter_length_le. intros i _. rewrite Harr. lia.
Qed.

Lemma waiting_lt data t i pending :
  i ∈ pending → t < arrivalOf data i →
  (waiting data (arrivalOf data i) pending < waiting data t pending)%nat.
Proof.
  intros Hi Ht. unfold waiting. apply (filter_length_lt _ _ _ i); try done; lia.
Qed.

(** The arrival loop moves a prefix of [pending] to the back of [ready], and
    stops in front of a process that has not arrived. *)
Lemma enqueue_arrivals_shape data t pending ready pending1 ready1 :
  enqueue_arrivals data t pending ready = (pending1, ready1) →
  ∃ moved, pending = moved ++ pending1 ∧ ready1 = ready ++ moved ∧
           ∀ i rest, pending1 = i :: rest → t < arrivalOf data i.
Proof.
  revert ready. induction pending as [|i pending IH]; intros ready; simpl.
  { intros [= <- <-]. exists []. by rewrite !app_nil_r. }
  destruct (Z.leb_spec (arrivalOf data i) t) as [Hle|Hgt].
  - intros (moved & -> & -> & Hhead)%IH. exists (i :: moved).
    by rewrite <- app_assoc.
  - intros [= <- <-]. exists []. rewrite !app_nil_r. repeat split.
    intros i' rest [= <- _]. done.
Qed.

Definition rr_measure (st : rr_state) : nat :=
  (work (data st) + length (pending st) + length (ready st) +
   waiting (data st) (time st) (pending st))%nat.

(** The queues hold positions of [data], and no process owes negative time. *)
Definition rr_valid (st : rr_state) : Prop :=
  (∀ i, i ∈ pending st ++ ready st → (i < length (data st))%nat) ∧
  Forall (λ j, 0 ≤ remaining j) (data st).

(** Every turn of Round Robin brings the loop closer to its exit. *)
Lemma rr_turn_progress quantum st :
  0 < quantum → rr_valid st → (ready st ≠ [] ∨ pending st ≠ []) →
  ∃ st', rr_turn quantum st = Ret st' ∧ rr_valid st' ∧
         (rr_measure st' < rr_measure st)%nat.
Proof.
  intros Hq [Hvalid Hnonneg] Hwork. unfold rr_turn.
  destruct (enqueue_arrivals (data st) (time st) (pending st) (ready st))
    as [pending1 ready1] eqn:Henq.
  destruct (enqueue_arrivals_shape _ _ _ _ _ _ Henq) as (moved & Hp & -> & Hhead).
  destruct (ready st ++ moved) as [|c ready2] eqn:Hready.
  - apply app_eq_nil in Hready as [Hr ->]. simpl in Hp.
    destruct Hwork as [?|Hpn]; [done|].
    destruct pending1 as [|i rest]; [congruence|].
    eexists. split; [done|]. split.
    + split; simpl; [|done]. intros k Hk. apply Hvalid. by rewrite Hp, Hr.
    + unfold rr_measure. simpl. rewrite Hp, Hr. simpl.
      pose proof (waiting_lt (data st) (time st) i (i :: rest)) as Hlt.
      specialize (Hlt ltac:(by left) (Hhead _ _ eq_refl)). lia.
  - assert (Hc : (c < length (data st))%nat).
    { apply Hvalid. rewrite Hp. assert (c ∈ ready st ++ moved) as Hin
        by (rewrite Hready; by left).
      rewrite !elem_of_app in *. tauto. }
    destruct (lookup_lt_is_Some_2 _ _ Hc) as [current Hcur]. rewrite Hcur.
    pose proof (Forall_lookup_1 _ _ _ _ Hnonneg Hcur) as Hr0. simpl in Hr0.
    rewrite !markStarted_remaining. cbn [remaining set_remaining].
    set (runTime := Z.min quantum (remaining current)).
    set (left := remaining current - runTime).
    assert (Hrun : 0 ≤ runTime ∧ 0 ≤ left ∧
                   (0 < remaining current → left < remaining current)) by lia.
    destruct (enqueue_arrivals (data st) (time st + runTime) pending1 ready2)
      as [pending2 ready3] eqn:Henq2.
    destruct (enqueue_arrivals_shape _ _ _ _ _ _ Henq2) as (moved2 & Hp1 & -> & _).
    assert (Hlen : (length (pending st) + length (ready st) =
                    length pending2 + length moved2 + S (length ready2))%nat).
    { rewrite Hp, Hp1, !length_app. apply (f_equal length) in Hready.
      rewrite length_app in Hready. simpl in Hready. lia. }
    assert (Hin : ∀ k, k ∈ pending2 ++ ready2 ++ moved2 ++ [c] →
                       (k < length (data st))%nat).
    { intros k Hk. apply Hvalid. rewrite Hp, Hp1.
      assert (k ∈ ready st ++ moved ↔ k = c ∨ k ∈ ready2) as Hkc
        by (rewrite Hready; apply elem_of_cons).
      rewrite !elem_of_app, list_elem_of_singleton in *. tauto. }
    assert (Harr : ∀ current' k, j_arrival current' = j_arrival current →
                     arrivalOf (<[c := current']> (data st)) k = arrivalOf (data st) k).
    { intros current' k Ha. by eapply arrivalOf_insert. }
    assert (Hwait : ∀ current', j_arrival current' = j_arrival current →
              (waiting (<[c := current']> (data st)) (time st + runTime) pending2 ≤
               waiting (data st) (time st) (pending st))%nat).
    { intros current' Ha. rewrite Hp, Hp1, app_assoc.
      apply waiting_le; [intros k; by apply Harr|lia]. }
    destruct (Z.ltb_spec 0 left) as [Hleft|Hleft].
    + eexists. split; [done|]. split.
      * split; simpl; [|apply Forall_insert; [done|simpl; lia]].
        intros k Hk. rewrite length_insert. apply Hin.
        rewrite !elem_of_app in *. tauto.
      * unfold rr_measure. simpl. rewrite !length_app. simpl.
        pose proof (work_insert (data st) c current
                      (set_remaining left (markStarted (time st) current)) Hcur) as Hw.
        simpl in Hw. specialize (Hwait (set_remaining left (markStarted (time st) current))
                                   (markStarted_arrival _ _)).
        lia.
    + eexists. split; [done|]. split.
      * split; simpl; [|apply Forall_insert; [done|simpl; lia]].
        intros k Hk. rewrite length_insert. apply Hin.
        rewrite !elem_of_app in *. tauto.
      * unfold rr_measure. simpl. rewrite !length_app.
        pose proof (work_insert (data st) c current
                      (set_completionTime (time st + runTime)
                         (set_remaining left (markStarted (time st) current))) Hcur) as Hw.
        simpl in Hw.
        specialize (Hwait (set_completionTime (time st + runTime)
                             (set_remaining left (markStarted (time st) current)))
                      (markStarted_arrival _ _)).
        lia.
Qed.

Lemma rr_loop_returns quantum fuel st :
  0 < quantum → rr_valid st → (rr_measure st < fuel)%nat →
  ∃ st', rr_loop fuel quantum st = Ret st' ∧ length (data st') = length (data st).
Proof.
  intros Hq. revert st. induction fuel as [|fuel IH]; intros st Hvalid Hfuel; [lia|].
  simpl. destruct (ready st) as [|r0 rs] eqn:Hr, (pending st) as [|p0 ps] eqn:Hp;
    [by eexists| | |];
    (destruct (rr_turn_progress quantum st Hq Hvalid) as (st1 & Hturn & Hvalid1 & Hlt);
     [rewrite Hr, Hp; by (left + right)|];
     rewrite Hturn; simpl;
     destruct (IH st1 Hvalid1) as (st' & Hloop & Hlen); [lia|];
     exists st'; split; [done|]; rewrite Hlen;
     clear -Hturn; unfold rr_turn in Hturn;
     destruct (enqueue_arrivals _ _ _ _) as [p1 [|c r2]];
     [destruct p1; [done|]; by injection Hturn as <-|];
     destruct (data st !! c); [|done];
     destruct (enqueue_arrivals _ _ _ _); destruct (0 <? _);
     injection Hturn as <-; simpl; by rewrite length_insert).
Qed.

(** *** The non-preemptive runner *)

Lemma remove_length x pending :
  pending ≠ [] → (length (remove x pending) + 1 = length pending)%nat.
Proof.
  intros Hne. unfold remove.
  destruct (list_find _ pending) as [[removalIndex y]|] eqn:Hfind.
  - apply list_find_Some in Hfind as (Hy & _). rewrite length_delete by done.
    apply lookup_lt_Some in Hy. lia.
  - rewrite removelast_firstn_len, length_take. destruct pending; [done|]. simpl. lia.
Qed.

(** The schedule entries are all written by [report]. *)
Definition entry_ok (e : entry) : Prop :=
  turnaroundTime e = e_completionTime e - j_arrival (e_job e) ∧
  waitingTime e = turnaroundTime e - j_burst (e_job e).

Lemma report_ok j startTime completionTime : entry_ok (report j startTime completionTime).
Proof. by split. Qed.

Lemma nonPreemptive_loop_returns comparator fuel pending schedule time :
  (2 * length pending <
   fuel + (if List.filter (λ p, (j_arrival p <=? time)%Z) pending is [] then 0 else 1))%nat →
  Forall entry_ok schedule →
  ∃ schedule', nonPreemptive_loop fuel comparator pending schedule time = Ret schedule' ∧
               Forall entry_ok schedule' ∧
               (length schedule' = length schedule + length pending)%nat.
Proof.
  revert pending schedule time.
  induction fuel as [|fuel IH]; intros pending schedule time Hfuel Hok.
  { destruct pending as [|p rest]; [simpl in Hfuel; lia|].
    destruct (List.filter _ (p :: rest)); simpl length in Hfuel; lia. }
  simpl. destruct pending as [|p0 rest] eqn:Hp.
  { exists schedule. split; [done|]. split; [done|]. simpl. lia. }
  rewrite <- Hp in *.
  set (available := List.filter (λ p, j_arrival p <=? time) pending) in *.
  destruct (sort comparator available) as [|nextProcess sorted] eqn:Hsort.
  - assert (available = []) as Havail.
    { apply (f_equal length) in Hsort. rewrite sort_length in Hsort.
      by destruct available. }
    rewrite Havail in Hfuel.
    apply IH; [|done].
    assert (p0 ∈ List.filter (λ p, j_arrival p <=? j_arrival p0) pending) as Hin.
    { apply list_elem_of_In, filter_In. split; [|lia]. rewrite Hp. by left. }
    destruct (List.filter (λ p, j_arrival p <=? j_arrival p0) pending);
      [by apply elem_of_nil in Hin|lia].
  - assert (available ≠ []) as Havail.
    { intros Hnil. rewrite Hnil in Hsort. done. }
    destruct available as [|a0 available']; [done|]. clear Havail.
    pose proof (remove_length nextProcess pending) as Hrem.
    specialize (Hrem ltac:(by rewrite Hp)).
    destruct (IH (remove nextProcess pending)
                (schedule ++
                   [report nextProcess (Z.max time (j_arrival nextProcess))
                      (Z.max time (j_arrival nextProcess) + j_burst nextProcess)])
                (Z.max time (j_arrival nextProcess) + j_burst nextProcess))
      as (schedule' & Hloop & Hok' & Hlen).
    + destruct (List.filter _ (remove nextProcess pending)); lia.
    + apply Forall_app. split; [done|]. apply Forall_singleton, report_ok.
    + exists schedule'. split; [done|]. split; [done|].
      rewrite Hlen, length_app. simpl. lia.
Qed.

(** *** The preemptive runner *)

Definition unfinished_jobs (data : list job) : nat :=
  length (List.filter (λ p, 0 <? remaining p) data).

Definition late_jobs (data : list job) (t : Z) : nat :=
  length (List.filter (λ p, (t <? j_arrival p) && (0 <? remaining p)) data).

Lemma minArrival_spec l a :
  minArrival l = Some a →
  (∃ p, p ∈ l ∧ j_arrival p = a) ∧ ∀ p, p ∈ l → a ≤ j_arrival p.
Proof.
  unfold minArrival.
  assert (G : ∀ l acc a,
             fold_left (λ min p, match min with
                                 | None => Some (j_arrival p)
                                 | Some m => Some (Z.min m (j_arrival p))
                                 end) l acc = Some a →
             ((acc = Some a ∨ ∃ p, p ∈ l ∧ j_arrival p = a) ∧
              (∀ m, acc = Some m → a ≤ m) ∧ ∀ p, p ∈ l → a ≤ j_arrival p)).
  { clear. induction l as [|p l IH]; intros acc a; simpl.
    - intros ->. split; [by left|]. split; [by intros m [= ->]|].
      intros p Hp. by apply elem_of_nil in Hp.
    - intros (Hex & Hacc & Hall)%IH.
      assert (Hp : a ≤ j_arrival p).
      { destruct acc as [m|]; [specialize (Hacc _ eq_refl); lia|].
        by specialize (Hacc _ eq_refl). }
      split; [|split].
      + destruct Hex as [Hex|(q & Hq & Ha)].
        * destruct acc as [m|].
          -- injection Hex as Hex. destruct (Z.min_spec m (j_arrival p)) as [[_ Hm]|[_ Hm]].
             ++ left. by rewrite <- Hex, Hm.
             ++ right. exists p. split; [by left|]. by rewrite <- Hex, Hm.
          -- injection Hex as Hex. right. exists p. split; [by left|done].
        * right. exists q. split; [by right|done].
      + intros m ->. specialize (Hacc _ eq_refl). lia.
      + intros q [->|Hq]%elem_of_cons; [done|by apply Hall]. }
  intros H. destruct (G l None a H) as ([?|Hex] & _ & Hall); [done|]. by split.
Qed.

Lemma preemptive_loop_returns comparator fuel data time :
  indexed data → (unfinished_jobs data + late_jobs data time < fuel)%nat →
  ∃ data', preemptive_loop fuel comparator data time = Ret data' ∧
           length data' = length data.
Proof.
  revert data time. induction fuel as [|fuel IH]; intros data time Hidx Hfuel; [lia|].
  simpl. destruct (negb (existsb _ data)); [by eexists|].
  set (available :=
         List.filter (λ p, (j_arrival p <=? time) && (0 <? remaining p)) data).
  destruct (sort comparator available) as [|chosen sorted] eqn:Hsort.
  - assert (available = []) as Havail.
    { apply (f_equal length) in Hsort. rewrite sort_length in Hsort.
      by destruct available. }
    destruct (minArrival _) as [nextArrival|] eqn:Hmin; [|by eexists].
    apply minArrival_spec in Hmin as ((p & Hp & Ha) & Hall).
    apply list_elem_of_In, filter_In in Hp as [Hp Hrem]. apply list_elem_of_In in Hp.
    assert (Hlate : time < j_arrival p).
    { destruct (Z.leb_spec (j_arrival p) time) as [Hle|]; [|done]. exfalso.
      assert (p ∈ available) as Hin.
      { apply list_elem_of_In, filter_In. split; [by apply list_elem_of_In|].
        apply andb_true_intro. split; [lia|done]. }
      rewrite Havail in Hin. by apply elem_of_nil in Hin. }
    apply IH; [done|].
    assert (late_jobs data nextArrival < late_jobs data time)%nat; [|lia].
    apply (filter_length_lt _ _ _ p); try done.
    + intros q _. lia.
    + apply andb_true_intro. split; [lia|done].
    + apply andb_false_intro1. lia.
  - assert (chosen ∈ available) as Hin.
    { apply (sort_elem_of comparator). rewrite Hsort. by left. }
    apply list_elem_of_In, filter_In in Hin as [Hin Hc]. apply list_elem_of_In in Hin.
    apply andb_prop in Hc as [Harr%Z.leb_le Hrem%Z.ltb_lt].
    assert (Hlook : data !! order chosen = Some chosen).
    { apply list_elem_of_lookup in Hin as [i Hi]. by rewrite (Hidx i chosen Hi). }
    rewrite markStarted_remaining.
    set (nextArrival := minArrival _).
    set (finishTime := time + remaining chosen).
    set (nextTime := match nextArrival with
                     | Some a => if a <? finishTime then a else finishTime
                     | None => finishTime
                     end).
    cbn [remaining set_remaining].
    set (left := remaining chosen - (nextTime - time)).
    set (current' := if left =? 0
                     then set_completionTime nextTime
                            (set_remaining left (markStarted time chosen))
                     else set_remaining left (markStarted time chosen)).
    assert (Hcur : order current' = order chosen ∧ j_arrival current' = j_arrival chosen ∧
                   remaining current' = left).
    { unfold current', markStarted. destruct (left =? 0), (startTime chosen); done. }
    destruct Hcur as (Hco & Hca & Hcr).
    assert (Hidx' : indexed (<[order chosen := current']> data)).
    { intros i j Hj. destruct (decide (order chosen = i)) as [<-|Hne].
      - rewrite list_lookup_insert_eq in Hj by (by eapply lookup_lt_Some).
        by injection Hj as <-.
      - rewrite list_lookup_insert_ne in Hj by done. by apply Hidx. }
    assert (Hcases : (time < nextTime ∧ left = 0) ∨
                     (0 < left ∧ ∃ p, p ∈ data ∧ time < j_arrival p ∧ 0 < remaining p ∧
                                      nextTime = j_arrival p)).
    { unfold left, nextTime, finishTime. destruct nextArrival as [a|] eqn:Hmin; [|left; lia].
      destruct (Z.ltb_spec a (time + remaining chosen)) as [Hlt|Hge]; [|left; lia].
      right. apply minArrival_spec in Hmin as ((p & Hp & Ha) & _).
      apply list_elem_of_In, filter_In in Hp as [Hp Hq]. apply list_elem_of_In in Hp.
      apply andb_prop in Hq as [Hq1%Z.ltb_lt Hq2%Z.ltb_lt].
      split; [lia|]. exists p. repeat split; try done; lia. }
    destruct (IH (<[order chosen := current']> data) nextTime Hidx')
      as (data' & Hloop & Hlen).
    + assert (Hu : (unfinished_jobs (<[order chosen := current']> data) + 1 =
                    unfinished_jobs data + (if (0 <? left)%Z then 1 else 0))%nat).
      { pose proof (filter_insert_length (λ p, 0 <? remaining p) data (order chosen)
                      chosen current' Hlook) as Hu.
        simpl in Hu. rewrite Hcr in Hu.
        by replace (0 <? remaining chosen) with true in Hu
          by (symmetry; by apply Z.ltb_lt). }
      assert (Hnext : time ≤ nextTime)
        by (destruct Hcases as [?|(? & p & ? & ? & ? & ->)]; lia).
      assert (Hl : late_jobs (<[order chosen := current']> data) nextTime =
                   late_jobs data nextTime).
      { pose proof (filter_insert_length
                      (λ p, (nextTime <? j_arrival p) && (0 <? remaining p)) data
                      (order chosen) chosen current' Hlook) as Hl.
        simpl in Hl. rewrite Hca in Hl.
        replace (nextTime <? j_arrival chosen) with false in Hl
          by (symmetry; apply Z.ltb_ge; lia).
        simpl in Hl. unfold late_jobs. lia. }
      assert (Hmono : (late_jobs data nextTime ≤ late_jobs data time)%nat).
      { apply filter_length_le. intros q _ [H1%Z.ltb_lt H2]%andb_prop.
        apply andb_true_intro. split; [lia|done]. }
      destruct Hcases as [[_ Hz]|(Hpos & p & Hp & Hp1 & Hp2 & Hp3)].
      * replace (0 <? left) with false in Hu by (symmetry; apply Z.ltb_ge; lia). lia.
      * replace (0 <? left) with true in Hu by (symmetry; by apply Z.ltb_lt).
        assert (Hstrict : (late_jobs data nextTime < late_jobs data time)%nat).
        { apply (filter_length_lt _ _ _ p); try done.
          - intros q _ [H1%Z.ltb_lt H2]%andb_prop. apply andb_true_intro. split; [lia|done].
          - apply andb_true_intro. split; lia.
          - apply andb_false_intro1. lia. }
        lia.
    + exists data'. split; [|by rewrite Hlen, length_insert].
      rewrite <- Hloop. unfold current', left, nextTime, finishTime, nextArrival. done.
Qed.

(** *** The multi-level feedback queue *)

Lemma update_length data i f : length (update data i f) = length data.
Proof. unfold update. destruct (data !! i); [by rewrite length_insert|done]. Qed.

Lemma update_Forall (P : job → Prop) data i f :
  (∀ j, P j → P (f j)) → Forall P data → Forall P (update data i f).
Proof.
  intros Hf HP. unfold update. destruct (data !! i) as [j|] eqn:Hj; [|done].
  apply Forall_insert; [done|]. apply Hf. by eapply (Forall_lookup_1 _ _ _ _ HP Hj).
Qed.

Lemma update_work data i f :
  (∀ j, remaining (f j) = remaining j) → work (update data i f) = work data.
Proof.
  intros Hf. unfold update. destruct (data !! i) as [j|] eqn:Hj; [|done].
  pose proof (work_insert data i j (f j) Hj) as Hw. rewrite Hf in Hw. lia.
Qed.

Lemma update_arrival data i f k :
  (∀ j, j_arrival (f j) = j_arrival j) →
  arrivalOf (update data i f) k = arrivalOf data k.
Proof.
  intros Hf. unfold update. destruct (data !! i) as [j|] eqn:Hj; [|done].
  by eapply arrivalOf_insert.
Qed.

Lemma concat_insert_length (queues : list (list nat)) l q q' :
  queues !! l = Some q →
  (length (concat (<[l := q']> queues)) + length q =
   length (concat queues) + length q')%nat.
Proof.
  revert l. induction queues as [|q0 queues IH]; intros [|l] Hl; try done; simpl in *.
  - injection Hl as ->. rewrite !length_app. lia.
  - specialize (IH l Hl). rewrite !length_app. lia.
Qed.

Lemma concat_insert_elem_of (queues : list (list nat)) l q' k :
  k ∈ concat (<[l := q']> queues) → k ∈ concat queues ∨ k ∈ q'.
Proof.
  revert l. induction queues as [|q0 queues IH]; intros [|l]; simpl; try by left.
  - rewrite !elem_of_app. tauto.
  - rewrite !elem_of_app. intros [?|Hk]; [tauto|]. destruct (IH l Hk); tauto.
Qed.

Lemma elem_of_concat (queues : list (list nat)) k :
  k ∈ concat queues ↔ ∃ q, q ∈ queues ∧ k ∈ q.
Proof.
  rewrite list_elem_of_In, in_concat. split; intros (q & Hq & Hk); exists q;
    by rewrite ?list_elem_of_In in *.
Qed.

Lemma push_length queues l i : length (push queues l i) = length queues.
Proof. unfold push. destruct (queues !! l); [by rewrite length_insert|done]. Qed.

Lemma push_concat_length queues l i :
  (length (concat (push queues l i)) ≤ length (concat queues) + 1)%nat.
Proof.
  unfold push. destruct (queues !! l) as [q|] eqn:Hq; [|lia].
  pose proof (concat_insert_length queues l q (q ++ [i]) Hq) as H.
  rewrite length_app in H. simpl in H. lia.
Qed.

Lemma push_elem_of queues l i k :
  k ∈ concat (push queues l i) → k ∈ concat queues ∨ k = i.
Proof.
  unfold push. destruct (queues !! l) as [q|] eqn:Hq; [|by left].
  intros [?|Hk]%concat_insert_elem_of; [by left|].
  apply elem_of_app in Hk as [Hk|Hk%list_elem_of_singleton]; [|by right].
  left. apply elem_of_concat. exists q. split; [|done]. by eapply list_elem_of_lookup_2.
Qed.

(** What the arrival loop of the feedback queue leaves behind. *)
Inductive enqueued (data : list job) (t : Z) (pending : list nat)
    (queues : list (list nat)) (data' : list job) (pending' : list nat)
    (queues' : list (list nat)) : Prop :=
| Enqueued (moved : list nat)
    (enq_pending : pending = moved ++ pending')
    (enq_length : length data' = length data)
    (enq_work : work data' = work data)
    (enq_arrival : ∀ k, arrivalOf data' k = arrivalOf data k)
    (enq_Forall : ∀ P : job → Prop,
        (∀ j, P j → P (set_level 0 j)) → Forall P data → Forall P data')
    (enq_queues : length queues' = length queues)
    (enq_concat : (length (concat queues') ≤ length (concat queues) + length moved)%nat)
    (enq_elem_of : ∀ k, k ∈ concat queues' → k ∈ concat queues ∨ k ∈ moved)
    (enq_head : ∀ i rest, pending' = i :: rest → t < arrivalOf data' i)
    (enq_lookup : ∀ k j, data !! k = Some j →
        ∃ j', data' !! k = Some j' ∧ remaining j' = remaining j ∧
              completionTime j' = completionTime j).

Lemma m_enqueue_enqueued data t pending queues data' pending' queues' :
  m_enqueue data t pending queues = (data', pending', queues') →
  enqueued data t pending queues data' pending' queues'.
Proof.
  revert data queues. induction pending as [|i pending IH]; intros data queues; simpl.
  { intros [= <- <- <-]. apply (Enqueued _ _ _ _ _ _ _ []); try done.
    - simpl. lia.
    - intros k Hk. by left.
    - intros k j Hj. by exists j. }
  destruct (Z.leb_spec (arrivalOf data i) t) as [Hle|Hgt].
  - intros Henq%IH.
    destruct Henq as [moved E1 E2 E3 E4 E5 E6 E7 E8 E9 E10].
    apply (Enqueued _ _ _ _ _ _ _ (i :: moved)).
    + by rewrite E1.
    + by rewrite E2, update_length.
    + by rewrite E3, update_work.
    + intros k. by rewrite E4, update_arrival.
    + intros P HP Hdata. apply E5; [done|]. by apply update_Forall.
    + by rewrite E6, push_length.
    + pose proof (push_concat_length queues 0 i). simpl. lia.
    + intros k [Hk|Hk]%E8; [|right; by right].
      apply push_elem_of in Hk as [? | ->]; [by left|right; by left].
    + done.
    + intros k j Hj.
      assert (∃ j0, update data i (set_level 0) !! k = Some j0 ∧
                    remaining j0 = remaining j ∧ completionTime j0 = completionTime j)
        as (j0 & Hj0 & Hr & Hc).
      { unfold update. destruct (data !! i) as [ji|] eqn:Hi; [|by exists j].
        destruct (decide (i = k)) as [->|Hne].
        - rewrite list_lookup_insert_eq by (by eapply lookup_lt_Some).
          eexists. split; [done|]. simpl. split; congruence.
        - rewrite list_lookup_insert_ne by done. by exists j. }
      destruct (E10 k j0 Hj0) as (j' & Hj' & Hr' & Hc').
      exists j'. split; [done|]. split; congruence.
  - intros [= <- <- <-]. apply (Enqueued _ _ _ _ _ _ _ []); try done.
    + simpl. lia.
    + intros k Hk. by left.
    + by intros i' rest [= <- _].
    + intros k j Hj. by exists j.
Qed.

Definition mlfq_measure (st : mlfq_state) : nat :=
  (work (m_data st) + length (m_pending st) + length (concat (queues st)) +
   waiting (m_data st) (m_time st) (m_pending st))%nat.

Definition mlfq_valid (quantums : list (option Z)) (st : mlfq_state) : Prop :=
  (∀ i, i ∈ m_pending st ++ concat (queues st) → (i < length (m_data st))%nat) ∧
  Forall (λ j, 0 ≤ remaining j) (m_data st) ∧
  length (queues st) = length quantums.

Lemma slice_bounds quantum r :
  (∀ q, quantum = Some q → 0 < q) → 0 ≤ r →
  0 ≤ slice quantum r ∧ 0 ≤ r - slice quantum r ∧ (0 < r → r - slice quantum r < r).
Proof. intros Hq Hr. destruct quantum as [q|]; simpl; [specialize (Hq q eq_refl)|]; lia. Qed.

Lemma hasWork_true st :
  hasWork st = true → m_pending st ≠ [] ∨ concat (queues st) ≠ [].
Proof.
  unfold hasWork. intros [Hp%bool_decide_eq_true|Hq]%orb_true_iff; [by left|right].
  apply existsb_exists in Hq as (q & Hq & Hne%bool_decide_eq_true).
  intros Hnil. apply Hne. apply list_elem_of_In in Hq.
  destruct q as [|k q]; [done|].
  assert (k ∈ concat (queues st)) as Hk.
  { apply elem_of_concat. exists (k :: q). split; [done|by left]. }
  rewrite Hnil in Hk. by apply elem_of_nil in Hk.
Qed.

Definition positive (quantums : list (option Z)) : Prop :=
  Forall (λ quantum, ∀ q, quantum = Some q → 0 < q) quantums.

Lemma concat_all_empty (queues : list (list nat)) :
  list_find (λ q, q ≠ []) queues = None → concat queues = [].
Proof.
  intros Hnone%list_find_None. induction Hnone as [|q queues Hq _ IH]; [done|].
  simpl. rewrite IH. destruct q; [done|]. by destruct Hq.
Qed.

(** Every turn of the feedback queue brings the loop closer to its exit. *)
Lemma mlfq_turn_progress quantums st :
  positive quantums → mlfq_valid quantums st → hasWork st = true →
  ∃ st', mlfq_turn quantums st = Ret st' ∧ mlfq_valid quantums st' ∧
         (mlfq_measure st' < mlfq_measure st)%nat ∧
         length (m_data st') = length (m_data st).
Proof.
  intros Hpos (Hvalid & Hnonneg & Hlen) Hwork%hasWork_true. unfold mlfq_turn.
  destruct (m_enqueue (m_data st) (m_time st) (m_pending st) (queues st))
    as [[data1 pending1] queues1] eqn:Henq.
  destruct (m_enqueue_enqueued _ _ _ _ _ _ _ Henq) as [moved E1 E2 E3 E4 E5 E6 E7 E8 E9 E10].
  assert (Hin1 : ∀ i, i ∈ pending1 ++ concat queues1 → (i < length (m_data st))%nat).
  { intros i Hi. apply Hvalid. rewrite E1.
    rewrite !elem_of_app in *. destruct Hi as [?|Hi%E8]; tauto. }
  assert (Hnonneg1 : Forall (λ j, 0 ≤ remaining j) data1) by (by apply E5).
  destruct (list_find (λ q, q ≠ []) queues1) as [[queueIndex q]|] eqn:Hfind.
  - apply list_find_Some in Hfind as (Hq & Hne & _).
    destruct q as [|c q']; [done|].
    assert (Hcin : c ∈ concat queues1).
    { apply elem_of_concat. exists (c :: q'). split; [by eapply list_elem_of_lookup_2|by left]. }
    assert (Hc0 : (c < length (m_data st))%nat).
    { apply Hin1. apply elem_of_app. by right. }
    assert (Hc : (c < length data1)%nat) by (by rewrite E2).
    destruct (lookup_lt_is_Some_2 _ _ Hc) as [current Hcur]. rewrite Hcur.
    assert (Hqi : (queueIndex < length quantums)%nat).
    { rewrite <- Hlen, <- E6. by eapply lookup_lt_Some. }
    destruct (lookup_lt_is_Some_2 _ _ Hqi) as [quantum Hquantum]. rewrite Hquantum.
    pose proof (Forall_lookup_1 _ _ _ _ Hnonneg1 Hcur) as Hr0. simpl in Hr0.
    pose proof (Forall_lookup_1 _ _ _ _ Hpos Hquantum) as Hq0. simpl in Hq0.
    rewrite !markStarted_remaining. cbn [remaining set_remaining].
    set (runTime := slice quantum (remaining current)).
    set (left := remaining current - runTime).
    pose proof (slice_bounds quantum (remaining current) Hq0 Hr0) as Hrun.
    fold runTime in Hrun. fold left in Hrun.
    set (current' := set_remaining left (markStarted (m_time st) current)).
    destruct (m_enqueue (<[c := current']> data1) (m_time st + runTime) pending1
                (<[queueIndex := q']> queues1)) as [[data2 pending2] queues3] eqn:Henq2.
    destruct (m_enqueue_enqueued _ _ _ _ _ _ _ Henq2)
      as [moved2 F1 F2 F3 F4 F5 F6 F7 F8 F9 F10].
    rewrite length_insert in F2. rewrite length_insert in F6.
    assert (Hin2 : ∀ i, i ∈ pending2 ++ concat queues3 → (i < length (m_data st))%nat).
    { intros i Hi. apply Hin1. rewrite F1. rewrite !elem_of_app in *.
      destruct Hi as [?|Hi%F8]; [tauto|]. destruct Hi as [Hi|?]; [|tauto].
      apply concat_insert_elem_of in Hi as [?|Hi]; [tauto|]. right.
      apply elem_of_concat. exists (c :: q').
      split; [by eapply list_elem_of_lookup_2|by right]. }
    assert (Hnonneg2 : Forall (λ j, 0 ≤ remaining j) data2).
    { apply F5; [done|]. apply Forall_insert; [done|]. simpl. lia. }
    pose proof (concat_insert_length queues1 queueIndex (c :: q') q' Hq) as Hcat.
    simpl in Hcat.
    pose proof (work_insert data1 c current current' Hcur) as Hw. simpl in Hw.
    assert (Hwait : ∀ f, (∀ j, j_arrival (f j) = j_arrival j) →
              (waiting (update data2 c f) (m_time st + runTime) pending2 ≤
               waiting (m_data st) (m_time st) (m_pending st))%nat).
    { intros f Hf. rewrite E1, F1, app_assoc. apply waiting_le; [|lia].
      intros k. rewrite update_arrival, F4 by done.
      rewrite (arrivalOf_insert data1 c current) by (done || apply markStarted_arrival).
      apply E4. }
    assert (Hlens : (length (m_pending st) =
                     length moved + length moved2 + length pending2)%nat).
    { rewrite E1, F1, !length_app. lia. }
    destruct (Z.ltb_spec 0 left) as [Hleft|Hleft].
    + eexists. split; [done|]. split; [|split]; simpl.
      * split; [|split]; simpl.
        -- intros i Hi. rewrite update_length, F2, E2.
           apply elem_of_app in Hi as [Hi|Hi%push_elem_of].
           ++ apply Hin2, elem_of_app. by left.
           ++ destruct Hi as [Hi| ->]; [|done]. apply Hin2, elem_of_app. by right.
        -- by apply update_Forall.
        -- by rewrite push_length, F6, E6.
      * unfold mlfq_measure. simpl.
        pose proof (push_concat_length queues3
                      (Nat.min (queueIndex + 1) (length queues3 - 1)) c) as Hpush.
        rewrite update_work by done.
        specialize (Hwait (set_level (Nat.min (queueIndex + 1) (length queues3 - 1)))
                      (λ _, eq_refl)).
        lia.
      * by rewrite update_length, F2, E2.
    + eexists. split; [done|]. split; [|split]; simpl.
      * split; [|split]; simpl.
        -- intros i Hi. rewrite update_length, F2, E2. by apply Hin2.
        -- by apply update_Forall.
        -- by rewrite F6, E6.
      * unfold mlfq_measure. simpl.
        rewrite update_work by done.
        specialize (Hwait (set_completionTime (m_time st + runTime)) (λ _, eq_refl)).
        lia.
      * by rewrite update_length, F2, E2.
  - apply concat_all_empty in Hfind.
    assert (Hlen1 : (length pending1 + length (concat queues1) <
                     length (m_pending st) + length (concat (queues st)) ∨
                     pending1 ≠ [])%nat).
    { destruct pending1 as [|i rest]; [left|by right].
      rewrite Hfind. simpl.
      destruct Hwork as [Hp|Hq].
      - destruct (m_pending st); [done|]. simpl. lia.
      - destruct (concat (queues st)); [done|]. simpl. lia. }
    eexists. split; [done|]. split; [|split]; simpl.
    + split; [|split]; simpl; [|done|by rewrite E6].
      intros i Hi. rewrite E2. by apply Hin1.
    + unfold mlfq_measure. simpl. rewrite E3, Hfind. simpl.
      assert (Hpl : (length (m_pending st) = length moved + length pending1)%nat)
        by (by rewrite E1, length_app).
      destruct pending1 as [|i rest].
      * destruct Hlen1 as [Hlen1|?]; [|done]. rewrite Hfind in Hlen1. simpl in *.
        unfold waiting at 1. simpl. lia.
      * pose proof (waiting_lt data1 (m_time st) i (i :: rest)) as Hlt.
        specialize (Hlt ltac:(by left) (E9 _ _ eq_refl)).
        pose proof (waiting_le (m_data st) data1 (m_time st) (m_time st) moved (i :: rest)
                      E4 ltac:(lia)) as Hle.
        rewrite <- E1 in Hle. lia.
    + done.
Qed.

Lemma mlfq_loop_returns quantums fuel st :
  positive quantums → mlfq_valid quantums st → (mlfq_measure st < fuel)%nat →
  ∃ st', mlfq_loop fuel quantums st = Ret st' ∧ length (m_data st') = length (m_data st).
Proof.
  intros Hpos. revert st. induction fuel as [|fuel IH]; intros st Hvalid Hfuel; [lia|].
  simpl. destruct (hasWork st) eqn:Hwork; [|by eexists].
  destruct (mlfq_turn_progress quantums st Hpos Hvalid Hwork)
    as (st1 & -> & Hvalid1 & Hlt & Hlen1).
  simpl. destruct (IH st1 Hvalid1) as (st' & Hloop & Hlen); [lia|].
  exists st'. split; [done|]. congruence.
Qed.

(** No process sits below the extra level that follows the configured ones. *)
Definition levels_ok (N : nat) (st : mlfq_state) : Prop :=
  length (queues st) = S N ∧ Forall (λ j, (level j ≤ N)%nat) (m_data st).

Lemma markStarted_level t j : level (markStarted t j) = level j.
Proof. unfold markStarted. by destruct (startTime j). Qed.

Lemma mlfq_turn_levels quantums N st st' :
  levels_ok N st → mlfq_turn quantums st = Ret st' → levels_ok N st'.
Proof.
  intros [Hlen Hlev]. unfold mlfq_turn.
  destruct (m_enqueue (m_data st) (m_time st) (m_pending st) (queues st))
    as [[data1 pending1] queues1] eqn:Henq.
  destruct (m_enqueue_enqueued _ _ _ _ _ _ _ Henq) as [moved E1 E2 E3 E4 E5 E6 E7 E8 E9 E10].
  assert (Hlev1 : Forall (λ j, (level j ≤ N)%nat) data1).
  { apply E5; [|done]. intros j _. simpl. lia. }
  destruct (list_find (λ q, q ≠ []) queues1) as [[queueIndex q]|].
  - destruct q as [|c q']; [done|].
    destruct (data1 !! c) as [current|] eqn:Hcur; [|done].
    destruct (quantums !! queueIndex) as [quantum|]; [|done].
    destruct (m_enqueue _ _ pending1 _) as [[data2 pending2] queues3] eqn:Henq2.
    destruct (m_enqueue_enqueued _ _ _ _ _ _ _ Henq2)
      as [moved2 F1 F2 F3 F4 F5 F6 F7 F8 F9 F10].
    rewrite length_insert in F6.
    assert (Hlev2 : Forall (λ j, (level j ≤ N)%nat) data2).
    { apply F5; [intros j _; simpl; lia|]. apply Forall_insert; [done|].
      simpl. rewrite markStarted_level.
      by apply (Forall_lookup_1 _ _ _ _ Hlev1 Hcur). }
    destruct (0 <? _); intros [= <-]; split; simpl.
    + by rewrite push_length, F6, E6.
    + apply update_Forall; [|done]. intros j _. simpl. rewrite F6, E6, Hlen. lia.
    + by rewrite F6, E6.
    + by apply update_Forall.
  - intros [= <-]. split; simpl; [by rewrite E6|done].
Qed.

Lemma mlfq_loop_levels quantums N fuel st st' :
  levels_ok N st → mlfq_loop fuel quantums st = Ret st' → levels_ok N st'.
Proof.
  revert st. induction fuel as [|fuel IH]; intros st Hok; [done|].
  simpl. destruct (hasWork st); [|by intros [= <-]].
  destruct (mlfq_turn quantums st) as [st1| |] eqn:Hturn; try done. simpl.
  apply IH. by eapply mlfq_turn_levels.
Qed.

Lemma parseMlfqLevels_positive value : Forall (λ q, 0 < q) (parseMlfqLevels value).
Proof.
  unfold parseMlfqLevels. apply Forall_forall.
  intros q Hq%list_elem_of_In%filter_In. destruct Hq as [_ Hq]. by apply Z.ltb_lt.
Qed.

Lemma mlfq_after_levels quantums N n st st' :
  levels_ok N st → mlfq_after n quantums st = Ret st' → levels_ok N st'.
Proof.
  revert st. induction n as [|n IH]; intros st Hok; simpl; [by intros [= <-]|].
  destruct (hasWork st); [|by intros [= <-]].
  destruct (mlfq_turn quantums st) as [st1| |] eqn:Hturn; try done. simpl.
  apply IH. by eapply mlfq_turn_levels.
Qed.

(** What a turn does with the process [c] it takes from level [l]: [c] runs
    for the quantum of the level or for what remains of its burst, whichever
    is less (for what remains when the level has no quantum); if that leaves
    work, [c] goes to the back of the queue one level down, otherwise it is
    complete. *)
Definition turn_outcome (quantum : option Z) (l c : nat) (current : job)
    (st st' : mlfq_state) : Prop :=
  let runTime := match quantum with
                 | Some q => Z.min q (remaining current)
                 | None => remaining current
                 end in
  m_time st' = m_time st + runTime ∧
  ∃ j, m_data st' !! c = Some j ∧
       remaining j = remaining current - runTime ∧
       if decide (0 < remaining current - runTime)
       then level j = S l ∧ completionTime j = completionTime current ∧
            ∃ waiting, queues st' !! S l = Some (waiting ++ [c])
       else completionTime j = Some (m_time st').

Lemma mlfq_turn_outcome levels st st' data1 pending1 queues1 l c q' current :
  length (queues st) = S (length levels) →
  m_enqueue (m_data st) (m_time st) (m_pending st) (queues st) =
    (data1, pending1, queues1) →
  list_find (λ q, q ≠ []) queues1 = Some (l, c :: q') →
  data1 !! c = Some current →
  mlfq_turn (quantumsOf levels) st = Ret st' →
  (l ≤ length levels)%nat ∧
  turn_outcome (mjoin (quantumsOf levels !! l)) l c current st st'.
Proof.
  intros Hlen Henq Hfind Hcur. unfold mlfq_turn. rewrite Henq, Hfind, Hcur.
  destruct (m_enqueue_enqueued _ _ _ _ _ _ _ Henq) as [moved E1 E2 E3 E4 E5 E6 E7 E8 E9 E10].
  assert (Hl : (l < length queues1)%nat).
  { apply list_find_Some in Hfind as (Hl & _). by eapply lookup_lt_Some. }
  assert (Hq : length (quantumsOf levels) = S (length levels)).
  { unfold quantumsOf. rewrite length_app, length_map. simpl. lia. }
  destruct (quantumsOf levels !! l) as [quantum|] eqn:Hquantum; [|done].
  rewrite !markStarted_remaining. cbn [remaining set_remaining mjoin option_join].
  destruct (m_enqueue _ _ pending1 _) as [[data2 pending2] queues3] eqn:Henq2.
  destruct (m_enqueue_enqueued _ _ _ _ _ _ _ Henq2)
    as [moved2 F1 F2 F3 F4 F5 F6 F7 F8 F9 F10].
  rewrite length_insert in F6.
  set (rest := remaining current - slice quantum (remaining current)).
  destruct (F10 c (set_remaining rest (markStarted (m_time st) current)))
    as (j2 & Hj2 & Hr2 & Hc2).
  { apply list_lookup_insert_eq. by eapply lookup_lt_Some. }
  simpl in Hr2, Hc2.
  assert (Hmc : completionTime (markStarted (m_time st) current) = completionTime current).
  { unfold markStarted. by destruct (startTime current). }
  intros Hturn. split; [lia|]. revert Hturn.
  assert (Hrun : slice quantum (remaining current) =
                 match quantum with
                 | Some q => Z.min q (remaining current)
                 | None => remaining current
                 end) by (by destruct quantum).
  unfold turn_outcome. cbv zeta. rewrite <- Hrun. fold rest.
  destruct (Z.ltb_spec 0 rest) as [Hleft|Hleft]; intros [= <-]; simpl.
  - split; [done|]. unfold update. rewrite Hj2.
    rewrite list_lookup_insert_eq by (by eapply lookup_lt_Some).
    eexists. split; [done|]. simpl. split; [done|].
    assert (Hnext : ((l + 1) `min` (length queues3 - 1) = S l ∨ l = length levels)%nat) by lia.
    destruct (decide (0 < rest)) as [_|?]; [|lia].
    assert (l ≠ length levels) as Hne.
    { intros ->. unfold quantumsOf in Hquantum.
      rewrite lookup_app_r in Hquantum by (by rewrite length_map).
      rewrite length_map, Nat.sub_diag in Hquantum. injection Hquantum as <-.
      unfold rest in Hleft. simpl in Hleft. lia. }
    destruct Hnext as [Hnext|?]; [|done]. rewrite Hnext.
    split; [done|]. split; [by rewrite Hc2, Hmc|].
    unfold push.
    destruct (queues3 !! S l) as [waiting|] eqn:Hw.
    + exists waiting. apply list_lookup_insert_eq. by eapply lookup_lt_Some.
    + apply lookup_ge_None in Hw. lia.
  - split; [done|]. unfold update. rewrite Hj2.
    rewrite list_lookup_insert_eq by (by eapply lookup_lt_Some).
    eexists. split; [done|]. simpl. split; [done|].
    destruct (decide (0 < rest)) as [?|_]; [lia|]. done.
Qed.

Lemma quantumsOf_lookup levels l :
  (l ≤ length levels)%nat → mjoin (quantumsOf levels !! l) = levels !! l.
Proof.
  intros Hl. unfold quantumsOf.
  destruct (decide (l < length levels)%nat) as [Hlt|Hge].
  - rewrite lookup_app_l by (by rewrite length_map).
    rewrite list_lookup_fmap. by destruct (levels !! l).
  - assert (l = length levels) as -> by lia.
    rewrite lookup_app_r by (by rewrite length_map).
    rewrite length_map, Nat.sub_diag. simpl. symmetry. by apply lookup_ge_None.
Qed.

Lemma runMlfq_levels fuel processes settings schedule :
  runMlfq fuel processes settings = Ret schedule →
  (0 < length (parseMlfqLevels (mlfqLevels settings)))%nat ∧
  Forall (λ e, (level (e_job e) ≤ length (parseMlfqLevels (mlfqLevels settings)))%nat)
         schedule.
Proof.
  unfold runMlfq. destruct (parseMlfqLevels (mlfqLevels settings)) as [|q0 levels']; [done|].
  set (levels := q0 :: levels'). set (quantums := quantumsOf levels).
  destruct (mlfq_loop fuel quantums (mlfq_initial processes quantums))
    as [st| |] eqn:Hloop; try done.
  simpl. intros [= <-]. split; [simpl; lia|].
  assert (Hinit : levels_ok (length levels) (mlfq_initial processes quantums)).
  { split; simpl; [rewrite !length_map, length_app, length_map; simpl; lia|].
    apply Forall_fmap, Forall_forall. intros j _. simpl. lia. }
  destruct (mlfq_loop_levels _ _ _ _ _ Hinit Hloop) as [_ Hlev].
  apply Forall_fmap. eapply Forall_impl; [exact Hlev|]. by intros j Hj.
Qed.

(** C8, as the code behaves: [N] configured quanta give [N + 1] levels, the
    configured ones with their quanta and one more, level [N], without a
    quantum.  At every state the scheduler reaches, no process sits below
    level [N], and the turn that takes a process from level [l] runs it for
    the quantum of that level, the last configured one included, or for what
    remains of its burst if that is less, and then moves it one level down
    unless it is complete; on level [N] it runs to completion. *)
Theorem mlfq_runs_one_more_level :
  ∀ (processes : list process) (settings : settings),
    let levels := parseMlfqLevels (mlfqLevels settings) in
    let quantums := quantumsOf levels in
    let N := length levels in
    length quantums = S N ∧
    (∀ l q, levels !! l = Some q → quantums !! l = Some (Some q) ∧ 0 < q) ∧
    quantums !! N = Some None ∧ levels !! N = None ∧
    (∀ n st,
       mlfq_after n quantums (mlfq_initial processes quantums) = Ret st →
       length (queues st) = S N ∧
       Forall (λ j, (level j ≤ N)%nat) (m_data st) ∧
       ∀ st' data1 pending1 queues1 l c q' current,
         m_enqueue (m_data st) (m_time st) (m_pending st) (queues st) =
           (data1, pending1, queues1) →
         list_find (λ q, q ≠ []) queues1 = Some (l, c :: q') →
         data1 !! c = Some current →
         mlfq_turn quantums st = Ret st' →
         (l ≤ N)%nat ∧ turn_outcome (levels !! l) l c current st st') ∧
    (∀ fuel schedule,
       runMlfq fuel processes settings = Ret schedule →
       (0 < N)%nat ∧ Forall (λ e, (level (e_job e) ≤ N)%nat) schedule).
Proof.
  intros processes settings. cbv zeta.
  pose proof (parseMlfqLevels_positive (mlfqLevels settings)) as Hpos.
  set (levels := parseMlfqLevels (mlfqLevels settings)) in *.
  set (quantums := quantumsOf levels).
  set (N := length levels).
  assert (Hq : length quantums = S N).
  { subst quantums N. unfold quantumsOf. rewrite length_app, length_map. simpl. lia. }
  assert (Hinit : levels_ok N (mlfq_initial processes quantums)).
  { split; simpl; [by rewrite length_map|].
    apply Forall_fmap, Forall_forall. intros j _. simpl. lia. }
  split; [done|]. split; [|split; [|split; [|split]]].
  - intros l q Hl. split.
    + subst quantums. unfold quantumsOf. rewrite lookup_app_l.
      * by rewrite list_lookup_fmap, Hl.
      * rewrite length_map. by eapply lookup_lt_Some.
    + by apply (Forall_lookup_1 _ _ _ _ Hpos Hl).
  - subst quantums N. unfold quantumsOf. rewrite lookup_app_r by (by rewrite length_map).
    by rewrite length_map, Nat.sub_diag.
  - by apply lookup_ge_None.
  - intros n st Hst.
    destruct (mlfq_after_levels _ _ _ _ _ Hinit Hst) as [Hlen Hlev].
    split; [done|]. split; [done|].
    intros st' data1 pending1 queues1 l c q' current Henq Hfind Hcur Hturn.
    destruct (mlfq_turn_outcome levels st st' data1 pending1 queues1 l c q' current
                Hlen Henq Hfind Hcur Hturn) as [Hl Hout].
    split; [done|]. by rewrite <- quantumsOf_lookup.
  - intros fuel schedule Hrun. by apply (runMlfq_levels fuel processes settings).
Qed.

Lemma mlfq_runs_one_more_level_witness :
  let processes :=
    [{| id := 1; name := "P1"; arrival := 0; burst := 10; priority := Some 1 |};
     {| id := 2; name := "P2"; arrival := 1; burst := 3; priority := Some 1 |}] in
  let settings := {| rrQuantum := None; mlfqLevels := [Some 2; Some 4] |} in
  let quantums := quantumsOf (parseMlfqLevels (mlfqLevels settings)) in
  ∃ st st' schedule,
    mlfq_after 2 quantums (mlfq_initial processes quantums) = Ret st ∧
    mlfq_turn quantums st = Ret st' ∧
    m_time st = 4 ∧ m_time st' = 8 ∧
    (∃ j, m_data st' !! 0%nat = Some j ∧ remaining j = 4 ∧ level j = 2%nat) ∧
    runMlfq 20 processes settings = Ret schedule ∧
    map (λ e, level (e_job e)) schedule = [2; 1]%nat ∧
    Forall (λ e, (level (e_job e) ≤ 2)%nat) schedule.
Proof.
  intros processes settings quantums.
  destruct (mlfq_runs_one_more_level processes settings)
    as (_ & _ & _ & _ & Hstates & Hfinal).
  assert (Hafter : ∃ st st' data1 pending1 queues1 q' current,
            mlfq_after 2 quantums (mlfq_initial processes quantums) = Ret st ∧
            mlfq_turn quantums st = Ret st' ∧
            m_enqueue (m_data st) (m_time st) (m_pending st) (queues st) =
              (data1, pending1, queues1) ∧
            list_find (λ q, q ≠ []) queues1 = Some (1%nat, 0%nat :: q') ∧
            data1 !! 0%nat = Some current ∧
            m_time st = 4 ∧ remaining current = 8).
  { vm_compute. do 7 eexists. repeat (split; [reflexivity|]). reflexivity. }
  destruct Hafter as (st & st' & data1 & pending1 & queues1 & q' & current &
                      Hst & Hturn & Henq & Hfind & Hcur & Htime & Hrem).
  assert (Hrun : ∃ schedule,
             runMlfq 20 processes settings = Ret schedule ∧
             map (λ e, level (e_job e)) schedule = [2; 1]%nat).
  { vm_compute. eexists. split; reflexivity. }
  destruct Hrun as (schedule & Hrun & Hlevels).
  destruct (Hstates 2%nat st Hst) as (_ & _ & Hturns).
  destruct (Hturns st' data1 pending1 queues1 1%nat 0%nat q' current Henq Hfind Hcur Hturn)
    as (_ & Htime' & j & Hj & Hleft & Hdown).
  simpl in Htime', Hleft, Hdown. rewrite Hrem in *. rewrite Htime in Htime'.
  simpl in *. destruct Hdown as (Hlevel & _).
  exists st, st', schedule.
  split; [exact Hst|]. split; [exact Hturn|]. split; [exact Htime|].
  split; [exact Htime'|]. split; [by exists j|].
  split; [exact Hrun|]. split; [exact Hlevels|].
  exact (proj2 (Hfinal 20%nat schedule Hrun)).
Defined.

(** C8 as stated fails: with the single configured quantum 2, a process of
    burst 5 is cut after 2 time units, placed on level 1 (below level
    [N - 1 = 0]), and a later arrival runs before it finishes. *)
Lemma mlfq_last_configured_quantum_preempts :
  let processes :=
    [{| id := 1; name := "P1"; arrival := 0; burst := 5; priority := Some 1 |};
     {| id := 2; name := "P2"; arrival := 1; burst := 1; priority := Some 1 |}] in
  let settings := {| rrQuantum := None; mlfqLevels := [Some 2] |} in
  let N := length (parseMlfqLevels (mlfqLevels settings)) in
  ∃ e1 e2,
    runMlfq 10 processes settings = Ret [e1; e2] ∧
    N = 1%nat ∧
    level (e_job e1) = 1%nat ∧ ¬ (level (e_job e1) ≤ N - 1)%nat ∧
    e_startTime e1 = 0 ∧ e_completionTime e1 = 6 ∧
    e_startTime e2 = 2 ∧ e_completionTime e2 = 3.
Proof.
  intros processes settings N. vm_compute. eexists _, _.
  split; [reflexivity|]. repeat split; try reflexivity. simpl. lia.
Qed.

(** *** Every policy returns a schedule with consistent times *)

Definition wellFormed (processes : list process) : Prop :=
  Forall (λ p, 0 ≤ arrival p ∧ 0 < burst p) processes.

Definition validSettings (algorithm : algorithm) (settings : settings) : Prop :=
  match algorithm with
  | roundRobin => ∃ quantum, rrQuantum settings = Some quantum ∧ 0 < quantum
  | mlfq => parseMlfqLevels (mlfqLevels settings) ≠ []
  | _ => True
  end.

(** The latest time a runner can reach on a well-formed process set: the last
    arrival and then every burst. *)
Definition horizon (processes : list process) : Z :=
  foldr Z.max 0 (map arrival processes) + foldr Z.add 0 (map burst processes).

(** Whole-number times on which the arithmetic of the runners is exact: every
    time a runner computes lies between 0 and the horizon.  (On fractional
    times a sum such as [currentTime + remaining] is rounded, and the runners
    behave differently.) *)
Definition exactTimes (processes : list process) : Prop :=
  horizon processes ≤ MAX_SAFE_INTEGER.

Lemma fcfs_map_ok sorted currentTime :
  Forall entry_ok (fcfs_map sorted currentTime) ∧
  length (fcfs_map sorted currentTime) = length sorted.
Proof.
  revert currentTime. induction sorted as [|p sorted IH]; intros currentTime; simpl;
    [done|].
  destruct (IH (Z.max (j_arrival p) currentTime + j_burst p)) as [Hok Hlen].
  split; [|by rewrite Hlen]. constructor; [apply report_ok|done].
Qed.

Lemma nonPreemptive_loop_ok comparator fuel pending schedule time schedule' :
  Forall entry_ok schedule →
  nonPreemptive_loop fuel comparator pending schedule time = Ret schedule' →
  Forall entry_ok schedule'.
Proof.
  revert pending schedule time.
  induction fuel as [|fuel IH]; intros pending schedule time Hok; [done|].
  simpl. destruct pending as [|p0 rest]; [by intros [= <-]|].
  destruct (sort comparator _) as [|nextProcess sorted]; [by apply IH|].
  apply IH. apply Forall_app. split; [done|]. apply Forall_singleton, report_ok.
Qed.

Lemma started_nonneg processes :
  wellFormed processes →
  Forall (λ j, 0 ≤ remaining j) (map activate (prepareProcesses processes)).
Proof.
  intros Hwf. apply Forall_lookup. intros i j Hj.
  apply activate_lookup in Hj as (_ & -> & p & Hp & _ & ->).
  destruct (Forall_lookup_1 _ _ _ _ Hwf Hp). lia.
Qed.

Lemma pending_valid processes i :
  i ∈ map order (sort sortByArrival (map activate (prepareProcesses processes))) →
  (i < length (map activate (prepareProcesses processes)))%nat.
Proof.
  intros (j & -> & Hj%sort_elem_of)%list_elem_of_fmap.
  apply list_elem_of_lookup in Hj as [k Hk].
  rewrite (activate_indexed processes k j Hk). by eapply lookup_lt_Some.
Qed.

(** A runner returns a full, consistent schedule once it has enough fuel. *)
Definition returns_schedule (processes : list process) (run : nat → res (list entry))
    : Prop :=
  ∃ fuel0, ∀ fuel, (fuel0 ≤ fuel)%nat →
    ∃ schedule, run fuel = Ret schedule ∧ length schedule = length processes ∧
                Forall entry_ok schedule.

Lemma prepareProcesses_length processes :
  length (prepareProcesses processes) = length processes.
Proof. unfold prepareProcesses. by rewrite length_imap. Qed.

Lemma runFcfs_ok processes :
  length (runFcfs processes) = length processes ∧ Forall entry_ok (runFcfs processes).
Proof.
  unfold runFcfs. destruct (fcfs_map_ok (sort sortByArrival (prepareProcesses processes)) 0)
    as [Hok Hlen].
  split; [|done]. by rewrite Hlen, sort_length, prepareProcesses_length.
Qed.

Lemma runNonPreemptive_returns processes comparator :
  returns_schedule processes (λ fuel, runNonPreemptive fuel processes comparator).
Proof.
  exists (2 * length processes + 1)%nat. intros fuel Hfuel. unfold runNonPreemptive.
  set (pending := sort sortByArrival (prepareProcesses processes)).
  assert (Hlen : length pending = length processes).
  { subst pending. by rewrite sort_length, prepareProcesses_length. }
  destruct (nonPreemptive_loop_returns comparator fuel pending []
              (match pending with p0 :: _ => j_arrival p0 | [] => 0 end))
    as (schedule & Hloop & Hok & Hlen'); [|done|].
  - rewrite Hlen. destruct (List.filter _ pending); lia.
  - exists schedule. split; [done|]. split; [|done]. rewrite Hlen'. simpl. lia.
Qed.

Lemma runPreemptive_returns processes comparator :
  returns_schedule processes (λ fuel, runPreemptive fuel processes comparator).
Proof.
  set (data := map activate (prepareProcesses processes)).
  set (time := match minArrival data with Some m => m | None => 0 end).
  exists (S (unfinished_jobs data + late_jobs data time)). intros fuel Hfuel.
  unfold runPreemptive. fold data. fold time.
  destruct (preemptive_loop_returns comparator fuel data time) as (data' & -> & Hlen);
    [apply activate_indexed|lia|].
  simpl. eexists. split; [done|]. split.
  - rewrite length_map, Hlen. apply activate_length.
  - apply Forall_fmap, Forall_forall. intros j _. apply report_ok.
Qed.

Lemma runRoundRobin_returns processes settings quantum :
  wellFormed processes → rrQuantum settings = Some quantum → 0 < quantum →
  returns_schedule processes (λ fuel, runRoundRobin fuel processes settings).
Proof.
  intros Hwf Hq Hpos. exists (S (rr_measure (rr_initial processes))). intros fuel Hfuel.
  unfold runRoundRobin. rewrite Hq.
  destruct (Z.leb_spec quantum 0) as [?|_]; [lia|].
  destruct (rr_loop_returns quantum fuel (rr_initial processes)) as (st & -> & Hlen);
    [done| |lia|].
  - split; simpl; [|by apply started_nonneg].
    intros i Hi. rewrite app_nil_r in Hi. by apply pending_valid.
  - simpl. eexists. split; [done|]. split.
    + rewrite length_map, Hlen. apply activate_length.
    + apply Forall_fmap, Forall_forall. intros j _. apply report_ok.
Qed.

Lemma quantumsOf_positive value : positive (quantumsOf (parseMlfqLevels value)).
Proof.
  unfold positive, quantumsOf. apply Forall_app. split.
  - apply Forall_fmap. eapply Forall_impl; [apply parseMlfqLevels_positive|].
    intros q Hq q' [= <-]. done.
  - apply Forall_singleton. done.
Qed.

Lemma concat_no_queue {A} (quantums : list A) :
  concat (map (λ _, []) quantums) = ([] : list nat).
Proof. induction quantums as [|q quantums IH]; [done|]. exact IH. Qed.

Lemma runMlfq_returns processes settings :
  wellFormed processes → parseMlfqLevels (mlfqLevels settings) ≠ [] →
  returns_schedule processes (λ fuel, runMlfq fuel processes settings).
Proof.
  intros Hwf Hlevels.
  pose proof (quantumsOf_positive (mlfqLevels settings)) as Hpos.
  unfold returns_schedule, runMlfq.
  remember (parseMlfqLevels (mlfqLevels settings)) as levels eqn:Hl.
  destruct levels as [|q0 levels']; [done|]. clear Hl Hlevels.
  set (quantums := quantumsOf (q0 :: levels')) in *.
  exists (S (mlfq_measure (mlfq_initial processes quantums))). intros fuel Hfuel.
  destruct (mlfq_loop_returns quantums fuel (mlfq_initial processes quantums))
    as (st & -> & Hlen); [done| |lia|].
  - split; [|split]; simpl; [|by apply started_nonneg|by rewrite length_map].
    intros i Hi. apply elem_of_app in Hi as [Hi|Hi]; [by apply pending_valid|].
    rewrite concat_no_queue in Hi. by apply elem_of_nil in Hi.
  - simpl. eexists. split; [done|]. split.
    + rewrite length_map, Hlen. apply activate_length.
    + apply Forall_fmap, Forall_forall. intros j _. apply report_ok.
Qed.

Lemma schedulingStrategies_ok algorithm fuel processes settings schedule :
  schedulingStrategies algorithm fuel processes settings = Ret schedule →
  Forall entry_ok schedule.
Proof.
  assert (Hmap : ∀ (f : job → entry) (r : res (list job)),
             (∀ j, entry_ok (f j)) →
             (data' ← r; Ret (map f data')) = Ret schedule → Forall entry_ok schedule).
  { intros f [data'| |] Hf; try done. simpl. intros [= <-].
    apply Forall_fmap, Forall_forall. intros j _. apply Hf. }
  destruct algorithm; simpl.
  - intros [= <-]. apply runFcfs_ok.
  - by apply nonPreemptive_loop_ok.
  - apply Hmap. intros j. apply report_ok.
  - by apply nonPreemptive_loop_ok.
  - apply Hmap. intros j. apply report_ok.
  - unfold runRoundRobin. destruct (rrQuantum settings) as [quantum|]; [|done].
    destruct (quantum <=? 0); [done|].
    destruct (rr_loop _ _ _) as [st| |]; try done. simpl. intros [= <-].
    apply Forall_fmap, Forall_forall. intros j _. apply report_ok.
  - unfold runMlfq. destruct (parseMlfqLevels _); [done|].
    destruct (mlfq_loop _ _ _) as [st| |]; try done. simpl. intros [= <-].
    apply Forall_fmap, Forall_forall. intros j _. apply report_ok.
Qed.

(** C1: for every policy and every well-formed process set (with a positive
    quantum for Round Robin, at least one positive quantum for MLFQ), every
    entry of a returned schedule has
    [turnaroundTime = completionTime - arrival] and
    [waitingTime = turnaroundTime - burst]: these are the last two
    assignments of every runner, whatever the times.  On whole-number times
    (arrivals, bursts, quanta) whose horizon is within [MAX_SAFE_INTEGER] the
    runner does return, one entry per process, once the fuel is large
    enough. *)
Theorem schedule_times_consistent :
  ∀ (algorithm : algorithm) (processes : list process) (settings : settings),
    wellFormed processes → validSettings algorithm settings →
    (∀ fuel schedule,
       schedulingStrategies algorithm fuel processes settings = Ret schedule →
       Forall (λ e, turnaroundTime e = e_completionTime e - j_arrival (e_job e) ∧
                    waitingTime e = turnaroundTime e - j_burst (e_job e)) schedule) ∧
    (exactTimes processes →
     ∃ fuel0, ∀ fuel, (fuel0 ≤ fuel)%nat →
       ∃ schedule,
         schedulingStrategies algorithm fuel processes settings = Ret schedule ∧
         length schedule = length processes ∧
         Forall (λ e, turnaroundTime e = e_completionTime e - j_arrival (e_job e) ∧
                      waitingTime e = turnaroundTime e - j_burst (e_job e)) schedule).
Proof.
  intros algorithm processes settings Hwf Hvalid. split.
  { intros fuel schedule. apply schedulingStrategies_ok. }
  intros _.
  - change (returns_schedule processes
              (λ fuel, schedulingStrategies algorithm fuel processes settings)).
    destruct algorithm; simpl in *.
    + exists 0%nat. intros fuel _. exists (runFcfs processes).
      split; [done|]. apply runFcfs_ok.
    + apply runNonPreemptive_returns.
    + apply runPreemptive_returns.
    + apply runNonPreemptive_returns.
    + apply runPreemptive_returns.
    + destruct Hvalid as (quantum & Hq & Hpos). by eapply runRoundRobin_returns.
    + by apply runMlfq_returns.
Qed.

Lemma schedule_times_consistent_witness :
  wellFormed initialProcesses ∧ validSettings roundRobin defaultSettings ∧
  exactTimes initialProcesses ∧
  (∃ fuel0, ∀ fuel, (fuel0 ≤ fuel)%nat →
     ∃ schedule,
       schedulingStrategies roundRobin fuel initialProcesses defaultSettings = Ret schedule ∧
       length schedule = 3%nat) ∧
  ∃ schedule,
    schedulingStrategies roundRobin 30 initialProcesses defaultSettings = Ret schedule ∧
    map (λ e, (e_startTime e, e_completionTime e, waitingTime e, turnaroundTime e)) schedule =
      [(0, 8, 4, 8); (2, 9, 5, 8); (4, 12, 5, 10)] ∧
    Forall (λ e, turnaroundTime e = e_completionTime e - j_arrival (e_job e) ∧
                 waitingTime e = turnaroundTime e - j_burst (e_job e)) schedule.
Proof.
  assert (Hwf : wellFormed initialProcesses).
  { repeat (apply Forall_cons_2; [simpl; lia|]). apply Forall_nil_2. }
  assert (Hvalid : validSettings roundRobin defaultSettings).
  { exists 2. split; [reflexivity|lia]. }
  assert (Hrun : ∃ schedule,
             schedulingStrategies roundRobin 30 initialProcesses defaultSettings =
               Ret schedule ∧
             map (λ e, (e_startTime e, e_completionTime e, waitingTime e, turnaroundTime e))
                 schedule = [(0, 8, 4, 8); (2, 9, 5, 8); (4, 12, 5, 10)]).
  { vm_compute. eexists. split; reflexivity. }
  destruct Hrun as (schedule & Hrun & Htimes).
  assert (Hexact : exactTimes initialProcesses).
  { unfold exactTimes, horizon, MAX_SAFE_INTEGER. simpl. lia. }
  destruct (schedule_times_consistent roundRobin initialProcesses defaultSettings Hwf Hvalid)
    as [Hequations Hreturns].
  split; [exact Hwf|]. split; [exact Hvalid|]. split; [exact Hexact|]. split.
  - destruct (Hreturns Hexact) as (fuel0 & Hfuel0). exists fuel0. intros fuel Hfuel.
    destruct (Hfuel0 fuel Hfuel) as (schedule' & Hrun' & Hlen & _).
    exists schedule'. split; [exact Hrun'|exact Hlen].
  - exists schedule. split; [exact Hrun|]. split; [exact Htimes|].
    exact (Hequations 30%nat schedule Hrun).
Defined.

End ProcessSchedulingFacts.

(** ** Page replacement *)

Section PageReplacementFacts.
Import PageReplacement.

Lemma indexOf_Some {A} `{EqDecision A} (l : list A) (x : A) (i : nat) :
  indexOf l x = Some i → l !! i = Some x ∧ ∀ j, j < i → l !! j ≠ Some x.
Proof.
  unfold indexOf. intros H. apply fmap_Some in H as ([i' y] & Hf & ->).
  apply list_find_Some in Hf as (Hl & -> & Hmin). split; [done|].
  intros j Hj Hx. by eapply Hmin.
Qed.

Lemma indexOf_None {A} `{EqDecision A} (l : list A) (x : A) :
  indexOf l x = None → x ∉ l.
Proof.
  unfold indexOf. intros H. apply fmap_None in H.
  apply list_find_None in H. rewrite Forall_forall in H.
  intros Hin. by apply (H x).
Qed.

Lemma indexOf_is_Some {A} `{EqDecision A} (l : list A) (x : A) :
  x ∈ l → is_Some (indexOf l x).
Proof.
  intros Hin. destruct (indexOf l x) eqn:E; [by eexists|].
  by apply indexOf_None in E.
Qed.

Lemma indexOf_lt {A} `{EqDecision A} (l : list A) (x : A) (i : nat) :
  indexOf l x = Some i → i < length l.
Proof. intros [H _]%indexOf_Some. by eapply lookup_lt_Some. Qed.

(** *** The victim is a frame position *)

Definition wf (k : nat) (st : state) : Prop :=
  length (s_frames st) = k ∧ length (s_meta st) = k ∧ s_pointer st < k.

Lemma findFifo_lt frames pointer :
  pointer < length frames → findFifo frames pointer < length frames.
Proof.
  intros Hp. unfold findFifo. destruct (indexOf frames None) eqn:E; [|done].
  by eapply indexOf_lt.
Qed.

Lemma forEachi_pick_lt {A S} (f : S * nat → A → nat → S * nat) (l : list A) (s0 : S) :
  (∀ s x i, (f s x i).2 = s.2 ∨ (f s x i).2 = i) →
  0 < length l →
  (forEachi f l (s0, 0)).2 < length l.
Proof.
  intros Hf Hl.
  assert (H : (λ i (s : S * nat), s.2 = 0 ∨ s.2 < i) (length l) (forEachi f l (s0, 0))).
  { apply forEachi_ind; [by left|].
    intros i x s _ [Hs|Hs]; destruct (Hf s x i) as [-> | ->]; lia. }
  simpl in H. lia.
Qed.

Lemma findLRU_lt frames meta :
  length meta = length frames → 0 < length frames → findLRU frames meta < length frames.
Proof.
  intros Hm Hk. unfold findLRU. destruct (indexOf frames None) eqn:E.
  { by eapply indexOf_lt. }
  rewrite <- Hm. apply forEachi_pick_lt; [|lia].
  intros [oldest idx] info i. simpl.
  destruct ((lastUsed info <? oldest)%Z || (i =? 0)); simpl; auto.
Qed.

Lemma findMRU_lt frames meta :
  length meta = length frames → 0 < length frames → findMRU frames meta < length frames.
Proof.
  intros Hm Hk. unfold findMRU. destruct (indexOf frames None) eqn:E.
  { by eapply indexOf_lt. }
  rewrite <- Hm. apply forEachi_pick_lt; [|lia].
  intros [[nw|] idx] info i; simpl; [|auto].
  destruct (nw <? lastUsed info)%Z; simpl; auto.
Qed.

Lemma findOPT_lt frames refs startIndex :
  0 < length frames → findOPT frames refs startIndex < length frames.
Proof.
  intros Hk. unfold findOPT. destruct (indexOf frames None) eqn:E.
  { by eapply indexOf_lt. }
  apply forEachi_pick_lt; [|lia].
  intros [farthest idx] pg i. simpl.
  destruct (pg ≫= _); simpl; [|auto].
  destruct farthest as [f|]; simpl; [|auto].
  destruct (f <? _)%Z; simpl; auto.
Qed.

(** The reference bits that are set: every turn of the CLOCK hand that does
    not return clears one. *)
Definition armed (meta : list frame_meta) : nat :=
  length (List.filter (λ m, negb (ref m =? 0)%Z) meta).

Lemma armed_clear meta p info :
  meta !! p = Some info → ref info ≠ 0%Z →
  armed (<[p := {| ref := 0; lastUsed := lastUsed info |}]> meta) + 1 = armed meta.
Proof.
  unfold armed. revert p. induction meta as [|m meta IH]; intros [|p] Hp Href; try done.
  - simpl in *. injection Hp as ->.
    destruct (Z.eqb_spec (ref info) 0); [done|]. simpl. lia.
  - simpl in *. specialize (IH p Hp Href).
    destruct (negb (ref m =? 0)%Z); simpl; lia.
Qed.

Lemma mod_length_lt (p k : nat) : 0 < k → (p + 1) mod k < k.
Proof. intros. apply Nat.mod_upper_bound. lia. Qed.

Definition hand_ok (k : nat) (h : hand) : Prop :=
  h_index h < k ∧ nextPointer h < k ∧ length (h_meta h) = k.

Lemma findClock_returns fuel frames meta p :
  length meta = length frames → p < length frames → armed meta < fuel →
  ∃ h, findClock fuel frames meta p = Ret h ∧ hand_ok (length frames) h.
Proof.
  revert meta p. induction fuel as [|fuel IH]; intros meta p Hm Hp Hfuel; [lia|].
  assert (Hk : 0 < length frames) by lia.
  pose proof (mod_length_lt p _ Hk) as Hnext.
  destruct (lookup_lt_is_Some_2 meta p) as [info Hinfo]; [lia|].
  simpl. rewrite Hinfo.
  assert (Hpage : (if (ref info =? 0)%Z
                   then Ret {| h_index := p; nextPointer := (p + 1) mod length frames;
                               h_meta := meta |}
                   else findClock fuel frames
                          (<[p := {| ref := 0; lastUsed := lastUsed info |}]> meta)
                          ((p + 1) mod length frames)) =
                  Ret {| h_index := p; nextPointer := (p + 1) mod length frames;
                         h_meta := meta |} ∨
                  ((ref info ≠ 0)%Z ∧
                   (if (ref info =? 0)%Z
                   then Ret {| h_index := p; nextPointer := (p + 1) mod length frames;
                               h_meta := meta |}
                   else findClock fuel frames
                          (<[p := {| ref := 0; lastUsed := lastUsed info |}]> meta)
                          ((p + 1) mod length frames)) =
                   findClock fuel frames
                          (<[p := {| ref := 0; lastUsed := lastUsed info |}]> meta)
                          ((p + 1) mod length frames))).
  { destruct (Z.eqb_spec (ref info) 0); auto. }
  assert (Hdone : ∃ h, Ret {| h_index := p; nextPointer := (p + 1) mod length frames;
                              h_meta := meta |} = Ret h ∧ hand_ok (length frames) h).
  { eexists. split; [done|]. by repeat split. }
  assert (Hrec : (ref info ≠ 0)%Z →
                 ∃ h, findClock fuel frames
                        (<[p := {| ref := 0; lastUsed := lastUsed info |}]> meta)
                        ((p + 1) mod length frames) = Ret h ∧ hand_ok (length frames) h).
  { intros Href. apply IH; [by rewrite length_insert|done|].
    pose proof (armed_clear meta p info Hinfo Href). lia. }
  destruct (frames !! p) as [[pg|]|]; [| done |];
    (destruct Hpage as [-> | [Href ->]]; [done | by apply Hrec]).
Qed.

Lemma findWSClock_bounds fuel frames meta p currentTime h :
  length meta = length frames → p < length frames →
  findWSClock fuel frames meta p currentTime = Ret h → hand_ok (length frames) h.
Proof.
  revert meta p. induction fuel as [|fuel IH]; intros meta p Hm Hp; [done|].
  assert (Hk : 0 < length frames) by lia.
  pose proof (mod_length_lt p _ Hk) as Hnext.
  simpl.
  assert (Hrest : match meta !! p with
                  | Some info =>
                      if (ref info =? 1)%Z
                      then findWSClock fuel frames
                             (<[p := {| ref := 0; lastUsed := currentTime |}]> meta)
                             ((p + 1) mod length frames) currentTime
                      else if (tau <? currentTime - lastUsed info)%Z
                      then Ret {| h_index := p; nextPointer := (p + 1) mod length frames;
                                  h_meta := meta |}
                      else findWSClock fuel frames meta ((p + 1) mod length frames) currentTime
                  | None => Raise TypeError
                  end = Ret h → hand_ok (length frames) h).
  { destruct (meta !! p) as [info|]; [|done].
    destruct (ref info =? 1)%Z.
    - apply IH; [by rewrite length_insert|done].
    - destruct (tau <? currentTime - lastUsed info)%Z; [|by apply IH].
      intros [= <-]. by repeat split. }
  destruct (frames !! p) as [[pg|]|]; [done| |done].
  intros [= <-]. by repeat split.
Qed.

Lemma armed_le meta : armed meta ≤ length meta.
Proof.
  unfold armed. induction meta as [|m meta IH]; simpl; [done|].
  destruct (negb _); simpl; lia.
Qed.

Lemma findClock_bounds fuel frames meta p h :
  length meta = length frames → p < length frames →
  findClock fuel frames meta p = Ret h → hand_ok (length frames) h.
Proof.
  revert meta p. induction fuel as [|fuel IH]; intros meta p Hm Hp; [done|].
  assert (Hk : 0 < length frames) by lia.
  pose proof (mod_length_lt p _ Hk) as Hnext.
  simpl.
  assert (Hrest : match meta !! p with
                  | Some info =>
                      if (ref info =? 0)%Z
                      then Ret {| h_index := p; nextPointer := (p + 1) mod length frames;
                                  h_meta := meta |}
                      else findClock fuel frames
                             (<[p := {| ref := 0; lastUsed := lastUsed info |}]> meta)
                             ((p + 1) mod length frames)
                  | None => Raise TypeError
                  end = Ret h → hand_ok (length frames) h).
  { destruct (meta !! p) as [info|]; [|done].
    destruct (ref info =? 0)%Z.
    - intros [= <-]. by repeat split.
    - apply IH; [by rewrite length_insert|done]. }
  destruct (frames !! p) as [[pg|]|]; [done| |done].
  intros [= <-]. by repeat split.
Qed.

Lemma selectVictim_bounds algorithm fuel refs index k st h :
  0 < k → wf k st →
  selectVictim algorithm fuel refs index st = Ret h → hand_ok k h.
Proof.
  intros Hk (Hf & Hm & Hp). unfold selectVictim.
  destruct algorithm.
  - intros [= <-]. repeat split; simpl; [| |done].
    + rewrite <- Hf. apply findFifo_lt. lia.
    + rewrite Hf. by apply mod_length_lt.
  - intros [= <-]. repeat split; simpl; [|done|done].
    rewrite <- Hf. apply findLRU_lt; lia.
  - intros [= <-]. repeat split; simpl; [|done|done].
    rewrite <- Hf. apply findMRU_lt; lia.
  - intros H. rewrite <- Hf. eapply findClock_bounds; [| |exact H]; lia.
  - intros H. rewrite <- Hf. eapply findWSClock_bounds; [| |exact H]; lia.
  - intros [= <-]. repeat split; simpl; [|done|done].
    rewrite <- Hf. apply findOPT_lt; lia.
Qed.

Lemma selectVictim_returns algorithm fuel refs index k st :
  algorithm ≠ wsclock → 0 < k → algorithm ≠ clock ∨ k < fuel → wf k st →
  ∃ h, selectVictim algorithm fuel refs index st = Ret h.
Proof.
  intros Halg Hk Hfuel (Hf & Hm & Hp).
  assert (algorithm = clock → k < fuel) as Hclock by (intros ->; by destruct Hfuel).
  destruct algorithm; try done; simpl; try by eexists.
  destruct (findClock_returns fuel (s_frames st) (s_meta st) (s_pointer st))
    as (h & Hh & _); [lia|lia| |by exists h].
  pose proof (armed_le (s_meta st)). specialize (Hclock eq_refl). lia.
Qed.

(** What one reference does to the frames: a hit leaves them alone, a fault
    writes the page into one frame. *)
Definition demand_step (k : nat) (pg : Z) (st st' : state) (victim : option nat) : Prop :=
  match victim with
  | None =>
      Some pg ∈ s_frames st ∧ s_frames st' = s_frames st ∧ s_faults st' = s_faults st
  | Some i =>
      (Some pg ∉ s_frames st) ∧ i < k ∧
      s_frames st' = <[i := Some pg]> (s_frames st) ∧ s_faults st' = s_faults st + 1
  end.

Lemma visit_spec algorithm fuel refs k st pg index st' :
  0 < k → wf k st →
  visit algorithm fuel refs st pg index = Ret st' →
  wf k st' ∧
  ∃ victim, demand_step k pg st st' victim ∧
    (algorithm = opt → ∀ i, victim = Some i → i = findOPT (s_frames st) refs (index + 1)).
Proof.
  intros Hk Hwf. pose proof Hwf as (Hf & Hm & Hp). unfold visit.
  destruct (indexOf (s_frames st) (Some pg)) as [hitIndex|] eqn:E.
  - intros [= <-]. split.
    + repeat split; simpl; [done| |done]. by rewrite length_insert.
    + exists None. split; [|done]. simpl. split; [|done].
      apply indexOf_Some in E as [E _]. by eapply list_elem_of_lookup_2.
  - destruct (selectVictim algorithm fuel refs index st) as [h| |] eqn:Hsel; try done.
    simpl. intros [= <-].
    destruct (selectVictim_bounds _ _ _ _ _ _ _ Hk Hwf Hsel) as (Hi & Hn & Hhm).
    split.
    + repeat split; simpl; [by rewrite length_insert| by rewrite length_insert |done].
    + exists (Some (h_index h)). split.
      * simpl. split; [by apply indexOf_None|]. done.
      * intros -> i [= <-]. simpl in Hsel. by injection Hsel as <-.
Qed.

Lemma visit_returns algorithm fuel refs k st pg index :
  algorithm ≠ wsclock → 0 < k → algorithm ≠ clock ∨ k < fuel → wf k st →
  ∃ st', visit algorithm fuel refs st pg index = Ret st'.
Proof.
  intros Halg Hk Hfuel Hwf. unfold visit.
  destruct (indexOf (s_frames st) (Some pg)); [by eexists|].
  destruct (selectVictim_returns algorithm fuel refs index k st) as [h ->]; try done.
  by eexists.
Qed.

Lemma initial_wf k : 0 < k → wf k (initial k).
Proof. intros Hk. repeat split; simpl; by rewrite ?length_replicate. Qed.

Lemma forEach_returns algorithm fuel refs k rest index st :
  algorithm ≠ wsclock → 0 < k → algorithm ≠ clock ∨ k < fuel → wf k st →
  ∃ st', forEach algorithm fuel refs rest index st = Ret st'.
Proof.
  intros Halg Hk Hfuel. revert index st.
  induction rest as [|pg rest IH]; intros index st Hwf; simpl; [by eexists|].
  destruct (visit_returns algorithm fuel refs k st pg index) as [st1 H1]; try done.
  rewrite H1. simpl. apply IH.
  by destruct (visit_spec _ _ _ _ _ _ _ _ Hk Hwf H1).
Qed.

(** FIFO, LRU, MRU, CLOCK and OPT return a complete trace as soon as the fuel
    exceeds the frame count: CLOCK's hand stops within one lap and one step. *)
Lemma simulate_returns algorithm fuel k refs :
  algorithm ≠ wsclock → 0 < k → algorithm ≠ clock ∨ k < fuel →
  ∃ r, simulate algorithm fuel k refs = Ret r ∧ references r = length refs.
Proof.
  intros Halg Hk Hfuel. unfold simulate.
  destruct (forEach_returns algorithm fuel refs k refs 0 (initial k)) as [st ->];
    try done; [by apply initial_wf|].
  simpl. by eexists.
Qed.

(** *** WSClock: a search that never returns *)

(** With no empty frame, and every frame either referenced or used within the
    last [tau] time units, no turn of the WSClock hand returns. *)
Lemma findWSClock_diverges fuel frames meta p currentTime :
  length meta = length frames → p < length frames →
  Forall (λ f, f ≠ None) frames →
  Forall (λ m, ref m = 1%Z ∨ (currentTime - lastUsed m ≤ tau)%Z) meta →
  findWSClock fuel frames meta p currentTime = OutOfFuel.
Proof.
  intros Hm Hp Hfull. revert meta p Hm Hp.
  induction fuel as [|fuel IH]; intros meta p Hm Hp Hrecent; [done|].
  assert (Hk : 0 < length frames) by lia.
  pose proof (mod_length_lt p _ Hk) as Hnext.
  destruct (lookup_lt_is_Some_2 frames p) as [f Hf]; [lia|].
  destruct (lookup_lt_is_Some_2 meta p) as [info Hinfo]; [lia|].
  assert (f ≠ None) as Hne by (by eapply (Forall_lookup_1 _ _ _ _ Hfull Hf)).
  pose proof (Forall_lookup_1 _ _ _ _ Hrecent Hinfo) as Hinfo'. simpl in Hinfo'.
  simpl. rewrite Hf, Hinfo. destruct f as [pg|]; [|done].
  destruct (Z.eqb_spec (ref info) 1) as [Href|Href].
  - apply IH; [by rewrite length_insert|done|].
    apply Forall_insert; [done|]. simpl. right. unfold tau. lia.
  - destruct Hinfo' as [?|Hage]; [done|].
    destruct (Z.ltb_spec tau (currentTime - lastUsed info)); [lia|].
    by apply IH.
Qed.

Lemma forEach_step algorithm fuel refs pg rest index st st' :
  visit algorithm fuel refs st pg index = Ret st' →
  forEach algorithm fuel refs (pg :: rest) index st =
  forEach algorithm fuel refs rest (S index) st'.
Proof. intros H. simpl. by rewrite H. Qed.

Lemma forEach_stuck algorithm fuel refs pg rest index st :
  visit algorithm fuel refs st pg index = OutOfFuel →
  forEach algorithm fuel refs (pg :: rest) index st = OutOfFuel.
Proof. intros H. simpl. by rewrite H. Qed.

(** A fault of WSClock on full, recently used frames hangs the simulation. *)
Lemma visit_wsclock_diverges fuel refs st pg index :
  length (s_meta st) = length (s_frames st) → s_pointer st < length (s_frames st) →
  Some pg ∉ s_frames st →
  Forall (λ f, f ≠ None) (s_frames st) →
  Forall (λ m, ref m = 1%Z ∨ (Z.of_nat (length (s_timeline st)) - lastUsed m ≤ tau)%Z)
         (s_meta st) →
  visit wsclock fuel refs st pg index = OutOfFuel.
Proof.
  intros Hm Hp Hpg Hfull Hrecent. unfold visit.
  destruct (indexOf (s_frames st) (Some pg)) as [i|] eqn:E.
  { apply indexOf_Some in E as [E _]. by apply list_elem_of_lookup_2 in E. }
  simpl. by rewrite findWSClock_diverges.
Qed.

(** C2 at its failing inputs: with WSClock selected, the reference string
    [1 2] on one frame, and the default reference string on three frames, make
    the victim search loop for ever: whatever the number of iterations
    allowed, [simulate] has not returned. *)
Theorem wsclock_simulation_hangs :
  ∀ fuel : nat,
    simulate wsclock fuel 1 [1; 2]%Z = OutOfFuel ∧
    simulate wsclock fuel 3 defaultRef = OutOfFuel.
Proof.
  intros [|fuel]; [by split|]. split.
  - unfold simulate.
    erewrite forEach_step by reflexivity.
    rewrite forEach_stuck; [done|].
    apply visit_wsclock_diverges; simpl; try done; try lia.
    + rewrite list_elem_of_singleton. congruence.
    + by repeat constructor.
    + apply Forall_singleton. by left.
  - unfold simulate, defaultRef.
    do 3 (erewrite forEach_step by reflexivity).
    rewrite forEach_stuck; [done|].
    apply visit_wsclock_diverges; simpl; try done; try lia.
    + rewrite !elem_of_cons, elem_of_nil. intros [?|[?|[?|[]]]]; congruence.
    + by repeat constructor.
    + repeat (apply Forall_cons_2; [by left|]). apply Forall_nil_2.
Qed.

(** C3, as the code behaves: on the default reference string FIFO faults 10
    times with 3 frames and 7 times with 4 frames, so the Belady check finds
    no anomaly and returns [null]. *)
Theorem belady_check_default_string :
  ∀ fuel : nat,
    (∃ smaller larger,
        simulate fifo fuel 3 defaultRef = Ret smaller ∧ faults smaller = 10 ∧
        simulate fifo fuel 4 defaultRef = Ret larger ∧ faults larger = 7) ∧
    detectBelady fuel defaultRef 3 = Ret None.
Proof.
  intros fuel. split.
  - vm_compute. eexists _, _. split; [reflexivity|]. split; [reflexivity|].
    split; reflexivity.
  - vm_compute. reflexivity.
Qed.

(** C3 as stated fails: on the default reference string FIFO with 4 frames
    does not fault more often than FIFO with 3 frames. *)
Lemma belady_check_default_string_no_anomaly :
  ¬ (∃ smaller larger,
        simulate fifo 0 3 defaultRef = Ret smaller ∧
        simulate fifo 0 4 defaultRef = Ret larger ∧
        faults smaller < faults larger).
Proof.
  intros (smaller & larger & Hs & Hl & Hlt).
  vm_compute in Hs. vm_compute in Hl.
  injection Hs as <-. injection Hl as <-. simpl in Hlt. lia.
Qed.

(** *** OPT is optimal *)

(** The frame holds a page referenced among the next [t] references. *)
Definition due (t : nat) (future : list Z) (f : option Z) : bool :=
  match f with
  | Some pg => bool_decide (pg ∈ take t future)
  | None => false
  end.

(** How many frames hold a page that is due within [t] references. *)
Definition due_count (t : nat) (future : list Z) (frames : list (option Z)) : nat :=
  length (List.filter (due t future) frames).

(** The resident pages. *)
Definition pages (frames : list (option Z)) : list Z := omap (λ f, f) frames.

Definition b2n (b : bool) : nat := if b then 1 else 0.

Lemma elem_of_pages frames pg : pg ∈ pages frames ↔ Some pg ∈ frames.
Proof.
  unfold pages. rewrite list_elem_of_omap. split.
  - intros (f & Hf & ->). done.
  - intros H. by exists (Some pg).
Qed.

Lemma due_shift_other t r future pg :
  pg ≠ r → due (S t) (r :: future) (Some pg) = due t future (Some pg).
Proof.
  intros Hne. simpl. apply bool_decide_ext. rewrite elem_of_cons. tauto.
Qed.

Lemma due_shift_self t r future : due (S t) (r :: future) (Some r) = true.
Proof. simpl. apply bool_decide_eq_true. by left. Qed.

Lemma due_count_cons t future f frames :
  due_count t future (f :: frames) = b2n (due t future f) + due_count t future frames.
Proof. unfold due_count. simpl. by destruct (due t future f). Qed.

(** Arithmetic over frame counts, with the counts and flags first named. *)
Ltac count_lia :=
  repeat match goal with
         | H : context [due_count ?t ?f ?F] |- _ =>
             let n := fresh "n" in set (n := due_count t f F) in *; clearbody n
         | |- context [due_count ?t ?f ?F] =>
             let n := fresh "n" in set (n := due_count t f F) in *; clearbody n
         | H : context [b2n ?b] |- _ =>
             let n := fresh "d" in set (n := b2n b) in *; clearbody n
         | |- context [b2n ?b] =>
             let n := fresh "d" in set (n := b2n b) in *; clearbody n
         end;
  lia.

Lemma due_count_shift_absent t r future frames :
  Some r ∉ frames → due_count (S t) (r :: future) frames = due_count t future frames.
Proof.
  induction frames as [|f frames IH]; intros Hr; [done|].
  rewrite !due_count_cons, IH by (intros ?; apply Hr; by right).
  f_equal. destruct f as [pg|]; [|done].
  rewrite due_shift_other; [done|]. intros ->. apply Hr. by left.
Qed.

Lemma due_count_shift_present t r future frames :
  Some r ∈ frames → NoDup (pages frames) →
  due_count (S t) (r :: future) frames + b2n (due t future (Some r)) =
  due_count t future frames + 1.
Proof.
  induction frames as [|f frames IH]; intros Hr Hnd; [by apply elem_of_nil in Hr|].
  rewrite !due_count_cons.
  destruct f as [pg|].
  - change (pages (Some pg :: frames)) with (pg :: pages frames) in Hnd.
    apply NoDup_cons in Hnd as [Hpg Hnd].
    destruct (decide (pg = r)) as [->|Hne].
    + rewrite due_shift_self.
      rewrite due_count_shift_absent by (by rewrite <- elem_of_pages).
      cbn [b2n]. count_lia.
    + rewrite due_shift_other by done.
      apply elem_of_cons in Hr as [[= Hr]|Hr]; [congruence|].
      specialize (IH Hr Hnd). count_lia.
  - change (pages (None :: frames)) with (pages frames) in Hnd.
    apply elem_of_cons in Hr as [?|Hr]; [done|].
    specialize (IH Hr Hnd). cbn [due b2n] in *. count_lia.
Qed.

Lemma due_count_insert t future frames i g f :
  frames !! i = Some g →
  due_count t future (<[i := f]> frames) + b2n (due t future g) =
  due_count t future frames + b2n (due t future f).
Proof.
  revert i. induction frames as [|f0 frames IH]; intros [|i] Hi; try done; simpl in *.
  - injection Hi as ->. rewrite !due_count_cons. count_lia.
  - rewrite !due_count_cons. specialize (IH i Hi). count_lia.
Qed.

Lemma due_count_le t future frames : due_count t future frames ≤ length frames.
Proof.
  induction frames as [|f frames IH]; [done|].
  rewrite due_count_cons. simpl. destruct (due t future f); simpl; count_lia.
Qed.

Lemma due_count_all t future frames :
  (∀ j g, frames !! j = Some g → due t future g = true) →
  due_count t future frames = length frames.
Proof.
  induction frames as [|f frames IH]; intros Hall; [done|].
  rewrite due_count_cons, (Hall 0 f eq_refl). simpl. f_equal.
  apply IH. intros j g Hg. by apply (Hall (S j)).
Qed.

Lemma due_count_not_all t future frames j g :
  frames !! j = Some g → due t future g = false →
  due_count t future frames < length frames.
Proof.
  revert j. induction frames as [|f frames IH]; intros [|j] Hj Hg; try done; simpl in *.
  - injection Hj as ->. rewrite due_count_cons, Hg.
    pose proof (due_count_le t future frames). simpl. count_lia.
  - rewrite due_count_cons. specialize (IH j Hj Hg).
    destruct (due t future f); simpl; count_lia.
Qed.

Lemma due_count_0 future frames : due_count 0 future frames = 0.
Proof.
  induction frames as [|f frames IH]; [done|].
  rewrite due_count_cons, IH. destruct f as [pg|]; [|done].
  cbn [due]. rewrite bool_decide_eq_false_2; [done|]. rewrite take_0. apply not_elem_of_nil.
Qed.

Lemma pages_insert frames i pg :
  Some pg ∉ frames → NoDup (pages frames) → NoDup (pages (<[i := Some pg]> frames)).
Proof.
  revert i. induction frames as [|f frames IH]; intros i Hpg Hnd; [done|].
  assert (Hpg' : Some pg ∉ frames) by (intros ?; apply Hpg; by right).
  assert (Hin : ∀ i x, x ∈ pages (<[i := Some pg]> frames) → x = pg ∨ x ∈ pages frames).
  { clear. intros i x. revert i. induction frames as [|f frames IH]; intros [|i] Hx; simpl in *;
      try by right.
    - change (x ∈ pg :: pages frames) in Hx. apply elem_of_cons in Hx as [->|Hx]; [by left|].
      right. destruct f; [by right|done].
    - destruct f as [q|].
      + change (x ∈ q :: pages (<[i := Some pg]> frames)) in Hx.
        apply elem_of_cons in Hx as [->|Hx].
        * right. by left.
        * destruct (IH i Hx) as [->|?]; [by left|]. right. by right.
      + change (x ∈ pages (<[i := Some pg]> frames)) in Hx.
        destruct (IH i Hx) as [->|?]; [by left|]. by right. }
  destruct i as [|i]; simpl.
  - change (NoDup (pg :: pages frames)). apply NoDup_cons. split.
    + by rewrite elem_of_pages.
    + destruct f; [|done]. change (NoDup (z :: pages frames)) in Hnd.
      by apply NoDup_cons in Hnd as [_ ?].
  - destruct f as [q|].
    + change (NoDup (q :: pages frames)) in Hnd. apply NoDup_cons in Hnd as [Hq Hnd].
      change (NoDup (q :: pages (<[i := Some pg]> frames))). apply NoDup_cons. split.
      * intros Hx. destruct (Hin i q Hx) as [->|?]; [|done]. apply Hpg. by left.
      * by apply IH.
    + change (NoDup (pages (<[i := Some pg]> frames))). by apply IH.
Qed.

(** The simulation under comparison has faulted at least as often as OPT's,
    with a margin that covers every page it holds and OPT's lacks among those
    due soon. *)
Definition ahead (future : list Z) (S T : list (option Z)) (fo fx : nat) : Prop :=
  ∀ t, due_count t future T + fo ≤ due_count t future S + fx.

(** Frame [i] holds nothing that is needed before the content of another frame. *)
Definition farthest_victim (future : list Z) (S : list (option Z)) (i : nat) : Prop :=
  ∀ t g, S !! i = Some g → due t future g = true →
         ∀ j g', S !! j = Some g' → due t future g' = true.

Definition opt_step (pg : Z) (future : list Z) (S S' : list (option Z))
    (victim : option nat) : Prop :=
  match victim with
  | None => Some pg ∈ S ∧ S' = S
  | Some i => (Some pg ∉ S) ∧ i < length S ∧ S' = <[i := Some pg]> S ∧
              farthest_victim future S i
  end.

Definition any_step (pg : Z) (T T' : list (option Z)) (victim : option nat) : Prop :=
  match victim with
  | None => Some pg ∈ T ∧ T' = T
  | Some j => (Some pg ∉ T) ∧ j < length T ∧ T' = <[j := Some pg]> T
  end.

Definition is_fault (victim : option nat) : nat :=
  match victim with Some _ => 1 | None => 0 end.

Lemma ahead_step pg future S T S' T' fo fx vo vx :
  length S = length T → NoDup (pages S) → NoDup (pages T) →
  ahead (pg :: future) S T fo fx →
  opt_step pg future S S' vo → any_step pg T T' vx →
  ahead future S' T' (fo + is_fault vo) (fx + is_fault vx).
Proof.
  intros Hlen HndS HndT Hahead Ho Hx t.
  pose proof (Hahead (Datatypes.S t)) as Ht.
  pose proof (Hahead 0) as H0. rewrite !due_count_0 in H0.
  pose proof (Hahead 1) as H1.
  destruct vo as [i|], vx as [j|]; simpl in *.
  - (* both fault *)
    destruct Ho as (HpS & Hi & -> & Hfar), Hx as (HpT & Hj & ->).
    destruct (lookup_lt_is_Some_2 S i Hi) as [gs Hgs].
    destruct (lookup_lt_is_Some_2 T j Hj) as [gt Hgt].
    pose proof (due_count_insert t future S i gs (Some pg) Hgs) as HS.
    pose proof (due_count_insert t future T j gt (Some pg) Hgt) as HT.
    rewrite due_count_shift_absent in Ht by done.
    rewrite (due_count_shift_absent _ _ _ S) in Ht by done.
    destruct (due t future gs) eqn:Hdue; cbn [b2n] in HS.
    + rewrite (due_count_all t future S) in HS by (intros; by eapply Hfar).
      destruct (due t future gt) eqn:Hduet; cbn [b2n] in HT.
      * pose proof (due_count_le t future T). count_lia.
      * pose proof (due_count_not_all t future T j gt Hgt Hduet). count_lia.
    + destruct (due t future gt); cbn [b2n] in HT; count_lia.
  - (* OPT faults, the other hits *)
    destruct Ho as (HpS & Hi & -> & Hfar), Hx as (HpT & ->).
    destruct (lookup_lt_is_Some_2 S i Hi) as [gs Hgs].
    pose proof (due_count_insert t future S i gs (Some pg) Hgs) as HS.
    pose proof (due_count_shift_present t pg future T HpT HndT) as HT.
    pose proof (due_count_shift_present 0 pg future T HpT HndT) as HT1.
    rewrite due_count_0 in HT1.
    assert (due 0 future (Some pg) = false) as Hd0.
    { cbn [due]. rewrite take_0. apply bool_decide_eq_false_2, not_elem_of_nil. }
    rewrite Hd0 in HT1. cbn [b2n] in HT1.
    rewrite (due_count_shift_absent _ _ _ S) in Ht by done.
    rewrite (due_count_shift_absent _ _ _ S) in H1 by done.
    rewrite due_count_0 in H1.
    destruct (due t future gs) eqn:Hdue; cbn [b2n] in HS.
    + rewrite (due_count_all t future S) in HS by (intros; by eapply Hfar).
      pose proof (due_count_le (Datatypes.S t) (pg :: future) T). count_lia.
    + count_lia.
  - (* OPT hits, the other faults *)
    destruct Ho as (HpS & ->), Hx as (HpT & Hj & ->).
    destruct (lookup_lt_is_Some_2 T j Hj) as [gt Hgt].
    pose proof (due_count_insert t future T j gt (Some pg) Hgt) as HT.
    pose proof (due_count_shift_present t pg future S HpS HndS) as HS.
    rewrite due_count_shift_absent in Ht by done.
    destruct (due t future gt); cbn [b2n] in HT; count_lia.
  - (* both hit *)
    destruct Ho as (HpS & ->), Hx as (HpT & ->).
    pose proof (due_count_shift_present t pg future S HpS HndS) as HS.
    pose proof (due_count_shift_present t pg future T HpT HndT) as HT.
    count_lia.
Qed.

Lemma due_Some_iff t future pg :
  due t future (Some pg) = true ↔ ∃ v, indexOf future pg = Some v ∧ v < t.
Proof.
  cbn [due]. rewrite bool_decide_eq_true, elem_of_take. split.
  - intros (i & Hi & Hlt).
    destruct (indexOf_is_Some future pg) as [v Hv].
    { by eapply list_elem_of_lookup_2. }
    exists v. split; [done|].
    apply indexOf_Some in Hv as [_ Hmin].
    destruct (decide (v ≤ i)); [lia|]. exfalso. apply (Hmin i); [lia|done].
  - intros (v & Hv & Hlt). exists v. split; [|done]. by apply indexOf_Some in Hv as [? _].
Qed.

(** The next use of a frame's content, as [findOPT] computes it. *)
Definition nextUse (refs : list Z) (startIndex : nat) (g : option Z) : option nat :=
  g ≫= (λ v, indexOfFrom refs v startIndex).

Lemma nextUse_None_not_due refs startIndex g t :
  nextUse refs startIndex g = None → due t (drop startIndex refs) g = false.
Proof.
  destruct g as [pg|]; [|done]. unfold nextUse. intros Hn.
  change (indexOfFrom refs pg startIndex = None) in Hn.
  unfold indexOfFrom in Hn. apply fmap_None in Hn.
  apply not_true_is_false. intros (v & Hv & _)%due_Some_iff. congruence.
Qed.

Lemma nextUse_Some_due refs startIndex g u t :
  nextUse refs startIndex g = Some u →
  due t (drop startIndex refs) g = true ↔ u < startIndex + t.
Proof.
  destruct g as [pg|]; [|done]. unfold nextUse. intros Hn.
  change (indexOfFrom refs pg startIndex = Some u) in Hn.
  unfold indexOfFrom in Hn. apply fmap_Some in Hn as (v & Hv & ->).
  rewrite due_Some_iff. split.
  - intros (v' & Hv' & Hlt). assert (v' = v) by congruence. lia.
  - intros Hlt. exists v. split; [done|lia].
Qed.

(** [findOPT] returns an empty frame, or a page that is never used again, or
    the page whose next use comes last. *)
Lemma findOPT_farthest frames refs startIndex :
  0 < length frames →
  farthest_victim (drop startIndex refs) frames (findOPT frames refs startIndex).
Proof.
  intros Hk. unfold findOPT.
  destruct (indexOf frames None) as [empty|] eqn:E.
  { intros t g Hg Hdue. apply indexOf_Some in E as [E _].
    assert (g = None) as -> by congruence. done. }
  set (nu := nextUse refs startIndex).
  set (body := λ '(farthest, idx) (pg : option Z) (i : nat), _).
  set (P := λ (i : nat) (st : distance * nat),
         match i with
         | 0 => st = (Finite (-1), 0)
         | S _ =>
             ∃ g, frames !! st.2 = Some g ∧
               match st.1 with
               | Infinity => nu g = None
               | Finite f =>
                   ∃ u, nu g = Some u ∧ f = Z.of_nat u ∧
                     ∀ j g', j < i → frames !! j = Some g' → ∃ u', nu g' = Some u' ∧ u' ≤ u
               end
         end).
  assert (HP : P (length frames) (forEachi body frames (Finite (-1), 0))).
  { apply forEachi_ind; [done|].
    intros i x [farthest idx] Hx Hi. unfold body.
    change (x ≫= (λ v : Z, indexOfFrom refs v startIndex)) with (nu x).
    unfold P at 1.
    destruct (nu x) as [nx|] eqn:Hnx.
    - destruct farthest as [f|].
      + destruct (Z.ltb_spec f (Z.of_nat nx)) as [Hlt|Hge]; cbn [fst snd].
        * exists x. split; [done|]. exists nx. repeat split; [done|].
          intros j g' Hj Hg'. destruct (decide (j = i)) as [->|Hne].
          { exists nx. split; [congruence|lia]. }
          destruct i as [|i]; [lia|]. unfold P in Hi. cbn [fst snd] in Hi.
          destruct Hi as (g & _ & u & _ & Hf & Hall).
          destruct (Hall j g') as (u' & Hu' & Hle); [lia|done|].
          exists u'. split; [done|lia].
        * destruct i as [|i]; unfold P in Hi; cbn [fst snd] in Hi.
          { injection Hi as -> ->. lia. }
          destruct Hi as (g & Hg & u & Hu & Hf & Hall).
          exists g. split; [done|]. exists u. repeat split; [done|done|].
          intros j g' Hj Hg'. destruct (decide (j = S i)) as [->|Hne].
          { exists nx. split; [congruence|lia]. }
          apply (Hall j g'); [lia|done].
      + destruct i as [|i]; unfold P in Hi; cbn [fst snd] in Hi; [done|].
        destruct Hi as (g & Hg & Hnone). exists g. by split.
    - cbn [fst snd]. exists x. by split. }
  unfold P in HP. destruct (length frames) as [|k] eqn:Hlen; [lia|].
  destruct HP as (g & Hg & Hfar). rewrite <- Hlen in Hfar.
  intros t g0 Hg0 Hdue j g' Hg'. assert (g0 = g) as -> by congruence.
  destruct (forEachi body frames (Finite (-1), 0)).1 as [f|].
  - destruct Hfar as (u & Hu & _ & Hall).
    destruct (Hall j g') as (u' & Hu' & Hle); [by eapply lookup_lt_Some|done|].
    apply (nextUse_Some_due _ _ _ _ t) in Hu. apply (nextUse_Some_due _ _ _ _ t) in Hu'.
    apply Hu'. apply Hu in Hdue. lia.
  - by rewrite (nextUse_None_not_due _ _ _ t Hfar) in Hdue.
Qed.

Lemma initial_no_pages k : pages (s_frames (initial k)) = [].
Proof. simpl. induction k as [|k IH]; [done|]. exact IH. Qed.

Lemma demand_step_faults k pg st st' victim :
  demand_step k pg st st' victim → s_faults st' = s_faults st + is_fault victim.
Proof.
  destruct victim; simpl; [intros (_ & _ & _ & ->) | intros (_ & _ & ->)]; lia.
Qed.

Lemma demand_step_any k pg st st' victim :
  wf k st → demand_step k pg st st' victim →
  any_step pg (s_frames st) (s_frames st') victim.
Proof.
  intros (Hf & _). destruct victim; simpl; rewrite ?Hf;
    [intros (? & ? & ? & ?) | intros (? & ? & ?)]; done.
Qed.

Lemma demand_step_NoDup k pg st st' victim :
  demand_step k pg st st' victim →
  NoDup (pages (s_frames st)) → NoDup (pages (s_frames st')).
Proof.
  destruct victim; simpl.
  - intros (Hpg & _ & -> & _). by apply pages_insert.
  - by intros (_ & -> & _).
Qed.

(** OPT and any other policy run side by side over the same references. *)
Lemma opt_stays_ahead algorithm fuel fuel' refs k rest :
  0 < k →
  ∀ index so sx so' sx',
    drop index refs = rest →
    wf k so → wf k sx →
    NoDup (pages (s_frames so)) → NoDup (pages (s_frames sx)) →
    ahead rest (s_frames so) (s_frames sx) (s_faults so) (s_faults sx) →
    forEach opt fuel refs rest index so = Ret so' →
    forEach algorithm fuel' refs rest index sx = Ret sx' →
    s_faults so' ≤ s_faults sx'.
Proof.
  intros Hk. induction rest as [|pg rest IH];
    intros index so sx so' sx' Hdrop Hwo Hwx Hno Hnx Hahead Ho Hx.
  - simpl in Ho, Hx. injection Ho as <-. injection Hx as <-.
    specialize (Hahead 0). by rewrite !due_count_0 in Hahead.
  - simpl in Ho, Hx.
    destruct (visit opt fuel refs so pg index) as [so1| |] eqn:Hvo; try done.
    destruct (visit algorithm fuel' refs sx pg index) as [sx1| |] eqn:Hvx; try done.
    simpl in Ho, Hx.
    destruct (visit_spec _ _ _ _ _ _ _ _ Hk Hwo Hvo) as (Hwo1 & vo & Hdo & Hopt).
    destruct (visit_spec _ _ _ _ _ _ _ _ Hk Hwx Hvx) as (Hwx1 & vx & Hdx & _).
    assert (Hrest : drop (index + 1) refs = rest).
    { rewrite <- drop_drop, Hdrop. done. }
    apply (IH (S index) so1 sx1 so' sx'); try done.
    + by rewrite <- Hrest, Nat.add_1_r.
    + by eapply demand_step_NoDup.
    + by eapply demand_step_NoDup.
    + rewrite (demand_step_faults _ _ _ _ _ Hdo), (demand_step_faults _ _ _ _ _ Hdx).
      apply (ahead_step pg rest (s_frames so) (s_frames sx) _ _ _ _ vo vx); try done.
      * destruct Hwo as (-> & _), Hwx as (-> & _). done.
      * pose proof (demand_step_any _ _ _ _ _ Hwo Hdo) as Hany.
        destruct vo as [i|]; simpl in *; [|done].
        destruct Hany as (? & ? & ?). repeat split; try done.
        rewrite (Hopt eq_refl i eq_refl), <- Hrest.
        apply findOPT_farthest. destruct Hwo as (-> & _). done.
      * by eapply demand_step_any.
Qed.

Lemma forEach_opt_fuel fuel fuel' refs rest index st :
  forEach opt fuel refs rest index st = forEach opt fuel' refs rest index st.
Proof.
  revert index st. induction rest as [|pg rest IH]; intros index st; [done|].
  simpl. unfold visit. simpl.
  destruct (indexOf (s_frames st) (Some pg)); simpl; apply IH.
Qed.

(** *** WSClock: when the simulation returns *)

(** The state of a WSClock simulation that has not evicted yet: the distinct
    pages [ps] referenced so far sit in the first frames, in the order they
    came, each with its reference bit set; the hand points at the first empty
    frame (at frame 0 when none is left); every reference to a new page was a
    fault. *)
Definition filling (k : nat) (seen : list Z) (st : state) : Prop :=
  ∃ ps, NoDup ps ∧ (∀ x, x ∈ ps ↔ x ∈ seen) ∧ length ps ≤ k ∧
        s_frames st = map Some ps ++ replicate (k - length ps) None ∧
        length (s_meta st) = k ∧
        (∀ i m, i < length ps → s_meta st !! i = Some m → ref m = 1%Z) ∧
        s_pointer st = length ps mod k ∧
        s_faults st = length ps.

Lemma initial_filling k : filling k [] (initial k).
Proof.
  exists []. simpl. rewrite Nat.sub_0_r, length_replicate.
  repeat split; try done; try lia.
  - constructor.
  - symmetry. destruct k; [done|]. by rewrite Nat.Div0.mod_0_l.
Qed.

Lemma distinct_length (ps seen : list Z) :
  NoDup ps → (∀ x, x ∈ ps ↔ x ∈ seen) → length ps = length (remove_dups seen).
Proof.
  intros Hnd Hin. apply Permutation_length, NoDup_Permutation; [done|apply NoDup_remove_dups|].
  intros x. by rewrite elem_of_remove_dups.
Qed.

Lemma distinct_mono (l l' : list Z) :
  length (remove_dups l) ≤ length (remove_dups (l ++ l')).
Proof.
  apply submseteq_length, NoDup_submseteq; [apply NoDup_remove_dups|].
  intros x. rewrite !elem_of_remove_dups, elem_of_app. by left.
Qed.

(** A reference while the frames are being filled: a hit, or a fault that
    takes the first empty frame; with every frame taken, a fault hangs. *)
Lemma visit_filling fuel refs k seen st pg index :
  0 < k → filling k seen st →
  (length (remove_dups (seen ++ [pg])) ≤ k → 0 < fuel →
     ∃ st', visit wsclock fuel refs st pg index = Ret st' ∧ filling k (seen ++ [pg]) st') ∧
  (k < length (remove_dups (seen ++ [pg])) →
     visit wsclock fuel refs st pg index = OutOfFuel).
Proof.
  intros Hk (ps & Hnd & Hin & Hlen & Hframes & Hmeta & Href & Hptr & Hfaults).
  destruct (decide (pg ∈ ps)) as [Hpg|Hpg].
  - (* a hit *)
    assert (Hsame : ∀ x, x ∈ ps ↔ x ∈ seen ++ [pg]).
    { intros x. rewrite elem_of_app, list_elem_of_singleton, <- Hin.
      split; [by left|]. by intros [?| ->]. }
    pose proof (distinct_length ps _ Hnd Hsame) as Hd.
    split; [|lia]. intros _ _. unfold visit.
    destruct (indexOf (s_frames st) (Some pg)) as [hitIndex|] eqn:E.
    + eexists. split; [done|]. exists ps. simpl.
      repeat split; try done; try apply Hsame.
      * by rewrite length_insert.
      * intros i m Hi. destruct (decide (i = hitIndex)) as [->|Hne].
        -- rewrite list_lookup_insert_eq by lia. by intros [= <-].
        -- rewrite list_lookup_insert_ne by done. by apply Href.
    + apply indexOf_None in E. exfalso. apply E. rewrite Hframes, elem_of_app. left.
      by apply list_elem_of_fmap_2.
  - (* a new page *)
    assert (Hnd' : NoDup (ps ++ [pg])).
    { apply NoDup_app. split; [done|]. split; [|apply NoDup_singleton].
      intros x Hx ->%list_elem_of_singleton. done. }
    assert (Hin' : ∀ x, x ∈ ps ++ [pg] ↔ x ∈ seen ++ [pg]).
    { intros x. by rewrite !elem_of_app, Hin. }
    pose proof (distinct_length _ _ Hnd' Hin') as Hd. rewrite length_app in Hd. simpl in Hd.
    assert (Hnone : Some pg ∉ s_frames st).
    { rewrite Hframes, elem_of_app. intros [H|H].
      - apply list_elem_of_fmap in H as (y & [= <-] & Hy). done.
      - by apply elem_of_replicate in H as [? _]. }
    split.
    + intros Hfit Hfuel. assert (Hj : length ps < k) by lia.
      unfold visit.
      destruct (indexOf (s_frames st) (Some pg)) as [hitIndex|] eqn:E.
      { apply indexOf_Some in E as [E _]. by apply list_elem_of_lookup_2 in E. }
      simpl. rewrite Hptr, Nat.mod_small by done.
      destruct fuel as [|fuel]; [lia|]. simpl.
      assert (Hempty : s_frames st !! length ps = Some None).
      { rewrite Hframes, lookup_app_r by (by rewrite length_map).
        rewrite length_map, Nat.sub_diag. apply lookup_replicate. split; [done|lia]. }
      rewrite Hempty. simpl. eexists. split; [done|].
      exists (ps ++ [pg]). simpl. rewrite length_app. simpl.
      repeat split; try done; try apply Hin'; try lia.
      * rewrite Hframes. rewrite insert_app_r_alt by (by rewrite length_map).
        rewrite length_map, Nat.sub_diag, map_app, <- app_assoc. simpl. f_equal.
        replace (k - length ps) with (S (k - (length ps + 1))) by lia. done.
      * by rewrite length_insert.
      * intros i m Hi. destruct (decide (i = length ps)) as [->|Hne].
        -- rewrite list_lookup_insert_eq by lia. by intros [= <-].
        -- rewrite list_lookup_insert_ne by done. apply Href. lia.
      * f_equal. rewrite Hframes, length_app, length_map, length_replicate. lia.
    + intros Hover. assert (Hfull : length ps = k) by lia.
      assert (Hfr : s_frames st = map Some ps).
      { by rewrite Hframes, Hfull, Nat.sub_diag, app_nil_r. }
      apply visit_wsclock_diverges; try done.
      * by rewrite Hmeta, Hfr, length_map.
      * rewrite Hptr, Hfr, length_map, Hfull. by apply Nat.mod_upper_bound, Nat.neq_0_lt_0.
      * rewrite Hfr. apply Forall_fmap, Forall_forall. by intros x _.
      * apply Forall_lookup. intros i m Hm. left. eapply Href; [|done].
        apply lookup_lt_Some in Hm. lia.
Qed.

Lemma forEach_filling fuel refs k rest seen index st :
  0 < k → 0 < fuel → filling k seen st →
  (length (remove_dups (seen ++ rest)) ≤ k →
     ∃ st', forEach wsclock fuel refs rest index st = Ret st' ∧ filling k (seen ++ rest) st') ∧
  (k < length (remove_dups (seen ++ rest)) →
     forEach wsclock fuel refs rest index st = OutOfFuel).
Proof.
  intros Hk Hfuel. revert seen index st.
  induction rest as [|pg rest IH]; intros seen index st Hst.
  { rewrite app_nil_r. split; [by eexists|].
    destruct Hst as (ps & Hnd & Hin & Hlen & _).
    rewrite <- (distinct_length ps seen Hnd Hin). lia. }
  replace (seen ++ pg :: rest) with ((seen ++ [pg]) ++ rest) by (by rewrite <- app_assoc).
  pose proof (distinct_mono (seen ++ [pg]) rest) as Hmono.
  destruct (visit_filling fuel refs k seen st pg index Hk Hst) as [Hfit Hover].
  destruct (decide (length (remove_dups (seen ++ [pg])) ≤ k)) as [Hle|Hgt].
  - destruct (Hfit Hle Hfuel) as (st1 & Hvisit & Hst1).
    simpl. rewrite Hvisit. simpl. by apply IH.
  - split; [lia|]. intros _. simpl. rewrite Hover by lia. done.
Qed.

(** WSClock returns exactly when the reference string has no more distinct
    pages than there are frames, that is when no page is ever evicted; it then
    faults once per distinct page.  On every other input it never returns. *)
Lemma simulate_wsclock fuel k refs :
  0 < k →
  (length (remove_dups refs) ≤ k → 0 < fuel →
     ∃ rx, simulate wsclock fuel k refs = Ret rx ∧ faults rx = length (remove_dups refs)) ∧
  (k < length (remove_dups refs) → simulate wsclock fuel k refs = OutOfFuel).
Proof.
  intros Hk. unfold simulate. split.
  - intros Hfit Hfuel.
    destruct (forEach_filling fuel refs k refs [] 0 (initial k) Hk Hfuel (initial_filling k))
      as [Hret _].
    destruct (Hret Hfit) as (st' & -> & ps & Hnd & Hin & _ & _ & _ & _ & _ & Hfaults).
    simpl. eexists. split; [done|]. simpl. rewrite Hfaults.
    by apply distinct_length.
  - intros Hover. destruct fuel as [|fuel].
    + destruct refs as [|pg refs]; [simpl in Hover; lia|]. simpl. unfold visit.
      destruct (indexOf _ _) eqn:E; [|done].
      apply indexOf_Some in E as [E _]. simpl in E.
      apply lookup_replicate in E as [? _]. done.
    + destruct (forEach_filling (S fuel) refs k refs [] 0 (initial k) Hk ltac:(lia)
                  (initial_filling k)) as [_ Hhang].
      by rewrite Hhang.
Qed.




End PageReplacementFacts.

(** ** Disk scheduling: visit order and seek distance *)

Section DiskSchedulingOrder.
Import DiskScheduling.
Local Open Scope Z_scope.

(** The timeline entries the loop of [simulate] appends for the stops [rest],
    with the head at [prev]. *)
Fixpoint steps (prev : Z) (rest : list Z) (i : nat) (total : Z) : list step :=
  match rest with
  | [] => []
  | pos :: rest' =>
      let move := Z.abs (pos - prev) in
      {| index := i - 1; position := pos; move := move; cumulative := total + move |}
        :: steps pos rest' (S i) (total + move)
  end.

(** The sum of the numbers of a list. *)
Definition sumZ (l : list Z) : Z := foldr Z.add 0 l.

Lemma moves_steps prev rest i total timeline :
  moves prev rest i total timeline =
  (total + sumZ (map move (steps prev rest i total)), timeline ++ steps prev rest i total).
Proof.
  revert prev i total timeline.
  induction rest as [|pos rest IH]; intros prev i total timeline; simpl.
  - by rewrite Z.add_0_r, app_nil_r.
  - rewrite IH, <- app_assoc. simpl. f_equal. lia.
Qed.

Lemma steps_position prev rest i total : map position (steps prev rest i total) = rest.
Proof.
  revert prev i total. induction rest as [|pos rest IH]; intros; simpl; [done|].
  by rewrite IH.
Qed.

Lemma steps_index prev rest i total :
  (0 < i)%nat → map index (steps prev rest i total) = seq (i - 1) (length rest).
Proof.
  revert prev i total. induction rest as [|pos rest IH]; intros prev i total Hi; simpl; [done|].
  rewrite IH by lia. do 2 f_equal. lia.
Qed.

Lemma steps_lookup prev rest i total k s :
  steps prev rest i total !! k = Some s →
  ∃ before, (prev :: rest) !! k = Some before ∧
    move s = Z.abs (position s - before) ∧
    cumulative s = total + sumZ (map move (take (S k) (steps prev rest i total))).
Proof.
  revert prev i total k. induction rest as [|pos rest IH]; intros prev i total k; [done|].
  destruct k as [|k]; simpl.
  - intros [= <-]. exists prev. simpl. split; [done|]. split; [done|]. lia.
  - intros Hs. destruct (IH _ _ _ _ Hs) as (before & Hb & Hm & Hc).
    exists before. split; [done|]. split; [done|].
    rewrite Hc. simpl. lia.
Qed.


(** *** Every request is served once *)

Lemma filter_split_perm {A} (f g : A → bool) (l : list A) :
  (∀ x, g x = negb (f x)) → List.filter f l ++ List.filter g l ≡ₚ l.
Proof.
  intros Hfg. induction l as [|x l IH]; simpl; [done|].
  rewrite Hfg. destruct (f x); simpl.
  - by rewrite IH.
  - by rewrite <- Permutation_middle, IH.
Qed.

Lemma nearest_lt current pending :
  pending ≠ [] → (nearest current pending < length pending)%nat.
Proof.
  intros Hne. unfold nearest. destruct pending as [|p0 rest] eqn:E; [done|].
  apply forEachi_pick_lt; [|simpl; lia].
  intros [bestDist bestIdx] r i. simpl.
  destruct (_ && _); simpl; auto.
Qed.

(** The stop [nearest] picks is at least as close to the head as any other
    pending request. *)
Lemma nearest_closest current pending b :
  pending !! nearest current pending = Some b →
  ∀ y, y ∈ pending → Z.abs (b - current) ≤ Z.abs (y - current).
Proof.
  unfold nearest. destruct pending as [|p0 rest] eqn:E; [done|]. rewrite <- E.
  set (f := λ '(bestDist, bestIdx) (r : Z) (i : nat),
              if (1 <=? i)%nat && (Z.abs (r - current) <? bestDist)
              then (Z.abs (r - current), i) else (bestDist, bestIdx)).
  assert (H : (λ (i : nat) (s : Z * nat),
                 (∃ b', pending !! s.2 = Some b' ∧ s.1 = Z.abs (b' - current)) ∧
                 ∀ j y, (j < i ∨ j = 0)%nat → pending !! j = Some y →
                        s.1 ≤ Z.abs (y - current))
              (length pending) (forEachi f pending (Z.abs (p0 - current), 0%nat))).
  { apply forEachi_ind.
    - cbn [fst snd]. split.
      + exists p0. by rewrite E.
      + intros j y Hj Hy. assert (j = 0%nat) as -> by lia.
        rewrite E in Hy. injection Hy as <-. lia.
    - intros i x [bestDist bestIdx] Hx [(b' & Hb' & Hd) Hmin]. cbn [fst snd] in *.
      assert (Hkeep : (∃ b'0, pending !! bestIdx = Some b'0 ∧
                              bestDist = Z.abs (b'0 - current)) ∧
                      (i = 0%nat ∨ bestDist ≤ Z.abs (x - current)) →
                      (∃ b'0, pending !! bestIdx = Some b'0 ∧
                              bestDist = Z.abs (b'0 - current)) ∧
                      ∀ j y, (j < S i ∨ j = 0)%nat → pending !! j = Some y →
                             bestDist ≤ Z.abs (y - current)).
      { intros [Hex Hcase]. split; [done|].
        intros j y Hj Hy. destruct (decide (j = i)) as [->|Hne].
        - destruct Hcase as [-> | Hle]; [apply (Hmin 0%nat); [lia|done]|].
          rewrite Hx in Hy. by injection Hy as <-.
        - apply (Hmin j); [lia|done]. }
      unfold f. destruct i as [|i]; [apply Hkeep; split; [by exists b'|by left]|].
      cbn [Nat.leb andb].
      destruct (Z.ltb_spec (Z.abs (x - current)) bestDist) as [Hlt|Hge]; cbn [fst snd].
      + split; [by exists x|].
        intros j y Hj Hy. destruct (decide (j = S i)) as [->|Hne].
        * rewrite Hx in Hy. injection Hy as <-. lia.
        * assert (bestDist ≤ Z.abs (y - current)); [|lia].
          apply (Hmin j); [lia|done].
      + apply Hkeep. split; [by exists b'|by right]. }
  destruct H as [(b' & Hb' & Hd) Hmin].
  intros Hb y Hy. rewrite Hb' in Hb. injection Hb as <-.
  apply list_elem_of_lookup in Hy as [j Hj].
  rewrite <- Hd. apply (Hmin j); [|done].
  apply lookup_lt_Some in Hj. lia.
Qed.

(** Each stop of the list is at least as close to the position before it as
    every stop after it. *)
Fixpoint greedy (current : Z) (l : list Z) : Prop :=
  match l with
  | [] => True
  | x :: l' => (∀ y, y ∈ l → Z.abs (x - current) ≤ Z.abs (y - current)) ∧ greedy x l'
  end.

Lemma sstf_loop_spec n pending current order :
  n = length pending →
  ∃ served, sstf_loop n pending current order = order ++ served ∧
            served ≡ₚ pending ∧ greedy current served.
Proof.
  revert pending current order.
  induction n as [|n IH]; intros pending current order Hn.
  { destruct pending; [|done]. exists []. by rewrite app_nil_r. }
  assert (pending ≠ []) as Hne by (by destruct pending).
  pose proof (nearest_lt current pending Hne) as Hlt.
  destruct (lookup_lt_is_Some_2 pending _ Hlt) as [next Hnext].
  simpl. rewrite Hnext.
  pose proof (delete_Permutation pending _ _ Hnext) as Hperm.
  destruct (IH (delete (nearest current pending) pending) next (order ++ [next]))
    as (served & -> & Hs & Hg).
  { rewrite length_delete by (by eexists). lia. }
  exists (next :: served). split; [by rewrite <- app_assoc|].
  split; [by rewrite Hs|].
  simpl. split; [|done].
  intros y Hy. apply (nearest_closest current pending next Hnext).
  rewrite Hperm, <- Hs. done.
Qed.

Lemma sstf_order_perm head reqs : sstf_order head reqs ≡ₚ reqs.
Proof.
  unfold sstf_order.
  by destruct (sstf_loop_spec (length reqs) reqs head [] eq_refl) as (served & -> & Hs & _).
Qed.

(** The stops an algorithm adds to the requests: the disk ends SCAN and
    C-SCAN sweep to. *)
Definition boundaryStops (algorithm : algorithm) (direction : direction) : list Z :=
  match algorithm, direction with
  | scan, right => [maxCyl]
  | scan, _ => [0]
  | cscan, _ => [maxCyl; 0]
  | _, _ => []
  end.

Lemma orderRequests_perm algorithm head direction reqs :
  orderRequests algorithm head direction reqs ≡ₚ reqs ++ boundaryStops algorithm direction.
Proof.
  pose proof (filter_split_perm (λ r, r <? head) (λ r, head <=? r) reqs) as Hsplit.
  assert (Hs : List.filter (λ r, r <? head) reqs ++ List.filter (λ r, head <=? r) reqs ≡ₚ reqs).
  { apply Hsplit. intros x. lia. }
  clear Hsplit. unfold orderRequests.
  set (lo := List.filter (λ r, r <? head) reqs) in *.
  set (hi := List.filter (λ r, head <=? r) reqs) in *.
  destruct algorithm, direction; simpl;
    rewrite ?app_nil_r, ?reverse_Permutation, ?sort_perm;
    try done; try apply sstf_order_perm.
  all: rewrite <- Hs; solve_Permutation.
Qed.

(** X2: Every algorithm serves each request exactly once: its visit order is a
    rearrangement of the requests, plus the disk ends for SCAN and C-SCAN. *)
Theorem disk_order_serves_each_request_once :
  ∀ algorithm head direction requests,
    path (simulate algorithm head direction requests) ≡ₚ
      head :: requests ++ boundaryStops algorithm direction ∧
    (∀ r, r ∈ requests → r ∈ orderRequests algorithm head direction requests) ∧
    (algorithm ∉ [scan; cscan] →
       orderRequests algorithm head direction requests ≡ₚ requests).
Proof.
  intros algorithm head direction requests.
  pose proof (orderRequests_perm algorithm head direction requests) as Hperm.
  split; [|split].
  - rewrite path_is_head_order. by rewrite Hperm.
  - intros r Hr. rewrite Hperm. apply elem_of_app. by left.
  - intros Halg. rewrite Hperm.
    destruct algorithm; simpl; rewrite ?app_nil_r; try done; set_solver.
Qed.

Lemma greedy_lookup current l k x before :
  greedy current l → l !! k = Some x → (current :: l) !! k = Some before →
  ∀ y, y ∈ drop k l → Z.abs (x - before) ≤ Z.abs (y - before).
Proof.
  revert current k. induction l as [|z l IH]; intros current k Hg Hx Hb; [done|].
  destruct Hg as [Hz Hg]. destruct k as [|k]; simpl in *.
  - injection Hx as <-. injection Hb as <-. done.
  - by apply (IH z k).
Qed.



Lemma parseRequests_range numbers max :
  Forall (λ r, 0 ≤ r ≤ max) (parseRequests numbers max).
Proof.
  apply Forall_forall. intros r Hr%list_elem_of_In%filter_In. lia.
Qed.

(** X4: The head never leaves the disk: with the start position on the disk,
    every stop of every algorithm on parsed requests is a cylinder between 0
    and [maxCyl]. *)
Theorem disk_head_stays_on_disk :
  ∀ algorithm head direction numbers,
    0 ≤ head ≤ maxCyl →
    Forall (λ p, 0 ≤ p ≤ maxCyl)
           (path (simulate algorithm head direction (parseRequests numbers maxCyl))).
Proof.
  intros algorithm head direction numbers Hhead.
  rewrite path_is_head_order, orderRequests_perm.
  apply Forall_cons. split; [done|].
  apply Forall_app. split; [apply parseRequests_range|].
  destruct algorithm, direction; simpl; unfold maxCyl;
    repeat (apply Forall_cons_2; [lia|]); apply Forall_nil_2.
Qed.

Lemma disk_head_stays_on_disk_witness :
  Forall (λ p, 0 ≤ p ≤ maxCyl)
         (path (simulate scan 53 right
                  (parseRequests [Some 98; Some 183; None; Some 250; Some 37] maxCyl))).
Proof. apply disk_head_stays_on_disk. unfold maxCyl. lia. Defined.

(** *** The seek distance of LOOK *)

(** The distance the head travels from [prev] along the stops [rest]. *)
Fixpoint seek (prev : Z) (rest : list Z) : Z :=
  match rest with
  | [] => 0
  | pos :: rest' => Z.abs (pos - prev) + seek pos rest'
  end.

(** The largest and the smallest of the head position and the requests. *)
Definition highest (head : Z) (reqs : list Z) : Z := foldr Z.max head reqs.
Definition lowest (head : Z) (reqs : list Z) : Z := foldr Z.min head reqs.

Lemma steps_seek prev rest i total : sumZ (map move (steps prev rest i total)) = seek prev rest.
Proof.
  revert prev i total. induction rest as [|pos rest IH]; intros; simpl; [done|].
  by rewrite IH.
Qed.

Lemma total_seek algorithm head direction reqs :
  total (simulate algorithm head direction reqs) =
  seek head (orderRequests algorithm head direction reqs).
Proof. unfold simulate. rewrite moves_steps. simpl. by rewrite steps_seek. Qed.

Lemma seek_app prev l1 l2 :
  seek prev (l1 ++ l2) = seek prev l1 + seek (default prev (last l1)) l2.
Proof.
  revert prev. induction l1 as [|x l1 IH]; intros prev; simpl; [done|].
  rewrite IH, last_cons. destruct (last l1); simpl; lia.
Qed.

Lemma seek_ascending prev l :
  StronglySorted Z.le l → Forall (λ x, prev ≤ x) l →
  seek prev l = default prev (last l) - prev.
Proof.
  revert prev. induction l as [|x l IH]; intros prev Hs Hl; simpl; [lia|].
  apply StronglySorted_cons in Hs as [Hx Hs]. apply Forall_cons in Hl as [Hpx Hl].
  rewrite (IH x Hs Hx), last_cons. destruct (last l); simpl; lia.
Qed.

Lemma seek_descending prev l :
  StronglySorted Z.le l → Forall (λ x, x ≤ prev) l →
  seek prev (reverse l) = prev - default prev (head l).
Proof.
  induction l as [|x l IH]; intros Hs Hl; simpl; [lia|].
  apply StronglySorted_cons in Hs as [Hx Hs]. apply Forall_cons in Hl as [Hpx Hl].
  rewrite reverse_cons, seek_app, (IH Hs Hl), last_reverse. simpl.
  destruct l as [|y l]; simpl; [lia|].
  apply Forall_cons in Hx as [Hxy _]. apply Forall_cons in Hl as [Hy _]. lia.
Qed.

Lemma sorted_last_max l z x :
  StronglySorted Z.le l → last l = Some z → x ∈ l → x ≤ z.
Proof.
  induction l as [|y l IH]; intros Hs Hz Hx; [done|].
  apply StronglySorted_cons in Hs as [Hy Hs].
  rewrite last_cons in Hz. destruct (last l) as [z'|] eqn:El.
  - injection Hz as ->. apply elem_of_cons in Hx as [->|Hx]; [|by apply IH].
    rewrite Forall_forall in Hy. apply Hy. by apply last_Some_elem_of.
  - apply last_None in El as ->. injection Hz as ->.
    apply elem_of_cons in Hx as [->|Hx]; [lia|by apply elem_of_nil in Hx].
Qed.

Lemma sorted_head_min l z x :
  StronglySorted Z.le l → head l = Some z → x ∈ l → z ≤ x.
Proof.
  destruct l as [|y l]; intros Hs Hz Hx; [done|].
  apply StronglySorted_cons in Hs as [Hy Hs]. injection Hz as ->.
  apply elem_of_cons in Hx as [->|Hx]; [lia|].
  rewrite Forall_forall in Hy. by apply Hy.
Qed.

Lemma highest_spec start reqs :
  highest start reqs ∈ start :: reqs ∧ ∀ x, x ∈ start :: reqs → x ≤ highest start reqs.
Proof.
  unfold highest. induction reqs as [|r reqs [IHin IHmax]]; simpl.
  - split; [by left|]. intros x Hx%list_elem_of_singleton. lia.
  - rewrite elem_of_cons in IHin. split.
    + rewrite !elem_of_cons.
      destruct (Z.max_spec r (foldr Z.max start reqs)) as [[_ ->]|[_ ->]]; tauto.
    + intros x Hx. rewrite !elem_of_cons in Hx.
      assert (x = r ∨ x ∈ start :: reqs) as [->|Hx']
        by (rewrite elem_of_cons; tauto); [lia|].
      specialize (IHmax x Hx'). lia.
Qed.

Lemma lowest_spec start reqs :
  lowest start reqs ∈ start :: reqs ∧ ∀ x, x ∈ start :: reqs → lowest start reqs ≤ x.
Proof.
  unfold lowest. induction reqs as [|r reqs [IHin IHmin]]; simpl.
  - split; [by left|]. intros x Hx%list_elem_of_singleton. lia.
  - rewrite elem_of_cons in IHin. split.
    + rewrite !elem_of_cons.
      destruct (Z.min_spec r (foldr Z.min start reqs)) as [[_ ->]|[_ ->]]; tauto.
    + intros x Hx. rewrite !elem_of_cons in Hx.
      assert (x = r ∨ x ∈ start :: reqs) as [->|Hx']
        by (rewrite elem_of_cons; tauto); [lia|].
      specialize (IHmin x Hx'). lia.
Qed.

#[local] Instance Z_le_trans : Transitive Z.le.
Proof. intros x y z. lia. Qed.

Lemma ascending_sorted l : StronglySorted Z.le (sort ascending l).
Proof. apply sort_sorted; [apply _| |]; unfold ascending; intros a b; lia. Qed.

(** The requests at or above the head, in ascending order: their last one is
    the highest position, and the sweep up to it covers [highest - head]. *)
Lemma upper_requests head reqs :
  let upper := sort ascending (List.filter (λ r, head <=? r) reqs) in
  default head (last upper) = highest head reqs ∧
  Forall (λ x, head ≤ x) upper ∧ StronglySorted Z.le upper.
Proof.
  intros upper.
  assert (Hin : ∀ x, x ∈ upper ↔ x ∈ reqs ∧ head ≤ x).
  { intros x. subst upper. rewrite sort_elem_of, list_elem_of_In, filter_In,
      <- list_elem_of_In. by rewrite Z.leb_le. }
  pose proof (ascending_sorted (List.filter (λ r, head <=? r) reqs)) as Hs.
  fold upper in Hs.
  destruct (highest_spec head reqs) as [Hhin Hhmax].
  split; [|split; [|done]].
  - apply Z.le_antisymm.
    + apply Hhmax. destruct (last upper) as [z|] eqn:El; simpl; [|by left].
      right. apply last_Some_elem_of, Hin in El. tauto.
    + destruct (last upper) as [z|] eqn:El; simpl.
      * apply elem_of_cons in Hhin as [->|Hr].
        -- apply last_Some_elem_of, Hin in El. tauto.
        -- destruct (Z.le_gt_cases head (highest head reqs)) as [Hge|Hlt].
           ++ apply (sorted_last_max upper); [done|done|]. by apply Hin.
           ++ apply last_Some_elem_of, Hin in El. lia.
      * apply last_None in El.
        apply elem_of_cons in Hhin as [->|Hr]; [lia|].
        destruct (Z.le_gt_cases head (highest head reqs)) as [Hge|Hlt]; [|lia].
        assert (highest head reqs ∈ upper) as Hu by (by apply Hin).
        rewrite El in Hu. by apply elem_of_nil in Hu.
  - apply Forall_forall. intros x Hx%Hin. tauto.
Qed.

(** The requests below the head, in ascending order: when there are any, the
    first one is the lowest position. *)
Lemma lower_requests start reqs :
  let lower := sort ascending (List.filter (λ r, r <? start) reqs) in
  (if existsb (λ r, r <? start) reqs
   then head lower = Some (lowest start reqs) else lower = []) ∧
  Forall (λ x, x < start) lower ∧ StronglySorted Z.le lower.
Proof.
  intros lower.
  assert (Hin : ∀ x, x ∈ lower ↔ x ∈ reqs ∧ x < start).
  { intros x. subst lower. rewrite sort_elem_of, list_elem_of_In, filter_In,
      <- list_elem_of_In. by rewrite Z.ltb_lt. }
  pose proof (ascending_sorted (List.filter (λ r, r <? start) reqs)) as Hs.
  fold lower in Hs.
  destruct (lowest_spec start reqs) as [Hlin Hlmin].
  split; [|split; [|done]].
  - destruct (existsb (λ r, r <? start) reqs) eqn:Hex.
    + apply existsb_exists in Hex as (r & Hr%list_elem_of_In & Hlt%Z.ltb_lt).
      assert (r ∈ lower) as Hrl by (by apply Hin).
      destruct (head lower) as [z|] eqn:Eh.
      * f_equal. apply Z.le_antisymm.
        -- apply (sorted_head_min lower); [done|done|].
           apply Hin. assert (lowest start reqs ≤ r) by (apply Hlmin; by right).
           apply elem_of_cons in Hlin as [Heq|Hl]; [lia|]. split; [done|lia].
        -- apply Hlmin. right. apply head_Some_elem_of, Hin in Eh. tauto.
      * apply head_None in Eh. rewrite Eh in Hrl. by apply elem_of_nil in Hrl.
    + destruct lower as [|z l] eqn:El; [done|].
      assert (z ∈ reqs ∧ z < start) as [Hz Hlt] by (apply Hin; by left).
      assert (existsb (λ r, r <? start) reqs = true); [|congruence].
      apply existsb_exists. exists z. split; [by apply list_elem_of_In|by apply Z.ltb_lt].
  - apply Forall_forall. intros x Hx%Hin. tauto.
Qed.

Lemma filter_existsb {A} (f : A → bool) (l : list A) :
  if existsb f l then List.filter f l ≠ [] else List.filter f l = [].
Proof.
  induction l as [|x l IH]; simpl; [done|].
  destruct (f x); simpl; [done|]. exact IH.
Qed.

(** With exact arithmetic the moves of LOOK add up to one sweep to the end
    request, and one sweep back across all the requests when some lie behind
    the start position. *)
Lemma look_total_seek head requests :
  total (simulate look head right requests) =
    (highest head requests - head) +
    (if existsb (λ r, r <? head) requests
     then highest head requests - lowest head requests else 0) ∧
  total (simulate look head left requests) =
    (head - lowest head requests) +
    (if existsb (λ r, head <=? r) requests
     then highest head requests - lowest head requests else 0).
Proof.
  rename head into start. rewrite !total_seek. simpl.
  destruct (upper_requests start requests) as (Hlast & Hge & Hup).
  destruct (lower_requests start requests) as (Hhead & Hlt & Hlow).
  destruct (highest_spec start requests) as [_ Hmax].
  destruct (lowest_spec start requests) as [_ Hmin].
  assert (start ≤ highest start requests) as Hh by (apply Hmax; by left).
  assert (lowest start requests ≤ start) as Hl by (apply Hmin; by left).
  pose proof (filter_existsb (λ r, start <=? r) requests) as Hupper.
  set (upper := sort ascending (List.filter (λ r, start <=? r) requests)) in *.
  set (lower := sort ascending (List.filter (λ r, r <? start) requests)) in *.
  split.
  - rewrite seek_app, (seek_ascending _ _ Hup Hge), Hlast.
    rewrite seek_descending; [|done|].
    + destruct (existsb _ requests); [by rewrite Hhead|].
      rewrite Hhead. simpl. lia.
    + eapply Forall_impl; [exact Hlt|]. simpl. intros x Hx. lia.
  - rewrite seek_app, last_reverse.
    rewrite seek_descending; [|done|].
    2: { eapply Forall_impl; [exact Hlt|]. simpl. intros x Hx. lia. }
    assert (Hfirst : default start (hd_error lower) = lowest start requests).
    { destruct (existsb (λ r, r <? start) requests) eqn:Hex; [by rewrite Hhead|].
      rewrite Hhead. simpl. apply Z.le_antisymm; [|done].
      destruct (lowest_spec start requests) as [Hin _].
      apply elem_of_cons in Hin as [->|Hin]; [lia|].
      destruct (Z.lt_ge_cases (lowest start requests) start) as [Hlow'|]; [|lia].
      assert (existsb (λ r, r <? start) requests = true); [|congruence].
      apply existsb_exists. exists (lowest start requests).
      split; [by apply list_elem_of_In|by apply Z.ltb_lt]. }
    rewrite Hfirst. rewrite seek_ascending; [|done|].
    2: { eapply Forall_impl; [exact Hge|]. simpl. intros x Hx. lia. }
    destruct (existsb (λ r, start <=? r) requests).
    + assert (upper ≠ []) as Hne.
      { intros Hnil. apply Hupper. apply Permutation_nil_r.
        rewrite <- Hnil. subst upper. by rewrite sort_perm. }
      destruct (last upper) as [z|] eqn:El; [|by apply last_None in El].
      simpl in *. lia.
    + assert (upper = []) as ->; [|simpl; lia].
      subst upper. by rewrite Hupper.
Qed.

(** X5: LOOK's total seek distance in closed form, for whole-number cylinders:
    a start position on the disk and the requests [parseRequests] lets
    through.  Sweeping right, the head climbs to the highest position and,
    when some request lies below the start position, comes back down to the
    lowest one; sweeping left it descends to the lowest position and, when
    some request lies at or above the start position, climbs to the highest
    one. *)
Theorem look_seek_distance :
  ∀ head numbers,
    0 ≤ head ≤ maxCyl →
    let requests := parseRequests numbers maxCyl in
    total (simulate look head right requests) =
      (highest head requests - head) +
      (if existsb (λ r, r <? head) requests
       then highest head requests - lowest head requests else 0) ∧
    total (simulate look head left requests) =
      (head - lowest head requests) +
      (if existsb (λ r, head <=? r) requests
       then highest head requests - lowest head requests else 0).
Proof. intros head numbers _ requests. apply look_total_seek. Qed.

Lemma look_seek_distance_witness :
  let requests :=
    parseRequests [Some 98; Some 183; Some 37; Some 122; Some 14; Some 124; Some 65;
                   Some 67] maxCyl in
  total (simulate look 53 right requests) = (183 - 53) + (183 - 14) ∧
  total (simulate look 53 left requests) = (53 - 14) + (183 - 14).
Proof.
  intros requests.
  assert (Hhead : 0 ≤ 53 ≤ maxCyl) by (unfold maxCyl; lia).
  exact (look_seek_distance 53
           [Some 98; Some 183; Some 37; Some 122; Some 14; Some 124; Some 65; Some 67]
           Hhead).
Defined.

End DiskSchedulingOrder.

(** ** Page replacement: the trace *)

Section PageReplacementTrace.
Import PageReplacement.

Lemma insert_elem_of {A} (l : list A) (i : nat) (x y : A) :
  y ∈ <[i := x]> l → y = x ∨ y ∈ l.
Proof.
  intros [j Hj]%list_elem_of_lookup. destruct (decide (i = j)) as [->|Hne].
  - pose proof (lookup_lt_Some _ _ _ Hj) as Hlt. rewrite length_insert in Hlt.
    rewrite list_lookup_insert_eq in Hj by done. left. congruence.
  - rewrite list_lookup_insert_ne in Hj by done. right.
    by eapply list_elem_of_lookup_2.
Qed.

(** What the trace records for reference number [i]. *)
Definition recorded (k : nat) (refs : list Z) (i : nat) (s : snapshot) : Prop :=
  index s = i ∧ refs !! i = Some (page s) ∧
  length (frames s) = k ∧ Some (page s) ∈ frames s ∧
  NoDup (pages (frames s)) ∧
  (∀ p, Some p ∈ frames s → p ∈ take (S i) refs) ∧
  if fault s
  then ∃ v, replacedIndex s = Z.of_nat v ∧ frames s !! v = Some (Some (page s))
  else replacedIndex s = (-1)%Z.

Lemma visit_recorded algorithm fuel refs k st pg i st' :
  0 < k → wf k st → refs !! i = Some pg →
  NoDup (pages (s_frames st)) →
  (∀ p, Some p ∈ s_frames st → p ∈ take i refs) →
  visit algorithm fuel refs st pg i = Ret st' →
  ∃ s, s_timeline st' = s_timeline st ++ [s] ∧ recorded k refs i s ∧
       frames s = s_frames st' ∧
       s_hits st' + s_faults st' = s_hits st + s_faults st + 1 ∧
       s_faults st' = s_faults st + (if fault s then 1 else 0) ∧
       (fault s = true ↔ Some pg ∉ s_frames st).
Proof.
  intros Hk Hwf Hpg Hnd Hseen Hvisit.
  pose proof Hwf as (Hf & Hm & Hp).
  assert (Hgrow : ∀ p, p ∈ take i refs → p ∈ take (S i) refs).
  { intros p Hin. rewrite (take_S_r _ _ _ Hpg). apply elem_of_app. by left. }
  assert (Hnew : pg ∈ take (S i) refs).
  { rewrite (take_S_r _ _ _ Hpg). apply elem_of_app. right. by left. }
  unfold visit in Hvisit.
  destruct (indexOf (s_frames st) (Some pg)) as [hitIndex|] eqn:E.
  - injection Hvisit as <-. simpl. eexists. split; [reflexivity|].
    apply indexOf_Some in E as [E _].
    assert (Some pg ∈ s_frames st) as Hin by (by eapply list_elem_of_lookup_2).
    simpl. split; [|split; [done|split; [lia|split; [lia|]]]].
    + repeat split; simpl; try done. intros p Hin'. by apply Hgrow, Hseen.
    + simpl. split; [done|]. by intros Hn.
  - apply indexOf_None in E.
    destruct (selectVictim algorithm fuel refs i st) as [h| |] eqn:Hsel; try done.
    simpl in Hvisit. injection Hvisit as <-. simpl.
    destruct (selectVictim_bounds _ _ _ _ _ _ _ Hk Hwf Hsel) as (Hi & Hn & Hhm).
    eexists. split; [reflexivity|].
    simpl. split; [|split; [done|split; [lia|split; [lia|done]]]].
    assert (Hset : <[h_index h := Some pg]> (s_frames st) !! h_index h = Some (Some pg)).
    { apply list_lookup_insert_eq. lia. }
    repeat split; simpl; try done.
    + by rewrite length_insert.
    + by eapply list_elem_of_lookup_2.
    + by apply pages_insert.
    + intros p [Hp' | Hp']%insert_elem_of; [by injection Hp' as ->|].
      by apply Hgrow, Hseen.
    + by exists (h_index h).
Qed.

Lemma forEach_recorded algorithm fuel refs k rest :
  0 < k →
  ∀ i st st',
    drop i refs = rest → wf k st → length (s_timeline st) = i →
    NoDup (pages (s_frames st)) →
    (∀ p, Some p ∈ s_frames st → p ∈ take i refs) →
    forEach algorithm fuel refs rest i st = Ret st' →
    ∃ new, s_timeline st' = s_timeline st ++ new ∧ length new = length rest ∧
           (∀ j s, new !! j = Some s → recorded k refs (i + j) s) ∧
           s_hits st' + s_faults st' = s_hits st + s_faults st + length rest ∧
           s_faults st' = s_faults st + length (List.filter fault new).
Proof.
  intros Hk. induction rest as [|pg rest IH]; intros i st st' Hdrop Hwf Hlen Hnd Hseen.
  { intros [= <-]. exists []. rewrite app_nil_r. simpl. repeat split; try done; lia. }
  simpl. destruct (visit algorithm fuel refs st pg i) as [st1| |] eqn:Hvisit; try done.
  simpl. intros Hrest.
  assert (Hpg : refs !! i = Some pg).
  { rewrite <- (Nat.add_0_r i), <- lookup_drop, Hdrop. done. }
  destruct (visit_recorded _ _ _ _ _ _ _ _ Hk Hwf Hpg Hnd Hseen Hvisit)
    as (s & Htl & Hrec & Hfr & Hcount & Hfaults & _).
  destruct (visit_spec _ _ _ _ _ _ _ _ Hk Hwf Hvisit) as [Hwf1 _].
  pose proof Hrec as (_ & _ & _ & _ & Hnd1 & Hseen1 & _).
  rewrite Hfr in Hnd1, Hseen1.
  destruct (IH (S i) st1 st') as (new & Htl' & Hlen' & Hnew & Hcount' & Hfaults').
  - replace (S i) with (i + 1) by lia. by rewrite <- drop_drop, Hdrop.
  - done.
  - rewrite Htl, length_app. simpl. lia.
  - done.
  - done.
  - done.
  - exists (s :: new). split; [by rewrite Htl', Htl, <- app_assoc|].
    split; [simpl; lia|]. split; [|split].
    + intros [|j] s' Hs'; simpl in Hs'.
      * injection Hs' as <-. by rewrite Nat.add_0_r.
      * replace (i + S j) with (S i + j) by lia. by apply Hnew.
    + simpl. lia.
    + simpl. destruct (fault s); simpl; lia.
Qed.

Lemma initial_no_resident k p : Some p ∉ s_frames (initial k).
Proof. simpl. intros [? _]%elem_of_replicate. done. Qed.

(** X6: Every trace accounts for every reference: one snapshot per reference, in
    order; hits and faults add up to the number of references; each snapshot
    holds the referenced page in one of its [k] frames, no page twice, and
    only pages referenced so far; a fault names the frame it loaded the page
    into and a hit names none. *)
Theorem page_trace_accounts_every_reference :
  ∀ algorithm fuel k refs r,
    0 < k → simulate algorithm fuel k refs = Ret r →
    length (timeline r) = length refs ∧
    references r = length refs ∧
    hits r + faults r = length refs ∧
    faults r = length (List.filter fault (timeline r)) ∧
    ∀ i s, timeline r !! i = Some s →
      index s = i ∧ refs !! i = Some (page s) ∧
      length (frames s) = k ∧ Some (page s) ∈ frames s ∧
      NoDup (pages (frames s)) ∧
      (∀ p, Some p ∈ frames s → p ∈ take (S i) refs) ∧
      if fault s
      then ∃ v, replacedIndex s = Z.of_nat v ∧ frames s !! v = Some (Some (page s))
      else replacedIndex s = (-1)%Z.
Proof.
  intros algorithm fuel k refs r Hk. unfold simulate.
  destruct (forEach algorithm fuel refs refs 0 (initial k)) as [st| |] eqn:Hrun; try done.
  simpl. intros [= <-]. simpl.
  destruct (forEach_recorded algorithm fuel refs k refs Hk 0 (initial k) st)
    as (new & Htl & Hlen & Hnew & Hcount & Hfaults); try done.
  - by apply initial_wf.
  - rewrite initial_no_pages. constructor.
  - intros p Hp. by apply initial_no_resident in Hp.
  - simpl in *. subst new. repeat split; try done; try lia.
    all: by destruct (Hnew i s H) as (? & ? & ? & ? & ? & ? & ?).
Qed.

Lemma page_trace_accounts_every_reference_witness :
  ∃ r, simulate lru 0 3 defaultRef = Ret r ∧ hits r + faults r = length defaultRef.
Proof.
  assert (Hrun : ∃ r, simulate lru 0 3 defaultRef = Ret r)
    by (vm_compute; eexists; reflexivity).
  destruct Hrun as [r Hrun]. exists r. split; [exact Hrun|].
  assert (Hk : 0 < 3) by lia.
  exact (proj1 (proj2 (proj2
    (page_trace_accounts_every_reference lru 0 3 defaultRef r Hk Hrun)))).
Defined.

(** *** Compulsory misses *)

Lemma length_without {A} `{EqDecision A} (x : A) (L : list A) :
  NoDup L → length L ≤ S (length (filter (λ y, y ≠ x) L)).
Proof.
  induction 1 as [|y L Hy Hnd IH]; simpl; [lia|].
  rewrite filter_cons. destruct (decide (y ≠ x)) as [Hne|Heq]; simpl; [lia|].
  assert (y = x) as -> by (by destruct (decide (y = x))).
  assert (filter (λ y, y ≠ x) L = L) as ->; [|lia].
  clear IH Hnd. induction L as [|z L IH]; [done|].
  rewrite filter_cons. rewrite not_elem_of_cons in Hy. destruct Hy as [Hz Hy].
  destruct (decide (z ≠ x)) as [?|Hn]; [by rewrite IH|].
  destruct Hn. congruence.
Qed.

(** The pages of [L], all still to come and none of them resident, each cost
    a fault. *)
Lemma forEach_compulsory algorithm fuel refs k rest :
  0 < k →
  ∀ i st st' (L : list Z),
    wf k st → forEach algorithm fuel refs rest i st = Ret st' →
    NoDup L → (∀ p, p ∈ L → p ∈ rest ∧ Some p ∉ s_frames st) →
    s_faults st + length L ≤ s_faults st'.
Proof.
  intros Hk. induction rest as [|pg rest IH]; intros i st st' L Hwf Hrun Hnd HL.
  { destruct L as [|p L]; [simpl in *; injection Hrun as <-; lia|].
    destruct (HL p) as [Hp _]; [by left|]. by apply elem_of_nil in Hp. }
  simpl in Hrun.
  destruct (visit algorithm fuel refs st pg i) as [st1| |] eqn:Hvisit; try done.
  simpl in Hrun.
  destruct (visit_spec _ _ _ _ _ _ _ _ Hk Hwf Hvisit) as (Hwf1 & victim & Hstep & _).
  destruct victim as [v|]; simpl in Hstep.
  - destruct Hstep as (Hout & Hv & Hframes & Hfaults).
    pose proof (length_without pg L Hnd) as Hlen.
    assert (s_faults st1 + length (filter (λ y, y ≠ pg) L) ≤ s_faults st'); [|lia].
    apply (IH (S i) st1 st'); [done|done|by apply NoDup_filter|].
    intros p [Hne Hp]%list_elem_of_filter. destruct (HL p Hp) as [Hin Hfree]. split.
    + apply elem_of_cons in Hin as [->|Hin]; done.
    + rewrite Hframes. intros [Heq|Hin']%insert_elem_of; [congruence|done].
  - destruct Hstep as (Hin & Hframes & Hfaults). rewrite <- Hfaults.
    apply (IH (S i) st1 st'); [done|done|done|].
    intros p Hp. destruct (HL p Hp) as [Hin' Hfree]. rewrite Hframes. split; [|done].
    apply elem_of_cons in Hin' as [->|Hin']; done.
Qed.

(** X7: Every policy faults at least once per distinct page and at most once per
    reference. *)
Theorem page_faults_between_distinct_pages_and_references :
  ∀ algorithm fuel k refs r,
    0 < k → simulate algorithm fuel k refs = Ret r →
    length (remove_dups refs) ≤ faults r ≤ length refs.
Proof.
  intros algorithm fuel k refs r Hk. unfold simulate.
  destruct (forEach algorithm fuel refs refs 0 (initial k)) as [st| |] eqn:Hrun; try done.
  simpl. intros [= <-]. simpl. split.
  - apply (forEach_compulsory algorithm fuel refs k refs Hk 0 (initial k) st
             (remove_dups refs) (initial_wf k Hk) Hrun (NoDup_remove_dups refs)).
    intros p Hp. rewrite elem_of_remove_dups in Hp. split; [done|apply initial_no_resident].
  - destruct (forEach_recorded algorithm fuel refs k refs Hk 0 (initial k) st)
      as (new & _ & _ & _ & Hcount & _); try done.
    + by apply initial_wf.
    + rewrite initial_no_pages. constructor.
    + intros p Hp. by apply initial_no_resident in Hp.
    + simpl in Hcount. lia.
Qed.

Lemma page_faults_between_distinct_pages_and_references_witness :
  ∃ r, simulate opt 0 3 defaultRef = Ret r ∧
       length (remove_dups defaultRef) ≤ faults r ≤ length defaultRef.
Proof.
  assert (Hrun : ∃ r, simulate opt 0 3 defaultRef = Ret r)
    by (vm_compute; eexists; reflexivity).
  destruct Hrun as [r Hrun]. exists r. split; [exact Hrun|].
  assert (Hk : 0 < 3) by lia.
  exact (page_faults_between_distinct_pages_and_references opt 0 3 defaultRef r Hk Hrun).
Defined.

(** *** The victims of LRU and MRU *)

(** X8: With every frame occupied, LRU evicts the frame with the smallest
    [lastUsed] and MRU the one with the largest, the first such frame on
    ties. *)
Theorem lru_mru_victims :
  ∀ frames meta,
    None ∉ frames → meta ≠ [] →
    (∃ m, meta !! findLRU frames meta = Some m ∧
          ∀ j m', meta !! j = Some m' →
            (lastUsed m ≤ lastUsed m')%Z ∧
            (lastUsed m' = lastUsed m → findLRU frames meta ≤ j)) ∧
    (∃ m, meta !! findMRU frames meta = Some m ∧
          ∀ j m', meta !! j = Some m' →
            (lastUsed m' ≤ lastUsed m)%Z ∧
            (lastUsed m' = lastUsed m → findMRU frames meta ≤ j)).
Proof.
  intros frames meta Hfull Hmeta.
  assert (Hnone : indexOf frames None = None).
  { destruct (indexOf frames None) as [i|] eqn:E; [|done].
    apply indexOf_Some in E as [E _]. by apply list_elem_of_lookup_2 in E. }
  assert (Hlen : 0 < length meta) by (destruct meta; [done|simpl; lia]).
  unfold findLRU, findMRU. rewrite Hnone. split.
  - set (f := λ '(oldest, idx) (info : frame_meta) (i : nat),
                if (lastUsed info <? oldest)%Z || (i =? 0)
                then (lastUsed info, i) else (oldest, idx)).
    assert (H : (λ (i : nat) (s : Z * nat),
                   i = 0 ∨
                   (s.2 < i ∧
                    ∃ m, meta !! s.2 = Some m ∧ s.1 = lastUsed m ∧
                         ∀ j m', j < i → meta !! j = Some m' →
                           (lastUsed m ≤ lastUsed m')%Z ∧
                           (lastUsed m' = lastUsed m → s.2 ≤ j)))
                (length meta) (forEachi f meta (0%Z, 0))).
    { apply forEachi_ind; [by left|].
      intros i x [oldest idx] Hx Hinv. right. unfold f. cbn [fst snd] in *.
      assert (Hfirst : i = 0 →
                S i > i ∧
                ∃ m, meta !! i = Some m ∧ lastUsed x = lastUsed m ∧
                     ∀ j m', j < S i → meta !! j = Some m' →
                       (lastUsed m ≤ lastUsed m')%Z ∧ (lastUsed m' = lastUsed m → i ≤ j)).
      { intros ->. split; [lia|]. exists x. split; [done|]. split; [done|].
        intros j m' Hj Hm'. assert (j = 0) as -> by lia.
        rewrite Hx in Hm'. injection Hm' as <-. split; [lia|done]. }
      destruct i as [|i].
      { rewrite orb_true_r. cbn [fst snd]. destruct (Hfirst eq_refl) as [_ H]. split; [lia|done]. }
      clear Hfirst. destruct Hinv as [? | (Hidx & m & Hm & Ho & Hmin)]; [lia|].
      cbn [Nat.eqb]. rewrite orb_false_r.
      destruct (Z.ltb_spec (lastUsed x) oldest) as [Hlt|Hge]; cbn [fst snd].
      - split; [lia|]. exists x. split; [done|]. split; [done|].
        intros j m' Hj Hm'. destruct (decide (j = S i)) as [->|Hne].
        + rewrite Hx in Hm'. injection Hm' as <-. split; [lia|done].
        + destruct (Hmin j m') as [Hle _]; [lia|done|]. split; lia.
      - split; [lia|]. exists m. split; [done|]. split; [done|].
        intros j m' Hj Hm'. destruct (decide (j = S i)) as [->|Hne].
        + rewrite Hx in Hm'. injection Hm' as <-. split; lia.
        + apply Hmin; [lia|done]. }
    destruct H as [? | (_ & m & Hm & _ & Hmin)]; [lia|].
    exists m. split; [done|]. intros j m' Hm'. apply Hmin; [|done].
    by eapply lookup_lt_Some.
  - set (f := λ '(newest, idx) (info : frame_meta) (i : nat),
                match newest with
                | None => (Some (lastUsed info), i)
                | Some nw => if (nw <? lastUsed info)%Z
                             then (Some (lastUsed info), i) else (newest, idx)
                end).
    assert (H : (λ (i : nat) (s : option Z * nat),
                   (i = 0 ∧ s.1 = None) ∨
                   (s.2 < i ∧
                    ∃ m, meta !! s.2 = Some m ∧ s.1 = Some (lastUsed m) ∧
                         ∀ j m', j < i → meta !! j = Some m' →
                           (lastUsed m' ≤ lastUsed m)%Z ∧
                           (lastUsed m' = lastUsed m → s.2 ≤ j)))
                (length meta) (forEachi f meta (None, 0))).
    { apply forEachi_ind; [by left|].
      intros i x [newest idx] Hx Hinv. right. unfold f. cbn [fst snd] in *.
      destruct Hinv as [[-> ->] | (Hidx & m & Hm & -> & Hmin)].
      { cbn [fst snd]. split; [lia|]. exists x. split; [done|]. split; [done|].
        intros j m' Hj Hm'. assert (j = 0) as -> by lia.
        rewrite Hx in Hm'. injection Hm' as <-. split; [lia|done]. }
      destruct (Z.ltb_spec (lastUsed m) (lastUsed x)) as [Hlt|Hge]; cbn [fst snd].
      - split; [lia|]. exists x. split; [done|]. split; [done|].
        intros j m' Hj Hm'. destruct (decide (j = i)) as [->|Hne].
        + rewrite Hx in Hm'. injection Hm' as <-. split; [lia|done].
        + destruct (Hmin j m') as [Hle _]; [lia|done|]. split; lia.
      - split; [lia|]. exists m. split; [done|]. split; [done|].
        intros j m' Hj Hm'. destruct (decide (j = i)) as [->|Hne].
        + rewrite Hx in Hm'. injection Hm' as <-. split; lia.
        + apply Hmin; [lia|done]. }
    destruct H as [[? _] | (_ & m & Hm & _ & Hmin)]; [lia|].
    exists m. split; [done|]. intros j m' Hm'. apply Hmin; [|done].
    by eapply lookup_lt_Some.
Qed.

Lemma lru_mru_victims_witness :
  let frames := [Some 7; Some 0; Some 1]%Z in
  let meta := [{| ref := 1; lastUsed := 4 |}; {| ref := 1; lastUsed := 1 |};
               {| ref := 1; lastUsed := 2 |}]%Z in
  findLRU frames meta = 1 ∧ findMRU frames meta = 0 ∧
  ∃ m, meta !! findLRU frames meta = Some m ∧
       ∀ j m', meta !! j = Some m' →
         (lastUsed m ≤ lastUsed m')%Z ∧ (lastUsed m' = lastUsed m → findLRU frames meta ≤ j).
Proof.
  intros frames meta. split; [reflexivity|]. split; [reflexivity|].
  refine (proj1 (lru_mru_victims frames meta _ _)).
  - subst frames. rewrite !elem_of_cons, elem_of_nil. intros [?|[?|[?|[]]]]; congruence.
  - done.
Defined.

(** *** Termination *)

(** X9: FIFO, LRU, MRU, CLOCK and OPT always return a trace: CLOCK's hand stops
    within one lap and one step, so fuel above the frame count is enough, and
    the other policies search without a loop. *)
Theorem page_simulation_returns_unless_wsclock :
  ∀ algorithm fuel k refs,
    algorithm ≠ wsclock → 0 < k → k < fuel →
    ∃ r, simulate algorithm fuel k refs = Ret r ∧
         length (timeline r) = length refs.
Proof.
  intros algorithm fuel k refs Halg Hk Hfuel.
  destruct (simulate_returns algorithm fuel k refs Halg Hk (or_intror Hfuel))
    as (r & Hr & _).
  exists r. split; [done|].
  unfold simulate in Hr.
  destruct (forEach algorithm fuel refs refs 0 (initial k)) as [st| |] eqn:Hrun; try done.
  simpl in Hr. injection Hr as <-. simpl.
  destruct (forEach_recorded algorithm fuel refs k refs Hk 0 (initial k) st)
    as (new & Htl & Hlen & _); try done.
  - by apply initial_wf.
  - rewrite initial_no_pages. constructor.
  - intros p Hp. by apply initial_no_resident in Hp.
  - simpl in Htl. by rewrite Htl.
Qed.

Lemma page_simulation_returns_unless_wsclock_witness :
  ∃ r, simulate clock 4 3 defaultRef = Ret r ∧ length (timeline r) = length defaultRef.
Proof.
  apply page_simulation_returns_unless_wsclock; [done|lia|lia].
Defined.

End PageReplacementTrace.

(** ** Banker's algorithm: the safe sequence *)

Section BanksAlgorithmSafety.
Import BanksAlgorithm.

(** What [checkSafety] does to [work] when process [i] finishes. *)
Definition release (arow : list num) (work : list num) : list num :=
  imap (λ idx w, add w (get arow idx)) work.

(** Running the processes of [sequence] to completion one after the other,
    from [work]: each must find its Need within the work vector, and returns
    its allocation to it.  [None] when some process cannot finish. *)
Fixpoint runToCompletion (allocation need : list (list num)) (work : list num)
    (sequence : list nat) : option (list num) :=
  match sequence with
  | [] => Some work
  | i :: rest =>
      match need !! i, allocation !! i with
      | Some nrow, Some arow =>
          if every_le nrow work
          then runToCompletion allocation need (release arow work) rest
          else None
      | _, _ => None
      end
  end.

Lemma runToCompletion_snoc allocation need work sequence i :
  runToCompletion allocation need work (sequence ++ [i]) =
  runToCompletion allocation need work sequence ≫= λ w,
    runToCompletion allocation need w [i].
Proof.
  revert work. induction sequence as [|j sequence IH]; intros work; [done|].
  simpl. destruct (need !! j) as [nrow|]; [|done].
  destruct (allocation !! j) as [arow|]; [|done].
  destruct (every_le nrow work); [apply IH|done].
Qed.

(** The scan so far: the finished processes are exactly those of the
    sequence, each once, and running them in that order from [available]
    gives the work vector. *)
Definition scanned (available : list num) (allocation need : list (list num))
    (s : scan_state) : Prop :=
  length (finish s) = length allocation ∧
  NoDup (seq_so_far s) ∧
  (∀ i, i ∈ seq_so_far s ↔ finish s !! i = Some true) ∧
  runToCompletion allocation need available (seq_so_far s) = Some (work s).

Lemma tryFinish_scanned available allocation need s i :
  length need = length allocation → i < length allocation →
  scanned available allocation need s →
  ∃ s', tryFinish allocation need s i = Ret s' ∧ scanned available allocation need s'.
Proof.
  intros Hneed Hi (Hlen & Hnd & Hfin & Hrun). unfold tryFinish.
  destruct (lookup_lt_is_Some_2 (finish s) i) as [b Hb]; [lia|]. rewrite Hb.
  destruct b; [by exists s|].
  destruct (lookup_lt_is_Some_2 need i) as [nrow Hn]; [lia|].
  destruct (lookup_lt_is_Some_2 allocation i) as [arow Ha]; [lia|].
  rewrite Hn, Ha. destruct (every_le nrow (work s)) eqn:Hle; [|by exists s].
  eexists. split; [reflexivity|]. repeat split; simpl.
  - by rewrite length_insert.
  - apply NoDup_app. split; [done|]. split; [|apply NoDup_singleton].
    intros x Hx ->%list_elem_of_singleton. apply Hfin in Hx. congruence.
  - intros [Hx | ->%list_elem_of_singleton]%elem_of_app.
    + apply Hfin in Hx. destruct (decide (i = i0)) as [->|Hne]; [congruence|].
      by rewrite list_lookup_insert_ne.
    + apply list_lookup_insert_eq. lia.
  - intros Hx. apply elem_of_app. destruct (decide (i = i0)) as [->|Hne].
    + right. by apply list_elem_of_singleton.
    + left. apply Hfin. by rewrite list_lookup_insert_ne in Hx.
  - rewrite runToCompletion_snoc, Hrun. simpl. by rewrite Hn, Ha, Hle.
Qed.

Lemma pass_scanned available allocation need ixs s :
  length need = length allocation → Forall (λ i, i < length allocation) ixs →
  scanned available allocation need s →
  ∃ s', pass allocation need ixs s = Ret s' ∧ scanned available allocation need s'.
Proof.
  intros Hneed. revert s. induction ixs as [|i ixs IH]; intros s Hixs Hs; simpl.
  { by exists s. }
  apply Forall_cons in Hixs as [Hi Hixs].
  destruct (tryFinish_scanned available allocation need s i Hneed Hi Hs) as (s1 & -> & Hs1).
  simpl. by apply IH.
Qed.

Lemma passes_scanned available allocation need fuel s s' :
  length need = length allocation →
  scanned available allocation need s →
  passes fuel allocation need s = Ret s' →
  scanned available allocation need s'.
Proof.
  intros Hneed. revert s. induction fuel as [|fuel IH]; intros s Hs; [done|].
  simpl. destruct (progress s); [|by intros [= <-]].
  set (s0 := {| work := work s; finish := finish s; seq_so_far := seq_so_far s;
                progress := false |}).
  destruct (pass_scanned available allocation need (seq 0 (length allocation)) s0 Hneed)
    as (s1 & -> & Hs1).
  - apply Forall_forall. intros i Hi%elem_of_seq. lia.
  - done.
  - simpl. by apply IH.
Qed.

Lemma passes_returns available allocation need fuel s :
  length need = length allocation →
  scanned available allocation need s →
  (if progress s then unfinished (finish s) + 1 else 0) < fuel →
  ∃ s', passes fuel allocation need s = Ret s'.
Proof.
  intros Hneed. revert s. induction fuel as [|fuel IH]; intros s Hs Hfuel; [lia|].
  simpl. destruct (progress s) eqn:Hp; [|by exists s].
  set (s0 := {| work := work s; finish := finish s; seq_so_far := seq_so_far s;
                progress := false |}).
  destruct (pass_scanned available allocation need (seq 0 (length allocation)) s0 Hneed)
    as (s1 & E & Hs1).
  - apply Forall_forall. intros i Hi%elem_of_seq. lia.
  - done.
  - rewrite E. simpl. apply IH; [done|].
    assert (Hixs : Forall (λ i, i < length (finish s0)) (seq 0 (length allocation))).
    { destruct Hs as [Hlen _]. apply Forall_forall. intros i Hi%elem_of_seq.
      subst s0. simpl. lia. }
    destruct (pass_advanced _ _ _ _ _ Hixs E) as (_ & Hadv).
    subst s0. simpl in *. destruct Hadv as [[-> _]|[-> Hlt]]; lia.
Qed.

Lemma initial_scanned available allocation need :
  scanned available allocation need
    {| work := available; finish := map (λ _, false) allocation;
       seq_so_far := []; progress := true |}.
Proof.
  repeat split; simpl.
  - by rewrite length_map.
  - constructor.
  - by intros ?%elem_of_nil.
  - intros H. rewrite list_lookup_fmap in H. by destruct (allocation !! i).
Qed.

Lemma forallb_id_lookup (finish : list bool) :
  forallb id finish = true ↔ ∀ i, i < length finish → finish !! i = Some true.
Proof.
  induction finish as [|b finish IH]; simpl.
  { split; [intros _ i Hi; lia|done]. }
  rewrite andb_true_iff, IH. split.
  - intros [Hb H] [|i] Hi; simpl; [by rewrite <- Hb|apply H; lia].
  - intros H. split.
    + specialize (H 0 ltac:(lia)). simpl in H. by injection H as ->.
    + intros i Hi. apply (H (S i)). lia.
Qed.

(** X10: [checkSafety] always returns (it needs at most one pass per process, and
    one more), and its answer can be trusted when it says Safe: the sequence
    it returns names each process at most once and can really run to
    completion in that order from [available]; the state is reported safe
    exactly when the sequence covers every process. *)
Theorem checkSafety_sequence_is_safe :
  ∀ fuel available allocation need,
    length need = length allocation →
    length allocation + 1 < fuel →
    ∃ r, checkSafety fuel available allocation need = Ret r ∧
         NoDup (sequence r) ∧
         Forall (λ i, i < length allocation) (sequence r) ∧
         is_Some (runToCompletion allocation need available (sequence r)) ∧
         (safe r = true ↔ sequence r ≡ₚ seq 0 (length allocation)).
Proof.
  intros fuel available allocation need Hneed Hfuel. unfold checkSafety.
  set (s0 := {| work := available; finish := map (λ _, false) allocation;
                seq_so_far := []; progress := true |}).
  pose proof (initial_scanned available allocation need) as Hs0. fold s0 in Hs0.
  destruct (passes_returns available allocation need fuel s0 Hneed Hs0) as [s Hs].
  { pose proof (unfinished_le (finish s0)) as Hle. simpl in *.
    rewrite length_map in Hle. lia. }
  rewrite Hs. simpl. eexists. split; [reflexivity|]. simpl.
  destruct (passes_scanned _ _ _ _ _ _ Hneed Hs0 Hs) as (Hlen & Hnd & Hfin & Hrun).
  assert (Hbound : Forall (λ i, i < length allocation) (seq_so_far s)).
  { apply Forall_forall. intros i Hi%Hfin. apply lookup_lt_Some in Hi. lia. }
  split; [done|]. split; [done|]. split; [by rewrite Hrun|].
  rewrite forallb_id_lookup. split.
  - intros Hall. apply NoDup_Permutation; [done|apply NoDup_seq|].
    intros i. rewrite elem_of_seq. split.
    + intros Hi. rewrite Forall_forall in Hbound. specialize (Hbound i Hi). lia.
    + intros Hi. apply Hfin, Hall. lia.
  - intros Hperm i Hi. apply Hfin. rewrite Hperm. apply elem_of_seq. lia.
Qed.

Lemma checkSafety_sequence_is_safe_witness :
  ∃ r, checkSafety 7 sampleAvailable sampleAllocation
         [[Some 7; Some 4; Some 3]; [Some 1; Some 2; Some 2]; [Some 6; Some 0; Some 0];
          [Some 0; Some 1; Some 1]; [Some 4; Some 3; Some 1]]%Z = Ret r ∧
       NoDup (sequence r).
Proof.
  destruct (checkSafety_sequence_is_safe 7 sampleAvailable sampleAllocation
              [[Some 7; Some 4; Some 3]; [Some 1; Some 2; Some 2]; [Some 6; Some 0; Some 0];
               [Some 0; Some 1; Some 1]; [Some 4; Some 3; Some 1]]%Z)
    as (r & Hr & Hnd & _); [reflexivity|simpl; lia|].
  by exists r.
Defined.

(** *** The Unsafe verdict *)

(** A work vector of [m] numbers. *)
Definition vec (m : nat) (w : list num) : Prop :=
  length w = m ∧ Forall is_Some w.

(** An allocation row: [m] numbers, none negative. *)
Definition holding (m : nat) (arow : list num) : Prop :=
  length arow = m ∧ Forall (λ c, le (Some 0%Z) c = true) arow.

(** [w] is at most [w'] in every resource. *)
Definition below (w w' : list num) : Prop := Forall2 (λ a b, le a b = true) w w'.

(** The work vector after the processes of [l] have returned their allocation. *)
Definition released (allocation : list (list num)) (l : list nat) (w : list num)
    : list num :=
  foldl (λ w i, release (default [] (allocation !! i)) w) w l.

(** An amount on which the arithmetic of the engine is exact: a whole number
    from 0 to [MAX_SAFE_INTEGER]. *)
Definition amount (c : num) : bool := le (Some 0%Z) c && le c (Some MAX_SAFE_INTEGER).

(** Matrices of such amounts in which every resource, available and
    allocated units together, is such an amount too: no sum or difference the
    engine forms is rounded.  [claims] is the Need or the Max matrix. *)
Definition exactAmounts (available : list num) (allocation claims : list (list num))
    : bool :=
  forallb amount available && forallb (forallb amount) allocation &&
  forallb (forallb amount) claims &&
  forallb amount (released allocation (seq 0 (length allocation)) available).

Lemma le_Some a b : le a b = true ↔ ∃ x y, a = Some x ∧ b = Some y ∧ (x ≤ y)%Z.
Proof.
  destruct a as [x|], b as [y|]; simpl; split;
    try (by intros (? & ? & ? & ? & ?)); try done.
  - intros H%Z.leb_le. by exists x, y.
  - intros (? & ? & [= ->] & [= ->] & ?). by apply Z.leb_le.
Qed.

Lemma below_lookup w w' :
  below w w' ↔
  length w = length w' ∧ ∀ j a b, w !! j = Some a → w' !! j = Some b → le a b = true.
Proof. apply Forall2_same_length_lookup. Qed.

Lemma vec_lookup m w j : vec m w → j < m → ∃ x, w !! j = Some (Some x).
Proof.
  intros [Hlen Hall] Hj. destruct (lookup_lt_is_Some_2 w j) as [c Hc]; [lia|].
  rewrite Forall_forall in Hall. destruct (Hall c) as [x ->]; [|by exists x].
  by eapply list_elem_of_lookup_2.
Qed.

Lemma holding_lookup m arow j :
  holding m arow → j < m → ∃ x, arow !! j = Some (Some x) ∧ (0 ≤ x)%Z.
Proof.
  intros [Hlen Hall] Hj. destruct (lookup_lt_is_Some_2 arow j) as [c Hc]; [lia|].
  rewrite Forall_forall in Hall.
  destruct (proj1 (le_Some _ _) (Hall c ltac:(by eapply list_elem_of_lookup_2)))
    as (z & x & [= <-] & -> & Hx).
  by exists x.
Qed.

Lemma release_lookup arow w j x a :
  w !! j = Some (Some x) → arow !! j = Some (Some a) →
  release arow w !! j = Some (Some (x + a)%Z).
Proof.
  intros Hw Ha. unfold release, get, num in *. rewrite list_lookup_imap, Hw. simpl.
  by rewrite Ha.
Qed.

Lemma release_vec m arow w : holding m arow → vec m w → vec m (release arow w).
Proof.
  intros Ha Hw. split.
  - unfold release. rewrite length_imap. apply Hw.
  - apply Forall_forall. intros c [j Hc]%list_elem_of_lookup.
    assert (Hj : j < m).
    { apply lookup_lt_Some in Hc. unfold release in Hc. rewrite length_imap in Hc.
      destruct Hw as [<- _]. done. }
    destruct (vec_lookup m w j Hw Hj) as [x Hx].
    destruct (holding_lookup m arow j Ha Hj) as (a & Harow & _).
    pose proof (release_lookup arow w j x a Hx Harow) as E. unfold num in *.
    rewrite E in Hc. by injection Hc as <-.
Qed.

Lemma below_refl m w : vec m w → below w w.
Proof.
  intros Hw. apply below_lookup. split; [done|]. intros j a b Ha Hb.
  assert (Hj : j < m) by (apply lookup_lt_Some in Ha; destruct Hw as [<- _]; done).
  destruct (vec_lookup m w j Hw Hj) as [x Hx].
  unfold num in *. rewrite Hx in Ha, Hb. injection Ha as <-. injection Hb as <-. simpl. by apply Z.leb_le.
Qed.

Lemma below_trans w1 w2 w3 : below w1 w2 → below w2 w3 → below w1 w3.
Proof.
  rewrite !below_lookup. intros [Hl12 H12] [Hl23 H23]. split; [congruence|].
  intros j a c Ha Hc.
  destruct (lookup_lt_is_Some_2 w2 j) as [b Hb].
  { apply lookup_lt_Some in Ha. lia. }
  specialize (H12 j a b Ha Hb). specialize (H23 j b c Hb Hc).
  apply le_Some in H12 as (x & y & -> & -> & Hxy).
  apply le_Some in H23 as (y' & z & [= <-] & -> & Hyz).
  simpl. apply Z.leb_le. lia.
Qed.

Lemma release_above m arow w : holding m arow → vec m w → below w (release arow w).
Proof.
  intros Ha Hw. apply below_lookup. split.
  { unfold release. by rewrite length_imap. }
  intros j c d Hc Hd.
  assert (Hj : j < m) by (apply lookup_lt_Some in Hc; destruct Hw as [<- _]; done).
  destruct (vec_lookup m w j Hw Hj) as [x Hx].
  destruct (holding_lookup m arow j Ha Hj) as (a & Harow & Hpos).
  pose proof (release_lookup arow w j x a Hx Harow) as E. unfold num in *.
  rewrite E in Hd. rewrite Hx in Hc. injection Hc as <-. injection Hd as <-.
  simpl. apply Z.leb_le. lia.
Qed.

Lemma release_mono m arow w w' :
  holding m arow → vec m w → vec m w' → below w w' →
  below (release arow w) (release arow w').
Proof.
  intros Ha Hw Hw' Hb. apply below_lookup in Hb as [Hlen Hb]. apply below_lookup. split.
  { unfold release. by rewrite !length_imap. }
  intros j c d Hc Hd.
  assert (Hj : j < m).
  { apply lookup_lt_Some in Hc. unfold release in Hc. rewrite length_imap in Hc.
    destruct Hw as [<- _]. done. }
  destruct (vec_lookup m w j Hw Hj) as [x Hx].
  destruct (vec_lookup m w' j Hw' Hj) as [x' Hx'].
  destruct (holding_lookup m arow j Ha Hj) as (a & Harow & Hpos).
  pose proof (release_lookup arow w j x a Hx Harow) as E.
  pose proof (release_lookup arow w' j x' a Hx' Harow) as E'. unfold num in *.
  rewrite E in Hc. rewrite E' in Hd.
  injection Hc as <-. injection Hd as <-.
  specialize (Hb j _ _ Hx Hx'). apply Z.leb_le in Hb.
  simpl. apply Z.leb_le. lia.
Qed.

Lemma release_comm m arow arow' w :
  holding m arow → holding m arow' → vec m w →
  release arow (release arow' w) = release arow' (release arow w).
Proof.
  intros Ha Ha' Hw. apply list_eq. intros j.
  destruct (decide (j < m)) as [Hj|Hj].
  - destruct (vec_lookup m w j Hw Hj) as [x Hx].
    destruct (holding_lookup m arow j Ha Hj) as (a & Harow & _).
    destruct (holding_lookup m arow' j Ha' Hj) as (a' & Harow' & _).
    pose proof (release_lookup arow _ j (x + a') a
                  (release_lookup arow' w j x a' Hx Harow') Harow) as E.
    pose proof (release_lookup arow' _ j (x + a) a'
                  (release_lookup arow w j x a Hx Harow) Harow') as E'.
    unfold num in *. rewrite E, E'. do 2 f_equal. lia.
  - rewrite !lookup_ge_None_2; [done| |]; unfold release; rewrite !length_imap;
      destruct Hw as [-> _]; lia.
Qed.

Section Released.
Context (m : nat) (allocation : list (list num)).
Hypothesis allocation_holding : Forall (holding m) allocation.

Lemma allocation_row i :
  i < length allocation →
  ∃ arow, allocation !! i = Some arow ∧ holding m arow.
Proof.
  intros Hi. destruct (lookup_lt_is_Some_2 allocation i Hi) as [arow Ha].
  exists arow. split; [done|]. rewrite Forall_forall in allocation_holding.
  apply allocation_holding. by eapply list_elem_of_lookup_2.
Qed.

Lemma released_vec l w :
  Forall (λ i, i < length allocation) l → vec m w → vec m (released allocation l w).
Proof.
  revert w. induction l as [|i l IH]; intros w Hl Hw; [done|].
  apply Forall_cons in Hl as [Hi Hl]. simpl. apply IH; [done|].
  destruct (allocation_row i Hi) as (arow & -> & Harow). simpl. by apply release_vec.
Qed.

Lemma released_mono l w w' :
  Forall (λ i, i < length allocation) l → vec m w → vec m w' → below w w' →
  below (released allocation l w) (released allocation l w').
Proof.
  revert w w'. induction l as [|i l IH]; intros w w' Hl Hw Hw' Hb; [done|].
  apply Forall_cons in Hl as [Hi Hl]. simpl.
  destruct (allocation_row i Hi) as (arow & -> & Harow). simpl.
  apply IH; [done|by apply release_vec..|by apply (release_mono m)].
Qed.

(** Letting more processes return their allocation only raises the work
    vector, whatever the order. *)
Lemma released_submseteq l1 l2 w :
  l1 ⊆+ l2 → Forall (λ i, i < length allocation) l2 → vec m w →
  below (released allocation l1 w) (released allocation l2 w).
Proof.
  intros Hsub. revert w.
  induction Hsub as [|i l1 l2 Hsub IH|i j l|i l1 l2 Hsub IH|l1 l2 l3 H12 IH12 H23 IH23];
    intros w Hl Hw.
  - by apply (below_refl m).
  - apply Forall_cons in Hl as [Hi Hl]. simpl.
    destruct (allocation_row i Hi) as (arow & -> & Harow). simpl.
    apply IH; [done|by apply release_vec].
  - apply Forall_cons in Hl as [Hi Hl]. apply Forall_cons in Hl as [Hj Hl]. simpl.
    destruct (allocation_row i Hi) as (arow & -> & Harow).
    destruct (allocation_row j Hj) as (arow' & -> & Harow'). simpl.
    rewrite (release_comm m arow arow' w Harow Harow' Hw).
    apply (below_refl m). apply released_vec; [done|].
    apply release_vec; [done|]. by apply release_vec.
  - apply Forall_cons in Hl as [Hi Hl]. simpl.
    destruct (allocation_row i Hi) as (arow & -> & Harow). simpl.
    eapply below_trans; [by apply IH|].
    apply released_mono; [done|done|by apply release_vec|by apply (release_above m)].
  - assert (Hl2 : Forall (λ i, i < length allocation) l2).
    { rewrite Forall_forall in *. intros x Hx. apply Hl.
      by eapply elem_of_submseteq. }
    eapply below_trans; [by apply IH12|by apply IH23].
Qed.

Lemma runToCompletion_released need w l w' :
  runToCompletion allocation need w l = Some w' → w' = released allocation l w.
Proof.
  revert w. induction l as [|i l IH]; intros w; simpl; [by intros [= <-]|].
  destruct (need !! i) as [nrow|]; [|done].
  destruct (allocation !! i) as [arow|]; [|done].
  destruct (every_le nrow w); [|done]. apply IH.
Qed.

End Released.

Lemma every_le_lookup xs ys :
  every_le xs ys = true ↔ ∀ j x, xs !! j = Some x → le x (get ys j) = true.
Proof.
  unfold every_le. rewrite forallb_forall. split.
  - intros H j x Hx. apply (H (j, x)). apply list_elem_of_In.
    apply list_elem_of_lookup. exists j. rewrite lookup_zip_with, lookup_seq_lt.
    + simpl. by rewrite Hx.
    + by eapply lookup_lt_Some.
  - intros H [j x] Hin%list_elem_of_In. apply list_elem_of_lookup in Hin as [k Hk].
    rewrite lookup_zip_with in Hk.
    destruct (seq 0 (length xs) !! k) as [j'|] eqn:Hj'; [|done]. simpl in Hk.
    destruct (xs !! k) as [x'|] eqn:Hx'; [|done]. simpl in Hk. injection Hk as -> ->.
    apply lookup_seq in Hj' as [-> _]. simpl. by apply H.
Qed.

Lemma every_le_mono nrow w w' :
  below w w' → every_le nrow w = true → every_le nrow w' = true.
Proof.
  intros [Hlen Hb]%below_lookup. rewrite !every_le_lookup. intros H j x Hx.
  specialize (H j x Hx). apply le_Some in H as (a & b & -> & Hg & Hab).
  unfold get, num in *. destruct (w !! j) as [c|] eqn:Hc; [|done]. simpl in Hg. subst c.
  destruct (lookup_lt_is_Some_2 w' j) as [d Hd].
  { rewrite <- Hlen. by eapply lookup_lt_Some. }
  rewrite Hd. simpl. specialize (Hb j _ _ Hc Hd).
  apply le_Some in Hb as (b' & e & [= <-] & -> & Hbe). simpl. apply Z.leb_le. lia.
Qed.

(** When a pass ends without progress, every process it looked at and left
    unfinished has a Need the work vector does not cover. *)
Definition stuck (need : list (list num)) (done : list nat) (s : scan_state) : Prop :=
  progress s = false →
  ∀ i nrow, i ∈ done → finish s !! i = Some false → need !! i = Some nrow →
            every_le nrow (work s) = false.

Lemma tryFinish_stuck allocation need done s i s' :
  stuck need done s → tryFinish allocation need s i = Ret s' →
  stuck need (done ++ [i]) s'.
Proof.
  intros Hs. unfold tryFinish.
  destruct (finish s !! i) as [[]|] eqn:Hf.
  - intros [= <-] Hp j nrow [Hj| ->%list_elem_of_singleton]%elem_of_app Hfj Hn;
      [by eapply Hs|congruence].
  - destruct (need !! i) as [nrow|] eqn:Hn; [|done].
    destruct (allocation !! i) as [arow|]; [|done].
    destruct (every_le nrow (work s)) eqn:Hle; intros [= <-]; [done|].
    intros Hp j nrow' [Hj| ->%list_elem_of_singleton]%elem_of_app Hfj Hn';
      [by eapply Hs|congruence].
  - destruct (need !! i) as [nrow|] eqn:Hn; [|done].
    destruct (allocation !! i) as [arow|]; [|done].
    destruct (every_le nrow (work s)) eqn:Hle; intros [= <-]; [done|].
    intros Hp j nrow' [Hj| ->%list_elem_of_singleton]%elem_of_app Hfj Hn';
      [by eapply Hs|congruence].
Qed.

Lemma pass_stuck allocation need ixs done s s' :
  stuck need done s → pass allocation need ixs s = Ret s' →
  stuck need (done ++ ixs) s'.
Proof.
  revert done s. induction ixs as [|i ixs IH]; intros done s Hs; simpl.
  { intros [= <-]. by rewrite app_nil_r. }
  destruct (tryFinish allocation need s i) as [s1| |] eqn:E; [|done..]. simpl.
  intros Hp. replace (done ++ i :: ixs) with ((done ++ [i]) ++ ixs)
    by (by rewrite <- app_assoc).
  eapply IH; [|done]. by eapply tryFinish_stuck.
Qed.

Lemma passes_stuck allocation need fuel s s' :
  progress s = true ∨ stuck need (seq 0 (length allocation)) s →
  passes fuel allocation need s = Ret s' →
  stuck need (seq 0 (length allocation)) s'.
Proof.
  revert s. induction fuel as [|fuel IH]; intros s Hs; [done|]. simpl.
  destruct (progress s) eqn:Hp.
  - match goal with |- context [pass _ _ _ ?s0] => set (s0' := s0) end.
    destruct (pass allocation need (seq 0 (length allocation)) s0') as [s1| |] eqn:E;
      [|done..]. simpl.
    apply IH. right. apply (pass_stuck allocation need _ [] s0' s1); [|done].
    by intros _ i nrow ?%elem_of_nil.
  - intros [= <-]. destruct Hs as [?|Hs]; [congruence|done].
Qed.

(** X11: The Unsafe verdict can be trusted too, on whole-number amounts.  With
    matrices of the same shape whose amounts are whole numbers from 0 to
    [MAX_SAFE_INTEGER], no resource exceeding it in all, when [checkSafety]
    reports the state unsafe, there is no order at all in which every process
    could run to completion from [available]. *)
Theorem checkSafety_unsafe_no_safe_order :
  ∀ fuel m available allocation need r,
    exactAmounts available allocation need = true →
    vec m available →
    Forall (holding m) allocation →
    length need = length allocation →
    checkSafety fuel available allocation need = Ret r →
    safe r = false →
    ∀ order, order ≡ₚ seq 0 (length allocation) →
             runToCompletion allocation need available order = None.
Proof.
  intros fuel m available allocation need r _ Hav Hal Hneed. unfold checkSafety.
  set (s0 := {| work := available; finish := map (λ _, false) allocation;
                seq_so_far := []; progress := true |}).
  destruct (passes fuel allocation need s0) as [s| |] eqn:Hs; [|done..]. simpl.
  intros [= <-]. simpl. intros Hunsafe order Hperm.
  pose proof (initial_scanned available allocation need) as Hs0. fold s0 in Hs0.
  destruct (passes_scanned _ _ _ _ _ _ Hneed Hs0 Hs) as (Hlen & Hnd & Hfin & Hrun).
  assert (Hst : stuck need (seq 0 (length allocation)) s).
  { eapply passes_stuck; [|exact Hs]. by left. }
  assert (Hexit : progress s = false).
  { clear -Hs. revert Hs. generalize s0. induction fuel as [|fuel IH]; intros s1; [done|].
    simpl. destruct (progress s1) eqn:Hp; [|by intros [= <-]].
    destruct (pass _ _ _ _) as [s2| |]; [|done..]. simpl. apply IH. }
  specialize (Hst Hexit).
  assert (Hbound : Forall (λ i, i < length allocation) (seq_so_far s)).
  { apply Forall_forall. intros i Hi%Hfin. apply lookup_lt_Some in Hi. lia. }
  assert (Hwork : work s = released allocation (seq_so_far s) available).
  { by eapply runToCompletion_released. }
  destruct (runToCompletion allocation need available order) as [w|] eqn:Hrun'; [|done].
  exfalso.
  (* every process of an admissible order is among the finished ones *)
  assert (Hin : ∀ rest used,
            NoDup (used ++ rest) →
            (∀ x, x ∈ used → x ∈ seq_so_far s) →
            Forall (λ i, i < length allocation) rest →
            is_Some (runToCompletion allocation need
                       (released allocation used available) rest) →
            ∀ x, x ∈ rest → x ∈ seq_so_far s).
  { induction rest as [|i rest IH]; intros used Hndu Hused Hrest Hok x Hx.
    { by apply elem_of_nil in Hx. }
    apply Forall_cons in Hrest as [Hi Hrest]. simpl in Hok.
    destruct (lookup_lt_is_Some_2 need i) as [nrow Hn]; [lia|].
    destruct (lookup_lt_is_Some_2 allocation i Hi) as [arow Ha].
    rewrite Hn, Ha in Hok.
    destruct (every_le nrow (released allocation used available)) eqn:Hle;
      [|by destruct Hok].
    assert (Hi_in : i ∈ seq_so_far s).
    { destruct (lookup_lt_is_Some_2 (finish s) i) as [b Hb]; [lia|].
      destruct b; [by apply Hfin|].
      assert (Hfalse : every_le nrow (work s) = false).
      { apply (Hst i nrow); [apply elem_of_seq; lia|done..]. }
      rewrite Hwork in Hfalse.
      rewrite (every_le_mono nrow (released allocation used available)
                 (released allocation (seq_so_far s) available)) in Hfalse; [done| |done].
      apply (released_submseteq m); [done| |done|done].
      apply NoDup_submseteq; [|done]. by apply NoDup_app in Hndu as [? _]. }
    apply elem_of_cons in Hx as [->|Hx]; [done|].
    apply (IH (used ++ [i])); [| | | |done].
    - by rewrite <- app_assoc.
    - intros y [Hy| ->%list_elem_of_singleton]%elem_of_app; [by apply Hused|done].
    - done.
    - unfold released at 1. rewrite foldl_app. simpl. by rewrite Ha. }
  assert (Hall : ∀ i, i < length allocation → finish s !! i = Some true).
  { intros i Hi. apply Hfin. apply (Hin order []).
    - simpl. rewrite Hperm. apply NoDup_seq.
    - by intros x ?%elem_of_nil.
    - apply Forall_forall. intros x Hx. rewrite Hperm in Hx.
      apply elem_of_seq in Hx. lia.
    - simpl. by rewrite Hrun'.
    - rewrite Hperm. apply elem_of_seq. lia. }
  assert (Htrue : forallb id (finish s) = true).
  { apply forallb_id_lookup. intros i Hi. apply Hall. lia. }
  congruence.
Qed.

Lemma checkSafety_unsafe_no_safe_order_witness :
  ∃ r, checkSafety 7 (map Some [0; 0; 0]%Z) sampleAllocation
         [[Some 7; Some 4; Some 3]; [Some 1; Some 2; Some 2]; [Some 6; Some 0; Some 0];
          [Some 0; Some 1; Some 1]; [Some 4; Some 3; Some 1]]%Z = Ret r ∧
       safe r = false ∧
       runToCompletion sampleAllocation
         [[Some 7; Some 4; Some 3]; [Some 1; Some 2; Some 2]; [Some 6; Some 0; Some 0];
          [Some 0; Some 1; Some 1]; [Some 4; Some 3; Some 1]]%Z
         (map Some [0; 0; 0]%Z) [3; 1; 4; 0; 2] = None.
Proof.
  assert (Hrun : ∃ r, checkSafety 7 (map Some [0; 0; 0]%Z) sampleAllocation
         [[Some 7; Some 4; Some 3]; [Some 1; Some 2; Some 2]; [Some 6; Some 0; Some 0];
          [Some 0; Some 1; Some 1]; [Some 4; Some 3; Some 1]]%Z = Ret r ∧ safe r = false)
    by (vm_compute; eexists; split; reflexivity).
  destruct Hrun as (r & Hr & Hunsafe). exists r. split; [exact Hr|]. split; [exact Hunsafe|].
  refine (checkSafety_unsafe_no_safe_order 7 3 _ _ _ r _ _ _ _ Hr Hunsafe [3; 1; 4; 0; 2] _).
  - reflexivity.
  - split; [reflexivity|]. repeat constructor; by eexists.
  - repeat constructor.
  - reflexivity.
  - simpl. solve_Permutation.
Defined.

(** *** Granted requests *)

Lemma checkSafety_returns fuel available allocation need :
  length need = length allocation → length allocation + 1 < fuel →
  ∃ r, checkSafety fuel available allocation need = Ret r.
Proof.
  intros Hneed Hfuel. unfold checkSafety.
  set (s0 := {| work := available; finish := map (λ _, false) allocation;
                seq_so_far := []; progress := true |}).
  pose proof (initial_scanned available allocation need) as Hs0. fold s0 in Hs0.
  destruct (passes_returns available allocation need fuel s0 Hneed Hs0) as [s Hs].
  { pose proof (unfinished_le (finish s0)) as Hle. simpl in *.
    rewrite length_map in Hle. lia. }
  rewrite Hs. simpl. by eexists.
Qed.

(** The Need matrix when no row of Allocation is missing. *)
Definition needOf (maxMatrix allocation : list (list num)) : list (list num) :=
  imap (λ i row, imap (λ j value, max0 (sub value (get (default [] (allocation !! i)) j))) row)
       maxMatrix.

Lemma mapi_res_imap {A B} (f : A → nat → res B) (g : nat → A → B) l i :
  (∀ k x, l !! k = Some x → f x (i + k) = Ret (g (i + k) x)) →
  mapi_res f l i = Ret (imap (λ k, g (i + k)) l).
Proof.
  revert i. induction l as [|x l IH]; intros i H; [done|]. simpl.
  pose proof (H 0 x eq_refl) as H0. rewrite Nat.add_0_r in H0. rewrite H0. simpl.
  rewrite (IH (S i)).
  - simpl. rewrite Nat.add_0_r. do 2 f_equal. apply imap_ext. intros k y _. simpl.
    f_equal. lia.
  - intros k y Hy. replace (S i + k) with (i + S k) by lia. by apply H.
Qed.

Lemma need_needOf st :
  length (maxMatrix st) ≤ length (allocation st) →
  need st = Ret (needOf (maxMatrix st) (allocation st)).
Proof.
  intros Hlen. unfold need, needOf.
  rewrite (mapi_res_imap _
             (λ i row, imap (λ j value,
                max0 (sub value (get (default [] (allocation st !! i)) j))) row)); [done|].
  intros k row Hrow. simpl.
  destruct (lookup_lt_is_Some_2 (allocation st) k) as [arow Ha].
  { apply lookup_lt_Some in Hrow. lia. }
  by rewrite Ha.
Qed.

Lemma length_needOf maxMatrix allocation :
  length (needOf maxMatrix allocation) = length maxMatrix.
Proof. unfold needOf. by rewrite length_imap. Qed.

(** The matrices the component holds: every row has [m] numbers, and Need
    has a row for every process. *)
Definition shaped (m : nat) (st : state) : Prop :=
  Forall (vec m) (maxMatrix st) ∧ Forall (vec m) (allocation st) ∧
  length (maxMatrix st) = length (allocation st) ∧ vec m (available st).

Lemma Forall_row {P : list num → Prop} rows i row :
  Forall P rows → rows !! i = Some row → P row.
Proof.
  rewrite Forall_forall. intros H Hrow. apply H. by eapply list_elem_of_lookup_2.
Qed.

Lemma vec_lookup_Some m w j c : vec m w → w !! j = Some c → j < m ∧ ∃ x, c = Some x.
Proof.
  intros Hw Hc. assert (Hj : j < m).
  { apply lookup_lt_Some in Hc. by destruct Hw as [<- _]. }
  split; [done|]. destruct (vec_lookup m w j Hw Hj) as [x Hx]. exists x.
  unfold num in *. congruence.
Qed.

Lemma newAllocation_lookup st pid req i :
  newAllocation st pid req !! i =
  (λ row, if bool_decide (Z.of_nat i = pid)
          then imap (λ j a, add a (get req j)) row else row) <$> allocation st !! i.
Proof. unfold newAllocation. by rewrite list_lookup_imap. Qed.

(** Recomputing Need from the granted allocation gives the tentative Need
    the handler checked. *)
Lemma needOf_granted m st pid req needRow :
  shaped m st → holding m req →
  needOf (maxMatrix st) (allocation st) !! Z.to_nat pid = Some needRow →
  every_le req needRow = true →
  needOf (maxMatrix st) (newAllocation st pid req) =
  newNeed (needOf (maxMatrix st) (allocation st)) pid req.
Proof.
  intros (Hmax & Hal & Hlen & _) Hreq Hrow Hle. apply list_eq. intros i.
  unfold newNeed, needOf at 1 2. rewrite !list_lookup_imap.
  destruct (maxMatrix st !! i) as [mrow|] eqn:Hm; [|done]. simpl. f_equal.
  destruct (lookup_lt_is_Some_2 (allocation st) i) as [arow Ha].
  { apply lookup_lt_Some in Hm. lia. }
  rewrite newAllocation_lookup, Ha. simpl.
  case_bool_decide as Hpid; [|done]. subst pid. rewrite Nat2Z.id in Hrow.
  unfold needOf in Hrow. rewrite list_lookup_imap, Hm in Hrow. simpl in Hrow.
  rewrite Ha in Hrow. simpl in Hrow. injection Hrow as <-.
  pose proof (Forall_row _ _ _ Hmax Hm) as Hmrow.
  pose proof (Forall_row _ _ _ Hal Ha) as Harow.
  apply list_eq. intros j. rewrite !list_lookup_imap.
  destruct (mrow !! j) as [c|] eqn:Hc; [|done]. simpl. f_equal.
  destruct (vec_lookup_Some m mrow j c Hmrow Hc) as (Hj & M & ->).
  destruct (vec_lookup m arow j Harow Hj) as [a Haj].
  destruct (holding_lookup m req j Hreq Hj) as (x & Hx & Hpos).
  rewrite every_le_lookup in Hle. specialize (Hle j (Some x) Hx).
  unfold get in *. unfold num in *.
  rewrite list_lookup_imap, Hc in Hle. rewrite list_lookup_imap, Haj, Hx.
  simpl in *. rewrite Haj in Hle. simpl in Hle. apply Z.leb_le in Hle.
  f_equal. lia.
Qed.

(** What a grant leaves behind. *)
Lemma handleSubmitRequest_granted fuel st request st' order :
  handleSubmitRequest fuel st request = Ret (st', Granted order) →
  let pid := process request in
  let req := resources request in
  ∃ nd tentative,
    need st = Ret nd ∧
    (0 ≤ pid < Z.of_nat (length (allocation st)))%Z ∧
    (∀ needRow, nd !! Z.to_nat pid = Some needRow → every_le req needRow = true) ∧
    every_le req (available st) = true ∧
    checkSafety fuel (newAvailable st req) (newAllocation st pid req) (newNeed nd pid req)
      = Ret tentative ∧
    safe tentative = true ∧ sequence tentative = order ∧
    st' = {| maxMatrix := maxMatrix st; allocation := newAllocation st pid req;
             available := newAvailable st req |}.
Proof.
  unfold handleSubmitRequest.
  destruct (_ || _) eqn:Hpid; [done|].
  apply orb_false_elim in Hpid as [H1%Z.ltb_ge H2%Z.leb_gt].
  destruct (need st) as [nd| |]; [|done|done]. simpl.
  destruct (match nd !! Z.to_nat (process request) with
            | Some needRow => _ | None => _ end) as [withinNeed| |] eqn:Hwithin;
    [|done|done].
  simpl. destruct withinNeed; simpl; [|done].
  destruct (every_le _ (available st)) eqn:Hav; simpl; [|done].
  destruct (checkSafety _ _ _ _) as [[sf sq]| |] eqn:Hcheck; [|done|done]. simpl.
  destruct sf; simpl; [|done].
  intros [= <- <-]. exists nd, {| safe := true; sequence := sq |}.
  repeat split; try done; try lia.
  intros needRow Hrow. rewrite Hrow in Hwithin. by injection Hwithin.
Qed.

Lemma grant_recomputed_need_safe :
  ∀ fuel m st request st' order,
    shaped m st → holding m (resources request) →
    handleSubmitRequest fuel st request = Ret (st', Granted order) →
    ∃ nd', need st' = Ret nd' ∧
           checkSafety fuel (available st') (allocation st') nd' =
             Ret {| safe := true; sequence := order |}.
Proof.
  intros fuel m st request st' order Hst Hreq Hgrant.
  destruct (handleSubmitRequest_granted _ _ _ _ _ Hgrant)
    as (nd & [sf sq] & Hnd & Hpid & Hwithin & _ & Hcheck & Hsafe & Hseq & ->).
  simpl in Hsafe, Hseq. subst sf sq.
  pose proof Hst as (Hmax & Hal & Hlen & Hav).
  rewrite need_needOf in Hnd by lia. injection Hnd as <-.
  destruct (lookup_lt_is_Some_2 (needOf (maxMatrix st) (allocation st))
              (Z.to_nat (process request))) as [needRow Hrow].
  { rewrite length_needOf. lia. }
  exists (newNeed (needOf (maxMatrix st) (allocation st)) (process request)
            (resources request)).
  split; [|done]. rewrite need_needOf; simpl.
  - f_equal. by eapply needOf_granted; [done..|apply Hwithin].
  - unfold newAllocation. rewrite length_imap. lia.
Qed.

(** X12: The message of a grant tells the truth about the state it leaves, on
    whole-number amounts.  With matrices of one shape whose amounts are whole
    numbers from 0 to [MAX_SAFE_INTEGER], no resource exceeding it in all,
    and a request of whole numbers that are not negative, the Need recomputed
    from the new Allocation is the tentative Need, so the safety check of the
    new state (the one the panel shows) reports Safe, with the very sequence
    the message announces. *)
Theorem granted_request_leaves_safe_state :
  ∀ fuel m st request st' order,
    exactAmounts (available st) (allocation st) (maxMatrix st) = true →
    shaped m st → holding m (resources request) →
    handleSubmitRequest fuel st request = Ret (st', Granted order) →
    ∃ nd', need st' = Ret nd' ∧
           checkSafety fuel (available st') (allocation st') nd' =
             Ret {| safe := true; sequence := order |}.
Proof. intros fuel m st request st' order _. apply grant_recomputed_need_safe. Qed.

Lemma granted_request_leaves_safe_state_witness :
  ∃ st' order nd',
    handleSubmitRequest 7 sample sampleRequest = Ret (st', Granted order) ∧
    need st' = Ret nd' ∧
    checkSafety 7 (available st') (allocation st') nd' =
      Ret {| safe := true; sequence := order |}.
Proof.
  assert (Hrun : ∃ st' order,
            handleSubmitRequest 7 sample sampleRequest = Ret (st', Granted order))
    by (vm_compute; do 2 eexists; reflexivity).
  destruct Hrun as (st' & order & Hrun).
  destruct (granted_request_leaves_safe_state 7 3 sample sampleRequest st' order)
    as (nd' & Hnd & Hcheck); [| | |exact Hrun|].
  - reflexivity.
  - repeat split; try reflexivity; repeat constructor; by eexists.
  - split; [reflexivity|]. repeat constructor.
  - by exists st', order, nd'.
Defined.

(** *** The component as a whole *)

(** The states the component can be in: it starts on the sample data, and
    each handler moves it on.  The request inputs are rendered from
    [request.resources], so [handleRequestChange] is called with the index of
    an existing entry; the amounts typed into them are whole numbers (or not
    numbers at all). *)
Inductive reachable (fuel : nat) : state → request → Prop :=
| reach_initial : reachable fuel sample sampleRequest
| reach_request_change st req index amount :
    reachable fuel st req → index < length (resources req) →
    reachable fuel st (handleRequestChange index amount req)
| reach_process_change st req pid :
    reachable fuel st req → reachable fuel st (handleProcessChange pid req)
| reach_submit st req st' msg :
    reachable fuel st req → handleSubmitRequest fuel st req = Ret (st', msg) →
    reachable fuel st' req
| reach_reset st req :
    reachable fuel st req → reachable fuel handleReset.1 handleReset.2.

(** What the safety panel shows. *)
Definition panel (fuel : nat) (st : state) : res safety :=
  nd ← need st; checkSafety fuel (available st) (allocation st) nd.

Lemma passes_fuel_mono fuel fuel' allocation need s s' :
  passes fuel allocation need s = Ret s' → fuel ≤ fuel' →
  passes fuel' allocation need s = Ret s'.
Proof.
  revert fuel' s. induction fuel as [|fuel IH]; intros fuel' s; [done|].
  destruct fuel' as [|fuel']; [lia|]. simpl.
  destruct (progress s); [|done].
  destruct (pass _ _ _ _) as [s1| |]; [|done..]. simpl.
  intros H Hle. apply (IH fuel'); [done|lia].
Qed.

Lemma checkSafety_fuel_mono fuel fuel' available allocation need r :
  checkSafety fuel available allocation need = Ret r → fuel ≤ fuel' →
  checkSafety fuel' available allocation need = Ret r.
Proof.
  unfold checkSafety. intros H Hle.
  destruct (passes fuel _ _ _) as [s| |] eqn:E; [|done..].
  by rewrite (passes_fuel_mono _ _ _ _ _ _ E Hle).
Qed.

Lemma granted_shaped m st pid req :
  shaped m st → holding m req → every_le req (available st) = true →
  shaped m {| maxMatrix := maxMatrix st; allocation := newAllocation st pid req;
              available := newAvailable st req |}.
Proof.
  intros (Hmax & Hal & Hlen & Hav) Hreq Hle. repeat split; simpl; [done| | | |].
  - apply Forall_forall. intros row [i Hrow]%list_elem_of_lookup.
    rewrite newAllocation_lookup in Hrow.
    destruct (allocation st !! i) as [arow|] eqn:Ha; [|done]. simpl in Hrow.
    injection Hrow as <-. pose proof (Forall_row _ _ _ Hal Ha) as Harow.
    case_bool_decide; [|done]. split.
    + rewrite length_imap. apply Harow.
    + apply Forall_forall. intros c [j Hc]%list_elem_of_lookup.
      rewrite list_lookup_imap in Hc.
      destruct (arow !! j) as [a|] eqn:Haj; [|done]. simpl in Hc. injection Hc as <-.
      destruct (vec_lookup_Some m arow j a Harow Haj) as (Hj & a' & ->).
      destruct (holding_lookup m req j Hreq Hj) as (x & Hx & _).
      unfold get. unfold num in *. rewrite Hx. by eexists.
  - unfold newAllocation. by rewrite length_imap.
  - unfold newAvailable. rewrite length_imap. apply Hav.
  - apply Forall_forall. intros c [j Hc]%list_elem_of_lookup.
    unfold newAvailable in Hc. rewrite list_lookup_imap in Hc.
    destruct (available st !! j) as [a|] eqn:Haj; [|done]. simpl in Hc. injection Hc as <-.
    destruct (vec_lookup_Some m _ j a Hav Haj) as (Hj & a' & ->).
    destruct (holding_lookup m req j Hreq Hj) as (x & Hx & _).
    unfold get. unfold num in *. rewrite Hx. by eexists.
Qed.

Lemma handleRequestChange_holding m index amount req :
  index < length (resources req) → holding m (resources req) →
  holding m (resources (handleRequestChange index amount req)).
Proof.
  intros Hi [Hlen Hall]. unfold handleRequestChange.
  destruct amount as [a|]; [|done]. destruct (a <? 0)%Z eqn:Ha; [done|]. simpl.
  apply Z.ltb_ge in Ha. apply Nat.ltb_lt in Hi. rewrite Hi. split.
  - by rewrite length_insert.
  - apply Forall_insert; [done|]. simpl. by apply Z.leb_le.
Qed.

(** X13: With whole-number request amounts the component never shows an unsafe
    state.  From the sample data, after any sequence of edits to the request
    that type whole numbers, process selections, submissions and resets, the
    safety panel computes Safe, and a submission always ends with a message
    (it neither throws nor loops). *)
Theorem banker_panel_always_safe :
  ∀ fuel st req,
    6 < fuel → reachable fuel st req →
    (∃ r, panel fuel st = Ret r ∧ safe r = true) ∧
    (∃ st' msg, handleSubmitRequest fuel st req = Ret (st', msg)).
Proof.
  intros fuel st req Hfuel Hreach.
  assert (Hinit : shaped 3 sample ∧ length (allocation sample) = 5 ∧
                  holding 3 (resources sampleRequest) ∧
                  ∃ r, panel fuel sample = Ret r ∧ safe r = true).
  { split; [|split; [done|split]].
    - repeat split; try reflexivity; repeat constructor; by eexists.
    - split; [reflexivity|]. repeat constructor.
    - assert (H7 : ∃ r, panel 7 sample = Ret r ∧ safe r = true)
        by (vm_compute; eexists; split; reflexivity).
      destruct H7 as (r & Hr & Hsafe). exists r. split; [|done].
      unfold panel in *. destruct (need sample) as [nd| |]; [|done..]. simpl in *.
      eapply checkSafety_fuel_mono; [done|lia]. }
  assert (Hinv : shaped 3 st ∧ length (allocation st) = 5 ∧ holding 3 (resources req) ∧
                 ∃ r, panel fuel st = Ret r ∧ safe r = true).
  { induction Hreach as [|st req index amount Hreach IH Hindex|st req pid Hreach IH
                         |st req st' msg Hreach IH Hsubmit|st req Hreach IH];
      [done| | | |done].
    - destruct IH as (Hst & Hn & Hreq & Hpanel).
      split; [done|]. split; [done|].
      split; [by apply handleRequestChange_holding|done].
    - done.
    - destruct IH as (Hst & Hn & Hreq & Hpanel).
      destruct msg as [| | | |order];
        try (rewrite (handleSubmitRequest_denied _ _ _ _ _ Hsubmit) by done; done).
      destruct (handleSubmitRequest_granted _ _ _ _ _ Hsubmit)
        as (nd & t & _ & _ & _ & Hav & _ & _ & _ & Hst').
      destruct (grant_recomputed_need_safe fuel 3 st req st' order Hst Hreq Hsubmit)
        as (nd' & Hnd' & Hcheck). subst st'.
      split; [by apply granted_shaped|]. split.
      { simpl. unfold newAllocation. by rewrite length_imap. }
      split; [done|]. eexists. unfold panel. rewrite Hnd'. simpl in *. split; [exact Hcheck|done]. }
  destruct Hinv as (Hst & Hn & Hreq & Hpanel). split; [done|].
  pose proof Hst as (Hmax & Hal & Hlen & Hav).
  destruct (decide (0 ≤ process req < Z.of_nat (length (allocation st)))%Z) as [Hpid|Hpid].
  - destruct (lookup_lt_is_Some_2 (needOf (maxMatrix st) (allocation st))
                (Z.to_nat (process req))) as [needRow Hrow].
    { rewrite length_needOf. lia. }
    rewrite (handleSubmitRequest_valid fuel st req _ needRow
               (need_needOf st ltac:(lia)) Hrow Hpid).
    destruct (negb _); [by do 2 eexists|]. destruct (negb _); [by do 2 eexists|].
    destruct (checkSafety_returns fuel (newAvailable st (resources req))
                (newAllocation st (process req) (resources req))
                (newNeed (needOf (maxMatrix st) (allocation st)) (process req)
                   (resources req))) as [t ->].
    + unfold newNeed, newAllocation. rewrite !length_imap, length_needOf. lia.
    + unfold newAllocation. rewrite length_imap. lia.
    + simpl. destruct (negb _); by do 2 eexists.
  - unfold handleSubmitRequest.
    assert (Hbad : (process req <? 0)%Z
                   || (Z.of_nat (length (allocation st)) <=? process req)%Z = true).
    { apply orb_true_iff. rewrite Z.ltb_lt, Z.leb_le. lia. }
    rewrite Hbad. by do 2 eexists.
Qed.

Lemma banker_panel_always_safe_witness :
  ∃ st' msg r,
    handleSubmitRequest 7 sample
      (handleProcessChange 1 (handleRequestChange 0 (Some 1%Z) sampleRequest))
      = Ret (st', msg) ∧
    panel 7 st' = Ret r ∧ safe r = true.
Proof.
  assert (Hrun : ∃ st' msg,
            handleSubmitRequest 7 sample
              (handleProcessChange 1 (handleRequestChange 0 (Some 1%Z) sampleRequest))
              = Ret (st', msg))
    by (vm_compute; do 2 eexists; reflexivity).
  destruct Hrun as (st' & msg & Hrun).
  destruct (banker_panel_always_safe 7 st'
              (handleProcessChange 1 (handleRequestChange 0 (Some 1%Z) sampleRequest)))
    as [(r & Hr & Hsafe) _]; [lia| |by exists st', msg, r].
  eapply reach_submit; [|exact Hrun].
  apply reach_process_change, reach_request_change; [apply reach_initial|simpl; lia].
Defined.

End BanksAlgorithmSafety.

(** ** Memory fit: the choice of a hole, and the summary figures *)

Section FitAlgorithmChoice.
Import FitAlgorithm.
Local Open Scope Z_scope.

Lemma head_filter {A} (f : A → bool) (l : list A) x :
  head (List.filter f l) = Some x →
  ∃ k, l !! k = Some x ∧ f x = true ∧
       ∀ j z, (j < k)%nat → l !! j = Some z → f z = false.
Proof.
  induction l as [|y l IH]; simpl; [done|].
  destruct (f y) eqn:Hy; simpl.
  - intros [= ->]. exists 0%nat. repeat split; [done|]. intros j z Hj. lia.
  - intros (k & Hk & Hx & Hbefore)%IH. exists (S k). repeat split; [done..|].
    intros [|j] z Hj; simpl; [by intros [= <-]|]. apply Hbefore. lia.
Qed.

Lemma filter_nil_all {A} (f : A → bool) (l : list A) :
  List.filter f l = [] → ∀ x, x ∈ l → f x = false.
Proof.
  intros Hnil x Hx. destruct (f x) eqn:Hf; [|done].
  assert (Hin : In x (List.filter f l)).
  { apply filter_In. split; [by apply list_elem_of_In|done]. }
  rewrite Hnil in Hin. by destruct Hin.
Qed.

(** The element a stable sort puts first has the least key, and is the
    earliest of those that have it. *)
Lemma sort_head_least {A} (cmp : A → A → Z) (key : A → Z) (l : list A) x :
  (∀ a b, cmp a b ≤ 0 ↔ key a ≤ key b) →
  head (sort cmp l) = Some x →
  ∃ l1 l2, l = l1 ++ x :: l2 ∧
           (∀ y, y ∈ l1 → key x < key y) ∧ (∀ y, y ∈ l2 → key x ≤ key y).
Proof.
  intros Hcmp. revert x. induction l as [|a l IH]; intros x; [done|].
  unfold sort. simpl. fold (sort cmp l).
  destruct (sort cmp l) as [|h t] eqn:Hsort; simpl.
  - intros [= <-]. assert (l = []) as ->.
    { apply length_zero_iff_nil. rewrite <- (sort_length cmp l), Hsort. done. }
    exists [], []. repeat split; by intros y ?%elem_of_nil.
  - destruct (IH h eq_refl) as (l1 & l2 & -> & H1 & H2).
    destruct (cmp a h <=? 0) eqn:Hle; simpl; intros [= <-].
    + apply Z.leb_le, Hcmp in Hle. exists [], (l1 ++ h :: l2).
      repeat split; [by intros y ?%elem_of_nil|].
      intros y [Hy|[->|Hy]%elem_of_cons]%elem_of_app;
        [specialize (H1 y Hy)|..|specialize (H2 y Hy)]; lia.
    + apply Z.leb_gt in Hle. assert (key h < key a).
      { destruct (Z.le_gt_cases (key a) (key h)) as [Hc%Hcmp|]; lia. }
      exists (a :: l1), l2. repeat split; [|done].
      intros y [->|Hy]%elem_of_cons; [done|by apply H1].
Qed.

Lemma seq_sorted (start n : nat) : StronglySorted lt (seq start n).
Proof.
  revert start. induction n as [|n IH]; intros start; simpl; constructor; [apply IH|].
  apply Forall_forall. intros y Hy%elem_of_seq. lia.
Qed.

Lemma fitting_index (bs : list block) sz (i : nat) :
  i ∈ List.filter (λ i, default false (fits sz <$> bs !! i)) (seq 0 (length bs)) ↔
  ∃ b, bs !! i = Some b ∧ fits sz b = true.
Proof.
  rewrite list_elem_of_In, filter_In, <- list_elem_of_In, elem_of_seq. split.
  - intros [_ Hok]. destruct (bs !! i) as [b|]; [|done]. by exists b.
  - intros (b & Hb & Hfit). split; [|by rewrite Hb].
    apply lookup_lt_Some in Hb. lia.
Qed.

(** X14: A request is denied only when no hole is large enough, whatever the
    algorithm (and wherever Next Fit resumes). *)
Theorem fit_denied_only_without_hole :
  ∀ selectedAlgorithm st sz,
    findBlockIndex selectedAlgorithm st sz = None ↔
    ∀ i b, blocks st !! i = Some b → fits sz b = false.
Proof.
  intros alg st sz.
  set (ok := λ i : nat, default false (fits sz <$> blocks st !! i)).
  assert (Hall : List.filter ok (seq 0 (length (blocks st))) = [] ↔
                 ∀ i b, blocks st !! i = Some b → fits sz b = false).
  { split.
    - intros Hnil i b Hb. destruct (fits sz b) eqn:Hfit; [|done].
      assert (Hin : i ∈ List.filter ok (seq 0 (length (blocks st))))
        by (apply fitting_index; by exists b).
      rewrite Hnil in Hin. by apply elem_of_nil in Hin.
    - intros Hno. destruct (List.filter ok _) as [|i l] eqn:E; [done|].
      assert (Hin : i ∈ List.filter ok (seq 0 (length (blocks st))))
        by (rewrite E; apply elem_of_cons; by left).
      apply fitting_index in Hin as (b & Hb & Hfit). rewrite (Hno i b Hb) in Hfit. done. }
  assert (Hhead : ∀ l : list nat, head l = None ↔ l = []) by (by intros []).
  assert (Hsorted : ∀ cmp (l : list nat), sort cmp l = [] ↔ l = []).
  { intros cmp l. rewrite <- !length_zero_iff_nil, sort_length. done. }
  unfold findBlockIndex. fold ok. destruct alg.
  - by rewrite Hhead.
  - by rewrite Hhead, Hsorted.
  - by rewrite Hhead, Hsorted.
  - rewrite Hhead. split.
    + intros Hnil i b Hb. destruct (fits sz b) eqn:Hfit; [|done].
      pose proof (lookup_lt_Some _ _ _ Hb) as Hi.
      set (n := length (blocks st)) in *. set (s := (nextFitStart st mod n)%nat).
      assert (Hs : (s < n)%nat) by (apply Nat.mod_upper_bound; lia).
      set (o := if decide (s ≤ i)%nat then (i - s)%nat else (i + n - s)%nat).
      assert (Ho : (o < n)%nat) by (unfold o; case_decide; lia).
      assert (Hio : ((nextFitStart st + o) mod n = i)%nat).
      { rewrite <- Nat.Div0.add_mod_idemp_l. fold s. symmetry. unfold o. case_decide.
        - apply (Nat.mod_unique _ _ 0); lia.
        - apply (Nat.mod_unique _ _ 1); lia. }
      assert (Hok : ok ((nextFitStart st + o) mod n)%nat = false).
      { apply (filter_nil_all _ _ Hnil). apply list_elem_of_fmap. exists o.
        split; [done|]. apply elem_of_seq. lia. }
      rewrite Hio in Hok. unfold ok in Hok. rewrite Hb in Hok.
      change (fits sz b = false) in Hok. congruence.
    + intros Hno. clear Hall.
      destruct (List.filter ok (map _ _)) as [|i l] eqn:E; [done|].
      assert (Hin : In i (List.filter ok
                (map (λ offset, ((nextFitStart st + offset) mod length (blocks st))%nat)
                   (seq 0 (length (blocks st)))))) by (rewrite E; by left).
      apply filter_In in Hin as [_ Hok]. unfold ok in Hok.
      destruct (blocks st !! i) as [b|] eqn:Hb; [|done].
      change (fits sz b = true) in Hok. by rewrite (Hno i b Hb) in Hok.
Qed.

(** X15: Which hole each algorithm takes.  First Fit takes the lowest fitting
    block; Best Fit the smallest fitting block and Worst Fit the largest, the
    lowest of them when several have that size; Next Fit the first fitting
    block met going round from [nextFitStart]. *)
Theorem findBlockIndex_choice :
  ∀ selectedAlgorithm st sz index,
    findBlockIndex selectedAlgorithm st sz = Some index →
    ∃ target,
      blocks st !! index = Some target ∧ fits sz target = true ∧
      match selectedAlgorithm with
      | first =>
          ∀ i b, blocks st !! i = Some b → fits sz b = true → (index ≤ i)%nat
      | best =>
          ∀ i b, blocks st !! i = Some b → fits sz b = true →
                 size target < size b ∨ (size target = size b ∧ (index ≤ i)%nat)
      | worst =>
          ∀ i b, blocks st !! i = Some b → fits sz b = true →
                 size b < size target ∨ (size b = size target ∧ (index ≤ i)%nat)
      | next =>
          let n := length (blocks st) in
          ∃ offset, (offset < n)%nat ∧
            index = ((nextFitStart st + offset) mod n)%nat ∧
            ∀ o b, (o < offset)%nat →
                   blocks st !! ((nextFitStart st + o) mod n)%nat = Some b →
                   fits sz b = false
      end.
Proof.
  intros alg st sz index Hfind.
  destruct (findBlockIndex_fits _ _ _ _ Hfind) as (target & Htarget & Hfit).
  exists target. split; [done|]. split; [done|].
  set (ok := λ i : nat, default false (fits sz <$> blocks st !! i)).
  set (sizeAt := λ i : nat, default 0 (size <$> blocks st !! i)).
  assert (Hkeyed : ∀ cmp key,
            (∀ a b, cmp a b ≤ 0 ↔ key a ≤ key b) →
            head (sort cmp (List.filter ok (seq 0 (length (blocks st))))) = Some index →
            ∀ i b, blocks st !! i = Some b → fits sz b = true →
                   key index < key i ∨ (key index = key i ∧ (index ≤ i)%nat)).
  { intros cmp key Hcmp Hhead i b Hb Hfitb.
    destruct (sort_head_least cmp key _ index Hcmp Hhead) as (l1 & l2 & Hl & H1 & H2).
    assert (Hin : i ∈ List.filter ok (seq 0 (length (blocks st))))
      by (apply fitting_index; by exists b).
    pose proof (filter_sorted lt ok _ (seq_sorted 0 (length (blocks st)))) as Hsorted.
    rewrite Hl in Hin, Hsorted.
    apply StronglySorted_app in Hsorted as (_ & _ & Hsorted).
    apply StronglySorted_cons in Hsorted as [Hafter _]. rewrite Forall_forall in Hafter.
    apply elem_of_app in Hin as [Hin|[->|Hin]%elem_of_cons].
    - left. by apply H1.
    - right. done.
    - specialize (H2 i Hin). specialize (Hafter i Hin). lia. }
  unfold findBlockIndex in Hfind. fold ok sizeAt in Hfind. destruct alg.
  - intros i b Hb Hfitb. apply head_filter in Hfind as (k & Hk & _ & Hbefore).
    apply lookup_seq in Hk as [Hk _]. simpl in Hk. subst k.
    destruct (decide (index ≤ i)%nat) as [|Hlt]; [done|].
    pose proof (lookup_lt_Some _ _ _ Hb) as Hi.
    specialize (Hbefore i i ltac:(lia)). rewrite lookup_seq_lt in Hbefore by lia.
    specialize (Hbefore eq_refl). unfold ok in Hbefore. rewrite Hb in Hbefore.
    change (fits sz b = false) in Hbefore. congruence.
  - intros i b Hb Hfitb.
    destruct (Hkeyed (λ a b, sizeAt a - sizeAt b) sizeAt ltac:(intros; lia) Hfind i b Hb Hfitb)
      as [H|H];
      unfold sizeAt in H; rewrite Htarget, Hb in H; simpl in H; [by left|by right].
  - intros i b Hb Hfitb.
    destruct (Hkeyed (λ a b, sizeAt b - sizeAt a) (λ i, - sizeAt i) ltac:(intros; lia) Hfind
                i b Hb Hfitb) as [H|H];
      unfold sizeAt in H; rewrite Htarget, Hb in H; simpl in H; [left|right]; lia.
  - simpl. apply head_filter in Hfind as (k & Hk & _ & Hbefore).
    rewrite list_lookup_fmap in Hk.
    destruct (seq 0 (length (blocks st)) !! k) as [k'|] eqn:Hk'; [|done].
    apply lookup_seq in Hk' as [-> Hlt]. simpl in Hk. injection Hk as <-.
    exists k. split; [done|]. split; [done|].
    intros o b Ho Hb. specialize (Hbefore o ((nextFitStart st + o) mod length (blocks st))%nat Ho).
    rewrite list_lookup_fmap, lookup_seq_lt in Hbefore by lia. specialize (Hbefore eq_refl).
    unfold ok in Hbefore. by rewrite Hb in Hbefore.
Qed.

Lemma findBlockIndex_choice_witness :
  let st := run [Allocate first 30 10; Allocate first 50 20; Allocate first 40 30;
                 FreeProcess (Some 10); FreeProcess (Some 30)] in
  findBlockIndex best st 25 = Some 0%nat ∧
  ∃ target, blocks st !! 0%nat = Some target ∧ fits 25 target = true.
Proof.
  intros st.
  assert (Hfind : findBlockIndex best st 25 = Some 0%nat) by (vm_compute; reflexivity).
  destruct (findBlockIndex_choice best st 25 0%nat Hfind) as (target & Ht & Hfit & _).
  split; [exact Hfind|]. by exists target.
Defined.

(** *** The summary figures *)

(** No block is empty, and an allocated block is exactly as large as the
    request it serves. *)
Definition sized (b : block) : Prop :=
  0 < size b ∧ (free b = false → requested b = size b).

Lemma absorb_sized merged current :
  Forall sized merged → sized current → Forall sized (absorb merged current).
Proof.
  intros Hm Hc. unfold absorb. destruct (last merged) as [prev|] eqn:E.
  - apply last_Some in E as [l' ->]. apply Forall_app in Hm as [Hl' Hprev].
    apply Forall_singleton in Hprev as [Hpos Hreq].
    destruct (free current && free prev) eqn:Hfree.
    + rewrite removelast_last. apply Forall_app. split; [done|].
      apply Forall_singleton. split; simpl; [destruct Hc; lia|].
      apply andb_prop in Hfree as [_ ->]. done.
    + apply Forall_app. split; [|by apply Forall_singleton].
      apply Forall_app. split; [done|]. by apply Forall_singleton.
  - apply Forall_app. split; [done|]. by apply Forall_singleton.
Qed.

Lemma coalesce_sized segments : Forall sized segments → Forall sized (coalesce segments).
Proof.
  intros Hs. unfold coalesce.
  assert (G : ∀ merged, Forall sized merged → Forall sized segments →
                        Forall sized (fold_left absorb segments merged)).
  { clear Hs. induction segments as [|c segments IH]; intros merged Hm Hs; [done|].
    apply Forall_cons in Hs as [Hc Hs]. simpl. apply IH; [|done]. by apply absorb_sized. }
  specialize (G [] (Forall_nil_2 _) Hs). revert G.
  generalize (fold_left absorb segments []). intros bs Hbs.
  apply Forall_forall. intros b [i Hb]%list_elem_of_lookup.
  rewrite list_lookup_imap in Hb. destruct (bs !! i) as [b'|] eqn:Hb'; [|done].
  simpl in Hb. injection Hb as <-. rewrite Forall_forall in Hbs.
  apply (Hbs b'). by eapply list_elem_of_lookup_2.
Qed.

Lemma allocate_sized selectedAlgorithm requestSize now st :
  Forall sized (blocks st) →
  Forall sized (blocks (allocate selectedAlgorithm requestSize now st)).
Proof.
  intros Hs. unfold allocate. destruct (Z.leb_spec requestSize 0) as [|Hpos]; [done|].
  destruct (findBlockIndex selectedAlgorithm st requestSize) as [index|]; [|done].
  destruct (blocks st !! index) as [target|] eqn:Ht; [|done]. simpl.
  apply coalesce_sized. unfold split. apply Forall_app. split; [by apply Forall_take|].
  apply Forall_cons. split; [done|]. apply Forall_app. split; [|by apply Forall_drop].
  destruct (Z.ltb_spec 0 (size target - requestSize)); simpl; [|done].
  apply Forall_singleton. done.
Qed.

Lemma freeProcess_sized freeTarget st :
  Forall sized (blocks st) → Forall sized (blocks (freeProcess freeTarget st)).
Proof.
  intros Hs. unfold freeProcess. destruct freeTarget as [target|]; [|done]. simpl.
  apply coalesce_sized. induction Hs as [|b bs [Hpos Hreq] Hbs IH]; simpl; constructor;
    [|done].
  by destruct (id b =? target).
Qed.

Lemma run_sized ops :
  Forall sized (blocks (run ops)) ∧ totalMemory (blocks (run ops)) = 200.
Proof.
  unfold run.
  assert (G : ∀ st, Forall sized (blocks st) → totalMemory (blocks st) = 200 →
                    Forall sized (blocks (fold_left perform ops st)) ∧
                    totalMemory (blocks (fold_left perform ops st)) = 200).
  { induction ops as [|op ops IH]; intros st Hs Htot; [done|].
    simpl. apply IH.
    - destruct op; simpl.
      + by apply allocate_sized.
      + by apply freeProcess_sized.
      + by apply coalesce_sized.
      + by apply Forall_singleton.
    - destruct op; simpl;
        rewrite ?allocate_total, ?freeProcess_total, ?coalesce_total; done. }
  apply G; [by apply Forall_singleton|done].
Qed.

Lemma internalFragmentation_zero bs :
  Forall sized bs → internalFragmentation bs = 0.
Proof.
  intros Hs. unfold internalFragmentation, allocatedBlocks.
  induction Hs as [|b bs [Hpos Hreq] Hbs IH]; [done|]. simpl.
  destruct (free b) eqn:Hfree; simpl; [done|].
  rewrite Hreq by done. by replace (0 + (size b - size b) `max` 0) with 0 by lia.
Qed.

Lemma totalMemory_free_allocated bs :
  totalMemory bs = totalFree bs + totalMemory (allocatedBlocks bs).
Proof.
  unfold totalFree, freeBlocks, allocatedBlocks.
  change (fold_left (λ sum b, sum + size b) (List.filter free bs) 0)
    with (totalMemory (List.filter free bs)).
  induction bs as [|b bs IH]; [done|]. simpl.
  destruct (free b); simpl; rewrite !totalMemory_cons, IH; lia.
Qed.

Lemma largest_bound x (bs : list block) :
  0 < x → Forall (λ b, 0 < size b) bs →
  0 < fold_left Z.max (map size bs) x ≤ x + totalMemory bs ∧
  (bs ≠ [] → fold_left Z.max (map size bs) x < x + totalMemory bs).
Proof.
  intros Hx Hbs. revert x Hx. induction Hbs as [|b bs Hb Hbs IH]; intros x Hx; simpl.
  { unfold totalMemory. simpl. split; [lia|done]. }
  destruct (IH (x `max` size b) ltac:(lia)) as [Hle _].
  rewrite totalMemory_cons. split; [lia|]. intros _. lia.
Qed.

(** On whole numbers, after any sequence of operations: Internal
    Fragmentation is always 0; free and allocated memory add up to the 200
    units; the largest hole is at most the free memory, so External
    Fragmentation is never negative, and it is 0 exactly when there is at
    most one hole. *)
Lemma summary_figures :
  ∀ ops : list operation,
    let bs := blocks (run ops) in
    internalFragmentation bs = 0 ∧
    totalFree bs + totalMemory (allocatedBlocks bs) = 200 ∧
    0 ≤ largestHole bs ≤ totalFree bs ∧
    (externalFragmentation bs = 0 ↔ (length (freeBlocks bs) ≤ 1)%nat).
Proof.
  intros ops bs. destruct (run_sized ops) as [Hs Htot]. fold bs in Hs, Htot.
  split; [by apply internalFragmentation_zero|].
  split; [by rewrite <- totalMemory_free_allocated|].
  assert (Hfree : Forall (λ b, 0 < size b) (freeBlocks bs)).
  { apply Forall_forall. intros b Hb%list_elem_of_In.
    apply filter_In in Hb as [Hb%list_elem_of_In _]. rewrite Forall_forall in Hs.
    by destruct (Hs b Hb). }
  unfold externalFragmentation, largestHole, totalFree.
  change (fold_left (λ sum b, sum + size b) (freeBlocks bs) 0)
    with (totalMemory (freeBlocks bs)).
  destruct (freeBlocks bs) as [|b rest]; simpl.
  { unfold totalMemory. simpl. split; [lia|]. split; [lia|done]. }
  apply Forall_cons in Hfree as [Hb Hrest].
  destruct (largest_bound (size b) rest Hb Hrest) as [Hle Hlt].
  rewrite totalMemory_cons. split; [lia|]. split.
  - intros Hzero. destruct rest as [|b' rest]; [simpl; lia|].
    specialize (Hlt ltac:(done)). lia.
  - intros Hlen. destruct rest as [|b' rest]; [|simpl in Hlen; lia].
    unfold totalMemory. simpl. lia.
Qed.

End FitAlgorithmChoice.

(** ** Memory fit on binary64 numbers: whole-number requests *)

Section FitAlgorithmDoubleFacts.
Import PrimFloat.
Import FitAlgorithm.
#[local] Set Warnings "-inexact-float".

(** The binary64 number [Number] reads off a whole-number token (exactly, for
    the sizes met here). *)
Fixpoint double_pos (p : BinNums.positive) : PrimFloat.float :=
  match p with
  | xH => 1%float
  | xO p => PrimFloat.mul 2 (double_pos p)
  | xI p => PrimFloat.add (PrimFloat.mul 2 (double_pos p)) 1
  end.

Definition double (z : Z) : PrimFloat.float :=
  match z with
  | Z0 => 0%float
  | Zpos p => double_pos p
  | Zneg p => PrimFloat.opp (double_pos p)
  end.

(** A state of the engine and an operation on it, with the sizes as binary64
    numbers. *)
Definition onDoubles_block (b : block) : FitAlgorithmDouble.block :=
  {| FitAlgorithmDouble.id := id b; FitAlgorithmDouble.label := label b;
     FitAlgorithmDouble.size := double (size b); FitAlgorithmDouble.free := free b;
     FitAlgorithmDouble.requested := double (requested b) |}.

Definition onDoubles_state (st : state) : FitAlgorithmDouble.state :=
  {| FitAlgorithmDouble.blocks := map onDoubles_block (blocks st);
     FitAlgorithmDouble.nextFitStart := nextFitStart st;
     FitAlgorithmDouble.pidCounter := pidCounter st |}.

Definition onDoubles_algorithm (a : algorithm) : FitAlgorithmDouble.algorithm :=
  match a with
  | first => FitAlgorithmDouble.first
  | best => FitAlgorithmDouble.best
  | worst => FitAlgorithmDouble.worst
  | next => FitAlgorithmDouble.next
  end.

Definition onDoubles (op : operation) : FitAlgorithmDouble.operation :=
  match op with
  | Allocate alg sz now =>
      FitAlgorithmDouble.Allocate (onDoubles_algorithm alg) (double sz) now
  | FreeProcess target => FitAlgorithmDouble.FreeProcess target
  | Coalesce => FitAlgorithmDouble.Coalesce
  | Reset => FitAlgorithmDouble.Reset
  end.

(** *** The arithmetic of the engine is exact on its sizes *)

(** The whole numbers from [lo], [n] of them. *)
Definition wholes (lo : Z) (n : nat) : list Z := map (λ k, (lo + Z.of_nat k)%Z) (seq 0 n).

Lemma elem_of_wholes lo n z : (lo ≤ z < lo + Z.of_nat n)%Z → z ∈ wholes lo n.
Proof.
  intros Hz. unfold wholes. apply list_elem_of_fmap. exists (Z.to_nat (z - lo)).
  split; [lia|]. apply elem_of_seq. lia.
Qed.

(** Two functions that agree on a list of arguments, checked by evaluation. *)
Lemma agree_on {A B C} (f g : A → B → C) (la : list A) (lb : list B) a b :
  map (λ a, map (f a) lb) la = map (λ a, map (g a) lb) la →
  a ∈ la → b ∈ lb → f a b = g a b.
Proof.
  intros Heq Ha Hb.
  apply list_elem_of_lookup in Ha as [i Hi]. apply list_elem_of_lookup in Hb as [j Hj].
  apply (f_equal (λ l, l !! i)) in Heq. rewrite !list_lookup_fmap, Hi in Heq. simpl in Heq.
  injection Heq as Heq.
  apply (f_equal (λ l, l !! j)) in Heq. rewrite !list_lookup_fmap, Hj in Heq. simpl in Heq.
  by injection Heq.
Qed.

(** A size of the 200-unit memory. *)
Definition unit_size (z : Z) : Prop := (0 ≤ z ≤ 200)%Z.
(** A request size the statements below cover. *)
Definition request_size (z : Z) : Prop := (-1000 ≤ z ≤ 1000)%Z.

Definition unit_sizes : list Z := wholes 0 201.
Definition request_sizes : list Z := wholes (-1000) 2001.

Lemma unit_size_listed a : unit_size a → a ∈ unit_sizes.
Proof. intros Ha. apply elem_of_wholes. unfold unit_size in Ha. lia. Qed.

Lemma request_size_listed r : request_size r → r ∈ request_sizes.
Proof. intros Hr. apply elem_of_wholes. unfold request_size in Hr. lia. Qed.

Lemma double_add_table :
  map (λ a, map (λ b, if (a + b <=? 200)%Z then PrimFloat.add (double a) (double b)
                      else 0%float) unit_sizes) unit_sizes =
  map (λ a, map (λ b, if (a + b <=? 200)%Z then double (a + b) else 0%float) unit_sizes)
      unit_sizes.
Proof. vm_compute. reflexivity. Qed.

Lemma double_add a b :
  unit_size a → unit_size b → (a + b ≤ 200)%Z →
  PrimFloat.add (double a) (double b) = double (a + b).
Proof.
  intros Ha Hb Hab.
  pose proof (agree_on _ _ _ _ a b double_add_table
                (unit_size_listed a Ha) (unit_size_listed b Hb)) as H.
  cbv beta in H. by destruct (Z.leb_spec (a + b) 200); [|lia].
Qed.

Lemma double_sub_table :
  map (λ a, map (λ b, if (b <=? a)%Z then PrimFloat.sub (double a) (double b)
                      else 0%float) unit_sizes) unit_sizes =
  map (λ a, map (λ b, if (b <=? a)%Z then double (a - b) else 0%float) unit_sizes)
      unit_sizes.
Proof. vm_compute. reflexivity. Qed.

Lemma double_sub a b :
  unit_size a → unit_size b → (b ≤ a)%Z →
  PrimFloat.sub (double a) (double b) = double (a - b).
Proof.
  intros Ha Hb Hab.
  pose proof (agree_on _ _ _ _ a b double_sub_table
                (unit_size_listed a Ha) (unit_size_listed b Hb)) as H.
  cbv beta in H. by destruct (Z.leb_spec b a); [|lia].
Qed.

Lemma double_leb_table :
  map (λ r, map (λ a, PrimFloat.leb (double r) (double a)) unit_sizes) request_sizes =
  map (λ r, map (λ a, (r <=? a)%Z) unit_sizes) request_sizes.
Proof. vm_compute. reflexivity. Qed.

Lemma double_leb r a :
  request_size r → unit_size a →
  PrimFloat.leb (double r) (double a) = (r <=? a)%Z.
Proof.
  intros Hr Ha.
  exact (agree_on _ _ _ _ r a double_leb_table
           (request_size_listed r Hr) (unit_size_listed a Ha)).
Qed.

Lemma double_sign_table :
  map (λ a, map (λ b, (FitAlgorithmDouble.sign (PrimFloat.sub (double a) (double b)) <=? 0)%Z)
                unit_sizes) unit_sizes =
  map (λ a, map (λ b, (a - b <=? 0)%Z) unit_sizes) unit_sizes.
Proof. vm_compute. reflexivity. Qed.

Lemma double_sign a b :
  unit_size a → unit_size b →
  (FitAlgorithmDouble.sign (PrimFloat.sub (double a) (double b)) <=? 0)%Z = (a - b <=? 0)%Z.
Proof.
  intros Ha Hb.
  exact (agree_on _ _ _ _ a b double_sign_table
           (unit_size_listed a Ha) (unit_size_listed b Hb)).
Qed.

Lemma double_request_table :
  map (λ r, map (λ _ : unit, negb (PrimFloat.is_finite (double r)) ||
                             PrimFloat.leb (double r) 0) [()]) request_sizes =
  map (λ r, map (λ _ : unit, (r <=? 0)%Z) [()]) request_sizes.
Proof. vm_compute. reflexivity. Qed.

Lemma double_request r :
  request_size r →
  negb (PrimFloat.is_finite (double r)) || PrimFloat.leb (double r) 0 = (r <=? 0)%Z.
Proof.
  intros Hr.
  exact (agree_on _ _ _ _ r () double_request_table (request_size_listed r Hr)
           ltac:(by apply list_elem_of_singleton)).
Qed.

Lemma double_positive_table :
  map (λ a, map (λ _ : unit, PrimFloat.ltb 0 (double a)) [()]) unit_sizes =
  map (λ a, map (λ _ : unit, (0 <? a)%Z) [()]) unit_sizes.
Proof. vm_compute. reflexivity. Qed.

Lemma double_positive a :
  unit_size a → PrimFloat.ltb 0 (double a) = (0 <? a)%Z.
Proof.
  intros Ha.
  exact (agree_on _ _ _ _ a () double_positive_table (unit_size_listed a Ha)
           ltac:(by apply list_elem_of_singleton)).
Qed.

(** *** The engine on binary64 numbers follows the engine on whole numbers *)

Local Abbreviation E := onDoubles_block.

(** Blocks of sizes that are not negative and add up to at most the memory. *)
Definition within_memory (bs : list block) : Prop :=
  Forall (λ b, 0 ≤ size b)%Z bs ∧ (totalMemory bs ≤ 200)%Z.

Lemma totalMemory_nonneg bs : Forall (λ b, 0 ≤ size b)%Z bs → (0 ≤ totalMemory bs)%Z.
Proof.
  induction 1 as [|b bs Hb Hbs IH]; [done|]. rewrite totalMemory_cons. lia.
Qed.

Lemma size_le_totalMemory bs b :
  Forall (λ b, 0 ≤ size b)%Z bs → b ∈ bs → (0 ≤ size b ≤ totalMemory bs)%Z.
Proof.
  intros Hbs Hb. induction Hbs as [|b' bs Hb' Hbs IH]; [by apply elem_of_nil in Hb|].
  rewrite totalMemory_cons. pose proof (totalMemory_nonneg bs Hbs).
  apply elem_of_cons in Hb as [->|Hb]; [lia|]. specialize (IH Hb). lia.
Qed.

Lemma within_memory_unit bs b : within_memory bs → b ∈ bs → unit_size (size b).
Proof.
  intros [Hbs Htot] Hb. pose proof (size_le_totalMemory bs b Hbs Hb). unfold unit_size. lia.
Qed.

Lemma onDoubles_totalMemory bs :
  within_memory bs →
  FitAlgorithmDouble.totalMemory (map E bs) = double (totalMemory bs).
Proof.
  intros [Hbs Htot]. unfold FitAlgorithmDouble.totalMemory, totalMemory.
  change 0%float with (double 0).
  assert (G : ∀ z, (0 ≤ z)%Z → (z + totalMemory bs ≤ 200)%Z →
            fold_left (λ sum b, PrimFloat.add sum (FitAlgorithmDouble.size b)) (map E bs)
                      (double z) =
            double (fold_left (λ sum b, (sum + size b)%Z) bs z)).
  { clear Htot. induction Hbs as [|b bs Hb Hbs IH]; intros z Hz Hsum; [done|].
    rewrite totalMemory_cons in Hsum. pose proof (totalMemory_nonneg bs Hbs).
    simpl. rewrite double_add by (unfold unit_size; lia). apply IH; lia. }
  apply G; lia.
Qed.

Lemma absorb_sizes_nonneg merged current :
  Forall (λ b, 0 ≤ size b)%Z merged → (0 ≤ size current)%Z →
  Forall (λ b, 0 ≤ size b)%Z (absorb merged current).
Proof.
  intros Hm Hc. unfold absorb. destruct (last merged) as [prev|] eqn:El.
  - destruct (free current && free prev).
    + apply last_Some in El as [l' ->]. rewrite removelast_last.
      apply Forall_app in Hm as [Hl' Hprev]. rewrite Forall_singleton in Hprev.
      apply Forall_app. split; [done|]. apply Forall_singleton. simpl. lia.
    + apply Forall_app. split; [done|]. by apply Forall_singleton.
  - apply Forall_app. split; [done|]. by apply Forall_singleton.
Qed.

Lemma onDoubles_absorb merged current :
  Forall (λ b, 0 ≤ size b)%Z merged → (0 ≤ size current)%Z →
  (totalMemory merged + size current ≤ 200)%Z →
  FitAlgorithmDouble.absorb (map E merged) (E current) = map E (absorb merged current).
Proof.
  intros Hm Hc Hsum. unfold FitAlgorithmDouble.absorb, absorb.
  rewrite fmap_last. destruct (last merged) as [prev|] eqn:El; simpl.
  - destruct (free current && free prev) eqn:Hboth.
    + apply last_Some in El as [l' ->].
      rewrite fmap_app. simpl. rewrite !removelast_last, fmap_app. simpl.
      do 2 f_equal. unfold onDoubles_block. simpl. f_equal.
      assert (prev ∈ l' ++ [prev]) as Hin by (apply elem_of_app; right; by left).
      pose proof (size_le_totalMemory _ _ Hm Hin).
      apply double_add; unfold unit_size; lia.
    + by rewrite fmap_app.
  - by rewrite fmap_app.
Qed.

Lemma onDoubles_coalesce segments :
  within_memory segments →
  FitAlgorithmDouble.coalesce (map E segments) = map E (coalesce segments).
Proof.
  intros [Hs Htot]. unfold FitAlgorithmDouble.coalesce, coalesce.
  assert (G : ∀ merged, Forall (λ b, 0 ≤ size b)%Z merged →
            (totalMemory merged + totalMemory segments ≤ 200)%Z →
            fold_left FitAlgorithmDouble.absorb (map E segments) (map E merged) =
            map E (fold_left absorb segments merged)).
  { clear Htot. induction Hs as [|c segments Hc Hs IH]; intros merged Hm Hsum; [done|].
    rewrite totalMemory_cons in Hsum. pose proof (totalMemory_nonneg segments Hs).
    simpl. rewrite onDoubles_absorb by (done || lia). apply IH.
    - by apply absorb_sizes_nonneg.
    - rewrite absorb_total. lia. }
  change (@nil FitAlgorithmDouble.block) with (map E []).
  rewrite (G []); [|done|unfold totalMemory at 1; simpl; lia].
  apply list_eq. intros i. rewrite list_lookup_imap, !list_lookup_fmap, list_lookup_imap.
  by destruct (fold_left absorb segments [] !! i).
Qed.

Lemma sort_ext {A} (cmp cmp' : A → A → Z) (l : list A) :
  (∀ a b, (cmp a b <=? 0)%Z = (cmp' a b <=? 0)%Z) → sort cmp l = sort cmp' l.
Proof.
  intros Hcmp. unfold sort. induction l as [|x l IH]; [done|]. simpl. rewrite IH.
  generalize (foldr (sort_insert cmp') [] l). intros sorted.
  induction sorted as [|y sorted IHs]; [done|]. simpl. by rewrite Hcmp, IHs.
Qed.

Lemma onDoubles_findBlockIndex alg st sz :
  request_size sz → within_memory (blocks st) →
  FitAlgorithmDouble.findBlockIndex (onDoubles_algorithm alg) (onDoubles_state st)
    (double sz) = findBlockIndex alg st sz.
Proof.
  intros Hsz Hbs. unfold FitAlgorithmDouble.findBlockIndex, findBlockIndex. simpl.
  rewrite length_map.
  assert (Hok : ∀ i, default false (FitAlgorithmDouble.fits (double sz) <$>
                                     map E (blocks st) !! i) =
                     default false (fits sz <$> blocks st !! i)).
  { intros i. rewrite list_lookup_fmap. destruct (blocks st !! i) as [b|] eqn:Hb; [|done].
    simpl. unfold FitAlgorithmDouble.fits, fits. simpl. f_equal.
    apply double_leb; [done|]. eapply within_memory_unit; [done|].
    by eapply list_elem_of_lookup_2. }
  assert (Hsize : ∀ i, default 0%float (FitAlgorithmDouble.size <$> map E (blocks st) !! i) =
                       double (default 0%Z (size <$> blocks st !! i)) ∧
                       unit_size (default 0%Z (size <$> blocks st !! i))).
  { intros i. rewrite list_lookup_fmap. destruct (blocks st !! i) as [b|] eqn:Hb; simpl.
    - split; [done|]. eapply within_memory_unit; [done|]. by eapply list_elem_of_lookup_2.
    - split; [done|]. unfold unit_size. lia. }
  destruct alg; simpl.
  - f_equal. by apply List.filter_ext.
  - f_equal. rewrite (List.filter_ext _ _ Hok). apply sort_ext. intros a b.
    destruct (Hsize a) as [-> Ha], (Hsize b) as [-> Hb]. by apply double_sign.
  - f_equal. rewrite (List.filter_ext _ _ Hok). apply sort_ext. intros a b.
    destruct (Hsize a) as [-> Ha], (Hsize b) as [-> Hb]. by apply double_sign.
  - f_equal. by apply List.filter_ext.
Qed.

Lemma onDoubles_split bs index newBlock remainder :
  FitAlgorithmDouble.split (map E bs) index (E newBlock) (E <$> remainder) =
  map E (split bs index newBlock remainder).
Proof.
  unfold FitAlgorithmDouble.split, split.
  rewrite !fmap_app, fmap_take, fmap_drop. by destruct remainder.
Qed.

Lemma onDoubles_first_free (bs : list block) :
  fst <$> list_find (λ b, FitAlgorithmDouble.free b = true) (map E bs) =
  fst <$> list_find (λ b, free b = true) bs.
Proof.
  induction bs as [|b bs IH]; [done|]. simpl.
  destruct (decide (free b = true)) as [Hb|Hb];
    destruct (decide (FitAlgorithmDouble.free (E b) = true)) as [Hb'|Hb']; try done.
  rewrite <- !option_fmap_compose. simpl.
  destruct (list_find _ (map E bs)) as [[i x]|], (list_find _ bs) as [[j y]|];
    simpl in *; congruence.
Qed.

Lemma split_nonneg bs index newBlock remainder :
  Forall (λ b, 0 ≤ size b)%Z bs → (0 ≤ size newBlock)%Z →
  (∀ r, remainder = Some r → 0 ≤ size r)%Z →
  Forall (λ b, 0 ≤ size b)%Z (split bs index newBlock remainder).
Proof.
  intros Hbs Hn Hr. unfold split. apply Forall_app. split; [by apply Forall_take|].
  apply Forall_cons. split; [done|]. apply Forall_app. split; [|by apply Forall_drop].
  destruct remainder as [r|]; simpl; [|done]. apply Forall_singleton. by apply Hr.
Qed.

Lemma onDoubles_allocate alg sz now st :
  request_size sz → within_memory (blocks st) →
  FitAlgorithmDouble.allocate (onDoubles_algorithm alg) (double sz) now (onDoubles_state st) =
  onDoubles_state (allocate alg sz now st).
Proof.
  intros Hsz Hbs. pose proof Hbs as [Hnonneg Htot].
  unfold FitAlgorithmDouble.allocate, allocate.
  rewrite double_request by done. destruct (Z.leb_spec sz 0) as [|Hpos]; [done|].
  rewrite onDoubles_findBlockIndex by done.
  destruct (findBlockIndex alg st sz) as [index|] eqn:Hfind; [|done].
  destruct (findBlockIndex_fits _ _ _ _ Hfind) as (target & Ht & Hfits).
  simpl. rewrite list_lookup_fmap, Ht. simpl.
  unfold fits in Hfits. apply andb_prop in Hfits as [_ Hle%Z.leb_le].
  assert (Htarget : unit_size (size target)).
  { eapply within_memory_unit; [done|]. by eapply list_elem_of_lookup_2. }
  assert (Hunit : unit_size sz) by (unfold unit_size in *; lia).
  rewrite double_sub by done.
  rewrite double_positive by (unfold unit_size in *; lia).
  set (newBlock := {| id := now; label := "P" +:+ pretty (pidCounter st); size := sz;
                      free := false; requested := sz |}).
  set (remainder := if (0 <? size target - sz)%Z
                    then Some {| id := now + 1; label := "Free";
                                 size := size target - sz; free := true; requested := 0 |}
                    else None).
  assert (Hsplit : FitAlgorithmDouble.coalesce
            (FitAlgorithmDouble.split (map E (blocks st)) index (E newBlock)
               (E <$> remainder)) =
          map E (coalesce (split (blocks st) index newBlock remainder))).
  { rewrite onDoubles_split. apply onDoubles_coalesce. split.
    - apply split_nonneg; [done|simpl; lia|].
      unfold remainder. intros r. destruct (Z.ltb_spec 0 (size target - sz)); [|done].
      intros [= <-]. simpl. lia.
    - rewrite (split_total _ _ target); [done|done|]. unfold remainder. simpl.
      destruct (Z.ltb_spec 0 (size target - sz)); simpl; lia. }
  assert (Hrem : (if (0 <? size target - sz)%Z
                  then Some {| FitAlgorithmDouble.id := now + 1;
                               FitAlgorithmDouble.label := "Free";
                               FitAlgorithmDouble.size := double (size target - sz);
                               FitAlgorithmDouble.free := true;
                               FitAlgorithmDouble.requested := 0%float |}
                  else None) = E <$> remainder).
  { unfold remainder. by destruct (0 <? size target - sz)%Z. }
  rewrite Hrem. change {| FitAlgorithmDouble.id := now;
                          FitAlgorithmDouble.label := "P" +:+ pretty (pidCounter st);
                          FitAlgorithmDouble.size := double sz;
                          FitAlgorithmDouble.free := false;
                          FitAlgorithmDouble.requested := double sz |} with (E newBlock).
  rewrite Hsplit. unfold onDoubles_state. simpl. f_equal.
  destruct alg; simpl; try done. by rewrite onDoubles_first_free.
Qed.

Lemma onDoubles_freeProcess freeTarget st :
  within_memory (blocks st) →
  FitAlgorithmDouble.freeProcess freeTarget (onDoubles_state st) =
  onDoubles_state (freeProcess freeTarget st).
Proof.
  intros [Hnonneg Htot]. unfold FitAlgorithmDouble.freeProcess, freeProcess.
  destruct freeTarget as [target|]; [|done]. unfold onDoubles_state. simpl. f_equal.
  set (released := λ b, if (id b =? target)%Z
                        then {| id := id b; label := "Free"; size := size b; free := true;
                                requested := 0 |}
                        else b).
  rewrite <- (onDoubles_coalesce (map released (blocks st))).
  - f_equal. rewrite <- !list_fmap_compose. apply list_fmap_ext. intros i b _. simpl.
    unfold released. by destruct (id b =? target)%Z.
  - assert (Hsize : ∀ b, size (released b) = size b).
    { intros b. unfold released. by destruct (id b =? target)%Z. }
    split.
    + apply Forall_fmap. eapply Forall_impl; [exact Hnonneg|]. intros b Hb. simpl.
      by rewrite Hsize.
    + assert (totalMemory (map released (blocks st)) = totalMemory (blocks st)) as ->; [|done].
      clear Hnonneg Htot. induction (blocks st) as [|b bs IH]; [done|].
      simpl. by rewrite !totalMemory_cons, IH, Hsize.
Qed.

(** An operation whose request size, if it has one, is a whole number the
    tables above cover. *)
Definition whole_request (op : operation) : Prop :=
  match op with
  | Allocate _ sz _ => request_size sz
  | _ => True
  end.

Lemma onDoubles_perform st op :
  whole_request op → within_memory (blocks st) →
  FitAlgorithmDouble.perform (onDoubles_state st) (onDoubles op) =
  onDoubles_state (perform st op).
Proof.
  intros Hop Hbs. destruct op as [alg sz now|target| |]; simpl.
  - by apply onDoubles_allocate.
  - by apply onDoubles_freeProcess.
  - unfold onDoubles_state. simpl. f_equal. by apply onDoubles_coalesce.
  - reflexivity.
Qed.

(** On whole-number requests the engine on binary64 numbers goes through the
    same states as the engine on whole numbers. *)
Lemma onDoubles_run ops :
  Forall whole_request ops →
  FitAlgorithmDouble.run (map onDoubles ops) = onDoubles_state (run ops).
Proof.
  induction ops as [|op ops IH] using rev_ind; intros Hops; [reflexivity|].
  apply Forall_app in Hops as [Hops Hop]. rewrite Forall_singleton in Hop.
  unfold FitAlgorithmDouble.run, run in *. rewrite map_app, !fold_left_app. simpl.
  rewrite (IH Hops). apply onDoubles_perform; [done|].
  destruct (run_sized ops) as [Hsized Htot]. unfold run in *. split; [|lia].
  eapply Forall_impl; [exact Hsized|]. intros b [Hb _]. lia.
Qed.




(** *** The summary figures *)

Lemma double_max_table :
  map (λ a, map (λ b, FitAlgorithmDouble.max (double a) (double b)) unit_sizes) unit_sizes =
  map (λ a, map (λ b, double (Z.max a b)) unit_sizes) unit_sizes.
Proof. vm_compute. reflexivity. Qed.

Lemma double_max a b :
  unit_size a → unit_size b →
  FitAlgorithmDouble.max (double a) (double b) = double (Z.max a b).
Proof.
  intros Ha Hb.
  exact (agree_on _ _ _ _ a b double_max_table
           (unit_size_listed a Ha) (unit_size_listed b Hb)).
Qed.

Lemma double_first_table :
  map (λ a, map (λ _ : unit, (FitAlgorithmDouble.max PrimFloat.neg_infinity (double a),
                              FitAlgorithmDouble.orZero (double a))) [()]) unit_sizes =
  map (λ a, map (λ _ : unit, (double a, double a)) [()]) unit_sizes.
Proof. vm_compute. reflexivity. Qed.

Lemma double_first a :
  unit_size a →
  FitAlgorithmDouble.max PrimFloat.neg_infinity (double a) = double a ∧
  FitAlgorithmDouble.orZero (double a) = double a.
Proof.
  intros Ha.
  pose proof (agree_on _ _ _ _ a () double_first_table (unit_size_listed a Ha)
                ltac:(by apply list_elem_of_singleton)) as H.
  cbv beta in H. by injection H.
Qed.

Lemma double_zero a : unit_size a → double a = 0%float → a = 0%Z.
Proof.
  intros Ha Hzero. apply (f_equal (PrimFloat.ltb 0)) in Hzero.
  rewrite double_positive in Hzero by done. change (PrimFloat.ltb 0 0) with false in Hzero.
  apply Z.ltb_ge in Hzero. unfold unit_size in Ha. lia.
Qed.

Lemma onDoubles_filter (f : block → bool) (g : FitAlgorithmDouble.block → bool) bs :
  (∀ b, g (E b) = f b) → List.filter g (map E bs) = map E (List.filter f bs).
Proof.
  intros Hfg. induction bs as [|b bs IH]; [done|]. simpl. rewrite Hfg, IH.
  by destruct (f b).
Qed.

Lemma filter_within_memory (f : block → bool) bs :
  within_memory bs → within_memory (List.filter f bs).
Proof.
  intros [Hbs Htot]. split.
  - apply Forall_forall. intros b Hb%list_elem_of_In%filter_In.
    rewrite Forall_forall in Hbs. apply Hbs. apply list_elem_of_In. tauto.
  - assert (totalMemory (List.filter f bs) ≤ totalMemory bs)%Z; [|lia]. clear Htot.
    induction Hbs as [|b bs Hb Hbs IH]; [done|]. simpl.
    destruct (f b); rewrite !totalMemory_cons; lia.
Qed.

Lemma onDoubles_largest xs x :
  unit_size x → Forall unit_size xs →
  fold_left FitAlgorithmDouble.max (map double xs) (double x) =
  double (fold_left Z.max xs x).
Proof.
  intros Hx Hxs. revert x Hx. induction Hxs as [|y xs Hy Hxs IH]; intros x Hx; [done|].
  simpl. rewrite double_max by done. apply IH. unfold unit_size in *. lia.
Qed.

Lemma onDoubles_summary bs :
  Forall sized bs → totalMemory bs = 200%Z →
  FitAlgorithmDouble.internalFragmentation (map E bs) = double (internalFragmentation bs) ∧
  FitAlgorithmDouble.totalFree (map E bs) = double (totalFree bs) ∧
  FitAlgorithmDouble.totalMemory (FitAlgorithmDouble.allocatedBlocks (map E bs)) =
    double (totalMemory (allocatedBlocks bs)) ∧
  FitAlgorithmDouble.largestHole (map E bs) = double (largestHole bs) ∧
  length (FitAlgorithmDouble.freeBlocks (map E bs)) = length (freeBlocks bs).
Proof.
  intros Hsized Htot.
  assert (Hbs : within_memory bs).
  { split; [|lia]. eapply Forall_impl; [exact Hsized|]. intros b [Hb _]. lia. }
  assert (Hfree : FitAlgorithmDouble.freeBlocks (map E bs) = map E (freeBlocks bs))
    by (by apply onDoubles_filter).
  assert (Hallocated : FitAlgorithmDouble.allocatedBlocks (map E bs) =
                       map E (allocatedBlocks bs)) by (by apply onDoubles_filter).
  split; [|split; [|split; [|split]]].
  - unfold FitAlgorithmDouble.internalFragmentation. rewrite Hallocated.
    rewrite internalFragmentation_zero by done. unfold allocatedBlocks.
    assert (Hused : Forall (λ b, sized b ∧ free b = false)
                           (List.filter (λ b, negb (free b)) bs)).
    { apply Forall_forall. intros b Hb%list_elem_of_In%filter_In. destruct Hb as [Hb Hf].
      rewrite Forall_forall in Hsized. split; [apply Hsized; by apply list_elem_of_In|].
      by destruct (free b). }
    assert (Hunit : Forall (λ b, unit_size (size b)) (List.filter (λ b, negb (free b)) bs)).
    { apply Forall_forall. intros b Hb. eapply within_memory_unit;
        [by apply (filter_within_memory (λ b, negb (free b)))|done]. }
    induction Hused as [|b used [[Hpos Hreq] Hb] Hused IH]; [done|].
    apply Forall_cons in Hunit as [Hu Hunit]. simpl.
    rewrite (Hreq Hb). destruct (double_first (size b) Hu) as [_ ->].
    rewrite double_sub, Z.sub_diag by (done || lia).
    change (PrimFloat.add 0 (FitAlgorithmDouble.max (double 0) 0)) with 0%float.
    by apply IH.
  - unfold FitAlgorithmDouble.totalFree, totalFree. rewrite Hfree.
    apply (onDoubles_totalMemory (freeBlocks bs)). by apply filter_within_memory.
  - rewrite Hallocated. apply onDoubles_totalMemory. by apply filter_within_memory.
  - unfold FitAlgorithmDouble.largestHole, largestHole. rewrite Hfree.
    assert (Hunit : Forall unit_size (map size (freeBlocks bs))).
    { apply Forall_fmap, Forall_forall. intros b Hb. simpl. eapply within_memory_unit;
        [by apply (filter_within_memory free)|done]. }
    destruct (freeBlocks bs) as [|b rest]; [done|]. simpl in *.
    apply Forall_cons in Hunit as [Hb Hrest].
    destruct (double_first (size b) Hb) as [-> _].
    rewrite map_map. simpl. rewrite <- (map_map size double). by apply onDoubles_largest.
  - by rewrite Hfree, length_map.
Qed.

(** X16: What the summary grid can show, after any sequence of operations with
    whole-number request sizes (up to 1000 in magnitude), on the engine as it
    computes, with binary64 numbers: Internal Fragmentation is always 0; free
    and allocated memory add up to the 200 units; the largest hole is at most
    the free memory, so External Fragmentation is never negative, and it is 0
    exactly when there is at most one hole. *)
Theorem fit_summary_figures :
  ∀ ops : list operation,
    Forall whole_request ops →
    let bs := FitAlgorithmDouble.blocks (FitAlgorithmDouble.run (map onDoubles ops)) in
    FitAlgorithmDouble.internalFragmentation bs = 0%float ∧
    PrimFloat.add (FitAlgorithmDouble.totalFree bs)
      (FitAlgorithmDouble.totalMemory (FitAlgorithmDouble.allocatedBlocks bs)) = 200%float ∧
    PrimFloat.leb 0 (FitAlgorithmDouble.largestHole bs) = true ∧
    PrimFloat.leb (FitAlgorithmDouble.largestHole bs) (FitAlgorithmDouble.totalFree bs) = true ∧
    PrimFloat.leb 0 (FitAlgorithmDouble.externalFragmentation bs) = true ∧
    (FitAlgorithmDouble.externalFragmentation bs = 0%float ↔
     length (FitAlgorithmDouble.freeBlocks bs) ≤ 1).
Proof.
  intros ops Hops bs. unfold bs. rewrite (onDoubles_run ops Hops). simpl.
  destruct (run_sized ops) as [Hsized Htot].
  destruct (summary_figures ops) as (Hinternal & Hsum & [Hlow Hhigh] & Hexternal).
  cbv zeta in *.
  destruct (onDoubles_summary _ Hsized Htot) as (Hi & Hf & Ha & Hl & Hlen).
  pose proof (totalMemory_free_allocated (blocks (run ops))) as Hsplit.
  assert (Hbs : within_memory (blocks (run ops))).
  { split; [|lia]. eapply Forall_impl; [exact Hsized|]. intros b [Hb _]. lia. }
  pose proof (totalMemory_nonneg _ (proj1 (filter_within_memory (λ b, negb (free b)) _ Hbs)))
    as Hused. fold (allocatedBlocks (blocks (run ops))) in Hused.
  assert (Hfu : unit_size (totalFree (blocks (run ops)))) by (unfold unit_size; lia).
  assert (Hlu : unit_size (largestHole (blocks (run ops)))) by (unfold unit_size; lia).
  unfold FitAlgorithmDouble.externalFragmentation. rewrite Hi, Hf, Ha, Hl, Hlen, Hinternal.
  rewrite double_sub by (done || lia).
  split; [done|]. split.
  { rewrite double_add by (unfold unit_size; lia). by rewrite Hsum. }
  split.
  { change 0%float with (double 0). rewrite double_leb; [by apply Z.leb_le| |done].
    unfold request_size. lia. }
  split.
  { rewrite double_leb; [by apply Z.leb_le| |done]. unfold request_size, unit_size in *. lia. }
  split.
  { change 0%float with (double 0). rewrite double_leb; [apply Z.leb_le; lia| |].
    - unfold request_size. lia.
    - unfold unit_size in *. lia. }
  rewrite <- Hexternal. unfold externalFragmentation. split.
  - apply double_zero. unfold unit_size in *. lia.
  - by intros ->.
Qed.

Lemma fit_summary_figures_witness :
  let ops := [Allocate first 30 1000; Allocate best 50 2000; FreeProcess (Some 1000%Z);
              Allocate next 20 3000]%Z in
  let bs := FitAlgorithmDouble.blocks (FitAlgorithmDouble.run (map onDoubles ops)) in
  FitAlgorithmDouble.totalFree bs = 130%float ∧
  FitAlgorithmDouble.largestHole bs = 120%float ∧
  FitAlgorithmDouble.internalFragmentation bs = 0%float ∧
  PrimFloat.add (FitAlgorithmDouble.totalFree bs)
    (FitAlgorithmDouble.totalMemory (FitAlgorithmDouble.allocatedBlocks bs)) = 200%float.
Proof.
  intros ops bs.
  assert (Hops : Forall whole_request ops).
  { repeat (apply Forall_cons_2; [simpl; unfold request_size; lia || exact I|]).
    apply Forall_nil_2. }
  destruct (fit_summary_figures ops Hops) as (Hinternal & Hsum & _).
  split; [vm_compute; reflexivity|]. split; [vm_compute; reflexivity|].
  split; [exact Hinternal|exact Hsum].
Defined.

End FitAlgorithmDoubleFacts.

(** ** CPU scheduling: who runs when *)

Section ProcessSchedulingOrder.
Import ProcessScheduling.
Local Open Scope Z_scope.

(** With a comparator that is a total preorder, the element a sort puts first
    compares at most equal to every other. *)
Lemma sort_head_le {A} (cmp : A → A → Z) (l : list A) x :
  (∀ a b, cmp a b ≤ 0 ∨ cmp b a ≤ 0) →
  (∀ a b c, cmp a b ≤ 0 → cmp b c ≤ 0 → cmp a c ≤ 0) →
  head (sort cmp l) = Some x → x ∈ l ∧ ∀ y, y ∈ l → cmp x y ≤ 0.
Proof.
  intros Htotal Htrans Hhead. split.
  { apply (sort_elem_of cmp). by apply head_Some_elem_of. }
  revert x Hhead. induction l as [|a l IH]; intros x; [done|].
  unfold sort. simpl. fold (sort cmp l).
  destruct (sort cmp l) as [|h t] eqn:Hsort; simpl.
  - intros [= <-]. assert (l = []) as ->.
    { apply length_zero_iff_nil. rewrite <- (sort_length cmp l), Hsort. done. }
    intros y ->%list_elem_of_singleton. by destruct (Htotal a a).
  - specialize (IH h eq_refl).
    destruct (cmp a h <=? 0) eqn:Hle; simpl; intros [= <-].
    + apply Z.leb_le in Hle. intros y [->|Hy]%elem_of_cons.
      * by destruct (Htotal a a).
      * eapply Htrans; [done|]. by apply IH.
    + apply Z.leb_gt in Hle. intros y [->|Hy]%elem_of_cons; [|by apply IH].
      destruct (Htotal a h); lia.
Qed.

(** A process that runs in one piece: it starts no earlier than it arrives
    and completes one burst later; its turnaround and waiting times are the
    runner's own differences from that completion time. *)
Definition served (e : entry) : Prop :=
  j_arrival (e_job e) ≤ e_startTime e ∧
  e_completionTime e = e_startTime e + j_burst (e_job e) ∧
  turnaroundTime e = e_completionTime e - j_arrival (e_job e) ∧
  waitingTime e = turnaroundTime e - j_burst (e_job e).

Lemma report_served j startTime :
  j_arrival j ≤ startTime → served (report j startTime (startTime + j_burst j)).
Proof. intros H. unfold served, report. simpl. lia. Qed.

Lemma prepareProcesses_source processes :
  map source (prepareProcesses processes) = processes.
Proof.
  apply list_eq. intros i. unfold prepareProcesses.
  rewrite list_lookup_fmap, list_lookup_imap. by destruct (processes !! i).
Qed.

Lemma prepareProcesses_order processes :
  map order (prepareProcesses processes) = seq 0 (length processes).
Proof.
  apply list_eq. intros i. unfold prepareProcesses.
  rewrite list_lookup_fmap, list_lookup_imap.
  destruct (processes !! i) as [p|] eqn:Hp; simpl.
  - symmetry. apply lookup_seq. split; [done|]. by eapply lookup_lt_Some.
  - symmetry. apply lookup_seq_ge. apply lookup_ge_None in Hp. lia.
Qed.

Lemma fcfs_map_spec sorted currentTime :
  map e_job (fcfs_map sorted currentTime) = sorted ∧
  (∀ e, head (fcfs_map sorted currentTime) = Some e →
        e_startTime e = Z.max (j_arrival (e_job e)) currentTime) ∧
  (∀ k e e', fcfs_map sorted currentTime !! k = Some e →
             fcfs_map sorted currentTime !! S k = Some e' →
             e_startTime e' = Z.max (j_arrival (e_job e')) (e_completionTime e)) ∧
  Forall served (fcfs_map sorted currentTime).
Proof.
  revert currentTime. induction sorted as [|p rest IH]; intros currentTime; simpl.
  { repeat split; try done; intros k e e' Hk; by rewrite lookup_nil in Hk. }
  destruct (IH (Z.max (j_arrival p) currentTime + j_burst p)) as (Hjobs & Hhead & Hnext & Hserved).
  repeat split.
  - by rewrite Hjobs.
  - by intros e [= <-].
  - intros [|k] e e' He He'; simpl in *.
    + injection He as <-. simpl. apply Hhead. by destruct (fcfs_map rest _).
    + by eapply Hnext.
  - constructor; [|done]. apply report_served. lia.
Qed.

(** X17: FCFS serves every process once, in order of arrival (input order among
    equal arrivals), one right after the other: the first starts when it
    arrives (at time 0 if it arrived before), each next one as soon as it has
    arrived and its predecessor has completed; each completes one burst after
    it starts.  Every time in the statement is the runner's own maximum, sum
    or difference. *)
Theorem fcfs_serves_in_arrival_order :
  ∀ processes : list process,
    let schedule := runFcfs processes in
    map (λ e, source (e_job e)) schedule ≡ₚ processes ∧
    StronglySorted (λ a b, j_arrival a ≤ j_arrival b) (map e_job schedule) ∧
    (∀ e, head schedule = Some e → e_startTime e = Z.max (j_arrival (e_job e)) 0) ∧
    (∀ k e e', schedule !! k = Some e → schedule !! S k = Some e' →
               e_startTime e' = Z.max (j_arrival (e_job e')) (e_completionTime e)) ∧
    Forall served schedule.
Proof.
  intros processes schedule. unfold schedule, runFcfs.
  destruct (fcfs_map_spec (sort sortByArrival (prepareProcesses processes)) 0)
    as (Hjobs & Hhead & Hnext & Hserved).
  split; [|split; [|done]].
  - rewrite <- (map_map e_job source), Hjobs.
    etransitivity; [apply Permutation_map, sort_perm|].
    by rewrite prepareProcesses_source.
  - rewrite Hjobs. apply sortByArrival_sorted.
Qed.

Lemma remove_perm x pending :
  NoDup (map order pending) → x ∈ pending → pending ≡ₚ x :: remove x pending.
Proof.
  intros Hnd Hx. unfold remove.
  destruct (list_find _ pending) as [[removalIndex y]|] eqn:Hfind.
  - apply list_find_Some in Hfind as (Hy & Horder & _).
    apply list_elem_of_lookup in Hx as [i Hi].
    assert (i = removalIndex) as ->.
    { apply (NoDup_lookup _ _ _ (order x) Hnd); rewrite list_lookup_fmap.
      - by rewrite Hi.
      - rewrite Hy. simpl. by rewrite Horder. }
    by apply delete_Permutation.
  - apply list_find_None in Hfind. rewrite Forall_forall in Hfind.
    by destruct (Hfind x Hx).
Qed.

(** What the loop of [runNonPreemptive] adds to the schedule. *)
Lemma nonPreemptive_loop_spec comparator fuel pending schedule time schedule' :
  (∀ a b, comparator a b ≤ 0 ∨ comparator b a ≤ 0) →
  (∀ a b c, comparator a b ≤ 0 → comparator b c ≤ 0 → comparator a c ≤ 0) →
  NoDup (map order pending) →
  nonPreemptive_loop fuel comparator pending schedule time = Ret schedule' →
  ∃ added,
    schedule' = schedule ++ added ∧
    map e_job added ≡ₚ pending ∧
    (∀ e, head added = Some e → time ≤ e_startTime e) ∧
    (∀ k e e', added !! k = Some e → added !! S k = Some e' →
               e_completionTime e ≤ e_startTime e') ∧
    Forall served added ∧
    (∀ k l e e', added !! k = Some e → added !! l = Some e' → (k < l)%nat →
                 j_arrival (e_job e') ≤ e_startTime e →
                 comparator (e_job e) (e_job e') ≤ 0).
Proof.
  intros Htotal Htrans. revert pending schedule time.
  induction fuel as [|fuel IH]; intros pending schedule time Hnd; [done|]. simpl.
  destruct pending as [|p0 rest] eqn:Hp.
  { intros [= <-]. exists []. rewrite app_nil_r.
    repeat split; try done; intros ? ? ? ? Hk; by rewrite lookup_nil in Hk. }
  rewrite <- Hp in *.
  set (available := List.filter (λ p, j_arrival p <=? time) pending).
  destruct (sort comparator available) as [|nextProcess sorted] eqn:Hsort.
  - intros Hloop.
    destruct (IH _ _ _ Hnd Hloop) as (added & -> & Hperm & Hhead & Hnext & Hserved & Hbest).
    exists added. repeat split; try done.
    intros e He. specialize (Hhead e He).
    assert (available = []) as Havail.
    { apply (f_equal length) in Hsort. rewrite sort_length in Hsort.
      by destruct available. }
    assert (Hlate : (j_arrival p0 <=? time) = false).
    { destruct (j_arrival p0 <=? time) eqn:E; [|done].
      assert (Hin : In p0 available).
      { apply filter_In. split; [rewrite Hp; by left|done]. }
      rewrite Havail in Hin. by destruct Hin. }
    apply Z.leb_gt in Hlate. lia.
  - destruct (sort_head_le comparator available nextProcess Htotal Htrans) as [Hin Hleast].
    { by rewrite Hsort. }
    apply list_elem_of_In, filter_In in Hin as [Hin%list_elem_of_In Harrived%Z.leb_le].
    pose proof (remove_perm nextProcess pending Hnd Hin) as Hrem.
    assert (Hnd' : NoDup (map order (remove nextProcess pending))).
    { rewrite Hrem in Hnd. simpl in Hnd. by apply NoDup_cons in Hnd as [_ ?]. }
    replace (Z.max time (j_arrival nextProcess)) with time by lia.
    intros Hloop.
    destruct (IH _ _ _ Hnd' Hloop) as (added & -> & Hperm & Hhead & Hnext & Hserved & Hbest).
    exists (report nextProcess time (time + j_burst nextProcess) :: added).
    split; [by rewrite <- app_assoc|]. split; [simpl; by rewrite Hperm, <- Hrem|].
    split; [intros e [= <-]; simpl; lia|]. split; [|split].
    + intros [|k] e e' He He'; simpl in *; [|by eapply Hnext].
      injection He as <-. simpl. apply Hhead. by destruct added.
    + constructor; [|done]. by apply report_served.
    + intros [|k] [|l] e e' He He' Hkl Harr; simpl in *; try lia.
      * injection He as <-. simpl in *. apply Hleast.
        apply list_elem_of_In, filter_In. split; [|by apply Z.leb_le].
        apply list_elem_of_In. rewrite Hrem. right. rewrite <- Hperm.
        apply list_elem_of_fmap. exists e'. split; [done|].
        by eapply list_elem_of_lookup_2.
      * apply (Hbest k l); try done. lia.
Qed.

Lemma prepared_NoDup processes :
  NoDup (map order (sort sortByArrival (prepareProcesses processes))).
Proof.
  rewrite (sort_perm sortByArrival), prepareProcesses_order. apply NoDup_seq.
Qed.

Lemma compareByBurst_total a b : compareByBurst a b ≤ 0 ∨ compareByBurst b a ≤ 0.
Proof.
  unfold compareByBurst, sortByArrival.
  repeat match goal with |- context [Z.eqb ?x ?y] => destruct (Z.eqb_spec x y) end; lia.
Qed.

Lemma compareByBurst_trans a b c :
  compareByBurst a b ≤ 0 → compareByBurst b c ≤ 0 → compareByBurst a c ≤ 0.
Proof.
  unfold compareByBurst, sortByArrival.
  repeat match goal with |- context [Z.eqb ?x ?y] => destruct (Z.eqb_spec x y) end; lia.
Qed.

Lemma compareByPriority_total a b : compareByPriority a b ≤ 0 ∨ compareByPriority b a ≤ 0.
Proof.
  unfold compareByPriority, sortByArrival.
  repeat match goal with |- context [Z.eqb ?x ?y] => destruct (Z.eqb_spec x y) end; lia.
Qed.

Lemma compareByPriority_trans a b c :
  compareByPriority a b ≤ 0 → compareByPriority b c ≤ 0 → compareByPriority a c ≤ 0.
Proof.
  unfold compareByPriority, sortByArrival.
  repeat match goal with |- context [Z.eqb ?x ?y] => destruct (Z.eqb_spec x y) end; lia.
Qed.

(** X18: The non-preemptive runners serve every process exactly once and one at
    a time: a process starts no earlier than it arrives and than its
    predecessor completes, and completes one burst after it starts.  Every
    time in the statement is the runner's own maximum, sum or difference. *)
Theorem nonpreemptive_serves_each_process_once :
  ∀ algorithm fuel processes settings schedule,
    algorithm = sjfNonPreemptive ∨ algorithm = priorityNonPreemptive →
    schedulingStrategies algorithm fuel processes settings = Ret schedule →
    map (λ e, source (e_job e)) schedule ≡ₚ processes ∧
    (∀ k e e', schedule !! k = Some e → schedule !! S k = Some e' →
               e_completionTime e ≤ e_startTime e') ∧
    Forall served schedule.
Proof.
  intros algorithm fuel processes settings schedule Halg Hrun.
  assert (H : ∃ comparator,
            (∀ a b, comparator a b ≤ 0 ∨ comparator b a ≤ 0) ∧
            (∀ a b c, comparator a b ≤ 0 → comparator b c ≤ 0 → comparator a c ≤ 0) ∧
            runNonPreemptive fuel processes comparator = Ret schedule).
  { destruct Halg as [-> | ->]; simpl in Hrun.
    - exists compareByBurst. split; [apply compareByBurst_total|].
      split; [apply compareByBurst_trans|done].
    - exists compareByPriority. split; [apply compareByPriority_total|].
      split; [apply compareByPriority_trans|done]. }
  destruct H as (comparator & Htotal & Htrans & Hloop). unfold runNonPreemptive in Hloop.
  destruct (nonPreemptive_loop_spec _ _ _ _ _ _ Htotal Htrans (prepared_NoDup processes) Hloop)
    as (added & -> & Hperm & _ & Hnext & Hserved & _).
  simpl. split; [|done].
  rewrite <- (map_map e_job source).
  etransitivity; [apply Permutation_map, Hperm|].
  etransitivity; [apply Permutation_map, sort_perm|].
  by rewrite prepareProcesses_source.
Qed.

Lemma nonpreemptive_serves_each_process_once_witness :
  ∃ schedule,
    schedulingStrategies sjfNonPreemptive 10 initialProcesses defaultSettings = Ret schedule ∧
    map (λ e, source (e_job e)) schedule ≡ₚ initialProcesses.
Proof.
  assert (Hrun : ∃ schedule,
            schedulingStrategies sjfNonPreemptive 10 initialProcesses defaultSettings
              = Ret schedule) by (vm_compute; eexists; reflexivity).
  destruct Hrun as [schedule Hrun]. exists schedule. split; [exact Hrun|].
  exact (proj1 (nonpreemptive_serves_each_process_once sjfNonPreemptive 10 initialProcesses
                  defaultSettings schedule (or_introl eq_refl) Hrun)).
Defined.

(** X19: Shortest Job First and non-preemptive Priority are greedy: a process is
    never started while another one that has already arrived, and runs later,
    has a shorter burst (a lower priority number); among equals the earlier
    arrival goes first, then the earlier row of the table. *)
Theorem nonpreemptive_starts_best_arrived :
  ∀ algorithm fuel processes settings schedule k l e e',
    algorithm = sjfNonPreemptive ∨ algorithm = priorityNonPreemptive →
    schedulingStrategies algorithm fuel processes settings = Ret schedule →
    schedule !! k = Some e → schedule !! l = Some e' → (k < l)%nat →
    j_arrival (e_job e') ≤ e_startTime e →
    let key := match algorithm with sjfNonPreemptive => j_burst | _ => j_priority end in
    key (e_job e) < key (e_job e') ∨
    (key (e_job e) = key (e_job e') ∧
     (j_arrival (e_job e) < j_arrival (e_job e') ∨
      (j_arrival (e_job e) = j_arrival (e_job e') ∧
       (order (e_job e) ≤ order (e_job e'))%nat))).
Proof.
  intros algorithm fuel processes settings schedule k l e e' Halg Hrun He He' Hkl Harr.
  destruct Halg as [-> | ->]; simpl in Hrun; unfold runNonPreemptive in Hrun.
  - destruct (nonPreemptive_loop_spec _ _ _ _ _ _ compareByBurst_total compareByBurst_trans
                (prepared_NoDup processes) Hrun) as (added & -> & _ & _ & _ & _ & Hbest).
    specialize (Hbest k l e e' He He' Hkl Harr). simpl.
    unfold compareByBurst, sortByArrival in Hbest.
    repeat match type of Hbest with
           | context [Z.eqb ?x ?y] => destruct (Z.eqb_spec x y)
           end; lia.
  - destruct (nonPreemptive_loop_spec _ _ _ _ _ _ compareByPriority_total
                compareByPriority_trans (prepared_NoDup processes) Hrun)
      as (added & -> & _ & _ & _ & _ & Hbest).
    specialize (Hbest k l e e' He He' Hkl Harr). simpl.
    unfold compareByPriority, sortByArrival in Hbest.
    repeat match type of Hbest with
           | context [Z.eqb ?x ?y] => destruct (Z.eqb_spec x y)
           end; lia.
Qed.

Lemma nonpreemptive_starts_best_arrived_witness :
  ∃ schedule e e',
    schedulingStrategies sjfNonPreemptive 10 initialProcesses defaultSettings = Ret schedule ∧
    schedule !! 1%nat = Some e ∧ schedule !! 2%nat = Some e' ∧
    j_arrival (e_job e') ≤ e_startTime e ∧
    (j_burst (e_job e) < j_burst (e_job e') ∨
     (j_burst (e_job e) = j_burst (e_job e') ∧
      (j_arrival (e_job e) < j_arrival (e_job e') ∨
       (j_arrival (e_job e) = j_arrival (e_job e') ∧
        (order (e_job e) ≤ order (e_job e'))%nat)))).
Proof.
  assert (Hrun : ∃ schedule e e',
            schedulingStrategies sjfNonPreemptive 10 initialProcesses defaultSettings
              = Ret schedule ∧
            schedule !! 1%nat = Some e ∧ schedule !! 2%nat = Some e' ∧
            j_arrival (e_job e') ≤ e_startTime e).
  { vm_compute. do 3 eexists. split; [reflexivity|]. split; [reflexivity|].
    split; [reflexivity|]. vm_compute. discriminate. }
  destruct Hrun as (schedule & e & e' & Hrun & He & He' & Harr).
  exists schedule, e, e'. split; [exact Hrun|]. split; [exact He|]. split; [exact He'|].
  split; [exact Harr|].
  exact (nonpreemptive_starts_best_arrived sjfNonPreemptive 10 initialProcesses
           defaultSettings schedule 1 2 e e' (or_introl eq_refl) Hrun He He'
           ltac:(lia) Harr).
Defined.

End ProcessSchedulingOrder.

(** ** Fixed and variable partitions *)

Section MftMvtFacts.
Import MftMvt.
Local Open Scope Z_scope.

Lemma sumSizes_from (segs : list segment) (z : Z) :
  fold_left (λ sum seg, sum + size seg) segs z = z + sumSizes segs.
Proof.
  unfold sumSizes. revert z. induction segs as [|seg segs IH]; intros z; simpl; [lia|].
  rewrite IH, (IH (0 + size seg)). lia.
Qed.

Lemma sumSizes_cons seg segs : sumSizes (seg :: segs) = size seg + sumSizes segs.
Proof. unfold sumSizes at 1. simpl. rewrite sumSizes_from. lia. Qed.

Lemma sumSizes_app segs1 segs2 :
  sumSizes (segs1 ++ segs2) = sumSizes segs1 + sumSizes segs2.
Proof.
  induction segs1 as [|seg segs1 IH]; simpl; [unfold sumSizes at 2; simpl; lia|].
  rewrite !sumSizes_cons, IH. lia.
Qed.

Lemma buildMft_loop_spec fuel partitionSize parts remaining id0 :
  0 < partitionSize → (Z.to_nat remaining < fuel)%nat →
  ∃ added,
    buildMft_loop fuel partitionSize parts remaining id0 = Ret (parts ++ added) ∧
    sumSizes added = Z.max remaining 0 ∧
    length added = Z.to_nat ((remaining + partitionSize - 1) / partitionSize) ∧
    ∀ i seg, added !! i = Some seg →
             seg = freeSegment (id0 + Z.of_nat i)
                     (Z.min partitionSize (remaining - Z.of_nat i * partitionSize)) ∧
             0 < size seg.
Proof.
  intros Hp. revert parts remaining id0.
  induction fuel as [|fuel IH]; intros parts remaining id0 Hfuel; [lia|]. simpl.
  destruct (Z.ltb_spec 0 remaining) as [Hpos|Hle].
  - destruct (IH (parts ++ [freeSegment id0 (Z.min partitionSize remaining)])
                (remaining - Z.min partitionSize remaining) (id0 + 1) ltac:(lia))
      as (added & -> & Hsum & Hlen & Hsegs).
    exists (freeSegment id0 (Z.min partitionSize remaining) :: added).
    split; [by rewrite <- app_assoc|]. split; [rewrite sumSizes_cons, Hsum; simpl; lia|].
    split.
    + simpl. rewrite Hlen. destruct (Z.le_gt_cases partitionSize remaining) as [Hge|Hlt].
      * rewrite Z.min_l by done.
        replace (remaining + partitionSize - 1)
          with ((remaining - partitionSize + partitionSize - 1) + 1 * partitionSize) by lia.
        rewrite Z.div_add by lia.
        assert (0 ≤ (remaining - partitionSize + partitionSize - 1) / partitionSize)
          by (apply Z.div_pos; lia).
        lia.
      * rewrite Z.min_r by lia.
        replace (remaining - remaining + partitionSize - 1) with (partitionSize - 1) by lia.
        rewrite (Z.div_small (partitionSize - 1)) by lia.
        replace (remaining + partitionSize - 1)
          with ((remaining - 1) + 1 * partitionSize) by lia.
        rewrite Z.div_add, Z.div_small by lia. done.
    + intros [|i] seg Hseg; simpl in Hseg.
      * injection Hseg as <-. split; [|simpl; lia]. f_equal; lia.
      * destruct (Hsegs i seg Hseg) as [-> Hsize]. split; [|done].
        simpl in Hsize. f_equal; [lia|].
        destruct (Z.le_gt_cases partitionSize remaining) as [Hge|Hlt].
        -- rewrite (Z.min_l partitionSize remaining) by done. f_equal. lia.
        -- rewrite (Z.min_r partitionSize remaining) in Hsize by lia. lia.
  - exists []. rewrite app_nil_r. split; [done|]. split; [unfold sumSizes; simpl; lia|].
    split; [|intros i seg Hi; by rewrite lookup_nil in Hi].
    simpl. assert ((remaining + partitionSize - 1) / partitionSize ≤ 0); [|lia].
    destruct (Z.eq_dec remaining 0) as [->|].
    + rewrite Z.div_small; lia.
    + assert ((remaining + partitionSize - 1) / partitionSize < 1); [|lia].
      apply Z.div_lt_upper_bound; lia.
Qed.

(** X20: On whole-number sizes, [buildMft] with a positive partition size and a
    memory size within [MAX_SAFE_INTEGER] cuts the memory into equal
    partitions, the last one taking what is left: it returns
    ceil(memorySize / partitionSize) free partitions numbered from 1, the
    i-th of size min(partitionSize, memorySize - i * partitionSize), which add
    up to the memory size (no partition when that is not positive). *)
Theorem buildMft_partitions :
  ∀ fuel memorySize partitionSize,
    memorySize ≤ MAX_SAFE_INTEGER →
    0 < partitionSize → (Z.to_nat memorySize < fuel)%nat →
    ∃ parts,
      buildMft fuel memorySize partitionSize = Ret parts ∧
      sumSizes parts = Z.max memorySize 0 ∧
      length parts = Z.to_nat ((memorySize + partitionSize - 1) / partitionSize) ∧
      ∀ i seg, parts !! i = Some seg →
               seg = freeSegment (1 + Z.of_nat i)
                       (Z.min partitionSize (memorySize - Z.of_nat i * partitionSize)) ∧
               0 < size seg.
Proof.
  intros fuel memorySize partitionSize _ Hp Hfuel. unfold buildMft.
  destruct (buildMft_loop_spec fuel partitionSize [] memorySize 1 Hp Hfuel)
    as (added & Hrun & Hrest).
  by exists added.
Qed.

Lemma buildMft_partitions_witness :
  ∃ parts, buildMft 201 200 50 = Ret parts ∧ length parts = 4%nat ∧ sumSizes parts = 200.
Proof.
  destruct (buildMft_partitions 201 200 50) as (parts & Hrun & Hsum & Hlen & _);
    [unfold MAX_SAFE_INTEGER; lia|lia|simpl; lia|].
  exists parts. split; [exact Hrun|]. split; [exact Hlen|exact Hsum].
Defined.

(** X21: With a partition size that is not positive (the field emptied, or 0
    typed into it) and some memory to cut, [buildMft] never returns: no
    partition it pushes reduces what remains. *)
Theorem buildMft_hangs_without_partition_size :
  ∀ fuel memorySize partitionSize,
    partitionSize ≤ 0 → 0 < memorySize →
    buildMft fuel memorySize partitionSize = OutOfFuel.
Proof.
  intros fuel memorySize partitionSize Hp Hm. unfold buildMft.
  generalize (@nil segment) 1. revert memorySize Hm.
  induction fuel as [|fuel IH]; intros remaining Hpos parts id0; [done|]. simpl.
  destruct (Z.ltb_spec 0 remaining); [|lia]. apply IH. lia.
Qed.

Lemma buildMft_hangs_without_partition_size_witness :
  buildMft 1000 200 0 = OutOfFuel.
Proof. apply buildMft_hangs_without_partition_size; lia. Defined.

(** *** Allocation, release and compaction *)

Lemma sumSizes_imap (f : nat → segment → segment) segs :
  (∀ i seg, size (f i seg) = size seg) → sumSizes (imap f segs) = sumSizes segs.
Proof.
  revert f. induction segs as [|seg segs IH]; intros f Hf; [done|].
  simpl. rewrite !sumSizes_cons, Hf, IH; [done|]. intros i seg'. apply Hf.
Qed.

Lemma sumSizes_split (segs : list segment) :
  sumSizes segs = memoryUsed segs + sumSizes (List.filter free segs).
Proof.
  unfold memoryUsed. induction segs as [|seg segs IH]; [done|]. simpl.
  destruct (free seg); simpl; rewrite !sumSizes_cons, IH; lia.
Qed.

Lemma sumSizes_nonneg segs : Forall (λ seg, 0 ≤ size seg) segs → 0 ≤ sumSizes segs.
Proof.
  induction 1 as [|seg segs Hseg Hsegs IH]; [done|]. rewrite sumSizes_cons. lia.
Qed.

Lemma absorb_sum merged seg : sumSizes (absorb merged seg) = sumSizes merged + size seg.
Proof.
  unfold absorb. destruct (last merged) as [prev|] eqn:E.
  - apply last_Some in E as [l' ->]. destruct (free seg && free prev).
    + rewrite removelast_last, !sumSizes_app, !sumSizes_cons. simpl.
      unfold sumSizes at 2 4. simpl. lia.
    + rewrite !sumSizes_app, !sumSizes_cons. unfold sumSizes at 3. simpl. lia.
  - rewrite !sumSizes_app, !sumSizes_cons. unfold sumSizes at 2. simpl. lia.
Qed.

Lemma absorb_nonneg merged seg :
  Forall (λ seg, 0 ≤ size seg) merged → 0 ≤ size seg →
  Forall (λ seg, 0 ≤ size seg) (absorb merged seg).
Proof.
  intros Hm Hseg. unfold absorb. destruct (last merged) as [prev|] eqn:E.
  - apply last_Some in E as [l' ->]. apply Forall_app in Hm as [Hl' Hprev].
    rewrite Forall_singleton in Hprev. destruct (free seg && free prev).
    + rewrite removelast_last. apply Forall_app. split; [done|].
      apply Forall_singleton. simpl. lia.
    + apply Forall_app. split; [|by apply Forall_singleton].
      apply Forall_app. split; [done|]. by apply Forall_singleton.
  - apply Forall_app. split; [done|]. by apply Forall_singleton.
Qed.

Lemma coalesce_sum segs : sumSizes (coalesce segs) = sumSizes segs.
Proof.
  unfold coalesce.
  assert (G : ∀ merged, sumSizes (fold_left absorb segs merged) =
                        sumSizes merged + sumSizes segs).
  { induction segs as [|seg segs IH]; intros merged; simpl.
    - unfold sumSizes at 3. simpl. lia.
    - rewrite IH, absorb_sum, sumSizes_cons. lia. }
  rewrite G. unfold sumSizes at 1. simpl. lia.
Qed.

Lemma coalesce_nonneg segs :
  Forall (λ seg, 0 ≤ size seg) segs → Forall (λ seg, 0 ≤ size seg) (coalesce segs).
Proof.
  unfold coalesce. intros Hs.
  assert (G : ∀ merged, Forall (λ seg, 0 ≤ size seg) merged →
                        Forall (λ seg, 0 ≤ size seg) (fold_left absorb segs merged)).
  { induction Hs as [|seg segs Hseg Hsegs IH]; intros merged Hm; [done|].
    simpl. apply IH. by apply absorb_nonneg. }
  by apply G.
Qed.

Lemma findHole_Some segs sz idx :
  findHole segs sz = Some idx →
  ∃ target, segs !! idx = Some target ∧ free target = true ∧ sz ≤ size target.
Proof.
  unfold findHole. destruct (list_find _ segs) as [[i target]|] eqn:E; [|done].
  intros [= <-]. apply list_find_Some in E as (Ht & Hfit & _).
  apply andb_prop in Hfit as [Hfree Hle%Z.leb_le]. by exists target.
Qed.

Lemma allocate_conserves m processSize now st :
  Forall (λ seg, 0 ≤ size seg) (segments st) →
  sumSizes (segments (allocate m processSize now st)) = sumSizes (segments st) ∧
  Forall (λ seg, 0 ≤ size seg) (segments (allocate m processSize now st)).
Proof.
  intros Hs. unfold allocate. destruct (Z.leb_spec processSize 0) as [|Hpos]; [done|].
  destruct (findHole (segments st) processSize) as [idx|] eqn:Hfind; [|done].
  destruct (findHole_Some _ _ _ Hfind) as (target & Ht & Hfree & Hle).
  destruct m; simpl.
  - split.
    + apply sumSizes_imap. intros i seg. by case_bool_decide.
    + apply Forall_forall. intros seg [i Hseg]%list_elem_of_lookup.
      rewrite list_lookup_imap in Hseg.
      destruct (segments st !! i) as [seg'|] eqn:Hseg'; [|done]. simpl in Hseg.
      injection Hseg as <-. rewrite Forall_forall in Hs.
      assert (0 ≤ size seg') by (apply Hs; by eapply list_elem_of_lookup_2).
      by case_bool_decide.
  - rewrite Ht. simpl. rewrite coalesce_sum. split.
    + pose proof (f_equal sumSizes (take_drop_middle _ _ _ Ht)) as E.
      rewrite sumSizes_app, sumSizes_cons in E.
      rewrite !sumSizes_app, !sumSizes_cons. simpl.
      destruct (Z.ltb_spec 0 (size target - processSize)); simpl;
        rewrite ?sumSizes_cons; simpl; lia.
    + apply coalesce_nonneg. apply Forall_app. split; [by apply Forall_take|].
      apply Forall_cons. split; [simpl; lia|]. apply Forall_app.
      split; [|by apply Forall_drop].
      destruct (Z.ltb_spec 0 (size target - processSize)); [|done].
      apply Forall_singleton. simpl. lia.
Qed.

Lemma freeProcess_conserves m freeTarget st :
  Forall (λ seg, 0 ≤ size seg) (segments st) →
  sumSizes (segments (freeProcess m freeTarget st)) = sumSizes (segments st) ∧
  Forall (λ seg, 0 ≤ size seg) (segments (freeProcess m freeTarget st)).
Proof.
  intros Hs. unfold freeProcess. destruct freeTarget as [target|]; [|done].
  case_bool_decide; [done|]. simpl.
  set (updated := imap _ (segments st)).
  assert (Hsum : sumSizes updated = sumSizes (segments st)).
  { apply sumSizes_imap. intros i seg. by case_bool_decide. }
  assert (Hnn : Forall (λ seg, 0 ≤ size seg) updated).
  { apply Forall_forall. intros seg [i Hseg]%list_elem_of_lookup.
    unfold updated in Hseg. rewrite list_lookup_imap in Hseg.
    destruct (segments st !! i) as [seg'|] eqn:Hseg'; [|done]. simpl in Hseg.
    injection Hseg as <-. rewrite Forall_forall in Hs.
    assert (0 ≤ size seg') by (apply Hs; by eapply list_elem_of_lookup_2).
    by case_bool_decide. }
  destruct m; [done|]. rewrite coalesce_sum. split; [done|by apply coalesce_nonneg].
Qed.

Lemma filter_sizes_nonneg (f : segment → bool) segs :
  Forall (λ seg, 0 ≤ size seg) segs → Forall (λ seg, 0 ≤ size seg) (List.filter f segs).
Proof.
  intros Hs. apply Forall_forall. intros seg Hseg%list_elem_of_In.
  apply filter_In in Hseg as [Hseg%list_elem_of_In _]. rewrite Forall_forall in Hs.
  by apply Hs.
Qed.

Lemma compact_conserves m now st :
  Forall (λ seg, 0 ≤ size seg) (segments st) →
  sumSizes (segments (compact m now st)) = sumSizes (segments st) ∧
  Forall (λ seg, 0 ≤ size seg) (segments (compact m now st)).
Proof.
  intros Hs. unfold compact. destruct m; [done|]. simpl.
  pose proof (sumSizes_nonneg _ (filter_sizes_nonneg free _ Hs)) as Hfree.
  rewrite sumSizes_app, (sumSizes_split (segments st)). unfold memoryUsed. split.
  - destruct (Z.ltb_spec 0 (sumSizes (List.filter free (segments st)))).
    + rewrite sumSizes_cons. unfold sumSizes at 3. simpl. lia.
    + unfold sumSizes at 2. simpl. lia.
  - apply Forall_app. split; [by apply filter_sizes_nonneg|].
    destruct (Z.ltb_spec 0 (sumSizes (List.filter free (segments st)))); [|done].
    apply Forall_singleton. simpl. lia.
Qed.

(** X22: On whole-number sizes, with a memory size within [MAX_SAFE_INTEGER], no
    button creates or loses memory, in either mode: after any sequence of
    allocations, releases and compactions the segments still add up to what
    they added up to, so the Free Memory figure (memory size minus memory
    used) is the total size of the free segments. *)
Theorem partition_memory_conserved :
  ∀ m memorySize st ops,
    memorySize ≤ MAX_SAFE_INTEGER →
    Forall (λ seg, 0 ≤ size seg) (segments st) →
    sumSizes (segments st) = memorySize →
    let st' := fold_left (perform m) ops st in
    sumSizes (segments st') = memorySize ∧
    memoryFree memorySize (segments st') = sumSizes (List.filter free (segments st')) ∧
    Forall (λ seg, 0 ≤ size seg) (segments st').
Proof.
  intros m memorySize st ops _ Hs Hsum st'.
  assert (G : sumSizes (segments st') = memorySize ∧
              Forall (λ seg, 0 ≤ size seg) (segments st')).
  { unfold st'. clear st'. revert st Hs Hsum.
    induction ops as [|op ops IH]; intros st Hs Hsum; [done|]. simpl.
    assert (Hop : sumSizes (segments (perform m st op)) = sumSizes (segments st) ∧
                  Forall (λ seg, 0 ≤ size seg) (segments (perform m st op))).
    { destruct op; simpl;
        [by apply allocate_conserves|by apply freeProcess_conserves
        |by apply compact_conserves]. }
    destruct Hop as [Hsum' Hs']. apply IH; [done|lia]. }
  destruct G as [Hsum' Hs']. split; [done|]. split; [|done].
  unfold memoryFree. rewrite <- Hsum', (sumSizes_split (segments st')). lia.
Qed.

Lemma partition_memory_conserved_witness :
  let st := {| segments := buildMvt 200; pidCounter := 1 |} in
  let st' := fold_left (perform mvt)
               [Allocate 40 10; Allocate 70 20; FreeProcess (Some "P1"); Compact 30] st in
  sumSizes (segments st') = 200 ∧
  memoryFree 200 (segments st') = sumSizes (List.filter free (segments st')).
Proof.
  intros st st'.
  destruct (partition_memory_conserved mvt 200 st
              [Allocate 40 10; Allocate 70 20; FreeProcess (Some "P1"); Compact 30])
    as (Hsum & Hfree & _).
  - unfold MAX_SAFE_INTEGER. lia.
  - repeat constructor. simpl. lia.
  - reflexivity.
  - split; [exact Hsum|exact Hfree].
Defined.

Lemma absorb_allocated merged seg : free seg = false → absorb merged seg = merged ++ [seg].
Proof. intros Hseg. unfold absorb. rewrite Hseg. simpl. by destruct (last merged). Qed.

Lemma fold_absorb_allocated segs merged :
  Forall (λ seg, free seg = false) segs → fold_left absorb segs merged = merged ++ segs.
Proof.
  intros Hs. revert merged. induction Hs as [|seg segs Hseg Hsegs IH]; intros merged; simpl.
  - by rewrite app_nil_r.
  - rewrite absorb_allocated, IH, <- app_assoc by done. done.
Qed.

Lemma allocated_not_free (segs : list segment) :
  Forall (λ seg, free seg = false) (List.filter (λ seg, negb (free seg)) segs).
Proof.
  apply Forall_forall. intros seg Hseg%list_elem_of_In.
  apply filter_In in Hseg as [_ Hseg]. by destruct (free seg).
Qed.

(** X23: Compaction makes room.  In MVT mode, a request no larger than the total
    free memory is always granted right after a compaction, however the
    holes were scattered: the processes keep their order, the new process
    follows them, and what is left is a single hole (none when the request
    takes it all), so External Fragmentation is 0. *)
Theorem compaction_makes_room :
  ∀ st processSize now now',
    let freeTotal := sumSizes (List.filter free (segments st)) in
    0 < processSize → processSize ≤ freeTotal →
    let st' := allocate mvt processSize now' (compact mvt now st) in
    segments st' =
      List.filter (λ seg, negb (free seg)) (segments st) ++
      [{| id := now; size := processSize; free := false;
          label := "P" +:+ pretty (pidCounter st); requested := processSize |}] ++
      (if 0 <? freeTotal - processSize
       then [freeSegment now' (freeTotal - processSize)] else []) ∧
    pidCounter st' = (pidCounter st + 1)%nat ∧
    memoryUsed (segments st') = memoryUsed (segments st) + processSize ∧
    externalFragmentation mvt (segments st') = 0.
Proof.
  intros st processSize now now' freeTotal Hpos Hle st'.
  set (allocated := List.filter (λ seg, negb (free seg)) (segments st)).
  pose proof (allocated_not_free (segments st)) as Halloc. fold allocated in Halloc.
  assert (Hcompact : segments (compact mvt now st) = allocated ++ [freeSegment now freeTotal]).
  { simpl. fold freeTotal allocated. destruct (Z.ltb_spec 0 freeTotal); [done|lia]. }
  assert (Hfind : findHole (segments (compact mvt now st)) processSize
                  = Some (length allocated)).
  { unfold findHole. rewrite Hcompact.
    assert (E : list_find (λ seg, free seg && (processSize <=? size seg) = true)
                  (allocated ++ [freeSegment now freeTotal])
                = Some (length allocated, freeSegment now freeTotal)).
    { apply list_find_Some. split; [by rewrite list_lookup_middle|]. split.
      - simpl. by apply Z.leb_le.
      - intros j seg Hj Hlt. rewrite lookup_app_l in Hj by done.
        rewrite Forall_forall in Halloc.
        rewrite (Halloc seg) by (by eapply list_elem_of_lookup_2). done. }
    by rewrite E. }
  assert (Hsegs : segments st' =
            allocated ++
            [{| id := now; size := processSize; free := false;
                label := "P" +:+ pretty (pidCounter st); requested := processSize |}] ++
            (if 0 <? freeTotal - processSize
             then [freeSegment now' (freeTotal - processSize)] else [])
          ∧ pidCounter st' = (pidCounter st + 1)%nat).
  { unfold st', allocate. destruct (Z.leb_spec processSize 0); [lia|].
    rewrite Hfind, Hcompact, list_lookup_middle by done.
    cbn [segments pidCounter size id freeSegment compact]. split; [|done].
    rewrite take_app_length, drop_ge, app_nil_r by (rewrite length_app; simpl; lia).
    unfold coalesce. rewrite fold_left_app.
    rewrite (fold_absorb_allocated allocated []) by done. simpl.
    rewrite absorb_allocated by done.
    destruct (0 <? freeTotal - processSize); simpl; [|done].
    unfold absorb. rewrite last_snoc. simpl. by rewrite <- !app_assoc. }
  destruct Hsegs as [Hsegs Hpid]. split; [done|]. split; [done|].
  split.
  - rewrite Hsegs. unfold memoryUsed. rewrite !List.filter_app. simpl.
    assert (E : List.filter (λ seg, negb (free seg)) allocated = allocated).
    { clear -Halloc. induction Halloc as [|seg segs Hseg Hsegs IH]; [done|].
      simpl. by rewrite Hseg, IH. }
    rewrite E. fold allocated.
    destruct (0 <? freeTotal - processSize); simpl;
      rewrite sumSizes_app, sumSizes_cons; unfold sumSizes at 2; simpl; lia.
  - rewrite Hsegs. unfold externalFragmentation. rewrite !List.filter_app. simpl.
    assert (E : List.filter free allocated = []).
    { clear -Halloc. induction Halloc as [|seg segs Hseg Hsegs IH]; [done|].
      simpl. by rewrite Hseg. }
    rewrite E. destruct (0 <? freeTotal - processSize); simpl; [|done].
    rewrite sumSizes_cons. unfold sumSizes. simpl. lia.
Qed.

Lemma compaction_makes_room_witness :
  let st := fold_left (perform mvt)
              [Allocate 60 10; Allocate 80 20; Allocate 60 30; FreeProcess (Some "P1");
               FreeProcess (Some "P3")]
              {| segments := buildMvt 200; pidCounter := 1 |} in
  sumSizes (List.filter free (segments st)) = 120 ∧
  segments (allocate mvt 100 40 st) = segments st ∧
  map (λ seg, (label seg, size seg)) (segments (allocate mvt 100 50 (compact mvt 40 st))) =
    [("P2", 80); ("P4", 100); ("Free", 20)].
Proof.
  intros st.
  assert (Hfree : sumSizes (List.filter free (segments st)) = 120) by (vm_compute; reflexivity).
  split; [exact Hfree|]. split; [vm_compute; reflexivity|].
  destruct (compaction_makes_room st 100 40 50) as (Hsegs & _); [lia|rewrite Hfree; lia|].
  rewrite Hsegs. vm_compute. reflexivity.
Defined.

End MftMvtFacts.

(** ** Fixed partitions, one process each *)

Section PartitionFitFacts.
Import PartitionFit.
Local Open Scope Z_scope.

Context (partitions processes : list Z).

(** Which partition an algorithm prefers among those that are free and fit. *)
Definition lowestIndex (j j' : nat) : Prop := (j ≤ j')%nat.
Definition smallestSize (j j' : nat) : Prop :=
  sizeAt partitions j < sizeAt partitions j' ∨
  (sizeAt partitions j = sizeAt partitions j' ∧ (j ≤ j')%nat).
Definition largestSize (j j' : nat) : Prop :=
  sizeAt partitions j' < sizeAt partitions j ∨
  (sizeAt partitions j = sizeAt partitions j' ∧ (j ≤ j')%nat).
Definition anyFree (j j' : nat) : Prop := True.

(** The tables after the first [i] processes have been looked at. *)
Definition placed (pref : nat → nat → Prop) (i : nat) (t : tables) : Prop :=
  length (partAlloc t) = length partitions ∧
  length (procAlloc t) = length processes ∧
  length (internalFrag t) = length partitions ∧
  (∀ k j, procAlloc t !! k = Some (Some j) ↔ partAlloc t !! j = Some (Some k)) ∧
  (∀ k j, partAlloc t !! j = Some (Some k) →
          (k < i)%nat ∧
          ∃ proc, processes !! k = Some proc ∧ proc ≤ sizeAt partitions j ∧
                  internalFrag t !! j = Some (sizeAt partitions j - proc)) ∧
  (∀ j, partAlloc t !! j = Some None → internalFrag t !! j = Some 0) ∧
  (∀ k proc j', (k < i)%nat → processes !! k = Some proc →
                (j' < length partitions)%nat → proc ≤ sizeAt partitions j' →
                (∃ k', (k' < k)%nat ∧ partAlloc t !! j' = Some (Some k')) ∨
                (∃ j, procAlloc t !! k = Some (Some j) ∧ pref j j')).

(** What the search for a partition must deliver. *)
Definition chosen (pref : nat → nat → Prop) (t : tables) (proc : Z)
    (choice : option nat) : Prop :=
  match choice with
  | Some j =>
      vacant partitions t proc j = true ∧ (j < length partitions)%nat ∧
      ∀ j', (j' < length partitions)%nat → vacant partitions t proc j' = true → pref j j'
  | None => ∀ j', (j' < length partitions)%nat → vacant partitions t proc j' = false
  end.

Lemma vacant_true t proc j :
  vacant partitions t proc j = true ↔
  partAlloc t !! j = Some None ∧ proc ≤ sizeAt partitions j.
Proof.
  unfold vacant. rewrite andb_true_iff, bool_decide_eq_true, Z.leb_le. done.
Qed.

Lemma initial_placed pref : placed pref 0 (initialTables partitions processes).
Proof.
  unfold placed, initialTables. simpl. rewrite !length_replicate.
  split; [done|]. split; [done|]. split; [done|]. split; [|split; [|split]].
  - intros k j. split; intros [[=] _]%lookup_replicate.
  - intros k j [[=] _]%lookup_replicate.
  - intros j [_ Hj]%lookup_replicate. by apply lookup_replicate.
  - intros k proc j' Hk. lia.
Qed.

Lemma place_placed pref i t proc choice :
  placed pref i t → processes !! i = Some proc → chosen pref t proc choice →
  placed pref (S i) (place partitions i proc choice t).
Proof.
  intros (Hpart & Hproc & Hfrag & Hinv & Hheld & Hfree & Hpref) Hi Hchoice.
  assert (Hnone : procAlloc t !! i = Some None).
  { destruct (lookup_lt_is_Some_2 (procAlloc t) i) as [[j|] Hj]; [|by apply Hinv, Hheld in Hj as [? _]; lia|done].
    rewrite Hproc. by eapply lookup_lt_Some. }
  assert (Hslot : ∀ j', (j' < length partitions)%nat →
            partAlloc t !! j' = Some None ∨
            ∃ k', (k' < i)%nat ∧ partAlloc t !! j' = Some (Some k')).
  { intros j' Hj'. destruct (lookup_lt_is_Some_2 (partAlloc t) j') as [[k'|] Hk']; [lia| |by left].
    right. exists k'. split; [|done]. by apply Hheld in Hk' as [? _]. }
  destruct choice as [j|]; simpl in *.
  - destruct Hchoice as ([Hvac Hfit]%vacant_true & Hj & Hbest).
    unfold placed, assign. simpl. rewrite !length_insert.
    split; [done|]. split; [done|]. split; [done|]. split; [|split; [|split]].
    + intros k j0. destruct (decide (k = i)) as [->|Hk].
      * rewrite list_lookup_insert_eq by (rewrite Hproc; by eapply lookup_lt_Some).
        split.
        -- intros [= <-]. apply list_lookup_insert_eq. lia.
        -- intros Hj0. destruct (decide (j0 = j)) as [->|Hne]; [done|].
           rewrite list_lookup_insert_ne in Hj0 by done.
           apply Hheld in Hj0 as [? _]. lia.
      * rewrite list_lookup_insert_ne by done. destruct (decide (j0 = j)) as [->|Hne].
        -- rewrite list_lookup_insert_eq by lia. split; [|by intros [= ->]].
           intros Hk0%Hinv. congruence.
        -- rewrite list_lookup_insert_ne by done. apply Hinv.
    + intros k j0. destruct (decide (j0 = j)) as [->|Hne].
      * rewrite !list_lookup_insert_eq by lia. intros [= <-]. split; [lia|]. by exists proc.
      * rewrite !list_lookup_insert_ne by done. intros Hk.
        destruct (Hheld k j0 Hk) as (Hlt & Hrest). split; [lia|done].
    + intros j0. destruct (decide (j0 = j)) as [->|Hne].
      * rewrite list_lookup_insert_eq by lia. done.
      * rewrite !list_lookup_insert_ne by done. apply Hfree.
    + intros k proc' j' Hk Hproc' Hj' Hfit'.
      assert (Hkeep : ∀ k', (∃ k'', (k'' < k')%nat ∧ partAlloc t !! j' = Some (Some k'')) →
                ∃ k'', (k'' < k')%nat ∧ <[j := Some i]> (partAlloc t) !! j' = Some (Some k'')).
      { intros k' (k'' & Hlt & Hk''). exists k''. split; [done|].
        rewrite list_lookup_insert_ne; [done|]. intros ->. congruence. }
      destruct (decide (k = i)) as [->|Hne].
      * assert (proc' = proc) as -> by congruence.
        destruct (Hslot j' Hj') as [Hvacant|Htaken].
        -- right. exists j. split.
           ++ apply list_lookup_insert_eq. rewrite Hproc. by eapply lookup_lt_Some.
           ++ apply Hbest; [done|]. by apply vacant_true.
        -- left. by apply Hkeep.
      * destruct (Hpref k proc' j' ltac:(lia) Hproc' Hj' Hfit') as [Htaken|(j0 & Hj0 & Hp)].
        -- left. by apply Hkeep.
        -- right. exists j0. split; [|done]. by rewrite list_lookup_insert_ne.
  - unfold placed. split; [done|]. split; [done|]. split; [done|].
    split; [done|]. split; [|split; [done|]].
    + intros k j Hk. destruct (Hheld k j Hk) as (Hlt & Hrest). split; [lia|done].
    + intros k proc' j' Hk Hproc' Hj' Hfit'.
      destruct (decide (k = i)) as [->|Hne].
      * assert (proc' = proc) as -> by congruence.
        destruct (Hslot j' Hj') as [Hvacant|Htaken]; [|by left].
        specialize (Hchoice j' Hj').
        assert (vacant partitions t proc j' = true) by (by apply vacant_true).
        congruence.
      * apply (Hpref k proc'); [lia|done..].
Qed.

Lemma first_chosen t proc :
  chosen lowestIndex t proc
    (snd <$> list_find (λ j, vacant partitions t proc j = true) (seq 0 (length partitions))).
Proof.
  destruct (list_find _ _) as [[idx j]|] eqn:E; simpl.
  - apply list_find_Some in E as (Hj & Hvac & Hbefore).
    apply lookup_seq in Hj as [Hj Hlt]. simpl in Hj. subst idx.
    split; [done|]. split; [done|]. intros j' Hj' Hvac'. unfold lowestIndex.
    destruct (decide (j ≤ j')%nat) as [|Hgt]; [done|].
    destruct (Hbefore j' j'); [apply lookup_seq; lia|lia|done].
  - apply list_find_None in E. rewrite Forall_forall in E. intros j' Hj'.
    apply not_true_is_false, E, elem_of_seq. lia.
Qed.

(** The inner loop of [bestFit] and [worstFit]: [closer x y] is the test
    that makes [x] replace [y]. *)
Definition search (closer : nat → nat → bool) (t : tables) (proc : Z)
    (found : option nat) (j : nat) : option nat :=
  if vacant partitions t proc j
  then match found with
       | None => Some j
       | Some b => if closer j b then Some j else found
       end
  else found.

Definition searched (pref : nat → nat → Prop) (t : tables) (proc : Z) (a : nat)
    (found : option nat) : Prop :=
  match found with
  | Some b =>
      vacant partitions t proc b = true ∧ (b < a)%nat ∧
      ∀ j', (j' < a)%nat → vacant partitions t proc j' = true → pref b j'
  | None => ∀ j', (j' < a)%nat → vacant partitions t proc j' = false
  end.

Lemma search_searched closer pref t proc m a found :
  (∀ j, pref j j) →
  (∀ j b j', (b < j)%nat → closer j b = true → pref b j' → pref j j') →
  (∀ j b, (b < j)%nat → closer j b = false → pref b j) →
  searched pref t proc a found →
  searched pref t proc (a + m) (fold_left (search closer t proc) (seq a m) found).
Proof.
  intros Hrefl Hcloser Hfarther. revert a found.
  induction m as [|m IH]; intros a found Hfound; simpl.
  { by rewrite Nat.add_0_r. }
  replace (a + S m)%nat with (S a + m)%nat by lia. apply IH.
  unfold search. destruct (vacant partitions t proc a) eqn:Hvac.
  - destruct found as [b|]; simpl in *.
    + destruct Hfound as (Hb & Hlt & Hbest). destruct (closer a b) eqn:Hc; simpl.
      * split; [done|]. split; [lia|]. intros j' Hj' Hvac'.
        destruct (decide (j' = a)) as [->|]; [done|].
        apply (Hcloser a b); [done..|]. apply Hbest; [lia|done].
      * split; [done|]. split; [lia|]. intros j' Hj' Hvac'.
        destruct (decide (j' = a)) as [->|]; [by apply Hfarther|].
        apply Hbest; [lia|done].
    + split; [done|]. split; [lia|]. intros j' Hj' Hvac'.
      destruct (decide (j' = a)) as [->|]; [done|].
      rewrite Hfound in Hvac' by lia. done.
  - destruct found as [b|]; simpl in *.
    + destruct Hfound as (Hb & Hlt & Hbest). split; [done|]. split; [lia|].
      intros j' Hj' Hvac'. destruct (decide (j' = a)) as [->|]; [congruence|].
      apply Hbest; [lia|done].
    + intros j' Hj'. destruct (decide (j' = a)) as [->|]; [done|]. apply Hfound. lia.
Qed.

Lemma searched_chosen pref t proc found :
  searched pref t proc (length partitions) found → chosen pref t proc found.
Proof. destruct found; simpl; [|done]. intros (? & ? & ?). done. Qed.

Lemma best_chosen t proc :
  chosen smallestSize t proc
    (fold_left (search (λ j b, sizeAt partitions j <? sizeAt partitions b) t proc)
       (seq 0 (length partitions)) None).
Proof.
  apply searched_chosen.
  apply (search_searched _ smallestSize t proc (length partitions) 0 None); unfold smallestSize.
  - intros j. right. done.
  - intros j b j' Hlt Hc%Z.ltb_lt Hb. lia.
  - intros j b Hlt Hc%Z.ltb_ge. lia.
  - intros j' Hj'. lia.
Qed.

Lemma worst_chosen t proc :
  chosen largestSize t proc
    (fold_left (search (λ j w, sizeAt partitions w <? sizeAt partitions j) t proc)
       (seq 0 (length partitions)) None).
Proof.
  apply searched_chosen.
  apply (search_searched _ largestSize t proc (length partitions) 0 None); unfold largestSize.
  - intros j. right. done.
  - intros j b j' Hlt Hc%Z.ltb_lt Hb. lia.
  - intros j b Hlt Hc%Z.ltb_ge. lia.
  - intros j' Hj'. lia.
Qed.

Lemma nextFit_scan_spec t proc steps lastIndex lastIndex' found :
  (lastIndex < length partitions)%nat →
  nextFit_scan partitions t proc steps lastIndex = (lastIndex', found) →
  (lastIndex' < length partitions)%nat ∧
  match found with
  | Some j => vacant partitions t proc j = true ∧ (j < length partitions)%nat
  | None =>
      ∀ k, (k < steps)%nat →
           vacant partitions t proc ((lastIndex + k) mod length partitions) = false
  end.
Proof.
  revert lastIndex. induction steps as [|steps IH]; intros lastIndex Hlt; simpl.
  { intros [= <- <-]. split; [done|]. intros k Hk. lia. }
  destruct (vacant partitions t proc lastIndex) eqn:Hvac.
  - intros [= <- <-]. done.
  - intros Hscan. apply IH in Hscan as [Hlt' Hfound].
    2:{ apply Nat.mod_upper_bound. lia. }
    split; [done|]. destruct found as [j|]; [done|].
    intros [|k] Hk.
    + rewrite Nat.add_0_r, Nat.mod_small by done. done.
    + specialize (Hfound k ltac:(lia)).
      rewrite Nat.Div0.add_mod_idemp_l in Hfound.
      by replace (lastIndex + S k)%nat with (lastIndex + 1 + k)%nat by lia.
Qed.

Lemma next_chosen t proc lastIndex lastIndex' found :
  (lastIndex < length partitions)%nat ∨ length partitions = 0%nat →
  nextFit_scan partitions t proc (length partitions) lastIndex = (lastIndex', found) →
  ((lastIndex' < length partitions)%nat ∨ length partitions = 0%nat) ∧
  chosen anyFree t proc found.
Proof.
  intros [Hlt|Hzero] Hscan.
  - apply nextFit_scan_spec in Hscan as [Hlt' Hfound]; [|done].
    split; [by left|]. destruct found as [j|]; simpl.
    { destruct Hfound. done. }
    intros j' Hj'. set (n := length partitions) in *.
    set (o := if decide (lastIndex ≤ j')%nat then (j' - lastIndex)%nat
              else (j' + n - lastIndex)%nat).
    assert (Ho : (o < n)%nat) by (unfold o; case_decide; lia).
    assert (Hjo : ((lastIndex + o) mod n = j')%nat).
    { symmetry. unfold o. case_decide.
      - apply (Nat.mod_unique _ _ 0); lia.
      - apply (Nat.mod_unique _ _ 1); lia. }
    rewrite <- Hjo. by apply Hfound.
  - rewrite Hzero in Hscan. simpl in Hscan. injection Hscan as <- <-.
    split; [by right|]. simpl. intros j' Hj'. lia.
Qed.

Lemma run_placed a :
  placed (match a with
          | FirstFit => lowestIndex | BestFit => smallestSize | WorstFit => largestSize
          | NextFit => anyFree
          end) (length processes) (run a partitions processes).
Proof.
  destruct a; simpl.
  - unfold firstFit. apply (forEachi_ind (placed lowestIndex)); [apply initial_placed|].
    intros i proc t Hi Ht. apply place_placed; [done..|apply first_chosen].
  - unfold bestFit. apply (forEachi_ind (placed smallestSize)); [apply initial_placed|].
    intros i proc t Hi Ht. apply place_placed; [done..|apply best_chosen].
  - unfold worstFit. apply (forEachi_ind (placed largestSize)); [apply initial_placed|].
    intros i proc t Hi Ht. apply place_placed; [done..|apply worst_chosen].
  - unfold nextFit.
    apply (forEachi_ind
             (λ i (s : tables * nat),
                placed anyFree i s.1 ∧
                ((s.2 < length partitions)%nat ∨ length partitions = 0%nat))
             _ processes (initialTables partitions processes, 0%nat)).
    + split; [apply initial_placed|]. simpl. destruct partitions; simpl; [by right|left; lia].
    + intros i proc [t lastIndex] Hi [Ht Hlast]. simpl in *.
      destruct (nextFit_scan partitions t proc (length partitions) lastIndex)
        as [lastIndex' found] eqn:Hscan.
      destruct (next_chosen _ _ _ _ _ Hlast Hscan) as [Hlast' Hchosen]. simpl.
      split; [|done]. by apply place_placed.
Qed.

End PartitionFitFacts.

Section PartitionFitResults.
Import PartitionFit.
Local Open Scope Z_scope.

(** X24: The three tables every algorithm prints agree with each other: process
    [i] is recorded in partition [j] exactly when partition [j] records
    process [i], so no partition holds two processes and no process has two
    partitions; the partition is large enough, and its internal
    fragmentation is what the process leaves unused; a partition left free
    has internal fragmentation 0. *)
Theorem partition_fit_tables_consistent :
  ∀ a partitions processes,
    let r := run a partitions processes in
    length (partAlloc r) = length partitions ∧
    length (procAlloc r) = length processes ∧
    length (internalFrag r) = length partitions ∧
    (∀ i j, procAlloc r !! i = Some (Some j) ↔ partAlloc r !! j = Some (Some i)) ∧
    (∀ i j, procAlloc r !! i = Some (Some j) →
            ∃ proc part, processes !! i = Some proc ∧ partitions !! j = Some part ∧
                         proc ≤ part ∧ internalFrag r !! j = Some (part - proc)) ∧
    (∀ j, partAlloc r !! j = Some None → internalFrag r !! j = Some 0).
Proof.
  intros a partitions processes r.
  destruct (run_placed partitions processes a)
    as (Hpart & Hproc & Hfrag & Hinv & Hheld & Hfree & _). fold r in Hpart, Hproc, Hfrag, Hinv, Hheld, Hfree.
  split; [done|]. split; [done|]. split; [done|]. split; [done|]. split; [|done].
  intros i j Hij. apply Hinv in Hij.
  destruct (Hheld i j Hij) as (_ & proc & Hi & Hfit & Hf).
  destruct (lookup_lt_is_Some_2 partitions j) as [part Hj].
  { rewrite <- Hpart. by eapply lookup_lt_Some. }
  unfold sizeAt in *. rewrite Hj in *. simpl in *. by exists proc, part.
Qed.

(** X25: A process is refused only when there is no room for it: if an algorithm
    leaves process [i] unallocated, every partition large enough for it is
    held by a process that came before it. *)
Theorem partition_fit_refuses_only_without_room :
  ∀ a partitions processes i proc j part,
    processes !! i = Some proc →
    procAlloc (run a partitions processes) !! i = Some None →
    partitions !! j = Some part → proc ≤ part →
    ∃ k, (k < i)%nat ∧ partAlloc (run a partitions processes) !! j = Some (Some k).
Proof.
  intros a partitions processes i proc j part Hi Hnone Hj Hfit.
  destruct (run_placed partitions processes a) as (_ & _ & _ & _ & _ & _ & Hpref).
  destruct (Hpref i proc j) as [Htaken|(j0 & Hj0 & _)]; [..|done|congruence].
  - by eapply lookup_lt_Some.
  - done.
  - by eapply lookup_lt_Some.
  - unfold sizeAt. by rewrite Hj.
Qed.

Lemma partition_fit_refuses_only_without_room_witness :
  let partitions := [100; 500; 200; 300; 600] in
  let processes := [212; 417; 112; 426] in
  procAlloc (run FirstFit partitions processes) !! 3%nat = Some None ∧
  ∃ k, (k < 3)%nat ∧ partAlloc (run FirstFit partitions processes) !! 1%nat = Some (Some k).
Proof.
  intros partitions processes.
  assert (Hnone : procAlloc (run FirstFit partitions processes) !! 3%nat = Some None)
    by (vm_compute; reflexivity).
  split; [exact Hnone|].
  apply (partition_fit_refuses_only_without_room FirstFit partitions processes 3 426 1 500);
    [reflexivity|exact Hnone|reflexivity|lia].
Defined.

(** X26: Which partition a process gets.  Every other partition that is large
    enough either is held by a process that came before, or is less
    preferred: First Fit takes the lowestIndex such partition, Best Fit the
    smallestSize and Worst Fit the largestSize (the lowestIndex one of that size). *)
Theorem partition_fit_choice :
  ∀ a partitions processes i proc j part j' part',
    processes !! i = Some proc →
    procAlloc (run a partitions processes) !! i = Some (Some j) →
    partitions !! j = Some part →
    partitions !! j' = Some part' → proc ≤ part' →
    (∃ k, (k < i)%nat ∧ partAlloc (run a partitions processes) !! j' = Some (Some k)) ∨
    match a with
    | FirstFit => (j ≤ j')%nat
    | BestFit => part < part' ∨ (part = part' ∧ (j ≤ j')%nat)
    | WorstFit => part' < part ∨ (part = part' ∧ (j ≤ j')%nat)
    | NextFit => True
    end.
Proof.
  intros a partitions processes i proc j part j' part' Hi Hij Hj Hj' Hfit.
  destruct (run_placed partitions processes a) as (_ & _ & _ & _ & _ & _ & Hpref).
  destruct (Hpref i proc j') as [Htaken|(j0 & Hj0 & Hp)].
  - by eapply lookup_lt_Some.
  - done.
  - by eapply lookup_lt_Some.
  - unfold sizeAt. by rewrite Hj'.
  - by left.
  - right. assert (j0 = j) as -> by congruence.
    destruct a; unfold lowestIndex, smallestSize, largestSize, sizeAt in Hp;
      rewrite ?Hj, ?Hj' in Hp; simpl in Hp; done.
Qed.

Lemma partition_fit_choice_witness :
  let partitions := [100; 500; 200; 300; 600] in
  let processes := [212; 417; 112; 426] in
  procAlloc (run BestFit partitions processes) !! 0%nat = Some (Some 3%nat) ∧
  ((∃ k, (k < 0)%nat ∧ partAlloc (run BestFit partitions processes) !! 1%nat = Some (Some k)) ∨
   (300 < 500 ∨ (300 = 500 ∧ (3 ≤ 1)%nat))).
Proof.
  intros partitions processes.
  assert (Hrun : procAlloc (run BestFit partitions processes) !! 0%nat = Some (Some 3%nat))
    by (vm_compute; reflexivity).
  split; [exact Hrun|].
  apply (partition_fit_choice BestFit partitions processes 0 212 3 300 1 500);
    [reflexivity|exact Hrun|reflexivity|reflexivity|lia].
Defined.

End PartitionFitResults.

(** ** File allocation *)

Section FileAllocationsFacts.
Import FileAllocations.
Local Open Scope Z_scope.

(** The [n] blocks from [s] on are all free. *)
Definition stretch (disk : list block) (s n : nat) : Prop :=
  ∀ k, (k < n)%nat → ∃ b, disk !! (s + k)%nat = Some b ∧ free b = true.

Lemma findStretch_loop_spec (disk : list block) (n : nat) rest pre count start :
  disk = pre ++ rest → (0 < n)%nat → (count < n)%nat → (count ≤ length pre)%nat →
  stretch disk (length pre - count) count →
  ((0 < count)%nat → start = (length pre - count)%nat) →
  (∀ b, (count < length pre)%nat → disk !! (length pre - count - 1)%nat = Some b →
        free b = false) →
  (∀ s, (s + n ≤ length pre)%nat → ¬ stretch disk s n) →
  match findStretch_loop rest (Z.of_nat n) (length pre) count start with
  | Some s => stretch disk s n ∧ ∀ s', (s' < s)%nat → ¬ stretch disk s' n
  | None => ∀ s, ¬ stretch disk s n
  end.
Proof.
  intros Hdisk Hn. revert pre count start Hdisk.
  induction rest as [|b rest IH]; intros pre count start Hdisk Hcount Hpre Hrun Hstart Hleft Hnone.
  { simpl. intros s Hs. destruct (decide (s + n ≤ length pre)%nat) as [Hle|Hgt].
    - by apply (Hnone s).
    - destruct (Hs (n - 1)%nat ltac:(lia)) as (b & Hb & _).
      apply lookup_lt_Some in Hb. rewrite Hdisk, app_nil_r in Hb. lia. }
  assert (Hb : disk !! length pre = Some b).
  { rewrite Hdisk. by rewrite list_lookup_middle. }
  assert (Hdisk' : disk = (pre ++ [b]) ++ rest) by (by rewrite <- app_assoc).
  assert (Hlen : length (pre ++ [b]) = S (length pre)) by (rewrite length_app; simpl; lia).
  simpl. destruct (free b) eqn:Hfree.
  - set (start' := if (count =? 0)%nat then length pre else start).
    assert (Hstart' : start' = (length pre - count)%nat).
    { unfold start'. destruct (Nat.eqb_spec count 0) as [->|]; [lia|]. apply Hstart. lia. }
    assert (Hrun' : stretch disk (length pre - count) (count + 1)).
    { intros k Hk. destruct (decide (k < count)%nat) as [|Hge]; [by apply Hrun|].
      exists b. split; [|done]. by replace (length pre - count + k)%nat with (length pre) by lia. }
    destruct (Z.leb_spec (Z.of_nat n) (Z.of_nat (count + 1))) as [Hfull|Hshort].
    + assert (count + 1 = n)%nat as Hcn by lia. rewrite Hstart', <- Hcn. split; [done|].
      intros s' Hs' Hstretch. rewrite Hcn in Hstretch.
      destruct (decide (s' + n ≤ length pre)%nat) as [Hle|Hgt]; [by apply (Hnone s')|].
      assert (count < length pre)%nat as Hlt by lia.
      destruct (lookup_lt_is_Some_2 disk (length pre - count - 1)) as [b' Hb'].
      { apply lookup_lt_Some in Hb. lia. }
      specialize (Hleft b' Hlt Hb').
      destruct (Hstretch (length pre - count - 1 - s')%nat ltac:(lia)) as (b'' & Hb'' & Hf).
      replace (s' + (length pre - count - 1 - s'))%nat with (length pre - count - 1)%nat
        in Hb'' by lia.
      congruence.
    + replace (S (length pre)) with (length (pre ++ [b])) by done.
      apply IH; try done; rewrite ?Hlen; try lia.
      * by replace (S (length pre) - (count + 1))%nat with (length pre - count)%nat by lia.
      * intros b' Hlt Hb'.
        replace (S (length pre) - (count + 1) - 1)%nat with (length pre - count - 1)%nat
          in Hb' by lia.
        apply Hleft; [lia|done].
      * intros s Hs Hstretch.
        destruct (decide (s + n ≤ length pre)%nat) as [Hle|Hgt]; [by apply (Hnone s)|].
        assert (s + n = S (length pre))%nat as Hsn by lia.
        assert (count < length pre)%nat as Hlt by lia.
        destruct (lookup_lt_is_Some_2 disk (length pre - count - 1)) as [b' Hb'].
        { apply lookup_lt_Some in Hb. lia. }
        specialize (Hleft b' Hlt Hb').
        destruct (Hstretch (length pre - count - 1 - s)%nat ltac:(lia)) as (b'' & Hb'' & Hf).
        replace (s + (length pre - count - 1 - s))%nat with (length pre - count - 1)%nat
          in Hb'' by lia.
        congruence.
  - replace (S (length pre)) with (length (pre ++ [b])) by done.
    apply IH; try done; rewrite ?Hlen; try lia.
    + intros k Hk. lia.
    + intros b' _ Hb'. replace (S (length pre) - 0 - 1)%nat with (length pre) in Hb' by lia.
      congruence.
    + intros s Hs Hstretch.
      destruct (decide (s + n ≤ length pre)%nat) as [Hle|Hgt]; [by apply (Hnone s)|].
      destruct (Hstretch (length pre - s)%nat ltac:(lia)) as (b'' & Hb'' & Hf).
      replace (s + (length pre - s))%nat with (length pre) in Hb'' by lia. congruence.
Qed.

(** X27: [findStretch] finds the first place where the file fits: it returns the
    lowest position from which [size] consecutive blocks are free, and null
    exactly when the disk has no such run of free blocks. *)
Theorem findStretch_first_fit :
  ∀ (disk : list block) (n : nat),
    (0 < n)%nat →
    match findStretch disk (Z.of_nat n) with
    | Some start => stretch disk start n ∧ ∀ s, (s < start)%nat → ¬ stretch disk s n
    | None => ∀ s, ¬ stretch disk s n
    end.
Proof.
  intros disk n Hn. unfold findStretch.
  apply (findStretch_loop_spec disk n disk [] 0%nat 0%nat); simpl; try done; try lia.
  intros k Hk. lia.
Qed.

Lemma findStretch_first_fit_witness :
  let disk := map (λ fr, {| id := 0; free := fr; label := "Free" |})
                [true; false; true; true; false; true; true; true] in
  findStretch disk 3 = Some 5%nat ∧ stretch disk 5 3.
Proof.
  intros disk.
  assert (Hfind : findStretch disk 3 = Some 5%nat) by (vm_compute; reflexivity).
  split; [exact Hfind|].
  pose proof (findStretch_first_fit disk 3 ltac:(lia)) as H.
  change (Z.of_nat 3) with 3 in H. rewrite Hfind in H. exact (proj1 H).
Defined.

(** *** What an allocation takes *)

Lemma freeIndices_from (disk : list block) (a : nat) :
  omap (λ '(idx, b), if free b then Some idx else None) (imap (λ idx b, ((a + idx)%nat, b)) disk)
  = map (λ k, (a + k)%nat) (freeIndices disk).
Proof.
  unfold freeIndices. revert a. induction disk as [|b disk IH]; intros a; [done|].
  rewrite !imap_cons.
  assert (E1 : imap ((λ idx b0, ((a + idx)%nat, b0)) ∘ S) disk
               = imap (λ idx b0, ((S a + idx)%nat, b0)) disk).
  { apply imap_ext. intros i x _. simpl. f_equal. lia. }
  assert (E2 : imap ((λ idx (b0 : block), (idx, b0)) ∘ S) disk
               = imap (λ idx b0, ((1 + idx)%nat, b0)) disk).
  { apply imap_ext. intros i x _. done. }
  rewrite E1, E2. cbn [omap list_omap]. rewrite (IH (S a)), (IH 1%nat).
  destruct (free b); simpl.
  - rewrite Nat.add_0_r. f_equal. rewrite map_map. apply map_ext. intros k. lia.
  - rewrite map_map. apply map_ext. intros k. lia.
Qed.

Lemma freeIndices_cons b disk :
  freeIndices (b :: disk) =
  (if free b then [0%nat] else []) ++ map S (freeIndices disk).
Proof.
  unfold freeIndices at 1. rewrite imap_cons.
  assert (E2 : imap ((λ idx (b0 : block), (idx, b0)) ∘ S) disk
               = imap (λ idx b0, ((1 + idx)%nat, b0)) disk).
  { apply imap_ext. intros i x _. done. }
  rewrite E2. cbn [omap list_omap]. rewrite freeIndices_from. by destruct (free b).
Qed.

Lemma elem_of_freeIndices disk i :
  i ∈ freeIndices disk ↔ ∃ b, disk !! i = Some b ∧ free b = true.
Proof.
  revert i. induction disk as [|b disk IH]; intros i.
  { split; [by intros ?%elem_of_nil|by intros (? & ? & _)]. }
  rewrite freeIndices_cons, elem_of_app, list_elem_of_fmap. split.
  - intros [Hi|(k & -> & Hk)].
    + destruct (free b) eqn:Hb; [|by apply elem_of_nil in Hi].
      apply list_elem_of_singleton in Hi as ->. by exists b.
    + by apply IH in Hk.
  - intros (b' & Hb' & Hfree). destruct i as [|i]; simpl in Hb'.
    + injection Hb' as ->. left. rewrite Hfree. by apply list_elem_of_singleton.
    + right. exists i. split; [done|]. apply IH. by exists b'.
Qed.

Lemma NoDup_freeIndices disk : NoDup (freeIndices disk).
Proof.
  induction disk as [|b disk IH]; [constructor|].
  rewrite freeIndices_cons. apply NoDup_app. split; [|split].
  - destruct (free b); [apply NoDup_singleton|constructor].
  - intros i Hi (k & -> & _)%list_elem_of_fmap.
    destruct (free b); [by apply list_elem_of_singleton in Hi|by apply elem_of_nil in Hi].
  - apply NoDup_fmap; [|done]. by intros ?? [=].
Qed.

Lemma length_freeIndices disk : length (freeIndices disk) = freeBlocks disk.
Proof.
  unfold freeBlocks. induction disk as [|b disk IH]; [done|].
  rewrite freeIndices_cons, length_app, length_map, IH. simpl. by destruct (free b).
Qed.

(** Marking the blocks of [picked], all of them free, as used. *)
Lemma mark_freeBlocks (f : nat → block → block) (picked : list nat) disk :
  (∀ i b, i ∈ picked → free (f i b) = false) →
  (∀ i b, i ∉ picked → f i b = b) →
  NoDup picked → (∀ i, i ∈ picked → i ∈ freeIndices disk) →
  (freeBlocks (imap f disk) + length picked = freeBlocks disk)%nat ∧
  length (imap f disk) = length disk ∧
  (∀ i b, disk !! i = Some b → free b = false → imap f disk !! i = Some b) ∧
  (∀ i b, imap f disk !! i = Some b → free b = true → disk !! i = Some b ∧ i ∉ picked).
Proof.
  intros Hused Hkeep Hnd Hfree.
  assert (Hlookup : ∀ i b, imap f disk !! i = Some b → free b = true →
                           disk !! i = Some b ∧ i ∉ picked).
  { intros i b Hb Hfr. rewrite list_lookup_imap in Hb.
    destruct (disk !! i) as [b0|]; [|done]. simpl in Hb. injection Hb as <-.
    destruct (decide (i ∈ picked)) as [Hin|Hout].
    - rewrite Hused in Hfr by done. done.
    - by rewrite Hkeep. }
  split; [|split; [by rewrite length_imap|split; [|done]]].
  - rewrite <- !length_freeIndices, <- length_app. apply Permutation_length.
    apply NoDup_Permutation.
    + apply NoDup_app. split; [apply NoDup_freeIndices|]. split; [|done].
      intros i (b & Hb & Hfr)%elem_of_freeIndices Hin.
      by destruct (Hlookup i b Hb Hfr).
    + apply NoDup_freeIndices.
    + intros i. rewrite elem_of_app, !elem_of_freeIndices. split.
      * intros [(b & Hb & Hfr)|Hin].
        -- exists b. split; [|done]. by destruct (Hlookup i b Hb Hfr).
        -- by apply elem_of_freeIndices, Hfree.
      * intros (b & Hb & Hfr). destruct (decide (i ∈ picked)) as [Hin|Hout]; [by right|].
        left. exists b. split; [|done]. rewrite list_lookup_imap, Hb. simpl.
        by rewrite Hkeep.
  - intros i b Hb Hfr. rewrite list_lookup_imap, Hb. simpl. f_equal. apply Hkeep.
    intros Hin. apply Hfree, elem_of_freeIndices in Hin as (b' & Hb' & Hfr'). congruence.
Qed.

Lemma pick_loop_spec random steps count copy picked :
  (∀ k n, (0 < n)%nat → (random k n < n)%nat) →
  steps = length copy →
  ∃ rest,
    pick_loop random steps count copy picked ++ rest ≡ₚ picked ++ copy ∧
    (Z.of_nat (length (pick_loop random steps count copy picked)) =
     Z.max (Z.of_nat (length picked))
           (Z.min count (Z.of_nat (length picked + length copy)))).
Proof.
  intros Hrandom. revert copy picked.
  induction steps as [|steps IH]; intros copy picked Hsteps; simpl.
  { destruct copy; [|done]. exists []. split; [done|]. simpl. lia. }
  destruct (Z.ltb_spec (Z.of_nat (length picked)) count) as [Hlt|Hge]; simpl.
  2:{ exists copy. split; [done|]. lia. }
  case_bool_decide as Hcopy; simpl.
  { subst copy. done. }
  assert (Hr : (random (length picked) (length copy) < length copy)%nat).
  { apply Hrandom. lia. }
  destruct (lookup_lt_is_Some_2 copy _ Hr) as [x Hx]. rewrite Hx. simpl.
  destruct (IH (delete (random (length picked) (length copy)) copy) (picked ++ [x]))
    as (rest & Hperm & Hlen).
  { rewrite length_delete by done. lia. }
  exists rest. split.
  - rewrite Hperm, <- app_assoc. apply Permutation_app_head. simpl.
    symmetry. by apply delete_Permutation.
  - rewrite Hlen, length_app, length_delete by done. simpl. lia.
Qed.

Lemma pickRandomFreeBlocks_spec random disk count :
  (∀ k n, (0 < n)%nat → (random k n < n)%nat) →
  let picked := pickRandomFreeBlocks random disk count in
  NoDup picked ∧ (∀ i, i ∈ picked → i ∈ freeIndices disk) ∧
  Z.of_nat (length picked) = Z.max 0 (Z.min count (Z.of_nat (freeBlocks disk))).
Proof.
  intros Hrandom picked. unfold picked, pickRandomFreeBlocks.
  destruct (pick_loop_spec random (length (freeIndices disk)) count (freeIndices disk) []
              Hrandom eq_refl) as (rest & Hperm & Hlen).
  simpl in Hperm, Hlen. rewrite length_freeIndices in Hlen.
  pose proof (NoDup_freeIndices disk) as Hnd. rewrite <- Hperm in Hnd.
  apply NoDup_app in Hnd as (Hnd & _ & _).
  split; [done|]. split; [|rewrite length_freeIndices in *; lia].
  intros i Hi. rewrite <- Hperm. apply elem_of_app. by left.
Qed.

(** X28: With a whole number of blocks as file size (and as index blocks, not
    negative), an allocation takes exactly the blocks the file needs, and
    only free ones.  Whatever the random draws, the disk keeps its length and
    its used blocks; the allocation is refused, leaving the disk as it was,
    when contiguous allocation finds no run of [size] free blocks, or when
    linked or indexed allocation needs more blocks than are free; otherwise
    the number of free blocks drops by the file size, plus the index blocks
    for indexed allocation. *)
Theorem file_allocation_takes_what_it_needs :
  ∀ s random (indexBlockSize n : nat) disk,
    (∀ k m, (0 < m)%nat → (random k m < m)%nat) → (0 < n)%nat →
    let disk' := allocate s random (Z.of_nat indexBlockSize) (Z.of_nat n) disk in
    let needed := match s with
                  | indexed => (n + Nat.max indexBlockSize 1)%nat
                  | _ => n
                  end in
    let refused := match s with
                   | contiguous => ∀ start, ¬ stretch disk start n
                   | _ => (freeBlocks disk < needed)%nat
                   end in
    length disk' = length disk ∧
    (∀ i b, disk !! i = Some b → free b = false → disk' !! i = Some b) ∧
    (refused → disk' = disk) ∧
    (¬ refused → (freeBlocks disk' + needed = freeBlocks disk)%nat).
Proof.
  intros s random indexBlockSize n disk Hrandom Hn disk' needed refused.
  unfold disk', allocate. destruct (Z.leb_spec (Z.of_nat n) 0); [lia|].
  destruct s; subst refused needed; cbn beta iota.
  - unfold allocateContiguous.
    pose proof (findStretch_loop_spec disk n disk [] 0%nat 0%nat eq_refl Hn Hn
                  ltac:(simpl; lia)) as Hspec.
    simpl in Hspec. fold (findStretch disk (Z.of_nat n)) in Hspec.
    specialize (Hspec ltac:(intros k Hk; lia) ltac:(lia) ltac:(intros b Hb; lia)
                  ltac:(intros s' Hs'; lia)).
    destruct (findStretch disk (Z.of_nat n)) as [start|].
    + destruct Hspec as [Hstretch _].
      destruct (mark_freeBlocks
                  (λ idx b, if (Z.of_nat start <=? Z.of_nat idx)
                               && (Z.of_nat idx <? Z.of_nat start + Z.of_nat n)
                            then fileBlock b else b) (seq start n) disk)
        as (Hcount & Hlen & Hused & _).
      * intros i b Hi%elem_of_seq.
        destruct (Z.leb_spec (Z.of_nat start) (Z.of_nat i)); [|lia].
        destruct (Z.ltb_spec (Z.of_nat i) (Z.of_nat start + Z.of_nat n)); [|lia]. done.
      * intros i b Hi. rewrite elem_of_seq in Hi.
        destruct (Z.leb_spec (Z.of_nat start) (Z.of_nat i)); [|done].
        destruct (Z.ltb_spec (Z.of_nat i) (Z.of_nat start + Z.of_nat n)); [lia|done].
      * apply NoDup_seq.
      * intros i Hi%elem_of_seq. apply elem_of_freeIndices.
        replace i with (start + (i - start))%nat by lia. apply Hstretch. lia.
      * rewrite length_seq in Hcount. split; [done|]. split; [done|]. split; [|done].
        intros Hrefused. by destruct (Hrefused start).
    + split; [done|]. split; [done|]. split; [done|]. intros Hnot. by destruct Hnot.
  - unfold allocateLinked.
    destruct (Z.ltb_spec (Z.of_nat (freeBlocks disk)) (Z.of_nat n)) as [Hfew|Henough].
    { split; [done|]. split; [done|]. split; [done|]. intros Hnot. lia. }
    destruct (pickRandomFreeBlocks_spec random disk (Z.of_nat n) Hrandom)
      as (Hnd & Hfree & Hlen).
    destruct (mark_freeBlocks
                (λ idx b, if includes (pickRandomFreeBlocks random disk (Z.of_nat n)) idx
                          then fileBlock b else b)
                (pickRandomFreeBlocks random disk (Z.of_nat n)) disk)
      as (Hcount & Hlen' & Hused & _); try done.
    + intros i b Hi. unfold includes. by rewrite bool_decide_eq_true_2.
    + intros i b Hi. unfold includes. by rewrite bool_decide_eq_false_2.
    + split; [done|]. split; [done|]. split; [lia|]. intros _. lia.
  - unfold allocateIndexed.
    set (idxBlocksNeeded := Nat.max indexBlockSize 1).
    assert (Hidx : (if Z.of_nat indexBlockSize =? 0 then 1 else Z.of_nat indexBlockSize) =
                   Z.of_nat idxBlocksNeeded).
    { unfold idxBlocksNeeded. destruct (Z.eqb_spec (Z.of_nat indexBlockSize) 0); lia. }
    rewrite Hidx. unfold sliceTo, sliceFrom.
    destruct (Z.leb_spec 0 (Z.of_nat idxBlocksNeeded)); [|lia]. rewrite Nat2Z.id.
    set (totalNeeded := Z.of_nat n + Z.of_nat idxBlocksNeeded).
    destruct (Z.ltb_spec (Z.of_nat (freeBlocks disk)) totalNeeded) as [Hfew|Henough].
    { split; [done|]. split; [done|]. split; [done|]. intros Hnot. lia. }
    destruct (pickRandomFreeBlocks_spec random disk totalNeeded Hrandom)
      as (Hnd & Hfree & Hlen).
    set (picked := pickRandomFreeBlocks random disk totalNeeded) in *.
    assert (Hsplit : ∀ i, i ∈ picked ↔
              i ∈ take idxBlocksNeeded picked ∨ i ∈ drop idxBlocksNeeded picked).
    { intros i. rewrite <- elem_of_app, take_drop. done. }
    destruct (mark_freeBlocks
                (λ idx b, if includes (take idxBlocksNeeded picked) idx then indexBlock b
                          else if includes (drop idxBlocksNeeded picked) idx
                               then fileBlock b else b) picked disk)
      as (Hcount & Hlen' & Hused & _); try done.
    + intros i b Hi%Hsplit. unfold includes.
      destruct (decide (i ∈ take idxBlocksNeeded picked)) as [Ht|Ht].
      * by rewrite bool_decide_eq_true_2.
      * rewrite bool_decide_eq_false_2 by done. destruct Hi as [|Hd]; [done|].
        by rewrite bool_decide_eq_true_2.
    + intros i b Hi. unfold includes.
      rewrite !bool_decide_eq_false_2; [done| |]; intros Hin; apply Hi, Hsplit; tauto.
    + split; [done|]. split; [done|]. split; [lia|]. intros _. unfold idxBlocksNeeded in *. lia.
Qed.

Lemma file_allocation_takes_what_it_needs_witness :
  let disk := map (λ fr, {| id := 7; free := fr; label := "Free" |})
                [true; false; true; true; false; true; true; true] in
  let disk' := allocate indexed (λ k m, 0%nat) (Z.of_nat 1) (Z.of_nat 3) disk in
  length disk' = length disk ∧ (freeBlocks disk' + 4 = freeBlocks disk)%nat.
Proof.
  intros disk disk'.
  destruct (file_allocation_takes_what_it_needs indexed (λ k m, 0%nat) 1 3 disk)
    as (Hlen & _ & _ & Hcount); [intros k m Hm; exact Hm|lia|].
  split; [exact Hlen|]. apply Hcount. vm_compute. lia.
Defined.

End FileAllocationsFacts.

(** ** The bounded buffer *)

Section ProcessSynchronizationFacts.
Import ProcessSynchronization.
Local Open Scope Z_scope.

Definition bounded (st : state) : Prop :=
  1 ≤ bufferSize st ∧ 0 ≤ items st ≤ bufferSize st ∧ (length (log st) ≤ 12)%nat ∧
  1 ≤ step st.

Lemma appendLog_bounded entry st :
  1 ≤ bufferSize st → 0 ≤ items st ≤ bufferSize st → 1 ≤ step st →
  bounded (appendLog entry st).
Proof.
  intros Hsize Hitems Hstep. unfold bounded, appendLog. simpl.
  split; [done|]. split; [done|]. split; [|lia].
  rewrite length_take. lia.
Qed.

Lemma handle_bounded st e : bounded st → bounded (handle st e).
Proof.
  intros (Hsize & Hitems & Hlog & Hstep). destruct e as [| | |[value|]]; simpl.
  - unfold handleProduce. destruct (Z.leb_spec (bufferSize st) (items st)).
    + by apply appendLog_bounded.
    + apply appendLog_bounded; simpl; lia.
  - unfold handleConsume. destruct (Z.leb_spec (items st) 0).
    + by apply appendLog_bounded.
    + apply appendLog_bounded; simpl; lia.
  - unfold handleReset, bounded, initial. simpl. lia.
  - destruct (Z.ltb_spec value 1); [done|]. apply appendLog_bounded; simpl; lia.
  - done.
Qed.

(** X29: The buffer neither overflows nor underflows.  Whatever the user does,
    the capacity stays at least 1, the number of items stays between 0 and
    the capacity, the two semaphores add up to the capacity, every action
    moves the item count by at most one unless it shrinks the buffer, and
    the log never holds more than 12 lines. *)
Theorem buffer_stays_within_capacity :
  ∀ events : list event,
    let st := fold_left handle events initial in
    1 ≤ bufferSize st ∧ 0 ≤ items st ≤ bufferSize st ∧
    empty st + full st = bufferSize st ∧
    (length (log st) ≤ 12)%nat ∧
    items (handleProduce st) = Z.min (items st + 1) (bufferSize st) ∧
    items (handleConsume st) = Z.max (items st - 1) 0.
Proof.
  intros events st.
  assert (Hst : bounded st).
  { unfold st. assert (G : ∀ st0, bounded st0 → bounded (fold_left handle events st0)).
    { induction events as [|e events IH]; intros st0 Hst0; [done|].
      simpl. apply IH. by apply handle_bounded. }
    apply G. unfold bounded, initial. simpl. lia. }
  destruct Hst as (Hsize & Hitems & Hlog & _).
  split; [done|]. split; [done|]. split; [unfold empty, full; lia|]. split; [done|].
  unfold handleProduce, handleConsume.
  destruct (Z.leb_spec (bufferSize st) (items st)),
    (Z.leb_spec (items st) 0); simpl; lia.
Qed.

End ProcessSynchronizationFacts.

(** ** CPU scheduling: no process starts early or finishes short *)

Section ProcessSchedulingTimes.
Import ProcessScheduling.
Local Open Scope Z_scope.

(** Where a process stands at time [t]: not started, with its whole burst
    ahead; started, having run at most the time elapsed since; or completed,
    at least one burst after it started. *)
Definition timely (t : Z) (j : job) : Prop :=
  match startTime j, completionTime j with
  | None, None => remaining j = j_burst j ∧ 0 < j_burst j
  | None, Some _ => False
  | Some s, None =>
      j_arrival j ≤ s ∧ s + (j_burst j - remaining j) ≤ t ∧ 0 < remaining j ≤ j_burst j
  | Some s, Some c => j_arrival j ≤ s ∧ s + j_burst j ≤ c ∧ remaining j = 0
  end.

(** An entry of the schedule that starts no earlier than the process
    arrives and completes no earlier than one burst later. *)
Definition punctual (e : entry) : Prop :=
  j_arrival (e_job e) ≤ e_startTime e ∧
  e_startTime e + j_burst (e_job e) ≤ e_completionTime e ∧
  0 ≤ waitingTime e.

Lemma timely_mono t t' j : t ≤ t' → timely t j → timely t' j.
Proof.
  unfold timely. intros Ht. destruct (startTime j), (completionTime j); try done. lia.
Qed.

Lemma timely_pending t j : timely t j → completionTime j = None → 0 < remaining j.
Proof. unfold timely. intros H Hc. rewrite Hc in H. destruct (startTime j); lia. Qed.

Lemma timely_ran t t' ran j :
  timely t j → completionTime j = None → j_arrival j ≤ t → 0 < ran ≤ remaining j →
  t' = t + ran →
  let current := set_remaining (remaining (markStarted t j) - ran) (markStarted t j) in
  timely t' (if 0 <? remaining current then current else set_completionTime t' current) ∧
  timely t' (if remaining current =? 0 then set_completionTime t' current else current).
Proof.
  intros Hj Hc Harr Hran -> current. unfold current, timely, markStarted in *.
  rewrite Hc in *. destruct (startTime j) as [s|] eqn:Hs; simpl; rewrite ?Hs, ?Hc; simpl.
  - destruct (Z.ltb_spec 0 (remaining j - ran)), (Z.eqb_spec (remaining j - ran) 0);
      simpl; rewrite ?Hs, ?Hc; simpl; lia.
  - destruct (Z.ltb_spec 0 (remaining j - ran)), (Z.eqb_spec (remaining j - ran) 0);
      simpl; rewrite ?Hs, ?Hc; simpl; lia.
Qed.

Lemma timely_complete t j :
  timely t j → completionTime j ≠ None →
  punctual (finishQueued j) ∧ punctual (finishPreemptive j).
Proof.
  unfold timely, punctual, finishQueued, finishPreemptive, report.
  destruct (startTime j) as [s|], (completionTime j) as [c|]; simpl; try done; lia.
Qed.

Lemma timely_done t j : timely t j → remaining j ≤ 0 → completionTime j ≠ None.
Proof.
  unfold timely. destruct (startTime j), (completionTime j); try done; lia.
Qed.

Lemma activate_timely processes t :
  wellFormed processes → indexed (map activate (prepareProcesses processes)) ∧
  Forall (timely t) (map activate (prepareProcesses processes)) ∧
  Forall (λ j, completionTime j = None) (map activate (prepareProcesses processes)).
Proof.
  intros Hwf. split; [apply activate_indexed|].
  rewrite <- Forall_and. apply Forall_forall. intros j [i Hj]%list_elem_of_lookup.
  rewrite list_lookup_fmap in Hj.
  destruct (prepareProcesses processes !! i) as [j0|] eqn:Hj0; [|done].
  simpl in Hj. injection Hj as <-.
  apply prepareProcesses_lookup in Hj0 as (_ & p & Hp & _ & Hburst).
  unfold wellFormed in Hwf. rewrite Forall_forall in Hwf.
  destruct (Hwf p) as [_ Hpos]; [by eapply list_elem_of_lookup_2|].
  unfold timely, activate. simpl. split; [|done]. lia.
Qed.

(** *** The preemptive runner *)

Lemma minArrival_None l : minArrival l = None → l = [].
Proof.
  destruct l as [|p l]; [done|]. unfold minArrival. simpl. intros H. exfalso.
  revert H. generalize (j_arrival p).
  induction l as [|q l IH]; intros a; simpl; [done|]. apply IH.
Qed.

Lemma preemptive_loop_timely comparator fuel data time data' :
  indexed data → Forall (timely time) data →
  preemptive_loop fuel comparator data time = Ret data' →
  Forall (λ j, punctual (finishPreemptive j)) data'.
Proof.
  revert data time. induction fuel as [|fuel IH]; intros data time Hidx Hdata; [done|].
  simpl.
  assert (Hfinal : (∀ j, j ∈ data → remaining j ≤ 0) →
                   Forall (λ j, punctual (finishPreemptive j)) data).
  { intros Hall. apply Forall_forall. intros j Hj. rewrite Forall_forall in Hdata.
    eapply timely_complete; [by apply Hdata|]. eapply timely_done; [by apply Hdata|].
    by apply Hall. }
  destruct (existsb _ data) eqn:Hex; simpl.
  2:{ intros [= <-]. apply Hfinal. intros j Hj.
      destruct (Z.ltb_spec 0 (remaining j)) as [Hpos|]; [|done].
      assert (existsb (λ p, 0 <? remaining p) data = true); [|congruence].
      apply existsb_exists. exists j. split; [by apply list_elem_of_In|by apply Z.ltb_lt]. }
  set (available :=
         List.filter (λ p, (j_arrival p <=? time) && (0 <? remaining p)) data).
  destruct (sort comparator available) as [|chosen sorted] eqn:Hsort.
  - assert (available = []) as Havail.
    { apply (f_equal length) in Hsort. rewrite sort_length in Hsort.
      by destruct available. }
    destruct (minArrival _) as [nextArrival|] eqn:Hmin.
    + apply minArrival_spec in Hmin as ((p & Hp & Ha) & Hall).
      apply list_elem_of_In, filter_In in Hp as [Hp Hrem]. apply list_elem_of_In in Hp.
      assert (Hlate : time < j_arrival p).
      { destruct (Z.leb_spec (j_arrival p) time) as [Hle|]; [|done]. exfalso.
        assert (p ∈ available) as Hin.
        { apply list_elem_of_In, filter_In. split; [by apply list_elem_of_In|].
          apply andb_true_intro. split; [lia|done]. }
        rewrite Havail in Hin. by apply elem_of_nil in Hin. }
      apply IH; [done|]. eapply Forall_impl; [done|].
      intros j. apply timely_mono. lia.
    + intros [= <-]. apply minArrival_None in Hmin. apply Hfinal. intros j Hj.
      destruct (Z.ltb_spec 0 (remaining j)) as [Hpos|]; [|done].
      assert (Hin : In j (List.filter (λ p, 0 <? remaining p) data)).
      { apply filter_In. split; [by apply list_elem_of_In|by apply Z.ltb_lt]. }
      rewrite Hmin in Hin. by destruct Hin.
  - assert (chosen ∈ available) as Hin.
    { apply (sort_elem_of comparator). rewrite Hsort. by left. }
    apply list_elem_of_In, filter_In in Hin as [Hin Hc]. apply list_elem_of_In in Hin.
    apply andb_prop in Hc as [Harr%Z.leb_le Hrem%Z.ltb_lt].
    assert (Hlook : data !! order chosen = Some chosen).
    { apply list_elem_of_lookup in Hin as [i Hi]. by rewrite (Hidx i chosen Hi). }
    assert (Htimely : timely time chosen).
    { rewrite Forall_forall in Hdata. by apply Hdata. }
    assert (Hopen : completionTime chosen = None).
    { unfold timely in Htimely.
      destruct (startTime chosen), (completionTime chosen); try done; lia. }
    set (nextArrival := minArrival _).
    set (finishTime := time + remaining (markStarted time chosen)).
    set (nextTime := match nextArrival with
                     | Some a => if a <? finishTime then a else finishTime
                     | None => finishTime
                     end).
    assert (Hnext : time < nextTime ≤ time + remaining chosen).
    { unfold nextTime, finishTime. rewrite markStarted_remaining.
      destruct nextArrival as [a|] eqn:Hmin; [|lia].
      destruct (Z.ltb_spec a (time + remaining chosen)) as [Hlt|Hge]; [|lia].
      apply minArrival_spec in Hmin as ((p & Hp & Ha) & _).
      apply list_elem_of_In, filter_In in Hp as [Hp Hq].
      apply andb_prop in Hq as [Hq1%Z.ltb_lt Hq2%Z.ltb_lt]. lia. }
    destruct (timely_ran time nextTime (nextTime - time) chosen Htimely Hopen Harr
                ltac:(lia) ltac:(lia)) as [_ Hcurrent].
    cbv zeta in Hcurrent.
    intros Hloop. eapply IH; [| |exact Hloop].
    + intros i j Hj. destruct (decide (order chosen = i)) as [<-|Hne].
      * rewrite list_lookup_insert_eq in Hj by (by eapply lookup_lt_Some).
        injection Hj as <-. unfold markStarted.
        by destruct (_ =? 0), (startTime chosen).
      * rewrite list_lookup_insert_ne in Hj by done. by apply Hidx.
    + apply Forall_insert; [|done].
      eapply Forall_impl; [done|]. intros j. apply timely_mono. lia.
Qed.

Lemma runPreemptive_punctual fuel processes comparator schedule :
  wellFormed processes →
  runPreemptive fuel processes comparator = Ret schedule → Forall punctual schedule.
Proof.
  intros Hwf. unfold runPreemptive.
  set (data := map activate (prepareProcesses processes)).
  destruct (preemptive_loop fuel comparator data _) as [data'| |] eqn:Hloop; [|done..].
  simpl. intros [= <-]. apply Forall_fmap.
  destruct (activate_timely processes
              (match minArrival data with Some m => m | None => 0 end) Hwf)
    as (Hidx & Htimely & _).
  by eapply preemptive_loop_timely.
Qed.

(** *** Round Robin *)

Lemma enqueue_arrivals_moved data t pending ready pending1 ready1 :
  enqueue_arrivals data t pending ready = (pending1, ready1) →
  ∃ moved, pending = moved ++ pending1 ∧ ready1 = ready ++ moved ∧
           (∀ i, i ∈ moved → arrivalOf data i ≤ t) ∧
           ∀ i rest, pending1 = i :: rest → t < arrivalOf data i.
Proof.
  revert ready. induction pending as [|i pending IH]; intros ready; simpl.
  { intros [= <- <-]. exists []. rewrite !app_nil_r. repeat split; try done.
    by intros i ?%elem_of_nil. }
  destruct (Z.leb_spec (arrivalOf data i) t) as [Hle|Hgt].
  - intros (moved & -> & -> & Hmoved & Hhead)%IH. exists (i :: moved).
    rewrite <- app_assoc. repeat split; try done.
    intros k [->|Hk]%elem_of_cons; [done|by apply Hmoved].
  - intros [= <- <-]. exists []. rewrite !app_nil_r. repeat split.
    + by intros k ?%elem_of_nil.
    + intros i' rest [= <- _]. done.
Qed.

(** The queues of Round Robin hold each unfinished process once. *)
Definition rr_timely (st : rr_state) : Prop :=
  Forall (timely (time st)) (data st) ∧
  NoDup (pending st ++ ready st) ∧
  (∀ i, i ∈ pending st → ∃ j, data st !! i = Some j ∧ completionTime j = None) ∧
  (∀ i, i ∈ ready st →
        ∃ j, data st !! i = Some j ∧ completionTime j = None ∧ j_arrival j ≤ time st) ∧
  (∀ i j, data st !! i = Some j → completionTime j = None → i ∈ pending st ++ ready st).

Lemma rr_turn_timely quantum st st' :
  0 < quantum → rr_timely st → rr_turn quantum st = Ret st' → rr_timely st'.
Proof.
  intros Hq (Hdata & Hnd & Hpending & Hready & Hqueued). unfold rr_turn.
  destruct (enqueue_arrivals (data st) (time st) (pending st) (ready st))
    as [pending1 ready1] eqn:Henq.
  apply enqueue_arrivals_moved in Henq as (moved & Hp & Hr & Hmoved & Hhead).
  destruct ready1 as [|c ready2].
  - destruct pending1 as [|i rest]; [done|]. intros [= <-].
    symmetry in Hr. apply app_eq_nil in Hr as [Hr ->]. simpl in Hp.
    specialize (Hhead i rest eq_refl).
    unfold rr_timely. simpl. rewrite app_nil_r, <- !Hp. rewrite Hr, app_nil_r in Hnd, Hqueued.
    split; [|split; [done|split; [done|split; [|done]]]].
    + eapply Forall_impl; [done|]. intros j. apply timely_mono. lia.
    + by intros k ?%elem_of_nil.
  - assert (Hc : ∃ current, data st !! c = Some current ∧ completionTime current = None ∧
                            j_arrival current ≤ time st).
    { assert (c ∈ ready st ++ moved) as [Hin|Hin]%elem_of_app
        by (rewrite <- Hr; by left).
      - by apply Hready.
      - destruct (Hpending c) as (j & Hj & Hopen).
        { rewrite Hp. apply elem_of_app. by left. }
        exists j. split; [done|]. split; [done|].
        specialize (Hmoved c Hin). unfold arrivalOf in Hmoved. by rewrite Hj in Hmoved. }
    destruct Hc as (current & Hcur & Hopen & Harr). rewrite Hcur.
    assert (Hcurrent : timely (time st) current).
    { rewrite Forall_forall in Hdata. apply Hdata. by eapply list_elem_of_lookup_2. }
    pose proof (timely_pending _ _ Hcurrent Hopen) as Hrem.
    set (runTime := Z.min quantum (remaining (markStarted (time st) current))).
    assert (Hrun : 0 < runTime ≤ remaining current).
    { unfold runTime. rewrite markStarted_remaining. lia. }
    destruct (timely_ran (time st) (time st + runTime) runTime current Hcurrent Hopen Harr
                Hrun eq_refl) as [Hnew _]. cbv zeta in Hnew.
    set (current' := set_remaining (remaining (markStarted (time st) current) - runTime)
                       (markStarted (time st) current)) in *.
    destruct (enqueue_arrivals (data st) (time st + runTime) pending1 ready2)
      as [pending2 ready3] eqn:Henq'.
    apply enqueue_arrivals_moved in Henq' as (moved' & Hp' & Hr' & Hmoved' & _).
    assert (Hperm : pending st ++ ready st ≡ₚ c :: (pending2 ++ ready3)).
    { rewrite Hp, Hp', Hr'.
      transitivity ((ready st ++ moved) ++ moved' ++ pending2); [solve_Permutation|].
      rewrite <- Hr. solve_Permutation. }
    rewrite Hperm in Hnd. apply NoDup_cons in Hnd as [Hfresh Hnd].
    assert (Hother : ∀ i, i ∈ pending2 ++ ready3 → i ≠ c) by (intros i Hi ->; done).
    assert (Hopenq : ∀ i, i ∈ pending2 ++ ready3 →
              ∃ j, data st !! i = Some j ∧ completionTime j = None ∧
                   (i ∈ ready3 → j_arrival j ≤ time st + runTime)).
    { intros i Hi. rewrite Hr' in Hi |- *.
      assert (Hcases : i ∈ pending st ∨ i ∈ ready2).
      { rewrite Hp, Hp'. rewrite !elem_of_app in *. tauto. }
      assert (Hex : ∃ j, data st !! i = Some j ∧ completionTime j = None).
      { destruct Hcases as [Hin|Hin]; [by apply Hpending|].
        assert (i ∈ ready st ++ moved) as [Hin'|Hin']%elem_of_app
          by (rewrite <- Hr; by right).
        - destruct (Hready i Hin') as (j & ? & ? & _). by exists j.
        - apply Hpending. rewrite Hp. apply elem_of_app. by left. }
      destruct Hex as (j & Hj & Hjopen). exists j. split; [done|]. split; [done|].
      intros [Hin|Hin]%elem_of_app.
      - assert (i ∈ ready st ++ moved) as [Hin'|Hin']%elem_of_app
          by (rewrite <- Hr; by right).
        + destruct (Hready i Hin') as (j' & Hj' & _ & Ha). assert (j' = j) as -> by congruence.
          lia.
        + specialize (Hmoved i Hin'). unfold arrivalOf in Hmoved. rewrite Hj in Hmoved.
          simpl in Hmoved. lia.
      - specialize (Hmoved' i Hin). unfold arrivalOf in Hmoved'. rewrite Hj in Hmoved'.
        simpl in Hmoved'. lia. }
    assert (Hrest : Forall (timely (time st + runTime)) (data st)).
    { eapply Forall_impl; [done|]. intros j. apply timely_mono. lia. }
    assert (Hlt : (c < length (data st))%nat) by (by eapply lookup_lt_Some).
    fold runTime. destruct (0 <? remaining current') eqn:Hleft; intros [= <-];
      unfold rr_timely; simpl.
    + split; [by apply Forall_insert|]. split; [|split; [|split]].
      * rewrite app_assoc. apply NoDup_app. split; [done|]. split; [|apply NoDup_singleton].
        intros i Hi ->%list_elem_of_singleton. done.
      * intros i Hi. destruct (Hopenq i) as (j & Hj & Hjopen & _).
        { apply elem_of_app. by left. }
        exists j. split; [|done]. rewrite list_lookup_insert_ne; [done|].
        intros ->. apply (Hother i); [|done]. apply elem_of_app. by left.
      * intros i [Hi| ->%list_elem_of_singleton]%elem_of_app.
        -- destruct (Hopenq i) as (j & Hj & Hjopen & Hja).
           { apply elem_of_app. by right. }
           exists j. split; [|by split; [|apply Hja]].
           rewrite list_lookup_insert_ne; [done|].
           intros ->. apply (Hother i); [|done]. apply elem_of_app. by right.
        -- exists current'. rewrite list_lookup_insert_eq by done. split; [done|].
           unfold current', markStarted. destruct (startTime current); simpl; split; try done; lia.
      * intros i j Hj Hjopen. destruct (decide (i = c)) as [->|Hne].
        { rewrite app_assoc. apply elem_of_app. right. by apply list_elem_of_singleton. }
        rewrite list_lookup_insert_ne in Hj by done.
        specialize (Hqueued i j Hj Hjopen). rewrite Hperm in Hqueued.
        apply elem_of_cons in Hqueued as [?|Hin]; [done|].
        rewrite app_assoc. apply elem_of_app. by left.
    + split; [by apply Forall_insert|]. split; [done|]. split; [|split].
      * intros i Hi. destruct (Hopenq i) as (j & Hj & Hjopen & _).
        { apply elem_of_app. by left. }
        exists j. split; [|done]. rewrite list_lookup_insert_ne; [done|].
        intros ->. apply (Hother i); [|done]. apply elem_of_app. by left.
      * intros i Hi. destruct (Hopenq i) as (j & Hj & Hjopen & Hja).
        { apply elem_of_app. by right. }
        exists j. split; [|by split; [|apply Hja]].
        rewrite list_lookup_insert_ne; [done|].
        intros ->. apply (Hother i); [|done]. apply elem_of_app. by right.
      * intros i j Hj Hjopen. destruct (decide (i = c)) as [->|Hne].
        { rewrite list_lookup_insert_eq in Hj by done. injection Hj as <-. done. }
        rewrite list_lookup_insert_ne in Hj by done.
        specialize (Hqueued i j Hj Hjopen). rewrite Hperm in Hqueued.
        by apply elem_of_cons in Hqueued as [?|Hin].
Qed.

Lemma rr_loop_timely fuel quantum st st' :
  0 < quantum → rr_timely st → rr_loop fuel quantum st = Ret st' →
  Forall (λ j, punctual (finishQueued j)) (data st').
Proof.
  intros Hq. revert st. induction fuel as [|fuel IH]; intros st Hst; [done|]. simpl.
  assert (Hturn : (st'' ← rr_turn quantum st; rr_loop fuel quantum st'') = Ret st' →
                  Forall (λ j, punctual (finishQueued j)) (data st')).
  { destruct (rr_turn quantum st) as [st''| |] eqn:Hturn; [|done..]. simpl.
    apply IH. by eapply rr_turn_timely. }
  destruct (ready st) as [|c ready'] eqn:Hr; [|done].
  destruct (pending st) as [|i pending'] eqn:Hp; [|done].
  intros [= <-]. destruct Hst as (Hdata & _ & _ & _ & Hqueued).
  rewrite Hr, Hp in Hqueued. apply Forall_forall. intros j [i Hj]%list_elem_of_lookup.
  rewrite Forall_forall in Hdata.
  eapply timely_complete; [apply Hdata; by eapply list_elem_of_lookup_2|].
  intros Hopen. specialize (Hqueued i j Hj Hopen). by apply elem_of_nil in Hqueued.
Qed.

Lemma activated_NoDup processes :
  NoDup (map order (sort sortByArrival (map activate (prepareProcesses processes)))).
Proof.
  rewrite (sort_perm sortByArrival), map_map.
  change (map (λ x, order (activate x)) (prepareProcesses processes))
    with (map order (prepareProcesses processes)).
  rewrite prepareProcesses_order. apply NoDup_seq.
Qed.

Lemma rr_initial_timely processes :
  wellFormed processes → rr_timely (rr_initial processes).
Proof.
  intros Hwf. unfold rr_initial, rr_timely. simpl.
  set (data := map activate (prepareProcesses processes)).
  destruct (activate_timely processes
              (match map order (sort sortByArrival data) with
               | i :: _ => arrivalOf data i
               | [] => 0
               end) Hwf) as (Hidx & Htimely & Hopen).
  fold data in Hidx, Htimely, Hopen. rewrite app_nil_r.
  split; [done|]. split; [apply activated_NoDup|]. split; [|split].
  - intros i (j & -> & Hj)%list_elem_of_fmap. apply sort_elem_of in Hj.
    exists j. rewrite Forall_forall in Hopen. split; [|by apply Hopen].
    apply list_elem_of_lookup in Hj as [k Hk]. by rewrite (Hidx k j Hk).
  - by intros i ?%elem_of_nil.
  - intros i j Hj _. apply list_elem_of_fmap. exists j. split.
    + by rewrite (Hidx i j Hj).
    + apply sort_elem_of. by eapply list_elem_of_lookup_2.
Qed.

Lemma runRoundRobin_punctual fuel processes settings schedule :
  wellFormed processes →
  runRoundRobin fuel processes settings = Ret schedule → Forall punctual schedule.
Proof.
  intros Hwf. unfold runRoundRobin.
  destruct (rrQuantum settings) as [quantum|]; [|done].
  destruct (Z.leb_spec quantum 0); [done|].
  destruct (rr_loop fuel quantum (rr_initial processes)) as [st| |] eqn:Hloop; [|done..].
  simpl. intros [= <-]. apply Forall_fmap.
  eapply rr_loop_timely; [|by apply rr_initial_timely|done]. done.
Qed.

(** *** The multi-level feedback queue *)

(** The fields of a process the timing depends on (not its level). *)
Definition times (j : job) : option Z * option Z * Z * Z * Z :=
  (startTime j, completionTime j, remaining j, j_arrival j, j_burst j).

Lemma timely_times t j j' : times j' = times j → timely t j → timely t j'.
Proof. unfold times, timely. by intros [= -> -> -> -> ->]. Qed.

Lemma lookup_times data data' k j' :
  map times data' = map times data → data' !! k = Some j' →
  ∃ j, data !! k = Some j ∧ times j' = times j.
Proof.
  intros Hview Hj'. apply (f_equal (λ l, l !! k)) in Hview.
  rewrite !list_lookup_fmap, Hj' in Hview.
  destruct (data !! k) as [j|]; [|done]. exists j. split; [done|].
  cbn [fmap option_fmap option_map] in Hview. congruence.
Qed.

Lemma update_times data i f :
  (∀ j, times (f j) = times j) → map times (update data i f) = map times data.
Proof.
  intros Hf. unfold update. destruct (data !! i) as [j|] eqn:Hj; [|done].
  apply list_eq. intros k. rewrite !list_lookup_fmap.
  destruct (decide (k = i)) as [->|Hne].
  - rewrite list_lookup_insert_eq by (by eapply lookup_lt_Some). rewrite Hj. simpl.
    by rewrite Hf.
  - by rewrite list_lookup_insert_ne.
Qed.

Lemma update_completed data data' c t' current :
  map times data' = map times (<[c := current]> data) → (c < length data)%nat →
  map times (update data' c (set_completionTime t'))
  = map times (<[c := set_completionTime t' current]> data).
Proof.
  intros Hview Hc. apply list_eq. intros k.
  assert (Hlen : length data' = length data).
  { apply (f_equal length) in Hview. by rewrite !length_map, length_insert in Hview. }
  unfold update. destruct (lookup_lt_is_Some_2 data' c) as [j' Hj']; [lia|]. rewrite Hj'.
  destruct (lookup_times _ _ _ _ Hview Hj') as (j & Hj & Htimes).
  rewrite list_lookup_insert_eq in Hj by done. injection Hj as <-.
  rewrite !list_lookup_fmap. destruct (decide (k = c)) as [->|Hne].
  - rewrite !list_lookup_insert_eq by lia. simpl. f_equal.
    unfold times in *. simpl. by injection Htimes as -> _ -> -> ->.
  - rewrite !list_lookup_insert_ne by done.
    apply (f_equal (λ l, l !! k)) in Hview.
    by rewrite !list_lookup_fmap, list_lookup_insert_ne in Hview.
Qed.

Lemma arrivalOf_times data data' k :
  map times data' = map times data → arrivalOf data' k = arrivalOf data k.
Proof.
  intros Hview. apply (f_equal (λ l, l !! k)) in Hview.
  rewrite !list_lookup_fmap in Hview. unfold arrivalOf.
  destruct (data' !! k) as [j'|], (data !! k) as [j|]; simpl in *; try done.
  by injection Hview as _ _ _ -> _.
Qed.

(** Every unfinished process is held once, in [P] (yet to arrive) or in [R]
    (arrived and waiting for the processor). *)
Definition queued (data : list job) (t : Z) (P R : list nat) : Prop :=
  Forall (timely t) data ∧
  NoDup (P ++ R) ∧
  (∀ i, i ∈ P → ∃ j, data !! i = Some j ∧ completionTime j = None) ∧
  (∀ i, i ∈ R → ∃ j, data !! i = Some j ∧ completionTime j = None ∧ j_arrival j ≤ t) ∧
  (∀ i j, data !! i = Some j → completionTime j = None → i ∈ P ++ R).

Lemma queued_view data data' t t' P R R' :
  queued data t P R → map times data' = map times data → R' ≡ₚ R → t ≤ t' →
  queued data' t' P R'.
Proof.
  intros (Hdata & Hnd & HP & HR & Hall) Hview Hperm Ht.
  assert (Hback : ∀ i j, data !! i = Some j → ∃ j', data' !! i = Some j' ∧ times j' = times j).
  { intros i j Hj. destruct (lookup_lt_is_Some_2 data' i) as [j' Hj'].
    - apply (f_equal length) in Hview. rewrite !length_map in Hview. rewrite Hview.
      by eapply lookup_lt_Some.
    - exists j'. split; [done|].
      destruct (lookup_times _ _ _ _ Hview Hj') as (j0 & Hj0 & ?). congruence. }
  split; [|split; [|split; [|split]]].
  - apply Forall_forall. intros j' [i Hj']%list_elem_of_lookup.
    destruct (lookup_times _ _ _ _ Hview Hj') as (j & Hj & Htimes).
    apply (timely_times _ j); [done|]. apply (timely_mono t); [done|].
    rewrite Forall_forall in Hdata. apply Hdata. by eapply list_elem_of_lookup_2.
  - by rewrite Hperm.
  - intros i Hi. destruct (HP i Hi) as (j & Hj & Hopen).
    destruct (Hback i j Hj) as (j' & Hj' & Htimes). exists j'. split; [done|].
    unfold times in Htimes. by injection Htimes as _ -> _ _ _.
  - intros i Hi. rewrite Hperm in Hi. destruct (HR i Hi) as (j & Hj & Hopen & Harr).
    destruct (Hback i j Hj) as (j' & Hj' & Htimes). exists j'. split; [done|].
    unfold times in Htimes. injection Htimes as _ -> _ -> _. split; [done|lia].
  - intros i j' Hj' Hopen. rewrite Hperm.
    destruct (lookup_times _ _ _ _ Hview Hj') as (j & Hj & Htimes).
    apply (Hall i j Hj). unfold times in Htimes. by injection Htimes as _ <- _ _ _.
Qed.

Lemma queued_move data t moved P R :
  queued data t (moved ++ P) R → (∀ i, i ∈ moved → arrivalOf data i ≤ t) →
  queued data t P (R ++ moved).
Proof.
  intros (Hdata & Hnd & HP & HR & Hall) Hmoved.
  split; [done|]. split; [|split; [|split]].
  - eapply NoDup_Permutation_proper; [|exact Hnd]. solve_Permutation.
  - intros i Hi. apply HP, elem_of_app. by right.
  - intros i [Hi|Hi]%elem_of_app; [by apply HR|].
    destruct (HP i) as (j & Hj & Hopen); [apply elem_of_app; by left|].
    exists j. split; [done|]. split; [done|].
    specialize (Hmoved i Hi). unfold arrivalOf in Hmoved. by rewrite Hj in Hmoved.
  - intros i j Hj Hopen. specialize (Hall i j Hj Hopen).
    rewrite !elem_of_app in *. tauto.
Qed.

Lemma queued_run data t P c R current ran :
  queued data t P (c :: R) → data !! c = Some current → 0 < ran ≤ remaining current →
  let current' := set_remaining (remaining (markStarted t current) - ran)
                    (markStarted t current) in
  if 0 <? remaining current'
  then queued (<[c := current']> data) (t + ran) P (c :: R)
  else queued (<[c := set_completionTime (t + ran) current']> data) (t + ran) P R.
Proof.
  intros (Hdata & Hnd & HP & HR & Hall) Hcur Hran current'.
  destruct (HR c) as (j & Hj & Hopen & Harr); [by left|].
  assert (j = current) as -> by congruence.
  assert (Hcurrent : timely t current).
  { rewrite Forall_forall in Hdata. apply Hdata. by eapply list_elem_of_lookup_2. }
  destruct (timely_ran t (t + ran) ran current Hcurrent Hopen Harr Hran eq_refl)
    as [Hnew _]. cbv zeta in Hnew. fold current' in Hnew.
  assert (Hlt : (c < length data)%nat) by (by eapply lookup_lt_Some).
  assert (Hrest : Forall (timely (t + ran)) data).
  { eapply Forall_impl; [done|]. intros j. apply timely_mono. lia. }
  assert (Hfresh : c ∉ P ++ R).
  { assert (Hnd' : NoDup (c :: (P ++ R))).
    { eapply NoDup_Permutation_proper; [|exact Hnd]. solve_Permutation. }
    by apply NoDup_cons in Hnd' as [? _]. }
  assert (Hkeep : ∀ i (x : job), i ∈ P ++ R → <[c := x]> data !! i = data !! i).
  { intros i x Hi. apply list_lookup_insert_ne. by intros ->. }
  destruct (0 <? remaining current') eqn:Hleft.
  - split; [by apply Forall_insert|]. split; [done|]. split; [|split].
    + intros i Hi. rewrite Hkeep by (apply elem_of_app; by left). by apply HP.
    + intros i [->|Hi]%elem_of_cons.
      * exists current'. rewrite list_lookup_insert_eq by done. split; [done|].
        unfold current', markStarted. destruct (startTime current); simpl; split; try done; lia.
      * rewrite Hkeep by (apply elem_of_app; by right).
        destruct (HR i) as (j & Hj' & Hjopen & Hja); [by right|].
        exists j. split; [done|]. split; [done|lia].
    + intros i j Hj' Hjopen. destruct (decide (i = c)) as [->|Hne].
      { apply elem_of_app. right. by left. }
      rewrite list_lookup_insert_ne in Hj' by done. by apply (Hall i j).
  - split; [by apply Forall_insert|]. split; [|split; [|split]].
    + assert (Hnd' : NoDup (c :: (P ++ R))).
      { eapply NoDup_Permutation_proper; [|exact Hnd]. solve_Permutation. }
      by apply NoDup_cons in Hnd' as [_ ?].
    + intros i Hi. rewrite Hkeep by (apply elem_of_app; by left). by apply HP.
    + intros i Hi. rewrite Hkeep by (apply elem_of_app; by right).
      destruct (HR i) as (j & Hj' & Hjopen & Hja); [by right|].
      exists j. split; [done|]. split; [done|lia].
    + intros i j Hj' Hjopen. destruct (decide (i = c)) as [->|Hne].
      { rewrite list_lookup_insert_eq in Hj' by done. injection Hj' as <-. done. }
      rewrite list_lookup_insert_ne in Hj' by done.
      specialize (Hall i j Hj' Hjopen). rewrite !elem_of_app, elem_of_cons in Hall.
      rewrite elem_of_app. tauto.
Qed.

Lemma queued_complete data t :
  queued data t [] [] → Forall (λ j, punctual (finishQueued j)) data.
Proof.
  intros (Hdata & _ & _ & _ & Hall). apply Forall_forall.
  intros j [i Hj]%list_elem_of_lookup. rewrite Forall_forall in Hdata.
  eapply timely_complete; [apply Hdata; by eapply list_elem_of_lookup_2|].
  intros Hopen. specialize (Hall i j Hj Hopen). by apply elem_of_nil in Hall.
Qed.

Lemma concat_insert_perm (queues : list (list nat)) l q q' :
  queues !! l = Some q → concat (<[l := q']> queues) ++ q ≡ₚ concat queues ++ q'.
Proof.
  revert l. induction queues as [|q0 queues IH]; intros [|l] Hq; simpl in *; try done.
  - injection Hq as ->. solve_Permutation.
  - rewrite <- !app_assoc. apply Permutation_app_head. by apply IH.
Qed.

Lemma push_perm (queues : list (list nat)) l i :
  (l < length queues)%nat → concat (push queues l i) ≡ₚ concat queues ++ [i].
Proof.
  intros Hl. unfold push. destruct (lookup_lt_is_Some_2 queues l Hl) as [q Hq]. rewrite Hq.
  apply (Permutation_app_inv_r q).
  rewrite (concat_insert_perm queues l q (q ++ [i]) Hq). solve_Permutation.
Qed.

Lemma m_enqueue_moved data t pending queues data' pending' queues' :
  m_enqueue data t pending queues = (data', pending', queues') →
  (0 < length queues)%nat →
  ∃ moved, pending = moved ++ pending' ∧
           concat queues' ≡ₚ concat queues ++ moved ∧
           length queues' = length queues ∧
           map times data' = map times data ∧
           (∀ i, i ∈ moved → arrivalOf data i ≤ t) ∧
           ∀ i rest, pending' = i :: rest → t < arrivalOf data i.
Proof.
  revert data queues. induction pending as [|i pending IH]; intros data queues; simpl.
  { intros [= <- <- <-] Hq. exists [].
    split; [done|]. split; [by rewrite app_nil_r|]. split; [done|]. split; [done|].
    split; [by intros i ?%elem_of_nil|done]. }
  destruct (Z.leb_spec (arrivalOf data i) t) as [Hle|Hgt].
  - intros Henq Hq. apply IH in Henq as (moved & -> & Hperm & Hlen & Hview & Hmoved & Hhead).
    2:{ by rewrite push_length. }
    assert (Hdata : map times (update data i (set_level 0)) = map times data)
      by (by apply update_times).
    exists (i :: moved). split; [done|]. split; [|split; [|split; [|split]]].
    + rewrite Hperm, push_perm by done. solve_Permutation.
    + by rewrite Hlen, push_length.
    + by rewrite Hview.
    + intros k [->|Hk]%elem_of_cons; [done|].
      rewrite <- (arrivalOf_times _ _ k Hdata). by apply Hmoved.
    + intros k rest Hk. rewrite <- (arrivalOf_times _ _ k Hdata). by eapply Hhead.
  - intros [= <- <- <-] Hq. exists [].
    split; [done|]. split; [by rewrite app_nil_r|]. split; [done|]. split; [done|]. split.
    + by intros k ?%elem_of_nil.
    + intros k rest [= <- _]. done.
Qed.

Definition mlfq_timely (quantums : list (option Z)) (st : mlfq_state) : Prop :=
  queued (m_data st) (m_time st) (m_pending st) (concat (queues st)) ∧
  length (queues st) = length quantums ∧ (0 < length quantums)%nat.

Lemma mlfq_turn_timely quantums st st' :
  positive quantums → mlfq_timely quantums st → mlfq_turn quantums st = Ret st' →
  mlfq_timely quantums st'.
Proof.
  intros Hpos (Hst & Hlen & Hsome). unfold mlfq_turn.
  destruct (m_enqueue (m_data st) (m_time st) (m_pending st) (queues st))
    as [[data1 pending1] queues1] eqn:Henq.
  apply m_enqueue_moved in Henq as (moved & Hp & Hq1 & Hlen1 & Hview1 & Hmoved & Hhead);
    [|lia].
  rewrite Hp in Hst. apply queued_move in Hst; [|done].
  assert (Hst1 : queued data1 (m_time st) pending1 (concat queues1))
    by (by apply (queued_view _ _ _ _ _ _ _ Hst)).
  destruct (list_find (λ q, q ≠ []) queues1) as [[queueIndex q]|] eqn:Hfind.
  - apply list_find_Some in Hfind as (Hq & Hne & _).
    destruct q as [|c q']; [done|].
    destruct (data1 !! c) as [current|] eqn:Hcur; [|done].
    destruct (quantums !! queueIndex) as [quantum|] eqn:Hquantum; [|done].
    assert (Hsplit : concat queues1 ≡ₚ c :: concat (<[queueIndex := q']> queues1)).
    { apply (Permutation_app_inv_r q').
      rewrite <- (concat_insert_perm queues1 queueIndex (c :: q') q' Hq). solve_Permutation. }
    assert (Hst2 : queued data1 (m_time st) pending1
                     (c :: concat (<[queueIndex := q']> queues1))).
    { apply (queued_view _ _ _ _ _ _ _ Hst1); [done|by symmetry|lia]. }
    assert (Hopen : completionTime current = None ∧ timely (m_time st) current).
    { destruct Hst2 as (Hdata & _ & _ & HR & _).
      destruct (HR c) as (j & Hj & Hjopen & _); [by left|].
      assert (j = current) as -> by congruence. split; [done|].
      rewrite Forall_forall in Hdata. apply Hdata. by eapply list_elem_of_lookup_2. }
    destruct Hopen as [Hopen Hcurrent].
    pose proof (timely_pending _ _ Hcurrent Hopen) as Hrem.
    pose proof (Forall_lookup_1 _ _ _ _ Hpos Hquantum) as Hq0. simpl in Hq0.
    set (runTime := slice quantum (remaining (markStarted (m_time st) current))).
    assert (Hrun : 0 < runTime ≤ remaining current).
    { unfold runTime. rewrite markStarted_remaining.
      pose proof (slice_bounds quantum (remaining current) Hq0 ltac:(lia)). lia. }
    pose proof (queued_run _ _ _ _ _ _ runTime Hst2 Hcur Hrun) as Hst3.
    cbv zeta in Hst3.
    set (current' := set_remaining (remaining (markStarted (m_time st) current) - runTime)
                       (markStarted (m_time st) current)) in *.
    destruct (m_enqueue (<[c := current']> data1) (m_time st + runTime) pending1
                (<[queueIndex := q']> queues1)) as [[data2 pending2] queues3] eqn:Henq2.
    apply m_enqueue_moved in Henq2
      as (moved' & Hp' & Hq3 & Hlen3 & Hview3 & Hmoved' & _).
    2:{ rewrite length_insert. lia. }
    rewrite length_insert in Hlen3.
    assert (Hc : (c < length data1)%nat) by (by eapply lookup_lt_Some).
    destruct (0 <? remaining current') eqn:Hleft; intros [= <-].
    + split; [|split; [simpl; by rewrite push_length, Hlen3, Hlen1|done]]. simpl.
      rewrite Hp' in Hst3. apply queued_move in Hst3; [|done].
      apply (queued_view _ _ _ _ _ _ _ Hst3); [|rewrite push_perm|lia].
      * by rewrite update_times.
      * rewrite Hq3. solve_Permutation.
      * lia.
    + split; [|split; [simpl; by rewrite Hlen3, Hlen1|done]]. simpl.
      rewrite Hp' in Hst3. apply queued_move in Hst3.
      * apply (queued_view _ _ _ _ _ _ _ Hst3); [|done|lia].
        by apply update_completed.
      * intros i Hi.
        rewrite (arrivalOf_insert data1 c current) by
          (done || (unfold current', markStarted; by destruct (startTime current))).
        rewrite <- (arrivalOf_insert data1 c current current') by
          (done || (unfold current', markStarted; by destruct (startTime current))).
        by apply Hmoved'.
  - intros [= <-]. split; [|split; [simpl; by rewrite Hlen1|done]]. simpl.
    apply (queued_view _ _ _ _ _ _ _ Hst1); [done..|].
    destruct pending1 as [|i rest]; [lia|].
    specialize (Hhead i rest eq_refl). rewrite (arrivalOf_times _ _ i Hview1). lia.
Qed.

Lemma mlfq_loop_timely quantums fuel st st' :
  positive quantums → mlfq_timely quantums st → mlfq_loop fuel quantums st = Ret st' →
  Forall (λ j, punctual (finishQueued j)) (m_data st').
Proof.
  intros Hpos. revert st. induction fuel as [|fuel IH]; intros st Hst; [done|]. simpl.
  destruct (hasWork st) eqn:Hwork.
  - destruct (mlfq_turn quantums st) as [st''| |] eqn:Hturn; [|done..]. simpl.
    apply IH. by eapply mlfq_turn_timely.
  - intros [= <-]. destruct Hst as (Hst & _).
    unfold hasWork in Hwork. apply orb_false_elim in Hwork as [Hp Hq].
    apply bool_decide_eq_false in Hp.
    assert (m_pending st = []) as Hp'.
    { destruct (m_pending st); [done|]. by destruct Hp. }
    assert (concat (queues st) = []) as Hq'.
    { clear -Hq. induction (queues st) as [|q qs IH]; [done|]. simpl in *.
      apply orb_false_elim in Hq as [Hq Hqs]. apply bool_decide_eq_false in Hq.
      rewrite IH by done. destruct q; [done|]. by destruct Hq. }
    rewrite Hp', Hq' in Hst. by eapply queued_complete.
Qed.

Lemma runMlfq_punctual fuel processes settings schedule :
  wellFormed processes →
  runMlfq fuel processes settings = Ret schedule → Forall punctual schedule.
Proof.
  intros Hwf. unfold runMlfq.
  pose proof (quantumsOf_positive (mlfqLevels settings)) as Hpos.
  destruct (parseMlfqLevels (mlfqLevels settings)) as [|q0 levels]; [done|].
  set (quantums := quantumsOf (q0 :: levels)) in *.
  destruct (mlfq_loop fuel quantums (mlfq_initial processes quantums)) as [st| |] eqn:Hloop;
    [|done..].
  simpl. intros [= <-]. apply Forall_fmap.
  eapply mlfq_loop_timely; [done| |done].
  split; [|split; [simpl; by rewrite length_map|unfold quantums, quantumsOf; simpl; lia]].
  pose proof (rr_initial_timely processes Hwf) as Hrr.
  unfold mlfq_initial. simpl. rewrite concat_no_queue. exact Hrr.
Qed.

Lemma served_punctual e : served e → punctual e.
Proof. unfold served, punctual. lia. Qed.

(** X30: On whole-number times within [MAX_SAFE_INTEGER] (arrivals, bursts and
    quanta), whatever the algorithm, no process starts before it arrives,
    none completes before it has had its whole burst, and no waiting time is
    negative. *)
Theorem schedule_respects_arrival_and_burst :
  ∀ algorithm fuel processes settings schedule,
    wellFormed processes → exactTimes processes →
    schedulingStrategies algorithm fuel processes settings = Ret schedule →
    Forall (λ e, j_arrival (e_job e) ≤ e_startTime e ∧
                 e_startTime e + j_burst (e_job e) ≤ e_completionTime e ∧
                 0 ≤ waitingTime e) schedule.
Proof.
  intros algorithm fuel processes settings schedule Hwf _ Hrun.
  change (Forall punctual schedule).
  assert (Hnon : ∀ comparator,
            (∀ a b, comparator a b ≤ 0 ∨ comparator b a ≤ 0) →
            (∀ a b c, comparator a b ≤ 0 → comparator b c ≤ 0 → comparator a c ≤ 0) →
            runNonPreemptive fuel processes comparator = Ret schedule →
            Forall punctual schedule).
  { intros comparator Htotal Htrans Hloop. unfold runNonPreemptive in Hloop.
    destruct (nonPreemptive_loop_spec _ _ _ _ _ _ Htotal Htrans (prepared_NoDup processes)
                Hloop) as (added & -> & _ & _ & _ & Hserved & _).
    simpl. eapply Forall_impl; [done|]. apply served_punctual. }
  destruct algorithm; simpl in Hrun.
  - injection Hrun as <-. unfold runFcfs.
    destruct (fcfs_map_spec (sort sortByArrival (prepareProcesses processes)) 0)
      as (_ & _ & _ & Hserved).
    eapply Forall_impl; [done|]. apply served_punctual.
  - apply (Hnon compareByBurst); [apply compareByBurst_total|apply compareByBurst_trans|done].
  - by eapply runPreemptive_punctual.
  - apply (Hnon compareByPriority);
      [apply compareByPriority_total|apply compareByPriority_trans|done].
  - by eapply runPreemptive_punctual.
  - by eapply runRoundRobin_punctual.
  - by eapply runMlfq_punctual.
Qed.

Lemma schedule_respects_arrival_and_burst_witness :
  wellFormed initialProcesses ∧ exactTimes initialProcesses ∧
  ∃ schedule,
    schedulingStrategies mlfq 20 initialProcesses defaultSettings = Ret schedule ∧
    Forall (λ e, j_arrival (e_job e) ≤ e_startTime e ∧
                 e_startTime e + j_burst (e_job e) ≤ e_completionTime e ∧
                 0 ≤ waitingTime e) schedule.
Proof.
  assert (Hwf : wellFormed initialProcesses).
  { repeat constructor; simpl; lia. }
  assert (Hexact : exactTimes initialProcesses).
  { unfold exactTimes, horizon, MAX_SAFE_INTEGER. simpl. lia. }
  split; [exact Hwf|]. split; [exact Hexact|].
  assert (Hrun : ∃ schedule,
            schedulingStrategies mlfq 20 initialProcesses defaultSettings = Ret schedule)
    by (vm_compute; eexists; reflexivity).
  destruct Hrun as [schedule Hrun]. exists schedule. split; [exact Hrun|].
  exact (schedule_respects_arrival_and_burst mlfq 20 initialProcesses defaultSettings
           schedule Hwf Hexact Hrun).
Defined.

End ProcessSchedulingTimes.
